(** * Leveled compaction core of badger: level handler and levels controller

    A shallow embedding of [level_handler.go] and of the levels controller
    that follows it in the same source file, with the properties of the
    specification proved (or refuted) on the embedding.

    Conventions.
    - Go [int] and [int64] values are [Z]; [int64] arithmetic that the source
      performs with [+=] and [-=] is wrapped with [wrap64].
    - A slice is a [list]; [len] is [length]; indices produced by
      [sort.Search] are [nat].
    - A failed [y.Assert] (or a Go run-time panic) is [None]; normal return is
      [Some].
    - A [*table.Table] is identified by its file id; reference counts live in
      a store [gmap N Z] that every operation threads explicitly. *)

From Stdlib Require Import ZArith List Lia Bool Permutation.
From Stdlib Require Import Strings.Byte.
From Stdlib Require Import Floats.SpecFloat.
From stdpp Require Import base option list gmap sorting.

Local Open Scope Z_scope.

(** ** Go standard library: package [sort] *)

Module sort.

(** [sort.Search]: the loop [for i < j { h := int(uint(i+j) >> 1); if !f(h)
    { i = h + 1 } else { j = h } }].  The interval [j - i] shrinks at every
    turn, so [j - i] turns of fuel are exactly enough. *)
Fixpoint search_loop (fuel : nat) (f : nat → bool) (i j : nat) : nat :=
  match fuel with
  | O => i
  | S fuel' =>
      if (i <? j)%nat then
        let h := Nat.div2 (i + j) in
        if negb (f h) then search_loop fuel' f (h + 1)%nat j
        else search_loop fuel' f i h
      else i
  end.

Definition Search (n : nat) (f : nat → bool) : nat := search_loop n f 0%nat n.

(** The closure [func(i int) bool { return p(l[i]) }] that the source hands
    to [sort.Search] for a slice [l].  [sort.Search] only calls it on
    indices below [len(l)]; the value chosen here for other indices is never
    used. *)
Definition at_index {A} (p : A → bool) (l : list A) (i : nat) : bool :=
  match l !! i with
  | Some x => p x
  | None => false
  end.

(** What a left-to-right scan finds: the position of the first element that
    satisfies [p], or [length l] when there is none.  Not in the source: the
    binary searches are compared with it. *)
Fixpoint first_index {A} (p : A → bool) (l : list A) : nat :=
  match l with
  | [] => 0
  | x :: r => if p x then 0 else S (first_index p r)
  end.

(** [R] holds between every element of [l] and the next one. *)
Fixpoint adjacent {A} (R : A → A → Prop) (l : list A) : Prop :=
  match l with
  | a :: (b :: _) as rest => R a b ∧ adjacent R rest
  | _ => True
  end.

(** [p] never goes back from true to false along [l]. *)
Definition monotone_on {A} (p : A → bool) (l : list A) : Prop :=
  ∀ i j x y, (i ≤ j)%nat → l !! i = Some x → l !! j = Some y → p x = true → p y = true.

(** [insertionSort]: [for i := a+1; i < b; i++ { for j := i; j > a &&
    less(j, j-1); j-- { swap(j, j-1) } }].  [sift] is the inner loop: the
    prefix already handled is kept reversed, so that its head is the element
    at [j-1]. *)
Fixpoint sift {A} (less : A → A → bool) (x : A) (rprefix : list A) : list A :=
  match rprefix with
  | [] => [x]
  | y :: r => if less x y then y :: sift less x r else x :: y :: r
  end.

Definition insertionSort {A} (less : A → A → bool) (l : list A) : list A :=
  rev (fold_left (λ acc x, sift less x acc) l []).

(** The pass that Go 1.12's [quickSort_func] runs before the insertion sort
    on a slice of at most 12 elements: [for i := a + 6; i < b; i++ { if
    less(i, i-6) { swap(i, i-6) } }]. *)
Definition shell_step {A} (less : A → A → bool) (l : list A) (i : nat) : list A :=
  match l !! i, l !! (i - 6)%nat with
  | Some x, Some y => if less x y then <[(i - 6)%nat := x]> (<[i := y]> l) else l
  | _, _ => l
  end.

Definition shell_pass {A} (less : A → A → bool) (l : list A) : list A :=
  fold_left (shell_step less) (seq 6 (length l - 6)) l.

(** [sort.Slice].  This is the code that the library (Go 1.12) runs on a
    slice of at most 12 elements.  On a longer slice the library first
    partitions with quicksort; what is used below of the sort on any slice (the
    result is a permutation of the input, and no element is [less] than the
    one before it when [less] is a strict weak order) is the contract of the
    library as well. *)
Definition Slice {A} (less : A → A → bool) (l : list A) : list A :=
  insertionSort less (shell_pass less l).

End sort.

(** ** Go standard library: package [bytes] *)

Module bytes.

Definition byte_lt (x y : byte) : bool := (Byte.to_N x <? Byte.to_N y)%N.

(** [bytes.Compare]: lexicographic comparison of unsigned bytes, with result
    [-1], [0] or [1]. *)
Fixpoint Compare (a b : list byte) : Z :=
  match a, b with
  | [], [] => 0
  | [], _ :: _ => -1
  | _ :: _, [] => 1
  | x :: a', y :: b' =>
      if byte_lt x y then -1
      else if byte_lt y x then 1
      else Compare a' b'
  end.

End bytes.

(** ** Keys

    Package [y] is not part of the sources at hand.  The level handler only
    ever compares keys through [y.CompareKeys], so the key type and the
    comparison are an interface here; the laws are those of the total order
    the specification describes (user key ascending, then timestamp
    descending). *)
Class KeyOrder := {
  Key : Type;
  CompareKeys : Key → Key → Z;
  CompareKeys_flip : ∀ a b, CompareKeys a b < 0 ↔ 0 < CompareKeys b a;
  CompareKeys_trans : ∀ a b c,
    CompareKeys a b ≤ 0 → CompareKeys b c ≤ 0 → CompareKeys a c ≤ 0;
}.

(** Modelled from the spec: [y.CompareKeys] on byte-string keys, which is
    missing from the sources.  A key is a byte string whose last 8 bytes hold
    the timestamp, stored so that byte order on the suffix is descending
    timestamp order; comparison is by user key (the prefix) first, then by
    the suffix. *)
Definition user_key (k : list byte) : list byte := take (length k - 8) k.
Definition ts_suffix (k : list byte) : list byte := drop (length k - 8) k.

Definition CompareKeys_bytes (k1 k2 : list byte) : Z :=
  let cmp := bytes.Compare (user_key k1) (user_key k2) in
  if negb (cmp =? 0) then cmp
  else bytes.Compare (ts_suffix k1) (ts_suffix k2).

(** ** Machine integers and floats *)

(** Two's-complement wrap-around of [int64] arithmetic. *)
Definition wrap64 (z : Z) : Z := (z + 2 ^ 63) mod 2 ^ 64 - 2 ^ 63.

(** [float64]: IEEE 754 binary64, round to nearest even. *)
Definition float64_of_int (z : Z) : spec_float := binary_normalize 53 1024 z 0 false.
Definition float64_div (x y : spec_float) : spec_float := SFdiv 53 1024 x y.
Definition float64_gt (x y : spec_float) : bool := SFltb y x.
Definition float64_is_nan (x : spec_float) : bool :=
  match x with S754_nan => true | _ => false end.

(** Go [error] values that the modelled code can produce; [None] is [nil]. *)
Variant error := ErrRemoveFile (id : N) | ErrManifestAppend.

(** Options of [db.opt] that the modelled code reads. *)
Record Options := {
  NumLevelZeroTables : Z;
  NumLevelZeroTablesStall : Z;
  MaxTableSize : Z;
}.

(** ** Tables, key ranges and reference counts *)

Section Tables.
Context {KO : KeyOrder}.

(** Modelled from the spec: [table.Table] (package [table] is missing from
    the sources): the immutable attributes [id], [smallest_key],
    [biggest_key] and [size_bytes].  The mutable [ref_count] is kept in the
    reference store, under the table's id. *)
Record Table := {
  ID : N;
  Smallest : Key;
  Biggest : Key;
  Size : Z;
}.

(** Modelled from the spec: [keyRange] (its declaration is missing from the
    sources): either the distinguished [inf] range or a pair of keys. *)
Inductive keyRange :=
| infRange
| mkRange (left right : Key).

(** Modelled from the spec: [keyRange.overlapsWith]: [inf] overlaps
    everything; otherwise [a.left ≤ b.right && b.left ≤ a.right]. *)
Definition keyRange_overlapsWith (r dst : keyRange) : bool :=
  match r, dst with
  | infRange, _ | _, infRange => true
  | mkRange l1 r1, mkRange l2 r2 =>
      (CompareKeys l1 r2 <=? 0) && (CompareKeys l2 r1 <=? 0)
  end.

(** True when removing the file of the table with the given id succeeds. *)
Variable remove_file : N → bool.

Definition ref_count (w : gmap N Z) (t : Table) : Z := default 0 (w !! ID t).

(** Modelled from the spec: [incr_ref] and [decr_ref] ("deletes file at
    zero"); the deletion is the only way [DecrRef] can fail. *)
Definition IncrRef (t : Table) (w : gmap N Z) : gmap N Z :=
  <[ID t := ref_count w t + 1]> w.

Definition DecrRef (t : Table) (w : gmap N Z) : option error * gmap N Z :=
  let newRef := ref_count w t - 1 in
  (if (newRef =? 0) && negb (remove_file (ID t)) then Some (ErrRemoveFile (ID t)) else None,
   <[ID t := newRef]> w).

(** [decrRefs]: stops at the first error.  (No entry of the slices it is
    called on is [nil].) *)
Fixpoint decrRefs (tables : list Table) (w : gmap N Z) : option error * gmap N Z :=
  match tables with
  | [] => (None, w)
  | t :: rest =>
      match DecrRef t w with
      | (Some err, w') => (Some err, w')
      | (None, w') => decrRefs rest w'
      end
  end.

(** [assertTablesOrder]: [true] when none of the four assertions fails, for
    [i] from [0] to [len(tables) - 2]. *)
Fixpoint assertTablesOrder (tables : list Table) : bool :=
  match tables with
  | t :: (t' :: _) as rest =>
      (CompareKeys (Smallest t) (Biggest t) <=? 0)
      && (CompareKeys (Smallest t) (Smallest t') <? 0)
      && (CompareKeys (Biggest t) (Biggest t') <? 0)
      && (CompareKeys (Biggest t) (Smallest t') <? 0)
      && assertTablesOrder rest
  | _ => true
  end.

(** [getTablesInRange]. *)
Definition getTablesInRange (tbls : list Table) (start end_ : Key) : nat * nat :=
  let left_ := sort.Search (length tbls)
    (sort.at_index (λ t, CompareKeys start (Biggest t) <=? 0) tbls) in
  let right_ := sort.Search (length tbls)
    (sort.at_index (λ t, CompareKeys end_ (Smallest t) <? 0) tbls) in
  (left_, right_).

(** ** The level handler *)

Record levelHandler := {
  tables : list Table;
  totalSize : Z;
  level : Z;
  maxTotalSize : Z;
}.

Definition newLevelHandler (lvl : Z) : levelHandler :=
  {| tables := []; totalSize := 0; level := lvl; maxTotalSize := 0 |}.

Definition getTotalSize (s : levelHandler) : Z := totalSize s.
Definition numTables (s : levelHandler) : Z := Z.of_nat (length (tables s)).

(** [initTables]. *)
Definition initTables (s : levelHandler) (tbls : list Table) : levelHandler :=
  let total := fold_left (λ acc t, wrap64 (acc + Size t)) tbls 0 in
  let sorted :=
    if level s =? 0 then sort.Slice (λ a b, (ID a <? ID b)%N) tbls
    else sort.Slice (λ a b, CompareKeys (Smallest a) (Smallest b) <? 0) tbls in
  {| tables := sorted; totalSize := total;
     level := level s; maxTotalSize := maxTotalSize s |}.

(** [deleteTables]: the loop over [s.tables], with the new slice and the
    running total as accumulators. *)
Definition deleteTables_loop (toDelMap : gset N) (tbls : list Table) (total : Z)
  : list Table * Z :=
  fold_left (λ '(newTables, total) t,
    if bool_decide (ID t ∈ toDelMap) then (newTables, wrap64 (total - Size t))
    else (newTables ++ [t], total)) tbls ([], total).

Definition deleteTables (s : levelHandler) (toDel : list Table) (w : gmap N Z)
  : option (option error * levelHandler * gmap N Z) :=
  let toDelMap : gset N := list_to_set (ID <$> toDel) in
  let '(newTables, total) := deleteTables_loop toDelMap (tables s) (totalSize s) in
  if negb (level s =? 0) && negb (assertTablesOrder newTables) then None
  else
    let s' := {| tables := newTables; totalSize := total;
                 level := level s; maxTotalSize := maxTotalSize s |} in
    let '(err, w') := decrRefs toDel w in
    Some (err, s', w').

Definition overlappingTables (s : levelHandler) (kr_left kr_right : Key) : nat * nat :=
  getTablesInRange (tables s) kr_left kr_right.

(** [replaceTables].  [make([]*table.Table, right-left)] panics when
    [right < left]. *)
Definition replaceTables (s : levelHandler) (newTables : list Table) (w : gmap N Z)
  : option (option error * levelHandler * gmap N Z) :=
  match newTables with
  | [] => Some (None, s, w)
  | first :: _ =>
      if negb (assertTablesOrder newTables) then None
      else
        let '(total, w1) :=
          fold_left (λ '(total, w) tbl, (wrap64 (total + Size tbl), IncrRef tbl w))
                    newTables (totalSize s, w) in
        let kr_left := Smallest first in
        let kr_right := Biggest (List.last newTables first) in
        let '(left_, right_) := overlappingTables s kr_left kr_right in
        if (right_ <? left_)%nat then None
        else
          let toDecr := take (right_ - left_) (drop left_ (tables s)) in
          let total' := fold_left (λ total tbl, wrap64 (total - Size tbl)) toDecr total in
          let tables' := take left_ (tables s) ++ newTables ++ drop right_ (tables s) in
          if negb (assertTablesOrder tables') then None
          else
            let s' := {| tables := tables'; totalSize := total';
                         level := level s; maxTotalSize := maxTotalSize s |} in
            let '(err, w2) := decrRefs toDecr w1 in
            Some (err, s', w2)
  end.

(** [tryAddLevel0Table]. *)
Definition tryAddLevel0Table (opt : Options) (s : levelHandler) (t : Table) (w : gmap N Z)
  : option (bool * levelHandler * gmap N Z) :=
  if negb (level s =? 0) then None
  else if Z.of_nat (length (tables s)) >=? NumLevelZeroTablesStall opt then Some (false, s, w)
  else
    Some (true,
          {| tables := tables s ++ [t]; totalSize := wrap64 (totalSize s + Size t);
             level := level s; maxTotalSize := maxTotalSize s |},
          IncrRef t w).

(** [refLevel0Tables]: the tables from the last to the first, each with its
    reference count incremented. *)
Definition refLevel0Tables (s : levelHandler) (w : gmap N Z) : list Table * gmap N Z :=
  fold_left (λ '(out, w) t, (out ++ [t], IncrRef t w)) (rev (tables s)) ([], w).

(** [refLevelNTable]: [None] is the [nil] table. *)
Definition refLevelNTable (s : levelHandler) (key : Key) (w : gmap N Z)
  : option Table * gmap N Z :=
  let idx := sort.Search (length (tables s))
    (sort.at_index (λ t, CompareKeys (Biggest t) key >=? 0) (tables s)) in
  match tables s !! idx with
  | None => (None, w)
  | Some tbl => (Some tbl, IncrRef tbl w)
  end.

(** [refTablesForKey]. *)
Definition refTablesForKey (s : levelHandler) (key : Key) (w : gmap N Z)
  : list Table * gmap N Z :=
  if level s =? 0 then refLevel0Tables s w
  else
    match refLevelNTable s key w with
    | (None, w') => ([], w')
    | (Some tbl, w') => ([tbl], w')
    end.

(** [isCompactable]. *)
Definition isCompactable (l : levelHandler) (deltaSize : Z) : bool :=
  getTotalSize l >=? wrap64 (maxTotalSize l + deltaSize).

End Tables.

(** ** Compaction status, priorities and the levels controller *)

Section Controller.
Context {KO : KeyOrder}.

(** Modelled from the spec: [compactStatus] (its declaration is missing from
    the sources): for each level, the key ranges reserved by running
    compactions and a [delta_size] aggregate. *)
Record levelCompactStatus := {
  ranges : list keyRange;
  delSize : Z;
}.

Record compactStatus := {
  cs_levels : list levelCompactStatus;
}.

(** Modelled from the spec: [overlaps_with(level, kr)]: true iff any range
    reserved at [level] overlaps [kr].  [None] is the index-out-of-range
    panic. *)
Definition overlapsWith (cs : compactStatus) (lvl : nat) (this : keyRange) : option bool :=
  l ← cs_levels cs !! lvl;
  Some (existsb (λ r, keyRange_overlapsWith r this) (ranges l)).

(** Modelled from the spec: [delta_size(level)]. *)
Definition deltaSize (cs : compactStatus) (lvl : nat) : option Z :=
  l ← cs_levels cs !! lvl;
  Some (delSize l).

(** The fields of [levelsController] that the modelled code reads; [opt]
    stands for [kv.opt]. *)
Record levelsController := {
  levels : list levelHandler;
  cstatus : compactStatus;
  opt : Options;
}.

Record compactionPriority := {
  cp_level : Z;
  cp_score : spec_float;
}.

(** [isL0Compactable]. *)
Definition isL0Compactable (lc : levelsController) : option bool :=
  l0 ← levels lc !! 0%nat;
  Some (numTables l0 >=? NumLevelZeroTables (opt lc)).

(** The body of the loop of [pickCompactLevels] over the levels from 1. *)
Definition pickCompactLevels_body (lc : levelsController)
    (acc : option (list compactionPriority)) (levelNum : nat)
  : option (list compactionPriority) :=
  prios ← acc;
  deltaSize ← deltaSize (cstatus lc) levelNum;
  l ← levels lc !! levelNum;
  if isCompactable l deltaSize then
    Some (prios ++ [{| cp_level := Z.of_nat levelNum;
                       cp_score := float64_div (float64_of_int (wrap64 (getTotalSize l - deltaSize)))
                                               (float64_of_int (maxTotalSize l)) |}])
  else Some prios.

(** The priorities of [pickCompactLevels] before they are sorted. *)
Definition pickCompactLevels_unsorted (lc : levelsController)
  : option (list compactionPriority) :=
  overlaps ← overlapsWith (cstatus lc) 0 infRange;
  prios0 ←
    (if negb overlaps then
       compactable ← isL0Compactable lc;
       l0 ← levels lc !! 0%nat;
       Some (if compactable : bool then
               [{| cp_level := 0;
                   cp_score := float64_div (float64_of_int (numTables l0))
                                           (float64_of_int (NumLevelZeroTables (opt lc))) |}]
             else [])
     else Some []);
  fold_left (pickCompactLevels_body lc) (seq 1 (length (levels lc) - 1)) (Some prios0).

(** [pickCompactLevels]. *)
Definition pickCompactLevels (lc : levelsController) : option (list compactionPriority) :=
  prios ← pickCompactLevels_unsorted lc;
  Some (sort.Slice (λ a b, float64_gt (cp_score a) (cp_score b)) prios).

Definition keyRange_is_inf (r : keyRange) : bool :=
  match r with infRange => true | mkRange _ _ => false end.

(** The priorities as the specification words them, to be compared with
    [pickCompactLevels]: for level 0, "if L0 has no in-flight [inf]
    reservation and [num_tables ≥ num_l0_compact_trigger], emit [{level: 0,
    score: num_tables / num_l0_compact_trigger}]"; for each level [L ≥ 1],
    with [d] the delta size of [L], "if [total_size ≥ max_total_size + d],
    emit [{level: L, score: (total_size - d) / max_total_size}]". *)
Definition planned_level0 (lc : levelsController) : list compactionPriority :=
  match levels lc !! 0%nat, cs_levels (cstatus lc) !! 0%nat with
  | Some l0, Some c0 =>
      if negb (existsb keyRange_is_inf (ranges c0))
         && (numTables l0 >=? NumLevelZeroTables (opt lc))
      then [{| cp_level := 0;
               cp_score := float64_div (float64_of_int (numTables l0))
                                       (float64_of_int (NumLevelZeroTables (opt lc))) |}]
      else []
  | _, _ => []
  end.

Definition planned_levelN (lc : levelsController) (L : nat) : list compactionPriority :=
  match levels lc !! L, cs_levels (cstatus lc) !! L with
  | Some l, Some c =>
      let d := delSize c in
      if totalSize l >=? wrap64 (maxTotalSize l + d)
      then [{| cp_level := Z.of_nat L;
               cp_score := float64_div (float64_of_int (wrap64 (totalSize l - d)))
                                       (float64_of_int (maxTotalSize l)) |}]
      else []
  | _, _ => []
  end.

Definition planned_priorities (lc : levelsController) : list compactionPriority :=
  planned_level0 lc ++ flat_map (planned_levelN lc) (seq 1 (length (levels lc) - 1)).

(** The divisors of the scores are non-zero [int64] values: the level-0
    trigger, and the maximal total size of every level from 1. *)
Definition nonzero_divisors (lc : levelsController) : Prop :=
  (NumLevelZeroTables (opt lc) ≠ 0
   ∧ - 2 ^ 63 ≤ NumLevelZeroTables (opt lc) < 2 ^ 63)
  ∧ ∀ L l, (1 ≤ L)%nat → levels lc !! L = Some l →
      maxTotalSize l ≠ 0 ∧ - 2 ^ 63 ≤ maxTotalSize l < 2 ^ 63.

(** Descending order of score: no priority is followed, at any distance, by
    one with a greater score. *)
Definition sorted_by_score_desc (prios : list compactionPriority) : Prop :=
  ∀ i j a b, (i < j)%nat → prios !! i = Some a → prios !! j = Some b →
    SFleb (cp_score b) (cp_score a) = true.

(** ** The manifest change set *)

(** Modelled from the spec: the manifest changes, "tagged unions
    [{Create{id, level}, Delete{id}, MoveDown{id, level}}]", built by
    [makeTableCreateChange], [makeTableDeleteChange] and
    [makeTableMoveDownChange], which are missing from the sources. *)
Variant ManifestChange :=
| Create (id : N) (lvl : Z)
| Delete (id : N)
| MoveDown (id : N) (lvl : Z).

Definition makeTableCreateChange (id : N) (lvl : Z) : ManifestChange := Create id lvl.
Definition makeTableDeleteChange (id : N) : ManifestChange := Delete id.
Definition makeTableMoveDownChange (id : N) (lvl : Z) : ManifestChange := MoveDown id lvl.

Record compactDef := {
  thisLevel : levelHandler;
  nextLevel : levelHandler;
  top : list Table;
  bot : list Table;
  thisRange : keyRange;
  nextRange : keyRange;
  thisSize : Z;
}.

(** [buildChangeSet]: every loop appends to [changes]. *)
Definition buildChangeSet (cd : compactDef) (newTables : list Table) (moveDown : bool)
  : list ManifestChange :=
  let changes := [] in
  if moveDown then
    fold_left (λ changes table,
      changes ++ [makeTableMoveDownChange (ID table) (level (nextLevel cd))]) newTables changes
  else
    let changes := fold_left (λ changes table,
      changes ++ [makeTableCreateChange (ID table) (level (nextLevel cd))]) newTables changes in
    let changes := fold_left (λ changes table,
      changes ++ [makeTableDeleteChange (ID table)]) (top cd) changes in
    fold_left (λ changes table,
      changes ++ [makeTableDeleteChange (ID table)]) (bot cd) changes.

(** ** Admission of a level-0 table *)

(** Where the goroutine running [addLevel0Table] stands: about to call
    [tryAddLevel0Table], inside the wait loop, or returned. *)
Variant addL0_pc :=
| AddTry
| AddWait
| AddDone (err : option error).

(** The result of [manifest.addChanges], an external call. *)
Variable addChanges : list ManifestChange → option error.

(** The start of [addLevel0Table]: the manifest append. *)
Definition addLevel0Table_start (t : Table) : addL0_pc :=
  match addChanges [makeTableCreateChange (ID t) 0] with
  | Some err => AddDone (Some err)
  | None => AddTry
  end.

(** The test of the wait loop, [!lc.isL0Compactable() &&
    !lc.levels[1].isCompactable(0)], on the shared state as it is when the
    test runs. *)
Definition unstall_test (lc : levelsController) : option bool :=
  l0c ← isL0Compactable lc;
  if negb l0c then
    l1 ← levels lc !! 1%nat;
    Some (negb (isCompactable l1 0))
  else Some false.

(** Level 0 has reached the compaction trigger, or level 1 has reached its
    maximal total size ([maxTotalSize] being an [int64]). *)
Definition needs_compaction (lc : levelsController) : Prop :=
  ∃ l0 l1, levels lc !! 0%nat = Some l0 ∧ levels lc !! 1%nat = Some l1
    ∧ - 2 ^ 63 ≤ maxTotalSize l1 < 2 ^ 63
    ∧ (NumLevelZeroTables (opt lc) ≤ numTables l0 ∨ maxTotalSize l1 ≤ totalSize l1).

(** One turn of [addLevel0Table] after the manifest append, on the shared
    state [lc] and the reference store [w] as the other goroutines have left
    them: either a call of [tryAddLevel0Table] or one test of the wait loop
    (followed by a sleep when it fails). *)
Definition addLevel0Table_step (t : Table) (pc : addL0_pc)
    (lc : levelsController) (w : gmap N Z)
  : option (addL0_pc * levelsController * gmap N Z) :=
  match pc with
  | AddTry =>
      l0 ← levels lc !! 0%nat;
      '(ok, l0', w') ← tryAddLevel0Table (opt lc) l0 t w;
      Some (if ok : bool then AddDone None else AddWait,
            {| levels := <[0%nat := l0']> (levels lc); cstatus := cstatus lc; opt := opt lc |},
            w')
  | AddWait =>
      healthy ← unstall_test lc;
      Some (if healthy : bool then AddTry else AddWait, lc, w)
  | AddDone err => Some (AddDone err, lc, w)
  end.

(** A run of [addLevel0Table] against a schedule: the list of the shared
    states that the goroutine finds at its successive turns (the other
    goroutines may change the levels in any way between two turns).  The
    result is where the goroutine stands after the schedule. *)
Fixpoint addLevel0Table_run (t : Table) (pc : addL0_pc)
    (sched : list (levelsController * gmap N Z)) : option addL0_pc :=
  match sched with
  | [] => Some pc
  | (lc, w) :: sched' =>
      '(pc', _, _) ← addLevel0Table_step t pc lc w;
      addLevel0Table_run t pc' sched'
  end.

End Controller.

(** ** Output file cut-over in the compaction executor *)

Section Executor.

(** [table.Builder] and its [ReachedCapacity] are external. *)
Variable Builder : Type.
Variable ReachedCapacity : Builder → Z → bool.

(** [searchGuard].  A [nil] slice is the empty list: neither function here
    tests a slice against [nil]. *)
Definition searchGuard (key : list byte) (guards : list (list byte)) : list byte :=
  let idx := sort.Search (length guards)
    (sort.at_index (λ g, bytes.Compare key g <? 0) guards) in
  if (idx <? length guards)%nat && (0 <=? idx)%nat then default [] (guards !! idx)
  else [].

(** The contract of [CompactionFilter.Guards]: the guards come sorted. *)
Fixpoint guards_sorted (guards : list (list byte)) : bool :=
  match guards with
  | g :: (g' :: _) as rest => (bytes.Compare g g' <=? 0) && guards_sorted rest
  | _ => true
  end.

(** [shouldFinishFile]. *)
Definition shouldFinishFile (key guard : list byte) (builder : Builder) (maxSize : Z) : bool :=
  if (Z.of_nat (length guard) >? 0) && (bytes.Compare key guard >? 0) then true
  else if ReachedCapacity builder maxSize then true
  else false.

End Executor.

(** ** Invariants of the data model, and histories of a handler *)

Section Invariants.
Context {KO : KeyOrder}.
Variable remove_file : N → bool.

(** The sum of [size_bytes] over a table list, as a mathematical integer. *)
Definition sum_sizes (tbls : list Table) : Z := foldr (λ t acc, Size t + acc) 0 tbls.

(** Size accounting: [totalSize] is the sum of the sizes, as an [int64]. *)
Definition size_accounted (s : levelHandler) : Prop :=
  totalSize s = wrap64 (sum_sizes (tables s)).

(** Every table has [smallest_key ≤ biggest_key]. *)
Definition table_wf (t : Table) : bool := CompareKeys (Smallest t) (Biggest t) <=? 0.

(** The ordering invariant of a level ≥ 1: [tables[i].biggest_key <
    tables[i+1].smallest_key] for every adjacent pair. *)
Fixpoint tables_ordered (tbls : list Table) : bool :=
  match tbls with
  | a :: (b :: _) as rest =>
      (CompareKeys (Biggest a) (Smallest b) <? 0) && tables_ordered rest
  | _ => true
  end.

(** The sorted non-overlapping invariant of the table list of a level ≥ 1. *)
Definition level_inv (tbls : list Table) : bool :=
  forallb table_wf tbls && tables_ordered tbls.

(** [a] lies wholly before [b]: both are well formed and [a.biggest_key <
    b.smallest_key]. *)
Definition before (a b : Table) : Prop :=
  table_wf a = true ∧ CompareKeys (Biggest a) (Smallest b) < 0 ∧ table_wf b = true.

(** The key range [[smallest_key, biggest_key]] of [t] contains [k]. *)
Definition table_contains (t : Table) (k : Key) : bool :=
  (CompareKeys (Smallest t) k <=? 0) && (CompareKeys k (Biggest t) <=? 0).

(** The tables whose key range contains [k]. *)
Definition containing_tables (tbls : list Table) (k : Key) : list Table :=
  List.filter (λ t, table_contains t k) tbls.

(** The key range of [t] intersects [[kr_left, kr_right]]. *)
Definition table_overlaps (kr_left kr_right : Key) (t : Table) : bool :=
  (CompareKeys kr_left (Biggest t) <=? 0) && (CompareKeys (Smallest t) kr_right <=? 0).

(** The end of [runCompactDef], once the change set is in the manifest:
    [nextLevel.replaceTables(newTables)], then [thisLevel.deleteTables(cd.top)];
    the first error is returned.  The result holds the error, then this
    level and the next level as they are left. *)
Definition runCompactDef_install (cd : compactDef) (newTables : list Table) (w : gmap N Z)
  : option (option error * levelHandler * levelHandler * gmap N Z) :=
  '(err, next', w1) ← replaceTables remove_file (nextLevel cd) newTables w;
  match err with
  | Some e => Some (Some e, thisLevel cd, next', w1)
  | None =>
      '(err', this', w2) ← deleteTables remove_file (thisLevel cd) (top cd) w1;
      Some (err', this', next', w2)
  end.

(** One mutation of the table set of a handler.  A mutation that returns an
    error of [decrRefs] has changed the handler all the same. *)
Inductive mutation (opt : Options) : levelHandler → levelHandler → Prop :=
| mut_initTables s tbls :
    mutation opt s (initTables s tbls)
| mut_tryAddLevel0Table s t w s' w' :
    tryAddLevel0Table opt s t w = Some (true, s', w') →
    mutation opt s s'
| mut_replaceTables s newTables w err s' w' :
    replaceTables remove_file s newTables w = Some (err, s', w') →
    mutation opt s s'
| mut_deleteTables s toDel w err s' w' :
    deleteTables remove_file s toDel w = Some (err, s', w') →
    mutation opt s s'.

(** The handlers that [newLevelHandler] and the mutations produce. *)
Inductive reachable (opt : Options) (lvl : Z) : levelHandler → Prop :=
| reach_new : reachable opt lvl (newLevelHandler lvl)
| reach_mutation s s' :
    reachable opt lvl s → mutation opt s s' → reachable opt lvl s'.

(** A history of [replaceTables] and [deleteTables] calls on one handler. *)
Variant handler_op :=
| OpReplace (newTables : list Table)
| OpDelete (toDel : list Table).

Definition run_op (s : levelHandler) (w : gmap N Z) (op : handler_op)
  : option (levelHandler * gmap N Z) :=
  match op with
  | OpReplace newTables =>
      '(_, s', w') ← replaceTables remove_file s newTables w; Some (s', w')
  | OpDelete toDel =>
      '(_, s', w') ← deleteTables remove_file s toDel w; Some (s', w')
  end.

Fixpoint run_ops (s : levelHandler) (w : gmap N Z) (ops : list handler_op)
  : option (levelHandler * gmap N Z) :=
  match ops with
  | [] => Some (s, w)
  | op :: ops' => '(s', w') ← run_op s w op; run_ops s' w' ops'
  end.

(** The inputs of [replaceTables] in a history are strictly ordered tables. *)
Definition op_ordered (op : handler_op) : bool :=
  match op with
  | OpReplace newTables => assertTablesOrder newTables && forallb table_wf newTables
  | OpDelete _ => true
  end.

End Invariants.

(** ** Releasing references *)

Section Release.
Context {KO : KeyOrder}.
Variable remove_file : N → bool.

(** [forceDecrRefs]: the panic on an error of [decrRefs] is [None]. *)
Definition forceDecrRefs (tables : list Table) (w : gmap N Z) : option (gmap N Z) :=
  match decrRefs remove_file tables w with
  | (Some _, _) => None
  | (None, w') => Some w'
  end.

(** The entries of a slice of table pointers that are not [nil], in order:
    what the loop of [decrRefs] goes through once it has skipped the [nil]
    entries. *)
Definition non_nil (tables : list (option Table)) : list Table := omap id tables.

(** How often a table with the id [id] occurs in a list. *)
Definition occurrences (id : N) (tables : list Table) : Z :=
  Z.of_nat (length (List.filter (λ t, (ID t =? id)%N) tables)).

End Release.

(** ** Point reads through a level *)

(** Modelled from the spec: [y.ValueStruct] (package [y] is missing from the
    sources), with the fields that the code at hand reads and writes.  Its
    zero value is the "empty value struct". *)
Record ValueStruct := {
  Meta : Z;
  UserMeta : list byte;
  Value : list byte;
  Version : N;
}.

Definition ValueStruct_zero : ValueStruct :=
  {| Meta := 0; UserMeta := []; Value := []; Version := 0%N |}.

(** The helpers of package [y] on keys, which is not in the sources at hand:
    an interface here.  [KeyBytes] is the byte string that a key is, for the
    comparisons made with [bytes.Compare]. *)
Class KeyCodec `{KO : KeyOrder} := {
  UserKey : Type;
  ParseKey : Key → UserKey;
  ParseTs : Key → N;
  KeyWithTs : UserKey → N → Key;
  SameKey : Key → Key → bool;
  KeyBytes : Key → list byte;
}.

(** The read interface of [table.Table] and the validity test of
    [y.ValueStruct], which are not in the sources at hand either.
    [PointGet] returns the key found (possibly [nil]), the value and the
    [ok] flag.  [Seek] is [it := table.NewIteratorNoRef(false);
    it.Seek(key)] followed by [it.Key(), it.Value()], and [None] when the
    iterator is not valid after the seek. *)
Class TableReader `{KC : KeyCodec} := {
  Valid : ValueStruct → bool;
  DoesNotHave : Table → UserKey → bool;
  PointGet : Table → Key → option Key * ValueStruct * bool;
  Seek : Table → Key → option (Key * ValueStruct);
}.

Section Reads.
Context `{TR : TableReader}.
Variable remove_file : N → bool.

(** Modelled from the spec: [keyValuePair] (its declaration is missing from
    the sources): a key, the value found for it, and the [found] flag. *)
Record keyValuePair := {
  key : Key;
  val : ValueStruct;
  found : bool;
}.

(** [getInTable]: [result] is the zero value until it is assigned. *)
Definition getInTable (k : Key) (table : Table) : ValueStruct :=
  let result := ValueStruct_zero in
  if DoesNotHave table (ParseKey k) then result
  else
    let '(resultKey, resultVs, ok) := PointGet table k in
    if negb ok then
      match Seek table k with
      | None => result
      | Some (itKey, itValue) =>
          if negb (SameKey k itKey) then result
          else {| Meta := Meta itValue; UserMeta := UserMeta itValue;
                  Value := Value itValue; Version := ParseTs itKey |}
      end
    else
      match resultKey with
      | None => result
      | Some resultKey =>
          {| Meta := Meta resultVs; UserMeta := UserMeta resultVs;
             Value := Value resultVs; Version := ParseTs resultKey |}
      end.

(** [getInTables]. *)
Fixpoint getInTables (k : Key) (tables : list Table) : ValueStruct :=
  match tables with
  | [] => ValueStruct_zero
  | table :: rest =>
      let result := getInTable k table in
      if Valid result then result else getInTables k rest
  end.

(** [levelHandler.get]: the deferred [forceDecrRefs] runs once the result
    is computed. *)
Definition levelHandler_get (s : levelHandler) (k : Key) (w : gmap N Z)
  : option (ValueStruct * gmap N Z) :=
  let '(tables, w1) := refTablesForKey s k w in
  let result := getInTables k tables in
  w2 ← forceDecrRefs remove_file tables w1;
  Some (result, w2).

(** [refTablesForKeys]: at a level ≥ 1 the entry for a pair may be [nil]. *)
Definition refTablesForKeys (s : levelHandler) (pairs : list keyValuePair) (w : gmap N Z)
  : list (option Table) * gmap N Z :=
  if level s =? 0 then
    let '(out, w') := refLevel0Tables s w in (Some <$> out, w')
  else
    fold_left (λ '(out, w) kv,
      let '(tbl, w') := refLevelNTable s (key kv) w in (out ++ [tbl], w'))
      pairs ([], w).

(** The end of the bodies of both loops of [multiGet]: the lookup of the
    key of a pair in a table, recorded in the pair when it is valid. *)
Definition multiGet_probe (table : Table) (kv : keyValuePair) : keyValuePair :=
  let v := getInTable (key kv) table in
  if Valid v then {| key := key kv; val := v; found := true |} else kv.

(** The body of the inner loop of [multiGetLevel0]. *)
Definition multiGetLevel0_pair (table : Table) (kv : keyValuePair) : keyValuePair :=
  if found kv then kv
  else if (bytes.Compare (KeyBytes (key kv)) (KeyBytes (Smallest table)) <? 0)
          || (bytes.Compare (KeyBytes (key kv)) (KeyBytes (Biggest table)) >? 0)
       then kv
  else multiGet_probe table kv.

(** [multiGetLevel0].  The inner loop changes [pairs[i]] only at its turn
    [i]; a [nil] table is dereferenced as soon as a pair is not found. *)
Definition multiGetLevel0 (pairs : list keyValuePair) (tables : list (option Table))
  : option (list keyValuePair) :=
  fold_left (λ acc table,
    pairs ← acc;
    match table with
    | Some table => Some (multiGetLevel0_pair table <$> pairs)
    | None => if forallb found pairs then Some pairs else None
    end) tables (Some pairs).

(** [multiGetLevelN]: the pair at index [i] goes with [tables[i]]; the
    index expression panics when [tables] is too short. *)
Fixpoint multiGetLevelN (pairs : list keyValuePair) (tables : list (option Table))
  : option (list keyValuePair) :=
  match pairs with
  | [] => Some []
  | kv :: pairs' =>
      if found kv then (kv ::.) <$> multiGetLevelN pairs' (tail tables)
      else
        match tables with
        | [] => None
        | None :: tables' => (kv ::.) <$> multiGetLevelN pairs' tables'
        | Some table :: tables' =>
            (multiGet_probe table kv ::.) <$> multiGetLevelN pairs' tables'
        end
  end.

(** [levelHandler.multiGet]. *)
Definition levelHandler_multiGet (s : levelHandler) (pairs : list keyValuePair)
    (w : gmap N Z) : option (list keyValuePair * gmap N Z) :=
  let '(tables, w1) := refTablesForKeys s pairs w in
  pairs' ← (if level s =? 0 then multiGetLevel0 pairs tables
            else multiGetLevelN pairs tables);
  w2 ← forceDecrRefs remove_file (non_nil tables) w1;
  Some (pairs', w2).

(** [levelsController.get], on the handlers of the controller. *)
Fixpoint levelsController_get (hs : list levelHandler) (k : Key) (w : gmap N Z)
  : option (ValueStruct * gmap N Z) :=
  match hs with
  | [] => Some (ValueStruct_zero, w)
  | h :: rest =>
      '(vs, w') ← levelHandler_get h k w;
      if Valid vs then Some (vs, w') else levelsController_get rest k w'
  end.

(** [levelsController.multiGet], on the handlers of the controller. *)
Fixpoint levelsController_multiGet (hs : list levelHandler) (pairs : list keyValuePair)
    (w : gmap N Z) : option (list keyValuePair * gmap N Z) :=
  match hs with
  | [] => Some (pairs, w)
  | h :: rest =>
      '(pairs', w') ← levelHandler_multiGet h pairs w;
      levelsController_multiGet rest pairs' w'
  end.

(** The value that a point read finds in a level: the lookup in the tables
    that [refTablesForKey] returns (they do not depend on the reference
    store). *)
Definition level_lookup (s : levelHandler) (k : Key) : ValueStruct :=
  getInTables k (refTablesForKey s k ∅).1.

(** The bytes of [k] lie between those of the bounds of the table: the
    negation of the test that makes [multiGetLevel0] skip a table. *)
Definition within_bounds (table : Table) (k : Key) : bool :=
  (0 <=? bytes.Compare (KeyBytes k) (KeyBytes (Smallest table)))
  && (bytes.Compare (KeyBytes k) (KeyBytes (Biggest table)) <=? 0).

(** What a multiple read at one level comes to for one pair.  A pair
    already found is left alone.  Otherwise the table consulted is, at level
    0, the newest table within whose bounds the key lies and whose lookup is
    valid; at a level ≥ 1, the table that [refLevelNTable] gives for the
    key, when its lookup is valid.  The lookup in that table is recorded in
    the pair. *)
Definition multiGet_one (s : levelHandler) (kv : keyValuePair) : keyValuePair :=
  if found kv then kv
  else
    let consulted :=
      if level s =? 0 then
        List.find (λ t, within_bounds t (key kv) && Valid (getInTable (key kv) t))
                  (rev (tables s))
      else
        match (refLevelNTable s (key kv) ∅).1 with
        | Some t => if Valid (getInTable (key kv) t) then Some t else None
        | None => None
        end in
    match consulted with
    | Some t => {| key := key kv; val := getInTable (key kv) t; found := true |}
    | None => kv
    end.

End Reads.

(** ** Running a compaction *)

Section CompactionRun.
Context {KO : KeyOrder}.
Variable remove_file : N → bool.

(** The result of [manifest.addChanges], an external call. *)
Variable addChanges : list ManifestChange → option error.

(** Modelled from the spec: [getKeyRange] (missing from the sources), the
    union of the ranges of the tables: from the least [smallest_key] to the
    greatest [biggest_key].  What it does on an empty slice is not in the
    specification; the model has no result there. *)
Definition getKeyRange (tbls : list Table) : option (Key * Key) :=
  match tbls with
  | [] => None
  | t :: rest =>
      Some (fold_left (λ '(smallest, biggest) t',
              (if CompareKeys (Smallest t') smallest <? 0 then Smallest t' else smallest,
               if CompareKeys (Biggest t') biggest >? 0 then Biggest t' else biggest))
            rest (Smallest t, Biggest t))
  end.

(** [hasOverlapTable]: the loop over the levels from [cd.nextLevel.level +
    1]; a negative index into [lc.levels] panics. *)
Definition hasOverlapTable (lc : levelsController) (cd : compactDef) : option bool :=
  '(kr_left, kr_right) ← getKeyRange (top cd);
  let start := level (nextLevel cd) + 1 in
  if start <? 0 then None
  else
    Some (existsb (λ lh,
            let '(left_, right_) := overlappingTables lh kr_left kr_right in
            Z.of_nat right_ - Z.of_nat left_ >? 0)
          (drop (Z.to_nat start) (levels lc))).

(** [checkInvariants]: [true] when no assertion fails. *)
Definition checkInvariants (cd : compactDef) (lvl : Z) (overlap : bool) : bool :=
  if lvl >? 0 then
    assertTablesOrder (top cd) && assertTablesOrder (bot cd)
    && (length (top cd) =? 1)%nat
  else true.

(** The merge path of [compactBuildTables], from "Try to collect stats" to
    its end: it reads the tables through iterators and writes new table
    files through a builder, all of which is external.  It returns the new
    tables or an error, and the reference store as it leaves it. *)
Variable mergeTables :
  Z → compactDef → bool → gmap N Z → option (list Table * option error * gmap N Z).

(** [compactBuildTables]: the move-down fast path, and the merge path of
    which only the result is modelled.  The result holds the new tables,
    the [moveDown] flag and the error. *)
Definition compactBuildTables (lc : levelsController) (lvl : Z) (cd : compactDef)
    (w : gmap N Z) : option (list Table * bool * option error * gmap N Z) :=
  let topTables := top cd in
  let botTables := bot cd in
  hasOverlap ← hasOverlapTable lc cd;
  if negb (checkInvariants cd lvl hasOverlap) then None
  else if (lvl >? 0) && (length botTables =? 0)%nat then
    topTables0 ← topTables !! 0%nat;
    Some ([topTables0], true, None, IncrRef topTables0 w)
  else
    '(newTables, err, w') ← mergeTables lvl cd hasOverlap w;
    Some (newTables, false, err, w').

(** [runCompactDef].  [log.Fatal] on a failed manifest append ends the
    process: [None].  The deferred [forceDecrRefs(newTables)] runs on every
    return that follows it.  The result holds the error, then this level
    and the next level as they are left. *)
Definition runCompactDef (lc : levelsController) (l : Z) (cd : compactDef) (w : gmap N Z)
  : option (option error * levelHandler * levelHandler * gmap N Z) :=
  let thisLevel := thisLevel cd in
  let nextLevel := nextLevel cd in
  '(newTables, moveDown, err, w1) ← compactBuildTables lc l cd w;
  match err with
  | Some e => Some (Some e, thisLevel, nextLevel, w1)
  | None =>
      let changeSet := buildChangeSet cd newTables moveDown in
      match addChanges changeSet with
      | Some _ => None
      | None =>
          '(err, thisLevel', nextLevel', w2) ←
            runCompactDef_install remove_file cd newTables w1;
          w3 ← forceDecrRefs remove_file newTables w2;
          Some (err, thisLevel', nextLevel', w3)
      end
  end.

End CompactionRun.

(** ** Construction of the levels controller, and diagnostics *)

Section Construction.
Context {KO : KeyOrder}.

(** The body of the first loop of [newLevelsController] for the level [i],
    where [lvls] holds the handlers of the levels below [i]:
    [s.levels[i-1]] is the last of them. *)
Definition newLevelsController_level (LevelOneSize LevelSizeMultiplier : Z)
    (lvls : list levelHandler) (i : nat) : option levelHandler :=
  let h := newLevelHandler (Z.of_nat i) in
  if (i =? 0)%nat then Some h
  else if (i =? 1)%nat then
    Some {| tables := tables h; totalSize := totalSize h; level := level h;
            maxTotalSize := LevelOneSize |}
  else
    prev ← lvls !! (i - 1)%nat;
    Some {| tables := tables h; totalSize := totalSize h; level := level h;
            maxTotalSize := wrap64 (maxTotalSize prev * LevelSizeMultiplier) |}.

(** The start of [newLevelsController], up to the end of its first loop:
    the assertion on the options, the allocation of the slices ([make]
    panics on a negative length) and the loop over the levels.  The options
    [MaxLevels], [LevelOneSize] and [LevelSizeMultiplier] of [kv.opt] are
    arguments. *)
Definition newLevelsController_init (opt : Options)
    (MaxLevels LevelOneSize LevelSizeMultiplier : Z) : option levelsController :=
  if negb (NumLevelZeroTablesStall opt >? NumLevelZeroTables opt) then None
  else if MaxLevels <? 0 then None
  else
    lvls ← fold_left (λ acc i,
              lvls ← acc;
              h ← newLevelsController_level LevelOneSize LevelSizeMultiplier lvls i;
              Some (lvls ++ [h]))
            (seq 0 (Z.to_nat MaxLevels)) (Some []);
    Some {| levels := lvls;
            cstatus := {| cs_levels := replicate (Z.to_nat MaxLevels)
                                                 {| ranges := []; delSize := 0 |} |};
            opt := opt |}.

(** [TableInfo]; the fields [ID], [Level], [Left] and [Right]. *)
Record TableInfo := {
  ti_ID : N;
  ti_Level : Z;
  ti_Left : Key;
  ti_Right : Key;
}.

(** The comparison that [getTableInfo] sorts with. *)
Definition TableInfo_less (a b : TableInfo) : bool :=
  if negb (ti_Level a =? ti_Level b) then ti_Level a <? ti_Level b
  else (ti_ID a <? ti_ID b)%N.

(** [getTableInfo]. *)
Definition getTableInfo (lc : levelsController) : list TableInfo :=
  let result :=
    fold_left (λ result l,
      fold_left (λ result t,
        let info := {| ti_ID := ID t; ti_Level := level l;
                       ti_Left := Smallest t; ti_Right := Biggest t |} in
        result ++ [info]) (tables l) result) (levels lc) [] in
  sort.Slice TableInfo_less result.

End Construction.

(** ** Picking the tables of a compaction *)

Section Planner.
Context `{KC : KeyCodec}.
Variable remove_file : N → bool.
Variable addChanges : list ManifestChange → option error.
Variable mergeTables :
  Z → compactDef → bool → gmap N Z → option (list Table * option error * gmap N Z).

(** [cstatus.compareAndAdd] and [cstatus.delete] are not in the sources at
    hand.  [compareAndAdd] returns the status with the compaction added, or
    [None] where the source returns [false]. *)
Variable compareAndAdd : compactStatus → compactDef → option compactStatus.
Variable cstatus_delete : compactStatus → compactDef → compactStatus.

(** [cstatus.overlapsWith] at the level of a handler: a negative index
    panics as an index past the end does. *)
Definition overlapsWith_level (cs : compactStatus) (lvl : Z) (this : keyRange)
  : option bool :=
  if lvl <? 0 then None else overlapsWith cs (Z.to_nat lvl) this.

(** [math.MaxUint64]. *)
Definition MaxUint64 : N := (2 ^ 64 - 1)%N.

(** The copy [cd.nextLevel.tables[left:right]]; [make] panics on a negative
    length. *)
Definition tables_between (s : levelHandler) (left_ right_ : nat) : option (list Table) :=
  if (right_ <? left_)%nat then None
  else Some (take (right_ - left_) (drop left_ (tables s))).

(** [fillTablesL0].  On entry [cd] holds the two levels only; the result is
    [Some None] where the source returns [false], and the compaction
    filled in with the status that [compareAndAdd] has left where it
    returns [true]. *)
Definition fillTablesL0 (cs : compactStatus) (thisLevel nextLevel : levelHandler)
  : option (option (compactDef * compactStatus)) :=
  if (length (tables thisLevel) =? 0)%nat then Some None
  else
    let top := tables thisLevel in
    let thisRange := infRange in
    '(kr_left, kr_right) ← getKeyRange top;
    let '(left_, right_) := overlappingTables nextLevel kr_left kr_right in
    bot ← tables_between nextLevel left_ right_;
    nextRange ←
      (if (length bot =? 0)%nat then Some (mkRange kr_left kr_right)
       else '(l, r) ← getKeyRange bot; Some (mkRange l r));
    let cd := {| thisLevel := thisLevel; nextLevel := nextLevel; top := top; bot := bot;
                 thisRange := thisRange; nextRange := nextRange; thisSize := 0 |} in
    match compareAndAdd cs cd with
    | None => Some None
    | Some cs' => Some (Some (cd, cs'))
    end.

(** The body of the loop of [fillTables] for the table [t]: [Some None]
    where the source goes on with the next table ([continue]), and the
    compaction filled in where it returns [true]. *)
Definition fillTables_try (cs : compactStatus) (thisLevel nextLevel : levelHandler)
    (t : Table) : option (option (compactDef * compactStatus)) :=
  let thisSize := Size t in
  let kr_left := KeyWithTs (ParseKey (Smallest t)) MaxUint64 in
  let kr_right := KeyWithTs (ParseKey (Biggest t)) 0%N in
  let thisRange := mkRange kr_left kr_right in
  overlaps ← overlapsWith_level cs (level thisLevel) thisRange;
  if overlaps : bool then Some None
  else
    let top := [t] in
    let '(left_, right_) := overlappingTables nextLevel kr_left kr_right in
    bot ← tables_between nextLevel left_ right_;
    if (length bot =? 0)%nat then
      let cd := {| thisLevel := thisLevel; nextLevel := nextLevel; top := top; bot := [];
                   thisRange := thisRange; nextRange := thisRange; thisSize := thisSize |} in
      match compareAndAdd cs cd with
      | None => Some None
      | Some cs' => Some (Some (cd, cs'))
      end
    else
      '(l, r) ← getKeyRange bot;
      let nextRange := mkRange l r in
      overlaps ← overlapsWith_level cs (level nextLevel) nextRange;
      if overlaps : bool then Some None
      else
        let cd := {| thisLevel := thisLevel; nextLevel := nextLevel; top := top; bot := bot;
                     thisRange := thisRange; nextRange := nextRange; thisSize := thisSize |} in
        match compareAndAdd cs cd with
        | None => Some None
        | Some cs' => Some (Some (cd, cs'))
        end.

(** The loop of [fillTables] over the tables sorted by size. *)
Fixpoint fillTables_loop (cs : compactStatus) (thisLevel nextLevel : levelHandler)
    (tbls : list Table) : option (option (compactDef * compactStatus)) :=
  match tbls with
  | [] => Some None
  | t :: rest =>
      r ← fillTables_try cs thisLevel nextLevel t;
      match r with
      | Some filled => Some (Some filled)
      | None => fillTables_loop cs thisLevel nextLevel rest
      end
  end.

(** [fillTables]. *)
Definition fillTables (cs : compactStatus) (thisLevel nextLevel : levelHandler)
  : option (option (compactDef * compactStatus)) :=
  if (length (tables thisLevel) =? 0)%nat then Some None
  else
    let tbls := sort.Slice (λ a b, Size a >? Size b) (tables thisLevel) in
    fillTables_loop cs thisLevel nextLevel tbls.

(** [doCompact].  [MaxLevels] is [lc.kv.opt.MaxLevels].  The result holds
    the two values returned, then the controller and the reference store as
    they are left; the deferred [cstatus.delete] has run. *)
Definition doCompact (MaxLevels : Z) (lc : levelsController) (p : compactionPriority)
    (w : gmap N Z) : option (bool * option error * levelsController * gmap N Z) :=
  let l := cp_level p in
  if negb (l + 1 <? MaxLevels) then None
  else if l <? 0 then None
  else
    thisLevel ← levels lc !! Z.to_nat l;
    nextLevel ← levels lc !! Z.to_nat (l + 1);
    filled ← (if l =? 0 then fillTablesL0 (cstatus lc) thisLevel nextLevel
              else fillTables (cstatus lc) thisLevel nextLevel);
    match filled with
    | None => Some (false, None, lc, w)
    | Some (cd, cs1) =>
        let lc1 := {| levels := levels lc; cstatus := cs1; opt := opt lc |} in
        '(err, thisLevel', nextLevel', w') ←
          runCompactDef remove_file addChanges mergeTables lc1 l cd w;
        let lc' := {| levels := <[Z.to_nat (l + 1) := nextLevel']>
                                  (<[Z.to_nat l := thisLevel']> (levels lc));
                      cstatus := cstatus_delete cs1 cd; opt := opt lc |} in
        Some (match err with None => true | Some _ => false end, err, lc', w')
    end.

End Planner.

(** ** Reconciling the directory with the manifest *)

Section Manifest.
Variable remove_file : N → bool.

(** The body of the second loop of [revertToManifest], on the error
    returned so far and the files of the directory: once an error is
    returned the loop is over. *)
Definition revertToManifest_step (mf_Tables : gmap N Z) (acc : option error * gset N)
    (id : N) : option error * gset N :=
  let '(err, files) := acc in
  match err with
  | Some _ => (err, files)
  | None =>
      if bool_decide (id ∈ dom mf_Tables) then (None, files)
      else if remove_file id then (None, files ∖ {[id]})
      else (Some (ErrRemoveFile id), files)
  end.

(** [revertToManifest].  Modelled from the spec: the manifest, "a map
    [file_id → {level}]" (its declaration is missing from the sources), is
    the map [mf_Tables].  [order] is the order in which [range idMap]
    yields the ids (Go leaves it unspecified), and [files] the table files
    of the directory; [os.Remove] succeeds when [remove_file] says so.
    [log.Fatalf] ends the process: [None].  The result holds the error and
    the files that are left. *)
Definition revertToManifest (mf_Tables : gmap N Z) (idMap : gset N) (order : list N)
    (files : gset N) : option (option error * gset N) :=
  if negb (bool_decide (dom mf_Tables ⊆ idMap)) then None
  else Some (fold_left (revertToManifest_step mf_Tables) order (None, files)).

End Manifest.

(** ** The merge loop of the compaction executor *)

(** The two loops of the merge path of [compactBuildTables], on the records
    that the merge iterator yields and on what the builders are given: the
    iterators, the files and the tables opened from them are external. *)

(** [DiscardStats]: the discarded length per value-log file and the number
    of records skipped. *)
Record DiscardStats := {
  discardSpaces : gmap N Z;
  numSkips : Z;
}.

(** Modelled from the spec: the decisions of a [CompactionFilter] and its
    interface, "[guards()]" and "[filter(full_key, value, user_meta) →
    {Keep | Drop | MarkTombstone}]" (their declarations are missing from
    the sources). *)
Variant FilterDecision := DecisionKeep | DecisionMarkTombstone | DecisionDrop.

Section MergeLoop.
Context `{KC : KeyCodec}.

Record CompactionFilter := {
  Filter : Key → list byte → list byte → FilterDecision;
  Guards : list (list byte);
}.

(** A record of the merge iterator: [it.Key()] and [it.Value()]. *)
Definition entry : Type := Key * ValueStruct.

(** External: the meta bits [bitValuePointer] and [bitDelete], [isDeleted]
    on a meta byte, [valuePointer.Decode] (the file id and the length of a
    value pointer), [Builder.ReachedCapacity] on a builder that is the list
    of the records added since it was reset, [y.CreateSyncedFile], whose
    argument here is the number of files created before, and [write_table]:
    whether [builder.Finish()] and then [table.OpenTable] succeed on a
    builder that holds these records. *)
Variable bitValuePointer bitDelete : Z.
Variable isDeleted : Z → bool.
Variable vp_Decode : list byte → N * Z.
Variable ReachedCapacity : list entry → Z → bool.
Variable CreateSyncedFile : nat → option error.
Variable write_table : list entry → bool.

(** [DiscardStats.collect]. *)
Definition collect (ds : DiscardStats) (vs : ValueStruct) : DiscardStats :=
  let spaces :=
    if Z.land (Meta vs) bitValuePointer >? 0 then
      let '(fid, len) := vp_Decode (Value vs) in
      <[fid := wrap64 (default 0 (discardSpaces ds !! fid) + len)]> (discardSpaces ds)
    else discardSpaces ds in
  {| discardSpaces := spaces; numSkips := wrap64 (numSkips ds + 1) |}.

(** What [compactBuildTables] has read before its loops: the filter of
    [CompactionFilterFactory] ([None] when there is no factory),
    [minReadTs], [hasOverlap], [MaxTableSize] and the bound [end] ([None]
    for [nil]). *)
Variable filter : option CompactionFilter.
Variable minReadTs : N.
Variable hasOverlap : bool.
Variable MaxTableSize : Z.
Variable end_ : option Key.

Definition merge_guards : list (list byte) :=
  match filter with
  | Some f => Guards f
  | None => []
  end.

(** The loop condition without [it.Valid()]:
    [end == nil || y.CompareKeys(it.Key(), end) < 0]. *)
Definition before_end (k : Key) : bool :=
  match end_ with
  | None => true
  | Some e => CompareKeys k e <? 0
  end.

(** [y.SameKey(key, other)] where [other] is [lastKey] or [skipKey]: a
    slice that is [nil] or empty ([None]) is the same key as no key. *)
Definition same_key (k : Key) (other : option Key) : bool :=
  match other with
  | Some k' => SameKey k k'
  | None => false
  end.

(** The variables that the loops of [compactBuildTables] update:
    [lastKey], [skipKey], [currGuard] ([[]] for [nil]), the records added to
    [builder] since it was reset, and [discardStats]. *)
Record mergeState := {
  ms_lastKey : option Key;
  ms_skipKey : option Key;
  ms_currGuard : list byte;
  ms_builder : list entry;
  ms_stats : DiscardStats;
}.

Definition ms_collect (st : mergeState) (vs : ValueStruct) : mergeState :=
  {| ms_lastKey := ms_lastKey st; ms_skipKey := ms_skipKey st;
     ms_currGuard := ms_currGuard st; ms_builder := ms_builder st;
     ms_stats := collect (ms_stats st) vs |}.

(** [builder.Add(key, value)]. *)
Definition ms_add (st : mergeState) (k : Key) (vs : ValueStruct) : mergeState :=
  {| ms_lastKey := ms_lastKey st; ms_skipKey := ms_skipKey st;
     ms_currGuard := ms_currGuard st; ms_builder := ms_builder st ++ [(k, vs)];
     ms_stats := ms_stats st |}.

(** The value of the tombstone that replaces a record:
    [y.ValueStruct{Meta: bitDelete}]. *)
Definition tombstone : ValueStruct :=
  {| Meta := bitDelete; UserMeta := []; Value := []; Version := 0%N |}.

(** The body of the inner loop for the record [(k, vs)] of the iterator.
    The flag is [true] on [break]; otherwise the loop goes on with
    [it.Next()], after a [continue] or at the end of the body. *)
Definition compactBuildTables_entry (st : mergeState) (k : Key) (vs : ValueStruct)
    : mergeState * bool :=
  if same_key k (ms_skipKey st) then (ms_collect st vs, false)
  else
    let currGuard :=
      if (length (ms_currGuard st) =? 0)%nat && (0 <? length merge_guards)%nat
      then searchGuard (KeyBytes k) merge_guards
      else ms_currGuard st in
    if negb (same_key k (ms_lastKey st))
       && shouldFinishFile (list entry) ReachedCapacity (KeyBytes k) currGuard
            (ms_builder st) MaxTableSize
    then
      ({| ms_lastKey := ms_lastKey st; ms_skipKey := None; ms_currGuard := [];
          ms_builder := ms_builder st; ms_stats := ms_stats st |}, true)
    else
      let lastKey := if negb (same_key k (ms_lastKey st)) then Some k else ms_lastKey st in
      let version := ParseTs k in
      if (version <=? minReadTs)%N then
        let st1 := {| ms_lastKey := lastKey; ms_skipKey := Some k;
                      ms_currGuard := currGuard; ms_builder := ms_builder st;
                      ms_stats := ms_stats st |} in
        if isDeleted (Meta vs) then
          if negb hasOverlap then (st1, false)
          else (ms_add st1 k vs, false)
        else
          match filter with
          | Some f =>
              match Filter f k (Value vs) (UserMeta vs) with
              | DecisionMarkTombstone =>
                  let st2 := ms_collect st1 vs in
                  (if hasOverlap then ms_add st2 k tombstone else st2, false)
              | DecisionDrop => (ms_collect st1 vs, false)
              | DecisionKeep => (ms_add st1 k vs, false)
              end
          | None => (ms_add st1 k vs, false)
          end
      else
        (ms_add {| ms_lastKey := lastKey; ms_skipKey := None;
                   ms_currGuard := currGuard; ms_builder := ms_builder st;
                   ms_stats := ms_stats st |} k vs, false).

(** The inner loop, on the records that the iterator still yields: it ends
    when the iterator is exhausted, at the bound [end], or on [break], which
    leaves the current record to the next file.  The result holds the
    records that are left. *)
Fixpoint compactBuildTables_file (st : mergeState) (entries : list entry)
    : mergeState * list entry :=
  match entries with
  | [] => (st, [])
  | (k, vs) :: rest =>
      if negb (before_end k) then (st, entries)
      else
        let '(st', stop) := compactBuildTables_entry st k vs in
        if stop then (st', entries) else compactBuildTables_file st' rest
  end.

(** The outer loop: one output file per turn.  [entries] is what the merge
    iterator yields from where [it.Rewind()] and the optional
    [it.Seek(start)] have left it.  [files] holds, for each file written so
    far, the records added to its builder when [builder.Finish()] is called
    (the table opened from a file is then dropped when its smallest key is
    empty).  A failed [y.CreateSyncedFile] returns the error and no table; a
    failed [builder.Finish()] or [table.OpenTable] ends the process with
    [log.Fatal]: [Some None].  The loop has no bound in the source: [fuel]
    bounds the number of turns here, and [None] is a run that needs more. *)
Fixpoint compactBuildTables_files (fuel : nat) (lastKey skipKey : option Key)
    (stats : DiscardStats) (files : list (list entry)) (entries : list entry)
    : option (option (option error * list (list entry) * DiscardStats)) :=
  match entries with
  | [] => Some (Some (None, files, stats))
  | (k, _) :: _ =>
      if negb (before_end k) then Some (Some (None, files, stats))
      else
        match fuel with
        | O => None
        | S fuel' =>
            match CreateSyncedFile (length files) with
            | Some err => Some (Some (Some err, [], stats))
            | None =>
                let '(st, rest) :=
                  compactBuildTables_file
                    {| ms_lastKey := lastKey; ms_skipKey := skipKey; ms_currGuard := [];
                       ms_builder := []; ms_stats := stats |} entries in
                if negb (write_table (ms_builder st)) then Some None
                else
                  compactBuildTables_files fuel' (ms_lastKey st) (ms_skipKey st)
                    (ms_stats st) (files ++ [ms_builder st]) rest
            end
        end
  end.

(** The two loops from their start: [lastKey] and [skipKey] are [nil] and
    the statistics are empty. *)
Definition compactBuildTables_merge (fuel : nat) (entries : list entry)
    : option (option (option error * list (list entry) * DiscardStats)) :=
  compactBuildTables_files fuel None None {| discardSpaces := ∅; numSkips := 0 |} []
    entries.

End MergeLoop.

(** * Properties *)

(** ** [sort.Search] *)

Module sort_facts.
Import sort.

Lemma search_loop_bounds fuel f : ∀ i j,
  (i ≤ j)%nat → (j - i ≤ fuel)%nat →
  let r := search_loop fuel f i j in
  (i ≤ r ≤ j)%nat
  ∧ (r = i ∨ f (r - 1)%nat = false)
  ∧ (r = j ∨ f r = true).
Proof.
  induction fuel as [|fuel IH]; intros i j Hij Hfuel; simpl.
  - assert (i = j) by lia. subst. auto with lia.
  - destruct (Nat.ltb_spec i j) as [Hlt|Hge].
    + pose proof (Nat.div2_odd (i + j)) as Hodd.
      destruct (Nat.odd (i + j)); simpl in Hodd;
        set (h := Nat.div2 (i + j)) in *;
        (destruct (f h) eqn:Hfh; simpl;
         [ destruct (IH i h) as (Hb & Hl & Hr); [lia|lia|];
           split; [lia|]; split; [exact Hl|];
           destruct Hr as [->|Hr]; [right; exact Hfh | right; exact Hr]
         | destruct (IH (h + 1)%nat j) as (Hb & Hl & Hr); [lia|lia|];
           split; [lia|]; split; [|exact Hr];
           destruct Hl as [->|Hl];
           [right; replace (h + 1 - 1)%nat with h by lia; exact Hfh | right; exact Hl] ]).
    + assert (i = j) by lia. subst. auto with lia.
Qed.

Lemma first_index_le {A} (p : A → bool) l : (first_index p l ≤ length l)%nat.
Proof. induction l as [|x l IH]; simpl; [lia|]. destruct (p x); lia. Qed.

Lemma first_index_before {A} (p : A → bool) l k :
  (k < first_index p l)%nat → at_index p l k = false.
Proof.
  revert k. induction l as [|x l IH]; intros k; simpl; [lia|].
  destruct (p x) eqn:Hpx; [lia|]. intros Hk.
  destruct k as [|k]; unfold at_index; simpl; [exact Hpx|].
  apply IH. lia.
Qed.

Lemma first_index_at {A} (p : A → bool) l :
  (first_index p l < length l)%nat → at_index p l (first_index p l) = true.
Proof.
  induction l as [|x l IH]; simpl; [lia|].
  destruct (p x) eqn:Hpx; unfold at_index; simpl; [auto|].
  intros Hk. apply IH. lia.
Qed.

Lemma first_index_find {A} (p : A → bool) l :
  l !! first_index p l = List.find p l.
Proof.
  induction l as [|x l IH]; simpl; [reflexivity|].
  destruct (p x); [reflexivity | exact IH].
Qed.

Lemma first_index_length {A} (p : A → bool) l :
  first_index p l = length l ↔ ∀ x, x ∈ l → p x = false.
Proof.
  induction l as [|x l IH]; simpl.
  - split; [intros _ y Hy; inversion Hy | reflexivity].
  - destruct (p x) eqn:Hpx.
    + split; [lia|]. intros H. specialize (H x (list_elem_of_here _ _)). congruence.
    + split.
      * intros H y Hy. apply elem_of_cons in Hy as [->|Hy]; [exact Hpx|].
        apply IH; [lia | exact Hy].
      * intros H. f_equal. apply IH. intros y Hy. apply H. by apply list_elem_of_further.
Qed.

(** On a slice along which the predicate is monotone, the binary search
    finds what the left-to-right scan finds. *)
Lemma Search_first_index {A} (p : A → bool) (l : list A) :
  monotone_on p l →
  Search (length l) (at_index p l) = first_index p l.
Proof.
  intros Hmono. unfold Search.
  pose proof (search_loop_bounds (length l) (at_index p l) 0 (length l)) as H.
  simpl in H. destruct H as (Hb & Hl & Hr); [lia|lia|].
  set (r := search_loop (length l) (at_index p l) 0 (length l)) in *.
  pose proof (first_index_le p l) as Hm.
  destruct (Nat.lt_trichotomy r (first_index p l)) as [Hlt|[Heq|Hgt]]; [|exact Heq|].
  - destruct Hr as [Hr|Hr]; [lia|].
    rewrite first_index_before in Hr by exact Hlt. discriminate.
  - destruct Hl as [Hl|Hl]; [lia|].
    assert (Hat : at_index p l (first_index p l) = true)
      by (apply first_index_at; lia).
    unfold at_index in Hat, Hl.
    destruct (l !! first_index p l) as [x|] eqn:Hx; [|discriminate].
    destruct (l !! (r - 1)%nat) as [y|] eqn:Hy.
    + rewrite (Hmono (first_index p l) (r - 1)%nat x y ltac:(lia) Hx Hy Hat) in Hl. discriminate.
    + apply lookup_ge_None in Hy. lia.
Qed.

Lemma Search_le n f : (Search n f ≤ n)%nat.
Proof.
  unfold Search.
  pose proof (search_loop_bounds n f 0 n ltac:(lia) ltac:(lia)) as H. simpl in H. lia.
Qed.

End sort_facts.

(** ** [bytes.Compare] is a total order *)

Module bytes_facts.
Import bytes.

Lemma to_N_inj x y : Byte.to_N x = Byte.to_N y → x = y.
Proof.
  intros H. pose proof (Byte.of_to_N x) as Hx. rewrite H, Byte.of_to_N in Hx.
  congruence.
Qed.

Ltac byte_cases :=
  unfold byte_lt; repeat case N.ltb_spec; intros; try lia.

Lemma Compare_range a : ∀ b, Compare a b = -1 ∨ Compare a b = 0 ∨ Compare a b = 1.
Proof.
  induction a as [|x a IH]; intros [|y b]; simpl; auto.
  byte_cases; auto.
Qed.

Lemma Compare_refl a : Compare a a = 0.
Proof. induction a as [|x a IH]; simpl; [reflexivity|]. byte_cases; exact IH. Qed.

Lemma Compare_eq a : ∀ b, Compare a b = 0 → a = b.
Proof.
  induction a as [|x a IH]; intros [|y b]; simpl; try discriminate; [reflexivity|].
  unfold byte_lt. repeat case N.ltb_spec; try lia.
  intros H1 H2 Hc. f_equal; [apply to_N_inj; lia | apply IH, Hc].
Qed.

Lemma Compare_flip a : ∀ b, Compare a b < 0 ↔ 0 < Compare b a.
Proof.
  induction a as [|x a IH]; intros [|y b]; simpl; try lia.
  byte_cases; apply IH.
Qed.

Lemma Compare_trans a : ∀ b c, Compare a b ≤ 0 → Compare b c ≤ 0 → Compare a c ≤ 0.
Proof.
  induction a as [|x a IH]; intros [|y b] [|z c]; simpl; try lia.
  byte_cases; eapply IH; eassumption.
Qed.

Lemma Compare_lt_le_trans a b c : Compare a b < 0 → Compare b c ≤ 0 → Compare a c < 0.
Proof.
  intros Hab Hbc.
  destruct (Z.lt_ge_cases (Compare a c) 0) as [|Hac]; [assumption|exfalso].
  assert (Hca : Compare c a ≤ 0).
  { pose proof (Compare_flip c a). pose proof (Compare_flip a c).
    destruct (Z.eq_dec (Compare a c) 0) as [E|E]; [|lia].
    apply Compare_eq in E. subst. rewrite Compare_refl. lia. }
  pose proof (Compare_trans _ _ _ Hbc Hca) as Hba.
  apply Compare_flip in Hab. lia.
Qed.

End bytes_facts.

(** ** Keys: the byte-string model is an instance of the interface *)

Lemma CompareKeys_bytes_flip a b : CompareKeys_bytes a b < 0 ↔ 0 < CompareKeys_bytes b a.
Proof.
  unfold CompareKeys_bytes.
  pose proof (bytes_facts.Compare_flip (user_key a) (user_key b)) as H1.
  pose proof (bytes_facts.Compare_flip (user_key b) (user_key a)) as H2.
  pose proof (bytes_facts.Compare_flip (ts_suffix a) (ts_suffix b)) as H3.
  do 2 case Z.eqb_spec; simpl; lia.
Qed.

Lemma CompareKeys_bytes_trans a b c :
  CompareKeys_bytes a b ≤ 0 → CompareKeys_bytes b c ≤ 0 → CompareKeys_bytes a c ≤ 0.
Proof.
  unfold CompareKeys_bytes.
  destruct (Z.eqb_spec (bytes.Compare (user_key a) (user_key b)) 0) as [Eab|Nab];
    destruct (Z.eqb_spec (bytes.Compare (user_key b) (user_key c)) 0) as [Ebc|Nbc];
    simpl; intros Hab Hbc.
  - apply bytes_facts.Compare_eq in Eab, Ebc.
    rewrite Eab, Ebc, bytes_facts.Compare_refl. simpl.
    eapply bytes_facts.Compare_trans; eassumption.
  - apply bytes_facts.Compare_eq in Eab. rewrite Eab.
    destruct (Z.eqb_spec (bytes.Compare (user_key b) (user_key c)) 0); simpl; lia.
  - apply bytes_facts.Compare_eq in Ebc. rewrite <- Ebc.
    destruct (Z.eqb_spec (bytes.Compare (user_key a) (user_key b)) 0); simpl; lia.
  - pose proof (bytes_facts.Compare_lt_le_trans (user_key a) (user_key b) (user_key c)
                  ltac:(lia) Hbc) as Hac.
    destruct (Z.eqb_spec (bytes.Compare (user_key a) (user_key c)) 0); simpl; lia.
Qed.

#[export] Instance KeyOrder_bytes : KeyOrder := {|
  Key := list byte;
  CompareKeys := CompareKeys_bytes;
  CompareKeys_flip := CompareKeys_bytes_flip;
  CompareKeys_trans := CompareKeys_bytes_trans;
|}.

(** Sample keys and tables over byte strings, for the examples: a key made
    of a one-byte user key and an 8-byte suffix, and a table given by its
    id, the user keys of its bounds and its size. *)
Definition bkey (c : byte) (ts : byte) : list byte :=
  [c; "000"%byte; "000"%byte; "000"%byte; "000"%byte; "000"%byte; "000"%byte; "000"%byte; ts].

Definition btable (id : N) (lo hi : byte) (size : Z) : Table :=
  {| ID := id; Smallest := bkey lo "000"; Biggest := bkey hi "000"; Size := size |}.

(** A level handler that holds [n] tables, and a compaction status without
    any reservation. *)
Definition sample_level (n : nat) (lvl total max : Z) : levelHandler :=
  {| tables := replicate n (btable 1 "b" "d" 1); totalSize := total;
     level := lvl; maxTotalSize := max |}.

Definition sample_cstatus (n : nat) : compactStatus :=
  {| cs_levels := replicate n {| ranges := []; delSize := 0 |} |}.

(** Consequences of the laws of [KeyOrder]. *)
Section KeyOrderFacts.
Context {KO : KeyOrder}.

Lemma CompareKeys_lt_le_trans (a b c : Key) :
  CompareKeys a b < 0 → CompareKeys b c ≤ 0 → CompareKeys a c < 0.
Proof.
  intros Hab Hbc.
  destruct (Z.lt_ge_cases (CompareKeys a c) 0) as [|Hac]; [assumption|exfalso].
  assert (Hca : CompareKeys c a ≤ 0)
    by (pose proof (CompareKeys_flip c a); pose proof (CompareKeys_flip a c); lia).
  pose proof (CompareKeys_trans _ _ _ Hbc Hca).
  pose proof (CompareKeys_flip a b). lia.
Qed.

Lemma CompareKeys_le_lt_trans (a b c : Key) :
  CompareKeys a b ≤ 0 → CompareKeys b c < 0 → CompareKeys a c < 0.
Proof.
  intros Hab Hbc.
  destruct (Z.lt_ge_cases (CompareKeys a c) 0) as [|Hac]; [assumption|exfalso].
  assert (Hca : CompareKeys c a ≤ 0)
    by (pose proof (CompareKeys_flip c a); pose proof (CompareKeys_flip a c); lia).
  pose proof (CompareKeys_trans _ _ _ Hca Hab).
  pose proof (CompareKeys_flip b c). lia.
Qed.

Lemma CompareKeys_lt_trans (a b c : Key) :
  CompareKeys a b < 0 → CompareKeys b c < 0 → CompareKeys a c < 0.
Proof. intros Hab Hbc. apply (CompareKeys_lt_le_trans a b c); lia. Qed.

Lemma CompareKeys_ge_flip (a b : Key) : 0 ≤ CompareKeys a b ↔ CompareKeys b a ≤ 0.
Proof. pose proof (CompareKeys_flip a b). pose proof (CompareKeys_flip b a). lia. Qed.

End KeyOrderFacts.

(** ** Lists ordered pair by pair *)

Lemma adjacent_cons_inv {A} (R : A → A → Prop) a l :
  sort.adjacent R (a :: l) → sort.adjacent R l.
Proof. destruct l as [|b l]; simpl; tauto. Qed.

Lemma adjacent_head {A} (R : A → A → Prop) `{!Transitive R} a l :
  sort.adjacent R (a :: l) → ∀ j y, l !! j = Some y → R a y.
Proof.
  revert a. induction l as [|b l IH]; intros a Hadj j y Hy; [discriminate|].
  destruct Hadj as [Hab Hrest].
  destruct j as [|j]; simpl in Hy.
  - congruence.
  - etrans; [exact Hab|]. eapply IH; eassumption.
Qed.

Lemma adjacent_lookup {A} (R : A → A → Prop) `{!Transitive R} l :
  sort.adjacent R l →
  ∀ i j x y, (i < j)%nat → l !! i = Some x → l !! j = Some y → R x y.
Proof.
  induction l as [|a l IH]; intros Hadj i j x y Hij Hx Hy; [discriminate|].
  destruct j as [|j]; [lia|]. simpl in Hy.
  destruct i as [|i]; simpl in Hx.
  - inversion Hx; subst. eapply adjacent_head; eassumption.
  - eapply (IH (adjacent_cons_inv _ _ _ Hadj) i j); [lia|eassumption..].
Qed.

(** ** C8: cutting the output file, and the guard of a key *)

Section ExecutorFacts.
Variable Builder : Type.
Variable ReachedCapacity : Builder → Z → bool.

Lemma guards_sorted_adjacent guards :
  guards_sorted guards = true →
  sort.adjacent (λ g g', bytes.Compare g g' ≤ 0) guards.
Proof.
  induction guards as [|g [|g' rest] IH]; simpl; try tauto.
  intros [H1 H2]%andb_prop. split; [lia|]. apply IH, H2.
Qed.

Lemma guards_sorted_monotone key guards :
  guards_sorted guards = true →
  sort.monotone_on (λ g, bytes.Compare key g <? 0) guards.
Proof.
  intros Hs%guards_sorted_adjacent i j x y Hij Hx Hy Hpx.
  destruct (decide (i = j)) as [->|Hne]; [congruence|].
  assert (Hxy : bytes.Compare x y ≤ 0).
  { assert (Htr : Transitive (λ g g' : list byte, bytes.Compare g g' ≤ 0))
      by (intros a b c; apply bytes_facts.Compare_trans).
    apply (adjacent_lookup _ guards Hs i j x y); [lia|exact Hx|exact Hy]. }
  apply Z.ltb_lt in Hpx. apply Z.ltb_lt.
  eapply bytes_facts.Compare_lt_le_trans; eassumption.
Qed.

Lemma searchGuard_find key guards :
  guards_sorted guards = true →
  searchGuard key guards = default [] (List.find (λ g, bytes.Compare key g <? 0) guards).
Proof.
  intros Hs. unfold searchGuard.
  rewrite sort_facts.Search_first_index by (apply guards_sorted_monotone, Hs).
  rewrite sort_facts.first_index_find.
  destruct (Nat.ltb_spec (sort.first_index (λ g, bytes.Compare key g <? 0) guards)
                         (length guards)) as [Hlt|Hge]; simpl.
  - destruct (Nat.leb_spec 0 (sort.first_index (λ g, bytes.Compare key g <? 0) guards));
      [reflexivity|lia].
  - rewrite <- sort_facts.first_index_find, (lookup_ge_None_2 _ _ Hge). reflexivity.
Qed.

(** C8.  [shouldFinishFile] is true exactly when a guard is set (the guard
    slice is not empty) and the key is strictly greater than it, or the
    builder has reached the maximal table size; and, the guards being
    sorted, [searchGuard] returns the first guard strictly greater than the
    key, and no guard ([nil]) exactly when every guard is at most the key. *)
Theorem shouldFinishFile_searchGuard_spec
    (key guard : list byte) (builder : Builder) (maxSize : Z) (guards : list (list byte)) :
  guards_sorted guards = true →
  (shouldFinishFile Builder ReachedCapacity key guard builder maxSize = true
   ↔ (guard ≠ [] ∧ bytes.Compare key guard > 0) ∨ ReachedCapacity builder maxSize = true)
  ∧ searchGuard key guards = default [] (List.find (λ g, bytes.Compare key g <? 0) guards)
  ∧ (searchGuard key guards = [] ↔ ∀ g, g ∈ guards → 0 ≤ bytes.Compare key g).
Proof.
  intros Hs. split; [|split].
  - unfold shouldFinishFile.
    destruct guard as [|g0 guard]; simpl.
    + destruct (ReachedCapacity builder maxSize); split; auto.
      intros [[Hne _]|H]; [congruence|discriminate].
    + destruct (Z.gtb_spec (bytes.Compare key (g0 :: guard)) 0) as [Hgt|Hle];
        destruct (ReachedCapacity builder maxSize); split; auto.
      * intros _. left. split; [discriminate|lia].
      * intros [[_ H]|H]; [lia|discriminate].
  - apply searchGuard_find, Hs.
  - rewrite searchGuard_find by exact Hs.
    destruct (List.find _ guards) as [g|] eqn:Hfind; simpl.
    + apply find_some in Hfind as [Hin Hlt]. apply Z.ltb_lt in Hlt.
      split.
      * intros ->. destruct key; simpl in Hlt; lia.
      * intros Hall. apply list_elem_of_In in Hin. specialize (Hall g Hin). lia.
    + split; [|reflexivity]. intros _ g Hg.
      apply list_elem_of_In in Hg.
      pose proof (find_none _ _ Hfind g Hg) as Hn. simpl in Hn.
      apply Z.ltb_ge in Hn. lia.
Qed.

End ExecutorFacts.

(** C8 on three guards: the guard of a key between two guards, of a key
    past the last guard, and a key that has passed its guard. *)
Lemma shouldFinishFile_searchGuard_spec_witness :
  let guards := [["b"%byte]; ["m"%byte]; ["t"%byte]] in
  guards_sorted guards = true
  ∧ searchGuard ["c"%byte; "1"%byte] guards = ["m"%byte]
  ∧ searchGuard ["z"%byte] guards = []
  ∧ shouldFinishFile unit (λ _ _, false) ["n"%byte] ["m"%byte] () 64 = true.
Proof.
  pose proof (shouldFinishFile_searchGuard_spec unit (λ _ _, false)
                ["n"%byte] ["m"%byte] () 64 [["b"%byte]; ["m"%byte]; ["t"%byte]]
                eq_refl) as (Hfin & _ & _).
  pose proof (shouldFinishFile_searchGuard_spec unit (λ _ _, false)
                ["c"%byte; "1"%byte] [] () 64 [["b"%byte]; ["m"%byte]; ["t"%byte]]
                eq_refl) as (_ & Hfirst & _).
  pose proof (shouldFinishFile_searchGuard_spec unit (λ _ _, false)
                ["z"%byte] [] () 64 [["b"%byte]; ["m"%byte]; ["t"%byte]]
                eq_refl) as (_ & Hnone & _).
  split; [reflexivity|]. split; [exact Hfirst|]. split; [exact Hnone|].
  apply Hfin. left. split; [discriminate | reflexivity].
Defined.

(** ** [int64] wrap-around *)

Ltac pow2 :=
  change (2 ^ 63) with 9223372036854775808 in *;
  change (2 ^ 64) with 18446744073709551616 in *.

Lemma wrap64_small z : - 2 ^ 63 ≤ z < 2 ^ 63 → wrap64 z = z.
Proof.
  intros H. unfold wrap64.
  pow2. rewrite Z.mod_small; lia.
Qed.

Lemma wrap64_add_l a b : wrap64 (wrap64 a + b) = wrap64 (a + b).
Proof.
  unfold wrap64. f_equal.
  replace ((a + 2 ^ 63) mod 2 ^ 64 - 2 ^ 63 + b + 2 ^ 63)
    with ((a + 2 ^ 63) mod 2 ^ 64 + b) by lia.
  rewrite Zplus_mod_idemp_l. f_equal. lia.
Qed.

Lemma wrap64_sub_l a b : wrap64 (wrap64 a - b) = wrap64 (a - b).
Proof. apply (wrap64_add_l a (- b)). Qed.

Lemma wrap64_idemp a : wrap64 (wrap64 a) = wrap64 a.
Proof. pose proof (wrap64_add_l a 0) as H. by rewrite !Z.add_0_r in H. Qed.

(** ** C7: the manifest change set *)

Lemma fold_left_snoc_map {A B} (f : A → B) (l : list A) (init : list B) :
  fold_left (λ acc x, acc ++ [f x]) l init = init ++ map f l.
Proof.
  revert init. induction l as [|x l IH]; intros init; simpl.
  - by rewrite app_nil_r.
  - rewrite IH, <- app_assoc. reflexivity.
Qed.

(** C7.  The change set built for a compaction: when [moveDown] is set, one
    [MoveDown(id, nextLevel)] for each new table and nothing else; otherwise
    one [Create(id, nextLevel)] for each new table, followed by one
    [Delete(id)] for each table of [top] and for each table of [bot], and
    nothing else. *)
Theorem buildChangeSet_spec `{KO : KeyOrder} (cd : compactDef)
    (newTables : list Table) (moveDown : bool) :
  buildChangeSet cd newTables moveDown =
    (if moveDown then
       map (λ t, MoveDown (ID t) (level (nextLevel cd))) newTables
     else
       map (λ t, Create (ID t) (level (nextLevel cd))) newTables
       ++ map (λ t, Delete (ID t)) (top cd)
       ++ map (λ t, Delete (ID t)) (bot cd))
  ∧ length (buildChangeSet cd newTables moveDown) =
      (if moveDown then length newTables
       else length newTables + length (top cd) + length (bot cd))%nat.
Proof.
  assert (E : buildChangeSet cd newTables moveDown =
    (if moveDown then
       map (λ t, MoveDown (ID t) (level (nextLevel cd))) newTables
     else
       map (λ t, Create (ID t) (level (nextLevel cd))) newTables
       ++ map (λ t, Delete (ID t)) (top cd)
       ++ map (λ t, Delete (ID t)) (bot cd))).
  { unfold buildChangeSet, makeTableMoveDownChange, makeTableCreateChange,
      makeTableDeleteChange.
    destruct moveDown; rewrite !fold_left_snoc_map; simpl; [reflexivity|].
    by rewrite <- app_assoc. }
  split; [exact E|]. rewrite E.
  destruct moveDown; rewrite ?length_app, !length_map; lia.
Qed.

(** ** C9 and C10: admission to level 0, and replacing by nothing *)

Section HandlerBasics.
Context {KO : KeyOrder}.
Variable remove_file : N → bool.

Lemma ref_count_IncrRef_same (t : Table) (w : gmap N Z) :
  ref_count (IncrRef t w) t = ref_count w t + 1.
Proof. unfold ref_count, IncrRef. by rewrite lookup_insert_eq. Qed.

Lemma ref_count_IncrRef_other (t t' : Table) (w : gmap N Z) :
  ID t ≠ ID t' → ref_count (IncrRef t w) t' = ref_count w t'.
Proof. intros Hne. unfold ref_count, IncrRef. by rewrite lookup_insert_ne. Qed.

(** C9.  [tryAddLevel0Table] asserts that the handler is level 0; at level
    0 it returns false, changing nothing, exactly when the handler holds at
    least [NumLevelZeroTablesStall] tables; otherwise it returns true, the
    table is appended at the end, its reference count is one more, no other
    reference count changes, and [totalSize] has grown by the size of the
    table ([int64] addition). *)
Theorem tryAddLevel0Table_spec (opt : Options) (s : levelHandler) (t : Table)
    (w : gmap N Z) :
  (level s ≠ 0 → tryAddLevel0Table opt s t w = None)
  ∧ (level s = 0 →
     ∃ ok s' w', tryAddLevel0Table opt s t w = Some (ok, s', w')
       ∧ (ok = false ↔ NumLevelZeroTablesStall opt ≤ Z.of_nat (length (tables s)))
       ∧ (ok = false → s' = s ∧ w' = w)
       ∧ (ok = true →
          tables s' = tables s ++ [t]
          ∧ totalSize s' = wrap64 (totalSize s + Size t)
          ∧ level s' = level s ∧ maxTotalSize s' = maxTotalSize s
          ∧ ref_count w' t = ref_count w t + 1
          ∧ ∀ t', ID t' ≠ ID t → ref_count w' t' = ref_count w t')).
Proof.
  unfold tryAddLevel0Table. split.
  - intros Hl. destruct (Z.eqb_spec (level s) 0); [contradiction|reflexivity].
  - intros Hl. rewrite Hl. simpl.
    destruct (Z.geb_spec (Z.of_nat (length (tables s))) (NumLevelZeroTablesStall opt))
      as [Hge|Hlt].
    + exists false, s, w. repeat split; auto; try discriminate; lia.
    + eexists true, _, _. split; [reflexivity|]. split; [split; [discriminate|lia]|].
      split; [discriminate|]. intros _. simpl.
      repeat split; auto using ref_count_IncrRef_same.
      intros t' Hne. apply ref_count_IncrRef_other. congruence.
Qed.

(** C10.  [replaceTables] called with no new table returns [nil] at once:
    the handler (its tables and its [totalSize]) and every reference count
    are as before.  So at the end of a compaction that produced no table,
    the next level is left as it was, with the tables of [bot] that the
    change set deletes from the manifest, and only [deleteTables] on this
    level touches the handlers and the reference counts. *)
Theorem replaceTables_empty (s : levelHandler) (w : gmap N Z) :
  replaceTables remove_file s [] w = Some (None, s, w)
  ∧ (∀ cd : compactDef,
       runCompactDef_install remove_file cd [] w =
         '(err, this', w') ← deleteTables remove_file (thisLevel cd) (top cd) w;
         Some (err, this', nextLevel cd, w'))
  ∧ (∀ cd : compactDef,
       buildChangeSet cd [] false =
         map (λ t, Delete (ID t)) (top cd) ++ map (λ t, Delete (ID t)) (bot cd)).
Proof.
  split; [reflexivity|]. split.
  - intros cd. unfold runCompactDef_install. simpl.
    by destruct (deleteTables remove_file (thisLevel cd) (top cd) w) as [[[err this'] w']|].
  - intros cd. unfold buildChangeSet, makeTableDeleteChange. simpl.
    by rewrite !fold_left_snoc_map.
Qed.

End HandlerBasics.

(** ** [sort.Slice] permutes its argument *)

Module slice_facts.
Import sort.

Lemma sift_perm {A} (less : A → A → bool) x r : sift less x r ≡ₚ x :: r.
Proof.
  induction r as [|y r IH]; simpl; [reflexivity|].
  destruct (less x y); [|reflexivity].
  rewrite IH. apply Permutation_swap.
Qed.

Lemma insertion_fold_perm {A} (less : A → A → bool) l : ∀ acc,
  fold_left (λ acc x, sift less x acc) l acc ≡ₚ l ++ acc.
Proof.
  induction l as [|x l IH]; intros acc; simpl; [reflexivity|].
  rewrite IH, sift_perm. by rewrite Permutation_middle.
Qed.

Lemma insertionSort_perm {A} (less : A → A → bool) l : insertionSort less l ≡ₚ l.
Proof.
  unfold insertionSort. rewrite <- Permutation_rev, insertion_fold_perm.
  by rewrite app_nil_r.
Qed.

Lemma insert_head_perm {A} (l : list A) : ∀ j a y,
  l !! j = Some y → y :: <[j := a]> l ≡ₚ a :: l.
Proof.
  induction l as [|b l IH]; intros [|j] a y Hy; simpl in *; try discriminate.
  - inversion Hy; subst. apply Permutation_swap.
  - rewrite (Permutation_swap b y), (IH j a y Hy). apply Permutation_swap.
Qed.

Lemma swap_perm {A} (l : list A) : ∀ i j x y,
  l !! i = Some x → l !! j = Some y → <[j := x]> (<[i := y]> l) ≡ₚ l.
Proof.
  induction l as [|a l IH]; intros [|i] [|j] x y Hx Hy; simpl in *; try discriminate.
  - by inversion Hx; subst.
  - inversion Hx; subst. by apply insert_head_perm.
  - inversion Hy; subst. symmetry. rewrite <- (insert_head_perm l i y x Hx) at 1.
    reflexivity.
  - by rewrite (IH i j x y Hx Hy).
Qed.

Lemma shell_step_perm {A} (less : A → A → bool) l i : shell_step less l i ≡ₚ l.
Proof.
  unfold shell_step.
  destruct (l !! i) as [x|] eqn:Hx; [|reflexivity].
  destruct (l !! (i - 6)%nat) as [y|] eqn:Hy; [|reflexivity].
  destruct (less x y); [|reflexivity].
  by apply swap_perm.
Qed.

Lemma shell_pass_perm {A} (less : A → A → bool) l : shell_pass less l ≡ₚ l.
Proof.
  unfold shell_pass. generalize (seq 6 (length l - 6)). intros idxs.
  revert l. induction idxs as [|i idxs IH]; intros l; simpl; [reflexivity|].
  rewrite IH. apply shell_step_perm.
Qed.

Lemma Slice_perm {A} (less : A → A → bool) l : Slice less l ≡ₚ l.
Proof. unfold Slice. by rewrite insertionSort_perm, shell_pass_perm. Qed.

End slice_facts.

(** ** C4: size accounting *)

Section SizeAccounting.
Context {KO : KeyOrder}.
Variable remove_file : N → bool.

Lemma sum_sizes_app (l1 l2 : list Table) :
  sum_sizes (l1 ++ l2) = sum_sizes l1 + sum_sizes l2.
Proof. induction l1 as [|t l1 IH]; simpl; [reflexivity|]. rewrite IH. lia. Qed.

Lemma sum_sizes_perm (l1 l2 : list Table) : l1 ≡ₚ l2 → sum_sizes l1 = sum_sizes l2.
Proof. induction 1; simpl; lia. Qed.

Lemma fold_add_sizes (l : list Table) : ∀ a,
  fold_left (λ acc t, wrap64 (acc + Size t)) l (wrap64 a) = wrap64 (a + sum_sizes l).
Proof.
  induction l as [|t l IH]; intros a; simpl.
  - f_equal. lia.
  - rewrite wrap64_add_l, IH. f_equal. lia.
Qed.

Lemma fold_sub_sizes (l : list Table) : ∀ a,
  fold_left (λ acc t, wrap64 (acc - Size t)) l (wrap64 a) = wrap64 (a - sum_sizes l).
Proof.
  induction l as [|t l IH]; intros a; simpl.
  - f_equal. lia.
  - rewrite wrap64_sub_l, IH. f_equal. lia.
Qed.

(** The first loop of [replaceTables]: the total and the store after it. *)
Lemma fold_add_incr (l : list Table) : ∀ a (w : gmap N Z),
  fold_left (λ '(total, w) tbl, (wrap64 (total + Size tbl), IncrRef tbl w)) l (wrap64 a, w)
  = (wrap64 (a + sum_sizes l), fold_left (λ w tbl, IncrRef tbl w) l w).
Proof.
  induction l as [|t l IH]; intros a w; simpl.
  - do 2 f_equal. lia.
  - rewrite wrap64_add_l, IH. do 2 f_equal. lia.
Qed.

(** The loop of [deleteTables] keeps the tables whose id is not in the map,
    in order, and subtracts the sizes of the others. *)
Lemma deleteTables_loop_filter (toDelMap : gset N) (tbls : list Table) : ∀ acc a,
  fold_left (λ '(newTables, total) t,
     if bool_decide (ID t ∈ toDelMap) then (newTables, wrap64 (total - Size t))
     else (newTables ++ [t], total)) tbls (acc, wrap64 a)
  = (acc ++ List.filter (λ t, negb (bool_decide (ID t ∈ toDelMap))) tbls,
     wrap64 (a - sum_sizes (List.filter (λ t, bool_decide (ID t ∈ toDelMap)) tbls))).
Proof.
  induction tbls as [|t tbls IH]; intros acc a; simpl.
  - rewrite app_nil_r. do 2 f_equal. lia.
  - destruct (bool_decide (ID t ∈ toDelMap)); simpl.
    + rewrite wrap64_sub_l, IH. do 2 f_equal. lia.
    + rewrite IH, <- app_assoc. reflexivity.
Qed.

Lemma sum_sizes_filter (p : Table → bool) (l : list Table) :
  sum_sizes l = sum_sizes (List.filter (λ t, negb (p t)) l) + sum_sizes (List.filter p l).
Proof.
  induction l as [|t l IH]; simpl; [reflexivity|].
  destruct (p t); simpl; lia.
Qed.

Lemma take_mid_drop {A} (l : list A) (i j : nat) :
  (i ≤ j)%nat → l = take i l ++ take (j - i) (drop i l) ++ drop j l.
Proof.
  intros Hij.
  rewrite <- (take_drop i l) at 1. f_equal.
  rewrite <- (take_drop (j - i) (drop i l)) at 1. f_equal.
  rewrite drop_drop. f_equal. lia.
Qed.

Lemma initTables_accounted (s : levelHandler) (tbls : list Table) :
  size_accounted (initTables s tbls).
Proof.
  unfold size_accounted, initTables; simpl.
  change 0 with (wrap64 0) at 1. rewrite fold_add_sizes. f_equal.
  destruct (level s =? 0); simpl; symmetry; apply sum_sizes_perm, slice_facts.Slice_perm.
Qed.

Lemma tryAddLevel0Table_accounted opt s t w ok s' w' :
  tryAddLevel0Table opt s t w = Some (ok, s', w') →
  size_accounted s → size_accounted s'.
Proof.
  unfold tryAddLevel0Table, size_accounted.
  destruct (level s =? 0); simpl; [|discriminate].
  destruct (_ >=? _); intros [= <- <- <-] Hs; [exact Hs|]. simpl.
  rewrite Hs, wrap64_add_l, sum_sizes_app. simpl. f_equal. lia.
Qed.

Lemma deleteTables_accounted s toDel w err s' w' :
  deleteTables remove_file s toDel w = Some (err, s', w') →
  size_accounted s → size_accounted s'.
Proof.
  unfold deleteTables, deleteTables_loop, size_accounted. intros H Hs.
  rewrite Hs, deleteTables_loop_filter in H. simpl in H.
  destruct (negb (level s =? 0) && negb (assertTablesOrder _)); [discriminate|].
  destruct (decrRefs remove_file toDel w) as [err0 w0].
  injection H as <- <- <-. simpl. f_equal.
  rewrite (sum_sizes_filter (λ t, bool_decide (ID t ∈ (list_to_set (ID <$> toDel) : gset N)))
             (tables s)).
  lia.
Qed.

Lemma replaceTables_accounted s newTables w err s' w' :
  replaceTables remove_file s newTables w = Some (err, s', w') →
  size_accounted s → size_accounted s'.
Proof.
  unfold replaceTables, size_accounted. intros H Hs.
  destruct newTables as [|first rest]; [by injection H as <- <- <-|].
  destruct (negb (assertTablesOrder (first :: rest))); [discriminate|].
  rewrite Hs, fold_add_incr in H.
  destruct (overlappingTables s _ _) as [left_ right_].
  destruct (Nat.ltb_spec right_ left_) as [|Hle]; [discriminate|].
  destruct (negb (assertTablesOrder _)); [discriminate|].
  destruct (decrRefs _ _ _) as [err0 w0].
  injection H as <- <- <-. simpl.
  rewrite fold_sub_sizes. f_equal.
  pose proof (f_equal sum_sizes (take_mid_drop (tables s) left_ right_ Hle)) as E.
  rewrite !sum_sizes_app in E. rewrite !sum_sizes_app. simpl. rewrite !sum_sizes_app. lia.
Qed.

(** C4.  [initTables] establishes, and every mutation of the table set
    ([initTables], a successful [tryAddLevel0Table], [replaceTables],
    [deleteTables]) preserves, that [totalSize] is the sum of the sizes of
    the tables of the handler in [int64] arithmetic; so it holds of every
    handler that [newLevelHandler] and the mutations produce, and
    [totalSize] is the mathematical sum whenever that sum fits [int64]. *)
Theorem total_size_accounting (opt : Options) :
  (∀ s tbls, size_accounted (initTables s tbls))
  ∧ (∀ s s', mutation remove_file opt s s' → size_accounted s → size_accounted s')
  ∧ (∀ lvl s, reachable remove_file opt lvl s → size_accounted s)
  ∧ (∀ lvl s, reachable remove_file opt lvl s →
       - 2 ^ 63 ≤ sum_sizes (tables s) < 2 ^ 63 →
       totalSize s = sum_sizes (tables s)).
Proof.
  assert (Hstep : ∀ s s', mutation remove_file opt s s' →
                          size_accounted s → size_accounted s').
  { intros s s' Hm Hs. destruct Hm.
    - apply initTables_accounted.
    - eapply tryAddLevel0Table_accounted; eassumption.
    - eapply replaceTables_accounted; eassumption.
    - eapply deleteTables_accounted; eassumption. }
  assert (Hreach : ∀ lvl s, reachable remove_file opt lvl s → size_accounted s).
  { intros lvl s Hr. induction Hr as [|s s' _ IH Hm].
    - reflexivity.
    - exact (Hstep _ _ Hm IH). }
  split; [exact initTables_accounted|]. split; [exact Hstep|]. split; [exact Hreach|].
  intros lvl s Hr Hrange. rewrite (Hreach lvl s Hr). by apply wrap64_small.
Qed.

End SizeAccounting.

(** ** The ordering invariant of a level ≥ 1 *)

Section Adjacent.
Context {A : Type} (R : A → A → Prop).

Lemma adjacent_cons a l :
  sort.adjacent R l → (∀ b, head l = Some b → R a b) → sort.adjacent R (a :: l).
Proof. destruct l as [|b l]; simpl; auto. Qed.

Lemma adjacent_app l1 l2 :
  sort.adjacent R l1 → sort.adjacent R l2 →
  (∀ a b, last l1 = Some a → head l2 = Some b → R a b) →
  sort.adjacent R (l1 ++ l2).
Proof.
  induction l1 as [|a l1 IH]; intros H1 H2 Hb; [exact H2|].
  simpl. apply adjacent_cons.
  - apply IH; [eapply adjacent_cons_inv, H1 | exact H2 |].
    intros x y Hx Hy. apply Hb; [|exact Hy].
    destruct l1; [discriminate | exact Hx].
  - intros b Hhd. destruct l1 as [|c l1]; simpl in *.
    + apply Hb; [reflexivity | exact Hhd].
    + inversion Hhd; subst. apply H1.
Qed.

Lemma adjacent_take n l : sort.adjacent R l → sort.adjacent R (take n l).
Proof.
  revert n. induction l as [|a l IH]; intros [|n] H; simpl; auto.
  apply adjacent_cons; [apply IH; eapply adjacent_cons_inv, H|].
  intros b Hb. destruct l as [|c l]; destruct n; simpl in *; try discriminate.
  inversion Hb; subst. apply H.
Qed.

Lemma adjacent_drop n l : sort.adjacent R l → sort.adjacent R (drop n l).
Proof.
  revert n. induction l as [|a l IH]; intros [|n] H; simpl; auto.
  apply IH. eapply adjacent_cons_inv, H.
Qed.

Lemma adjacent_filter `{!Transitive R} (p : A → bool) l :
  sort.adjacent R l → sort.adjacent R (List.filter p l).
Proof.
  induction l as [|a l IH]; intros H; simpl; [exact I|].
  pose proof (IH (adjacent_cons_inv _ _ _ H)) as Hl.
  destruct (p a); [|exact Hl].
  apply adjacent_cons; [exact Hl|].
  intros b Hb.
  assert (Hin : In b (List.filter p l)) by (destruct (List.filter p l); [discriminate | inversion Hb; subst; by left]).
  apply filter_In in Hin as [Hin _].
  apply list_elem_of_In, list_elem_of_lookup in Hin as [j Hj].
  eapply adjacent_head; eassumption.
Qed.

End Adjacent.

Section Ordering.
Context {KO : KeyOrder}.

#[local] Instance before_trans : Transitive before.
Proof.
  intros a b c (Ha & Hab & Hb) (_ & Hbc & Hc). split; [exact Ha|]. split; [|exact Hc].
  unfold table_wf in Hb. apply Z.leb_le in Hb.
  eapply CompareKeys_lt_trans; [|exact Hbc].
  eapply CompareKeys_lt_le_trans; eassumption.
Qed.

Lemma level_inv_spec (l : list Table) :
  level_inv l = true ↔ forallb table_wf l = true ∧ sort.adjacent before l.
Proof.
  unfold level_inv. rewrite andb_true_iff.
  split; intros [Hwf Hord]; (split; [exact Hwf|]).
  - induction l as [|a [|b l] IH]; simpl in *; try exact I.
    apply andb_prop in Hwf as [Ha Hwf]. apply andb_prop in Hord as [Hab Hord].
    split; [|apply IH; assumption].
    apply andb_prop in Hwf as Hwf'. destruct Hwf' as [Hb _].
    unfold before. apply Z.ltb_lt in Hab. auto.
  - induction l as [|a [|b l] IH]; simpl in *; try reflexivity.
    apply andb_prop in Hwf as [Ha Hwf]. destruct Hord as [(_ & Hab & _) Hord].
    apply andb_true_intro. split; [by apply Z.ltb_lt | apply IH; assumption].
Qed.

(** Under the invariant, the four assertions of [assertTablesOrder] hold. *)
Lemma level_inv_assert (l : list Table) :
  level_inv l = true → assertTablesOrder l = true.
Proof.
  intros [Hwf Hadj]%level_inv_spec.
  induction l as [|a [|b l] IH]; simpl in *; try reflexivity.
  apply andb_prop in Hwf as [Ha Hwf]. destruct Hadj as [(_ & Hab & Hb) Hadj].
  unfold table_wf in Ha, Hb. apply Z.leb_le in Ha, Hb.
  rewrite (IH Hwf Hadj), andb_true_r.
  repeat (apply andb_true_intro; split).
  - by apply Z.leb_le.
  - apply Z.ltb_lt. eapply CompareKeys_le_lt_trans; eassumption.
  - apply Z.ltb_lt. eapply CompareKeys_lt_le_trans; eassumption.
  - by apply Z.ltb_lt.
Qed.

(** Conversely, tables that pass [assertTablesOrder] and are well formed
    satisfy the invariant. *)
Lemma assert_level_inv (l : list Table) :
  assertTablesOrder l = true → forallb table_wf l = true → level_inv l = true.
Proof.
  intros Has Hwf. unfold level_inv. rewrite Hwf. simpl.
  induction l as [|a [|b l] IH]; simpl in *; try reflexivity.
  apply andb_prop in Hwf as [_ Hwf].
  repeat (apply andb_prop in Has as [Has ?]).
  apply andb_true_intro. split; [assumption | apply IH; assumption].
Qed.

Lemma level_inv_ordered (l : list Table) : level_inv l = true → tables_ordered l = true.
Proof. unfold level_inv. by intros [_ ?]%andb_prop. Qed.

Lemma level_inv_wf (l : list Table) t :
  level_inv l = true → t ∈ l → CompareKeys (Smallest t) (Biggest t) ≤ 0.
Proof.
  intros [Hwf _]%level_inv_spec Hin. rewrite forallb_forall in Hwf.
  apply list_elem_of_In in Hin. apply Z.leb_le, (Hwf t Hin).
Qed.

(** Under the invariant a table at a smaller index lies wholly before a
    table at a larger index. *)
Lemma level_inv_lookup (l : list Table) i j a b :
  level_inv l = true → (i < j)%nat → l !! i = Some a → l !! j = Some b →
  CompareKeys (Biggest a) (Smallest b) < 0.
Proof.
  intros [_ Hadj]%level_inv_spec Hij Ha Hb.
  by destruct (adjacent_lookup before l Hadj i j a b Hij Ha Hb) as (_ & ? & _).
Qed.

Lemma level_inv_filter (p : Table → bool) (l : list Table) :
  level_inv l = true → level_inv (List.filter p l) = true.
Proof.
  intros [Hwf Hadj]%level_inv_spec. apply level_inv_spec. split.
  - rewrite forallb_forall in *. intros t [Hin _]%filter_In. by apply Hwf.
  - by apply adjacent_filter; [apply before_trans|].
Qed.

(** The predicates of the three binary searches are monotone along a table
    list that satisfies the invariant. *)
Lemma biggest_ge_monotone (l : list Table) (key : Key) :
  level_inv l = true →
  sort.monotone_on (λ t, CompareKeys (Biggest t) key >=? 0) l.
Proof.
  intros Hinv i j a b Hij Ha Hb Hp.
  destruct (decide (i = j)) as [->|Hne]; [congruence|].
  pose proof (level_inv_lookup l i j a b Hinv ltac:(lia) Ha Hb) as Hab.
  pose proof (level_inv_wf l b Hinv (list_elem_of_lookup_2 _ _ _ Hb)) as Hwb.
  apply Z.geb_le in Hp. apply Z.geb_le. apply CompareKeys_ge_flip in Hp.
  apply CompareKeys_ge_flip.
  eapply CompareKeys_trans; [exact Hp|].
  pose proof (CompareKeys_lt_le_trans _ _ _ Hab Hwb). lia.
Qed.

Lemma left_monotone (l : list Table) (start : Key) :
  level_inv l = true →
  sort.monotone_on (λ t, CompareKeys start (Biggest t) <=? 0) l.
Proof.
  intros Hinv i j a b Hij Ha Hb Hp.
  destruct (decide (i = j)) as [->|Hne]; [congruence|].
  pose proof (level_inv_lookup l i j a b Hinv ltac:(lia) Ha Hb) as Hab.
  pose proof (level_inv_wf l b Hinv (list_elem_of_lookup_2 _ _ _ Hb)) as Hwb.
  apply Z.leb_le in Hp. apply Z.leb_le.
  eapply CompareKeys_trans; [exact Hp|].
  pose proof (CompareKeys_lt_le_trans _ _ _ Hab Hwb). lia.
Qed.

Lemma right_monotone (l : list Table) (end_ : Key) :
  level_inv l = true →
  sort.monotone_on (λ t, CompareKeys end_ (Smallest t) <? 0) l.
Proof.
  intros Hinv i j a b Hij Ha Hb Hp.
  destruct (decide (i = j)) as [->|Hne]; [congruence|].
  pose proof (level_inv_lookup l i j a b Hinv ltac:(lia) Ha Hb) as Hab.
  pose proof (level_inv_wf l a Hinv (list_elem_of_lookup_2 _ _ _ Ha)) as Hwa.
  apply Z.ltb_lt in Hp. apply Z.ltb_lt.
  eapply CompareKeys_lt_trans; [exact Hp|].
  eapply CompareKeys_le_lt_trans; eassumption.
Qed.

End Ordering.

(** ** C1: the tables to look a key up in, at a level ≥ 1 *)

Section RefTables.
Context {KO : KeyOrder}.

Lemma refLevelNTable_find (s : levelHandler) (key : Key) (w : gmap N Z) :
  level_inv (tables s) = true →
  refLevelNTable s key w =
    match List.find (λ t, CompareKeys (Biggest t) key >=? 0) (tables s) with
    | Some tbl => (Some tbl, IncrRef tbl w)
    | None => (None, w)
    end.
Proof.
  intros Hinv. unfold refLevelNTable.
  rewrite sort_facts.Search_first_index by (apply biggest_ge_monotone, Hinv).
  by rewrite sort_facts.first_index_find.
Qed.

(** At a level ≥ 1 under the invariant: what [refTablesForKey] returns,
    when it returns nothing, and how the table returned relates to the
    tables whose range contains the key. *)
Lemma refTablesForKey_first (s : levelHandler) (key : Key) (w : gmap N Z) :
  level s ≠ 0 →
  level_inv (tables s) = true →
  refTablesForKey s key w =
    match List.find (λ t, CompareKeys (Biggest t) key >=? 0) (tables s) with
    | Some tbl => ([tbl], IncrRef tbl w)
    | None => ([], w)
    end
  ∧ ((refTablesForKey s key w).1 = []
     ↔ ∀ t, t ∈ tables s → CompareKeys (Biggest t) key < 0)
  ∧ (∀ t, t ∈ tables s → table_contains t key = true →
       (refTablesForKey s key w).1 = [t])
  ∧ (∀ t, (refTablesForKey s key w).1 = [t] →
       t ∈ tables s
       ∧ (table_contains t key = true ↔ CompareKeys (Smallest t) key ≤ 0)).
Proof.
  intros Hlvl Hinv.
  assert (E : refTablesForKey s key w =
    match List.find (λ t, CompareKeys (Biggest t) key >=? 0) (tables s) with
    | Some tbl => ([tbl], IncrRef tbl w)
    | None => ([], w)
    end).
  { unfold refTablesForKey. destruct (Z.eqb_spec (level s) 0); [contradiction|].
    rewrite refLevelNTable_find by exact Hinv. by destruct (List.find _ _). }
  split; [exact E|]. rewrite E. clear E.
  set (p := λ t : Table, CompareKeys (Biggest t) key >=? 0).
  split; [|split].
  - destruct (List.find p (tables s)) as [t0|] eqn:Hfind; simpl.
    + split; [discriminate|]. intros Hall.
      apply find_some in Hfind as [Hin Hp]. apply list_elem_of_In in Hin.
      specialize (Hall t0 Hin). unfold p in Hp. apply Z.geb_le in Hp. lia.
    + split; [|reflexivity]. intros _ t Hin. apply list_elem_of_In in Hin.
      pose proof (find_none _ _ Hfind t Hin) as Hn. unfold p in Hn.
      destruct (Z.geb_spec (CompareKeys (Biggest t) key) 0); [discriminate | lia].
  - intros t Hin Hc.
    apply andb_prop in Hc as [Hsk Hkb]. apply Z.leb_le in Hsk, Hkb.
    assert (Hpt : p t = true).
    { unfold p. apply Z.geb_le. by apply CompareKeys_ge_flip. }
    apply list_elem_of_lookup in Hin as [j Hj].
    rewrite <- sort_facts.first_index_find.
    set (idx := sort.first_index p (tables s)).
    assert (Hidx_le : (idx ≤ j)%nat).
    { destruct (Nat.le_gt_cases idx j) as [|Hlt]; [assumption|].
      pose proof (sort_facts.first_index_before p (tables s) j Hlt) as Hb.
      unfold sort.at_index in Hb. rewrite Hj in Hb. congruence. }
    destruct (decide (idx = j)) as [->|Hne]; [by rewrite Hj|exfalso].
    assert (Hlen : (idx < length (tables s))%nat)
      by (apply lookup_lt_Some in Hj; lia).
    pose proof (sort_facts.first_index_at p (tables s) Hlen) as Hat.
    unfold sort.at_index in Hat. fold idx in Hat.
    destruct (tables s !! idx) as [t0|] eqn:Ht0; [|discriminate].
    pose proof (level_inv_lookup _ idx j t0 t Hinv ltac:(lia) Ht0 Hj) as Hlt.
    unfold p in Hat. apply Z.geb_le, CompareKeys_ge_flip in Hat.
    pose proof (CompareKeys_lt_le_trans _ _ _ Hlt Hsk) as Hc.
    pose proof (CompareKeys_flip (Biggest t0) key). lia.
  - intros t Ht.
    destruct (List.find p (tables s)) as [t0|] eqn:Hfind; [|discriminate].
    injection Ht as ->.
    apply find_some in Hfind as [Hin Hp]. apply list_elem_of_In in Hin.
    split; [exact Hin|].
    unfold p in Hp. apply Z.geb_le, CompareKeys_ge_flip in Hp.
    unfold table_contains. rewrite andb_true_iff, !Z.leb_le. tauto.
Qed.

(** C1, as the code has it.  At a level ≥ 1 whose tables satisfy the
    sorted non-overlapping invariant, [refTablesForKey] returns the first
    table whose [biggest_key] is at least the key, with its reference count
    incremented, and nothing exactly when the key is greater than every
    [biggest_key].  A table whose range contains the key is the one
    returned; the table returned contains the key exactly when its
    [smallest_key] is at most the key; so the tables whose range contains
    the key are those among the returned ones whose range contains it. *)
Theorem refTablesForKey_levelN (s : levelHandler) (key : Key) (w : gmap N Z) :
  level s ≠ 0 →
  level_inv (tables s) = true →
  refTablesForKey s key w =
    match List.find (λ t, CompareKeys (Biggest t) key >=? 0) (tables s) with
    | Some tbl => ([tbl], IncrRef tbl w)
    | None => ([], w)
    end
  ∧ ((refTablesForKey s key w).1 = []
     ↔ ∀ t, t ∈ tables s → CompareKeys (Biggest t) key < 0)
  ∧ (∀ t, t ∈ tables s → table_contains t key = true →
       (refTablesForKey s key w).1 = [t])
  ∧ (∀ t, (refTablesForKey s key w).1 = [t] →
       t ∈ tables s
       ∧ (table_contains t key = true ↔ CompareKeys (Smallest t) key ≤ 0))
  ∧ (∀ t, t ∈ containing_tables (tables s) key
          ↔ t ∈ List.filter (λ t, table_contains t key) (refTablesForKey s key w).1).
Proof.
  intros Hlvl Hinv.
  destruct (refTablesForKey_first s key w Hlvl Hinv) as (E & Hnil & Hin & Hout).
  repeat (split; [assumption|]).
  intros t. unfold containing_tables. rewrite !list_elem_of_In, !filter_In.
  rewrite <- !list_elem_of_In. split.
  - intros [Ht Hc]. rewrite (Hin t Ht Hc). split; [apply list_elem_of_here | exact Hc].
  - intros [Ht Hc]. split; [|exact Hc].
    destruct (refTablesForKey s key w).1 as [|t0 [|t1 r]] eqn:Hr.
    + by apply elem_of_nil in Ht.
    + apply list_elem_of_singleton in Ht as ->. by apply (Hout t0).
    + rewrite E in Hr. by destruct (List.find _ _).
Qed.

End RefTables.

(** C1 on two tables: a key inside the second table, and a key past the
    last table. *)
Lemma refTablesForKey_levelN_witness :
  let s := {| tables := [btable 1 "b" "d" 10; btable 2 "f" "h" 20];
              totalSize := 30; level := 1; maxTotalSize := 100 |} in
  (refTablesForKey s (bkey "g" "000") ∅).1 = [btable 2 "f" "h" 20]
  ∧ (refTablesForKey s (bkey "z" "000") ∅).1 = [].
Proof.
  intros s.
  pose proof (refTablesForKey_levelN s (bkey "g" "000") ∅ ltac:(discriminate) eq_refl)
    as (_ & _ & Hin & _ & _).
  pose proof (refTablesForKey_levelN s (bkey "z" "000") ∅ ltac:(discriminate) eq_refl)
    as (_ & Hnone & _ & _ & _).
  split.
  - apply Hin; [|reflexivity]. apply list_elem_of_In. right. left. reflexivity.
  - apply Hnone. intros t Ht. apply list_elem_of_In in Ht.
    destruct Ht as [<-|[<-|[]]]; reflexivity.
Defined.

(** C1 as stated fails when the key falls in a gap between the tables (or
    before the first one): no table's range contains the key, yet the next
    table is returned, with its reference count incremented. *)
Lemma refTablesForKey_gap_counterexample :
  let s := {| tables := [btable 1 "b" "d" 10; btable 2 "f" "h" 20];
              totalSize := 30; level := 1; maxTotalSize := 100 |} in
  let key := bkey "e" "000" in
  level_inv (tables s) = true
  ∧ containing_tables (tables s) key = []
  ∧ refTablesForKey s key ∅ = ([btable 2 "f" "h" 20], {[ 2%N := 1 ]})
  ∧ (refTablesForKey s key ∅).1 ≠ containing_tables (tables s) key.
Proof. repeat split; try reflexivity. discriminate. Qed.

(** ** C2: replacing the tables that overlap the new ones *)

Section ReplaceTables.
Context {KO : KeyOrder}.
Variable remove_file : N → bool.

Lemma first_index_le_iff {A} (p : A → bool) (l : list A) i x :
  sort.monotone_on p l → l !! i = Some x →
  (sort.first_index p l ≤ i)%nat ↔ p x = true.
Proof.
  intros Hmono Hx. split.
  - intros Hle.
    assert (Hlen : (sort.first_index p l < length l)%nat)
      by (apply lookup_lt_Some in Hx; lia).
    pose proof (sort_facts.first_index_at p l Hlen) as Hat. unfold sort.at_index in Hat.
    destruct (l !! sort.first_index p l) as [y|] eqn:Hy; [|discriminate].
    exact (Hmono _ i y x Hle Hy Hx Hat).
  - intros Hp. destruct (Nat.le_gt_cases (sort.first_index p l) i) as [|Hlt]; [assumption|].
    pose proof (sort_facts.first_index_before p l i Hlt) as Hb.
    unfold sort.at_index in Hb. rewrite Hx in Hb. congruence.
Qed.

Lemma last_take_lookup {A} (l : list A) n a :
  last (take n l) = Some a → ∃ i, (i < n)%nat ∧ l !! i = Some a.
Proof.
  rewrite last_lookup. intros H. apply lookup_take_Some in H as [H Hlt]. eauto.
Qed.

Lemma head_drop_lookup {A} (l : list A) n : head (drop n l) = l !! n.
Proof. rewrite head_lookup, lookup_drop. f_equal. lia. Qed.

Lemma last_default {A} (x : A) l : last (x :: l) = Some (List.last (x :: l) x).
Proof.
  revert x. induction l as [|y l IH]; intros x; [reflexivity|].
  rewrite last_cons_cons, IH. simpl. f_equal. destruct l; [reflexivity|].
  clear. revert y. generalize a. induction l as [|z l IHl]; intros b y; [reflexivity|].
  simpl in *. apply IHl.
Qed.

Lemma forallb_take {A} (p : A → bool) n l : forallb p l = true → forallb p (take n l) = true.
Proof.
  rewrite !forallb_forall. intros H x Hx. apply H.
  apply list_elem_of_In in Hx. apply list_elem_of_In. by apply (subseteq_take n l).
Qed.

Lemma forallb_drop {A} (p : A → bool) n l : forallb p l = true → forallb p (drop n l) = true.
Proof.
  rewrite !forallb_forall. intros H x Hx. apply H.
  apply list_elem_of_In in Hx. apply list_elem_of_In. by apply (subseteq_drop n l).
Qed.

(** The key range of strictly ordered new tables is not empty. *)
Lemma level_inv_range (first : Table) (rest : list Table) :
  level_inv (first :: rest) = true →
  CompareKeys (Smallest first) (Biggest (List.last (first :: rest) first)) ≤ 0.
Proof.
  intros Hinv.
  pose proof (last_default first rest) as Hlast. rewrite last_lookup in Hlast.
  set (z := List.last (first :: rest) first) in *.
  pose proof (level_inv_wf _ z Hinv (list_elem_of_lookup_2 _ _ _ Hlast)) as Hz.
  destruct rest as [|t rest]; [exact Hz|].
  pose proof (level_inv_wf _ first Hinv (list_elem_of_here _ _)) as Hf.
  pose proof (level_inv_lookup _ 0 (pred (length (first :: t :: rest))) first z Hinv
                ltac:(simpl; lia) eq_refl Hlast) as Hfz.
  pose proof (CompareKeys_le_lt_trans _ _ _ Hf Hfz).
  pose proof (CompareKeys_lt_le_trans _ _ _ H Hz). lia.
Qed.

Lemma fold_add_incr_cons (first : Table) (rest : list Table) a (w : gmap N Z) :
  fold_left (λ '(total, w) tbl, (wrap64 (total + Size tbl), IncrRef tbl w))
            (first :: rest) (a, w)
  = (wrap64 (a + sum_sizes (first :: rest)),
     fold_left (λ w tbl, IncrRef tbl w) (first :: rest) w).
Proof. simpl. rewrite fold_add_incr. do 2 f_equal. lia. Qed.

(** The two binary searches of [getTablesInRange] on tables that satisfy
    the invariant, for a key range that is not empty: the indices are a
    half-open range, a table is at or past [left] exactly when it ends at or
    after the left key, and at or past [right] exactly when it starts after
    the right key. *)
Lemma overlappingTables_range (s : levelHandler) (kl kr : Key) (left_ right_ : nat) :
  level_inv (tables s) = true →
  CompareKeys kl kr ≤ 0 →
  overlappingTables s kl kr = (left_, right_) →
  (left_ ≤ right_ ≤ length (tables s))%nat
  ∧ (∀ i t, tables s !! i = Some t →
       (left_ ≤ i)%nat ↔ (CompareKeys kl (Biggest t) <=? 0) = true)
  ∧ (∀ i t, tables s !! i = Some t →
       (right_ ≤ i)%nat ↔ (CompareKeys kr (Smallest t) <? 0) = true).
Proof.
  intros Hinv Hrange Hov.
  unfold overlappingTables, getTablesInRange in Hov.
  rewrite !sort_facts.Search_first_index in Hov
    by (apply left_monotone || apply right_monotone; exact Hinv).
  injection Hov as Hl Hr.
  set (pL := λ t : Table, CompareKeys kl (Biggest t) <=? 0) in *.
  set (pR := λ t : Table, CompareKeys kr (Smallest t) <? 0) in *.
  pose proof (left_monotone (tables s) kl Hinv) as HmL. fold pL in HmL.
  pose proof (right_monotone (tables s) kr Hinv) as HmR. fold pR in HmR.
  assert (HidxL : ∀ i t, tables s !! i = Some t → (left_ ≤ i)%nat ↔ pL t = true).
  { intros i t Ht. rewrite <- Hl. by apply first_index_le_iff. }
  assert (HidxR : ∀ i t, tables s !! i = Some t → (right_ ≤ i)%nat ↔ pR t = true).
  { intros i t Ht. rewrite <- Hr. by apply first_index_le_iff. }
  split; [|split; assumption].
  split; [|rewrite <- Hr; apply sort_facts.first_index_le].
  destruct (Nat.le_gt_cases left_ right_) as [|Hlt]; [assumption|exfalso].
  assert (Hlen : (right_ < length (tables s))%nat).
  { pose proof (sort_facts.first_index_le pL (tables s)). lia. }
  destruct (lookup_lt_is_Some_2 _ _ Hlen) as [t Ht].
  pose proof (proj1 (HidxR right_ t Ht) ltac:(lia)) as HpR.
  assert (HpL : pL t = false).
  { destruct (pL t) eqn:E; [|reflexivity]. apply (HidxL right_ t Ht) in E. lia. }
  unfold pL, pR in *. apply Z.ltb_lt in HpR. apply Z.leb_gt in HpL.
  pose proof (level_inv_wf _ t Hinv (list_elem_of_lookup_2 _ _ _ Ht)) as Hwf.
  pose proof (CompareKeys_lt_trans _ _ _ (CompareKeys_le_lt_trans _ _ _ Hrange HpR)
                (CompareKeys_le_lt_trans _ _ _ Hwf (proj2 (CompareKeys_flip _ _) HpL))).
  pose proof (CompareKeys_flip kl kl). lia.
Qed.

(** Putting the new tables in the place of [tables[left..right]] keeps the
    invariant. *)
Lemma splice_level_inv (s : levelHandler) (first : Table) (rest : list Table)
    (left_ right_ : nat) :
  level_inv (tables s) = true →
  level_inv (first :: rest) = true →
  overlappingTables s (Smallest first) (Biggest (List.last (first :: rest) first))
    = (left_, right_) →
  level_inv (take left_ (tables s) ++ (first :: rest) ++ drop right_ (tables s)) = true.
Proof.
  intros Hinv Hnew Hov.
  destruct (overlappingTables_range s _ _ left_ right_ Hinv
              (level_inv_range first rest Hnew) Hov) as (Hbounds & HidxL & HidxR).
  apply level_inv_spec in Hinv as [Hwf Hadj].
  apply level_inv_spec in Hnew as [Hwfn Hadjn].
  apply level_inv_spec. split.
  - rewrite !forallb_app. by rewrite (forallb_take _ _ _ Hwf), (forallb_drop _ _ _ Hwf), Hwfn.
  - rewrite forallb_forall in Hwf, Hwfn.
    apply adjacent_app; [by apply adjacent_take | |].
    + apply adjacent_app; [exact Hadjn | by apply adjacent_drop |].
      intros a b Ha Hb. rewrite last_default in Ha.
      injection Ha as <-. rewrite head_drop_lookup in Hb.
      pose proof (proj1 (HidxR right_ b Hb) ltac:(lia)) as HpR.
      apply Z.ltb_lt in HpR.
      split; [|split; [exact HpR|]].
      * apply Hwfn. pose proof (last_default first rest) as Hlast.
        apply last_Some_elem_of, list_elem_of_In in Hlast. exact Hlast.
      * apply Hwf, list_elem_of_In. by eapply list_elem_of_lookup_2.
    + intros a b Ha Hb. simpl in Hb. injection Hb as <-.
      apply last_take_lookup in Ha as (i & Hi & Ha).
      assert (HpL : (CompareKeys (Smallest first) (Biggest a) <=? 0) = false).
      { destruct (_ <=? _) eqn:E; [|reflexivity]. apply (HidxL i a Ha) in E. lia. }
      apply Z.leb_gt in HpL.
      split; [|split].
      * apply Hwf, list_elem_of_In. by eapply list_elem_of_lookup_2.
      * by apply CompareKeys_flip.
      * apply Hwfn. by left.
Qed.

(** What [replaceTables] does with a non-empty list of new tables when none
    of its assertions fails. *)
Lemma replaceTables_cons_eq (s : levelHandler) (first : Table) (rest : list Table)
    (w : gmap N Z) (left_ right_ : nat) :
  assertTablesOrder (first :: rest) = true →
  overlappingTables s (Smallest first) (Biggest (List.last (first :: rest) first))
    = (left_, right_) →
  (left_ ≤ right_)%nat →
  assertTablesOrder (take left_ (tables s) ++ (first :: rest) ++ drop right_ (tables s))
    = true →
  let replaced := take (right_ - left_) (drop left_ (tables s)) in
  let w1 := fold_left (λ w tbl, IncrRef tbl w) (first :: rest) w in
  replaceTables remove_file s (first :: rest) w
  = Some ((decrRefs remove_file replaced w1).1,
          {| tables := take left_ (tables s) ++ (first :: rest) ++ drop right_ (tables s);
             totalSize := wrap64 (totalSize s + sum_sizes (first :: rest) - sum_sizes replaced);
             level := level s; maxTotalSize := maxTotalSize s |},
          (decrRefs remove_file replaced w1).2).
Proof.
  intros Hnew Hov Hle Hres replaced w1. subst replaced w1. unfold replaceTables.
  rewrite Hnew. simpl negb. cbv iota.
  rewrite fold_add_incr_cons, Hov.
  destruct (Nat.ltb_spec right_ left_) as [|_]; [lia|].
  change (take left_ (tables s) ++ first :: rest ++ drop right_ (tables s))
    with (take left_ (tables s) ++ (first :: rest) ++ drop right_ (tables s)).
  rewrite Hres. simpl negb. cbv iota.
  rewrite fold_sub_sizes.
  by destruct (decrRefs remove_file _ _).
Qed.

(** [replaceTables] on a handler that satisfies the invariant, with new
    tables that do: it succeeds and the invariant holds afterwards. *)
Lemma replaceTables_preserves (s : levelHandler) (newTables : list Table) (w : gmap N Z) :
  level_inv (tables s) = true →
  level_inv newTables = true →
  ∃ err s' w', replaceTables remove_file s newTables w = Some (err, s', w')
    ∧ level_inv (tables s') = true ∧ level s' = level s.
Proof.
  intros Hinv Hnew. destruct newTables as [|first rest].
  - exists None, s, w. auto.
  - destruct (overlappingTables s (Smallest first)
                (Biggest (List.last (first :: rest) first))) as [left_ right_] eqn:Hov.
    pose proof (splice_level_inv s first rest left_ right_ Hinv Hnew Hov) as Hinv'.
    destruct (overlappingTables_range s _ _ left_ right_ Hinv
                (level_inv_range first rest Hnew) Hov) as ((Hle & _) & _).
    eexists _, _, _. split.
    + apply (replaceTables_cons_eq s first rest w left_ right_);
        auto using level_inv_assert.
    + split; [exact Hinv' | reflexivity].
Qed.

(** C2, as the code has it.  For a handler of a level ≥ 1 whose tables
    satisfy the invariant and a non-empty, strictly ordered list of new
    tables, with [kr = [first.smallest, last.biggest]]: the indices found
    are a half-open range [left ≤ right] that holds exactly the tables
    whose range intersects [kr]; [replaceTables] succeeds, puts the new
    tables in the place of [tables[left..right]], adds the sizes of the new
    tables to [totalSize] and subtracts those of the replaced ones ([int64]
    arithmetic), keeps the invariant, and increments the reference count of
    each new table.  It does not return the replaced tables: it calls
    [decrRefs] on exactly them itself, after the new list is installed, and
    returns the error of that call. *)
Theorem replaceTables_spec (s : levelHandler) (first : Table) (rest : list Table)
    (w : gmap N Z) (left_ right_ : nat) :
  1 ≤ level s →
  level_inv (tables s) = true →
  level_inv (first :: rest) = true →
  overlappingTables s (Smallest first) (Biggest (List.last (first :: rest) first))
    = (left_, right_) →
  let newTables := first :: rest in
  let replaced := take (right_ - left_) (drop left_ (tables s)) in
  let s' := {| tables := take left_ (tables s) ++ newTables ++ drop right_ (tables s);
               totalSize := wrap64 (totalSize s + sum_sizes newTables - sum_sizes replaced);
               level := level s; maxTotalSize := maxTotalSize s |} in
  let w1 := fold_left (λ w tbl, IncrRef tbl w) newTables w in
  (left_ ≤ right_ ≤ length (tables s))%nat
  ∧ (∀ i t, tables s !! i = Some t →
       (left_ ≤ i < right_)%nat
       ↔ table_overlaps (Smallest first) (Biggest (List.last newTables first)) t = true)
  ∧ replaceTables remove_file s newTables w
      = Some ((decrRefs remove_file replaced w1).1, s', (decrRefs remove_file replaced w1).2)
  ∧ level_inv (tables s') = true.
Proof.
  intros _ Hinv Hnew Hov newTables replaced s' w1.
  pose proof (splice_level_inv s first rest left_ right_ Hinv Hnew Hov) as Hinv'.
  destruct (overlappingTables_range s _ _ left_ right_ Hinv
              (level_inv_range first rest Hnew) Hov) as (Hbounds & HidxL & HidxR).
  split; [exact Hbounds|]. split; [|split; [|exact Hinv']].
  - intros i t Ht. unfold table_overlaps. rewrite andb_true_iff.
    rewrite <- (HidxL i t Ht).
    assert ((i < right_)%nat
            ↔ (CompareKeys (Smallest t) (Biggest (List.last newTables first)) <=? 0) = true);
      [|tauto].
    rewrite Z.leb_le, <- CompareKeys_ge_flip.
    pose proof (HidxR i t Ht) as HR. rewrite Z.ltb_lt in HR. subst newTables. lia.
  - apply (replaceTables_cons_eq s first rest w left_ right_);
      auto using level_inv_assert. lia.
Qed.

End ReplaceTables.

(** C2 on three tables: one new table that overlaps the first two. *)
Lemma replaceTables_spec_witness :
  let s := {| tables := [btable 1 "b" "d" 10; btable 2 "f" "h" 20; btable 3 "j" "l" 30];
              totalSize := 60; level := 1; maxTotalSize := 100 |} in
  let w : gmap N Z := {[ 1%N := 1; 2%N := 1; 3%N := 1 ]} in
  replaceTables (λ _, true) s [btable 4 "c" "g" 25] w
  = Some (None,
          {| tables := [btable 4 "c" "g" 25; btable 3 "j" "l" 30];
             totalSize := 55; level := 1; maxTotalSize := 100 |},
          {[ 1%N := 0; 2%N := 0; 3%N := 1; 4%N := 1 ]}).
Proof.
  intros s w.
  pose proof (replaceTables_spec (λ _, true) s (btable 4 "c" "g" 25) [] w 0 2
                ltac:(simpl; lia) eq_refl eq_refl eq_refl) as (_ & _ & H & _).
  rewrite H. reflexivity.
Defined.

(** C2 as stated fails on its last clause: the replaced tables are not
    handed back for a later dereference.  The value returned is the [nil]
    error, and on return the reference counts of the two replaced tables
    have already gone from 1 to 0. *)
Lemma replaceTables_decr_counterexample :
  let t1 := btable 1 "b" "d" 10 in
  let t2 := btable 2 "f" "h" 20 in
  let s := {| tables := [t1; t2; btable 3 "j" "l" 30];
              totalSize := 60; level := 1; maxTotalSize := 100 |} in
  let w : gmap N Z := {[ 1%N := 1; 2%N := 1; 3%N := 1 ]} in
  ∃ s' w', replaceTables (λ _, true) s [btable 4 "c" "g" 25] w = Some (None, s', w')
    ∧ ref_count w t1 = 1 ∧ ref_count w t2 = 1
    ∧ ref_count w' t1 = 0 ∧ ref_count w' t2 = 0.
Proof. eexists _, _. split; [reflexivity|]. repeat split. Qed.

(** ** C3: the ordering invariant along a history *)

Section OrderingPreserved.
Context {KO : KeyOrder}.
Variable remove_file : N → bool.

Lemma deleteTables_loop_fst (toDelMap : gset N) (tbls : list Table) : ∀ acc a,
  (fold_left (λ '(newTables, total) t,
     if bool_decide (ID t ∈ toDelMap) then (newTables, wrap64 (total - Size t))
     else (newTables ++ [t], total)) tbls (acc, a)).1
  = acc ++ List.filter (λ t, negb (bool_decide (ID t ∈ toDelMap))) tbls.
Proof.
  induction tbls as [|t tbls IH]; intros acc a; simpl.
  - by rewrite app_nil_r.
  - destruct (bool_decide (ID t ∈ toDelMap)); simpl; rewrite IH; [reflexivity|].
    by rewrite <- app_assoc.
Qed.

(** [deleteTables] on a handler that satisfies the invariant: it succeeds,
    keeps the tables whose id is not among those to delete, in order, and
    the invariant holds afterwards. *)
Lemma deleteTables_preserves (s : levelHandler) (toDel : list Table) (w : gmap N Z) :
  level_inv (tables s) = true →
  ∃ err s' w', deleteTables remove_file s toDel w = Some (err, s', w')
    ∧ tables s' =
        List.filter (λ t, negb (bool_decide (ID t ∈ (list_to_set (ID <$> toDel) : gset N))))
                    (tables s)
    ∧ level_inv (tables s') = true ∧ level s' = level s.
Proof.
  intros Hinv. unfold deleteTables.
  pose proof (deleteTables_loop_fst (list_to_set (ID <$> toDel)) (tables s) [] (totalSize s))
    as Hfst.
  fold (deleteTables_loop (list_to_set (ID <$> toDel)) (tables s) (totalSize s)) in Hfst.
  destruct (deleteTables_loop _ _ _) as [newTables total]. simpl in Hfst. subst newTables.
  pose proof (level_inv_filter
                (λ t, negb (bool_decide (ID t ∈ (list_to_set (ID <$> toDel) : gset N))))
                (tables s) Hinv) as Hinv'.
  rewrite (level_inv_assert _ Hinv'), andb_false_r.
  destruct (decrRefs remove_file toDel w) as [err w'].
  eexists _, _, _. split; [reflexivity|]. simpl. auto.
Qed.

Lemma run_op_preserves (s : levelHandler) (w : gmap N Z) (op : handler_op) :
  level_inv (tables s) = true →
  op_ordered op = true →
  ∃ s' w', run_op remove_file s w op = Some (s', w')
    ∧ level_inv (tables s') = true ∧ level s' = level s.
Proof.
  intros Hinv Hop. destruct op as [newTables|toDel]; simpl in *.
  - apply andb_prop in Hop as [Has Hwf].
    destruct (replaceTables_preserves remove_file s newTables w Hinv
                (assert_level_inv _ Has Hwf)) as (err & s' & w' & -> & Hinv' & Hl).
    simpl. eauto.
  - destruct (deleteTables_preserves s toDel w Hinv) as (err & s' & w' & -> & _ & Hinv' & Hl).
    simpl. eauto.
Qed.

(** C3.  From a handler of a level ≥ 1 whose tables satisfy the ordering
    invariant, any sequence of [replaceTables] calls with strictly ordered
    inputs and of [deleteTables] calls runs without a failed assertion, and
    at its end every table ends strictly before the next one starts:
    [tables[i].biggest_key < tables[i+1].smallest_key]. *)
Theorem ordering_preserved (s : levelHandler) (w : gmap N Z) (ops : list handler_op) :
  1 ≤ level s →
  level_inv (tables s) = true →
  forallb op_ordered ops = true →
  ∃ s' w', run_ops remove_file s w ops = Some (s', w')
    ∧ tables_ordered (tables s') = true
    ∧ (∀ i a b, tables s' !! i = Some a → tables s' !! S i = Some b →
         CompareKeys (Biggest a) (Smallest b) < 0).
Proof.
  intros _ Hinv Hops.
  assert (H : ∃ s' w', run_ops remove_file s w ops = Some (s', w')
                       ∧ level_inv (tables s') = true).
  { revert s w Hinv. induction ops as [|op ops IH]; intros s w Hinv; simpl.
    - eauto.
    - apply andb_prop in Hops as [Hop Hops].
      destruct (run_op_preserves s w op Hinv Hop) as (s1 & w1 & -> & Hinv1 & _).
      simpl. exact (IH Hops s1 w1 Hinv1). }
  destruct H as (s' & w' & Hrun & Hinv').
  exists s', w'. split; [exact Hrun|]. split; [by apply level_inv_ordered|].
  intros i a b Ha Hb. eapply (level_inv_lookup (tables s') i (S i)); eauto.
Qed.

End OrderingPreserved.

(** C3 on a history of two replacements and a deletion. *)
Lemma ordering_preserved_witness :
  let s := {| tables := [btable 1 "b" "d" 10; btable 2 "f" "h" 20; btable 3 "j" "l" 30];
              totalSize := 60; level := 1; maxTotalSize := 100 |} in
  let w : gmap N Z := {[ 1%N := 1; 2%N := 1; 3%N := 1 ]} in
  let ops := [OpReplace [btable 4 "c" "g" 25; btable 5 "h" "i" 5];
              OpDelete [btable 3 "j" "l" 30];
              OpReplace [btable 6 "m" "p" 7]] in
  ∃ s' w', run_ops (λ _, true) s w ops = Some (s', w')
    ∧ tables s' = [btable 4 "c" "g" 25; btable 5 "h" "i" 5; btable 6 "m" "p" 7]
    ∧ tables_ordered (tables s') = true.
Proof.
  intros s w ops.
  destruct (ordering_preserved (λ _, true) s w ops ltac:(simpl; lia) eq_refl eq_refl)
    as (s' & w' & Hrun & Hord & _).
  exists s', w'. split; [exact Hrun|]. split; [|exact Hord].
  vm_compute in Hrun. by injection Hrun as <- _.
Defined.

(** ** C6: the stall of [addLevel0Table] *)

Section Stall.
Context {KO : KeyOrder}.
Variable addChanges : list ManifestChange → option error.

(** The wait loop is left exactly when level 0 holds fewer tables than the
    compaction trigger and the total size of level 1 is strictly below its
    maximum. *)
Lemma unstall_test_spec (lc : levelsController) (l0 l1 : levelHandler) :
  levels lc !! 0%nat = Some l0 →
  levels lc !! 1%nat = Some l1 →
  - 2 ^ 63 ≤ maxTotalSize l1 < 2 ^ 63 →
  ∃ b, unstall_test lc = Some b
    ∧ (b = true ↔ numTables l0 < NumLevelZeroTables (opt lc)
                  ∧ totalSize l1 < maxTotalSize l1).
Proof.
  intros H0 H1 Hrange. unfold unstall_test, isL0Compactable, isCompactable, getTotalSize.
  rewrite H0. simpl. rewrite H1. simpl.
  rewrite Z.add_0_r, (wrap64_small _ Hrange).
  destruct (Z.geb_spec (numTables l0) (NumLevelZeroTables (opt lc))); simpl.
  - exists false. split; [reflexivity|]. split; [discriminate|lia].
  - eexists. split; [reflexivity|].
    destruct (Z.geb_spec (totalSize l1) (maxTotalSize l1)); simpl;
      split; (discriminate || lia || auto).
Qed.

Lemma step_from_wait (t : Table) (lc : levelsController) (w : gmap N Z) pc lc' w' :
  addLevel0Table_step t AddWait lc w = Some (pc, lc', w') →
  (pc = AddWait ∨ pc = AddTry) ∧ lc' = lc ∧ w' = w.
Proof.
  simpl. destruct (unstall_test lc) as [[|]|]; simpl; intros [= <- <- <-]; auto.
Qed.

Lemma step_from_try (t : Table) (lc : levelsController) (w : gmap N Z) pc lc' w' :
  addLevel0Table_step t AddTry lc w = Some (pc, lc', w') →
  pc = AddWait ∨ pc = AddDone None.
Proof.
  simpl. destruct (levels lc !! 0%nat) as [l0|]; simpl; [|discriminate].
  destruct (tryAddLevel0Table (opt lc) l0 t w) as [[[[|] l0'] w1]|]; simpl;
    intros [= <- <- <-]; auto.
Qed.

(** After the manifest append has succeeded, no schedule brings the
    goroutine to return an error. *)
Lemma run_no_error (t : Table) sched : ∀ pc pc',
  (pc = AddTry ∨ pc = AddWait ∨ pc = AddDone None) →
  addLevel0Table_run t pc sched = Some pc' →
  pc' = AddTry ∨ pc' = AddWait ∨ pc' = AddDone None.
Proof.
  induction sched as [|[lc w] sched IH]; intros pc pc' Hpc; simpl.
  - intros [= <-]. exact Hpc.
  - destruct (addLevel0Table_step t pc lc w) as [[[pc1 lc1] w1]|] eqn:Hstep;
      simpl; [|discriminate].
    apply IH. destruct Hpc as [-> | [-> | ->]].
    + apply step_from_try in Hstep. tauto.
    + apply step_from_wait in Hstep. tauto.
    + simpl in Hstep. injection Hstep as <- _ _. tauto.
Qed.

Lemma run_done (t : Table) err sched :
  ∀ pc', addLevel0Table_run t (AddDone err) sched = Some pc' → pc' = AddDone err.
Proof.
  induction sched as [|[lc w] sched IH]; intros pc'; simpl; [by intros [= <-]|].
  apply IH.
Qed.

(** C6, as the code has it.  (1) Whatever the other goroutines do,
    [addLevel0Table] returns an error only when the manifest append has
    failed, and that error is the one of the append.  (2) When level 0
    holds [NumLevelZeroTablesStall] tables or more, [tryAddLevel0Table]
    fails, nothing is changed and the goroutine enters the wait loop.
    (3) A turn of the wait loop changes nothing, and leaves the loop exactly
    when level 0 holds fewer tables than [NumLevelZeroTables] and the total
    size of level 1 is strictly below its [maxTotalSize] (so in particular
    at most its [maxTotalSize]), both with a zero delta.  (4) As long as, in
    every state that the goroutine finds, level 0 has reached the trigger or
    level 1 has reached its maximal size, it stays in the wait loop. *)
Theorem addLevel0Table_stall (t : Table) :
  (∀ sched err,
     addLevel0Table_run t (addLevel0Table_start addChanges t) sched = Some (AddDone (Some err)) →
     addChanges [makeTableCreateChange (ID t) 0] = Some err)
  ∧ (∀ lc w l0,
       levels lc !! 0%nat = Some l0 → level l0 = 0 →
       NumLevelZeroTablesStall (opt lc) ≤ numTables l0 →
       addLevel0Table_step t AddTry lc w = Some (AddWait, lc, w))
  ∧ (∀ lc w l0 l1,
       levels lc !! 0%nat = Some l0 → levels lc !! 1%nat = Some l1 →
       - 2 ^ 63 ≤ maxTotalSize l1 < 2 ^ 63 →
       ∃ pc, addLevel0Table_step t AddWait lc w = Some (pc, lc, w)
         ∧ (pc = AddTry ∨ pc = AddWait)
         ∧ (pc = AddTry ↔ numTables l0 < NumLevelZeroTables (opt lc)
                          ∧ totalSize l1 < maxTotalSize l1)
         ∧ (pc = AddTry → totalSize l1 ≤ maxTotalSize l1))
  ∧ (∀ sched,
       Forall (λ st, needs_compaction st.1) sched →
       addLevel0Table_run t AddWait sched = Some AddWait).
Proof.
  split; [|split; [|split]].
  - intros sched err. unfold addLevel0Table_start.
    destruct (addChanges _) as [e|].
    + intros Hrun. apply run_done in Hrun. congruence.
    + intros Hrun. apply run_no_error in Hrun; [|tauto].
      destruct Hrun as [|[|]]; discriminate.
  - intros [lvls cs o] w l0 H0 Hlvl Hstall. simpl in *. rewrite H0. simpl.
    unfold tryAddLevel0Table, numTables in *. rewrite Hlvl. simpl.
    destruct (Z.geb_spec (Z.of_nat (length (tables l0))) (NumLevelZeroTablesStall o));
      [|lia].
    simpl. by rewrite (list_insert_id _ _ _ H0).
  - intros lc w l0 l1 H0 H1 Hrange.
    destruct (unstall_test_spec lc l0 l1 H0 H1 Hrange) as (b & Hb & Hiff).
    simpl. rewrite Hb. simpl. eexists. split; [reflexivity|].
    destruct b.
    + split; [by left|]. split; [tauto|]. intros _. lia.
    + split; [by right|]. split; [|discriminate].
      split; [discriminate|]. intros H. apply Hiff in H. discriminate.
  - intros sched. induction 1 as [|[lc w] sched Hhd _ IH]; simpl; [reflexivity|].
    destruct Hhd as (l0 & l1 & H0 & H1 & Hrange & Hcond). simpl in H0, H1, Hcond.
    destruct (unstall_test_spec lc l0 l1 H0 H1 Hrange) as ([|] & Hb & Hiff).
    + destruct (proj1 Hiff eq_refl). lia.
    + rewrite Hb. simpl. exact IH.
Qed.

End Stall.

(** C6 as stated fails at the boundary: with level 0 empty (below the
    trigger) and the total size of level 1 equal to its maximum (so "at
    most" it), the test of the wait loop fails and the goroutine stays
    blocked, however often it polls. *)
Lemma addLevel0Table_wait_counterexample :
  let l0 := {| tables := []; totalSize := 0; level := 0; maxTotalSize := 0 |} in
  let l1 := {| tables := [btable 1 "b" "d" 100]; totalSize := 100; level := 1;
               maxTotalSize := 100 |} in
  let lc := {| levels := [l0; l1];
               cstatus := {| cs_levels := [ {| ranges := []; delSize := 0 |};
                                            {| ranges := []; delSize := 0 |} ] |};
               opt := {| NumLevelZeroTables := 5; NumLevelZeroTablesStall := 10;
                         MaxTableSize := 64 |} |} in
  numTables l0 < NumLevelZeroTables (opt lc)
  ∧ totalSize l1 ≤ maxTotalSize l1
  ∧ addLevel0Table_step (btable 7 "x" "y" 1) AddWait lc ∅ = Some (AddWait, lc, ∅)
  ∧ ∀ n, addLevel0Table_run (btable 7 "x" "y" 1) AddWait (replicate n (lc, ∅)) = Some AddWait.
Proof.
  intros l0 l1 lc. split; [reflexivity|]. split; [by vm_compute|]. split; [reflexivity|].
  induction n as [|n IH]; [reflexivity|]. simpl replicate.
  change (addLevel0Table_run (btable 7 "x" "y" 1) AddWait ((lc, ∅) :: replicate n (lc, ∅)))
    with (addLevel0Table_run (btable 7 "x" "y" 1) AddWait (replicate n (lc, ∅))).
  exact IH.
Qed.

(** ** Comparison of floats *)

Module float_facts.

Ltac cmp_cases :=
  repeat match goal with
  | |- context [Z.compare ?a ?b] => destruct (Z.compare_spec a b)
  | |- context [Pos.compare_cont Eq ?a ?b] =>
      change (Pos.compare_cont Eq a b) with (Pos.compare a b)
  | |- context [Pos.compare ?a ?b] => destruct (Pos.compare_spec a b)
  end;
  simpl; try reflexivity; try discriminate; try lia.

Lemma SFcompare_flip x y :
  SFcompare y x = option_map CompOpp (SFcompare x y).
Proof.
  destruct x as [[|]|[|]| |[|] m1 e1], y as [[|]|[|]| |[|] m2 e2]; simpl; try reflexivity;
    cmp_cases.
Qed.

Lemma SFleb_total x y :
  float64_is_nan x = false → float64_is_nan y = false →
  SFltb x y = false → SFleb y x = true.
Proof.
  intros Hx Hy. unfold SFltb, SFleb. rewrite (SFcompare_flip x y).
  destruct (SFcompare x y) as [[]|] eqn:E; simpl; try reflexivity; try discriminate.
  destruct x, y; simpl in *; discriminate.
Qed.

Lemma SFleb_trans x y z : SFleb x y = true → SFleb y z = true → SFleb x z = true.
Proof.
  unfold SFleb.
  destruct x as [[|]|[|]| |[|] m1 e1], y as [[|]|[|]| |[|] m2 e2], z as [[|]|[|]| |[|] m3 e3];
    simpl; try reflexivity; try discriminate; cmp_cases.
Qed.

(** [>] on floats is asymmetric, [NaN] or not. *)
Lemma float64_gt_asym x y : float64_gt x y = true → float64_gt y x = false.
Proof.
  unfold float64_gt, SFltb. rewrite (SFcompare_flip y x).
  destruct (SFcompare y x) as [[]|]; simpl; congruence.
Qed.

End float_facts.

(** ** Rounding to [float64] *)

Module rounding_facts.

(** The number of binary digits of a positive number. *)
Lemma digits2_pos_bounds (m : positive) :
  2 ^ (Zpos (digits2_pos m) - 1) ≤ Zpos m < 2 ^ Zpos (digits2_pos m).
Proof.
  induction m as [m IH|m IH|]; simpl digits2_pos.
  - rewrite Pos2Z.inj_succ.
    replace (Z.succ (Z.pos (digits2_pos m)) - 1) with (Z.succ (Z.pos (digits2_pos m) - 1)) by lia.
    rewrite !Z.pow_succ_r by lia. lia.
  - rewrite Pos2Z.inj_succ.
    replace (Z.succ (Z.pos (digits2_pos m)) - 1) with (Z.succ (Z.pos (digits2_pos m) - 1)) by lia.
    rewrite !Z.pow_succ_r by lia. lia.
  - simpl. lia.
Qed.

Lemma shr_1_m mrs : 0 ≤ shr_m mrs → shr_m (shr_1 mrs) = shr_m mrs / 2.
Proof.
  destruct mrs as [m r s]. cbn [shr_m]. intros Hm.
  destruct m as [|[p|p|]|p]; cbn [shr_1 shr_m]; try reflexivity; try lia.
  - apply Z.div_unique with (r := 1); lia.
  - apply Z.div_unique with (r := 0); lia.
Qed.

Lemma iter_pos_shr_m (p : positive) : ∀ mrs,
  0 ≤ shr_m mrs → shr_m (SpecFloat.iter_pos shr_1 p mrs) = shr_m mrs / 2 ^ Zpos p.
Proof.
  assert (Hnn : ∀ mrs, 0 ≤ shr_m mrs → 0 ≤ shr_m (shr_1 mrs)).
  { intros mrs H. rewrite shr_1_m by exact H. apply Z.div_pos; lia. }
  induction p as [p IH|p IH|]; intros mrs Hm; cbn [SpecFloat.iter_pos].
  - rewrite IH, IH, shr_1_m by (rewrite ?IH; auto using Z.div_pos with zarith).
    rewrite (Pos2Z.inj_xI p).
    replace (2 * Z.pos p + 1) with (1 + Z.pos p + Z.pos p) by lia.
    rewrite !Z.pow_add_r, Z.pow_1_r by lia.
    rewrite !Z.div_div by (try apply Z.pow_pos_nonneg; lia).
    f_equal. lia.
  - rewrite IH, IH by (rewrite ?IH; auto using Z.div_pos with zarith).
    rewrite (Pos2Z.inj_xO p).
    replace (2 * Z.pos p) with (Z.pos p + Z.pos p) by lia.
    rewrite !Z.pow_add_r by lia.
    rewrite !Z.div_div by (try apply Z.pow_pos_nonneg; lia). reflexivity.
  - rewrite shr_1_m by exact Hm. reflexivity.
Qed.

Lemma shr_record_of_loc_m m l : shr_m (shr_record_of_loc m l) = m.
Proof. by destruct l as [|[]]. Qed.

Lemma shr_m_nonneg mrs e n : 0 ≤ shr_m mrs → 0 ≤ shr_m (shr mrs e n).1.
Proof.
  intros Hm. destruct n as [|p|p]; simpl; try exact Hm.
  rewrite iter_pos_shr_m by exact Hm. apply Z.div_pos; [exact Hm|].
  apply Z.pow_pos_nonneg; lia.
Qed.

Lemma round_nearest_even_bounds m l :
  m ≤ round_nearest_even m l ≤ m + 1.
Proof. destruct l as [|[]]; simpl; try lia. destruct (Z.even m); lia. Qed.

(** Rounding a non-negative mantissa never yields [NaN]. *)
Lemma binary_round_aux_not_nan sx m e l :
  0 ≤ m → float64_is_nan (binary_round_aux 53 1024 sx m e l) = false.
Proof.
  intros Hm. unfold binary_round_aux, shr_fexp.
  pose proof (shr_m_nonneg (shr_record_of_loc m l) e
                (fexp 53 1024 (Zdigits2 m + e) - e)) as H1.
  rewrite shr_record_of_loc_m in H1. specialize (H1 Hm).
  destruct (shr (shr_record_of_loc m l) e _) as [mrs' e'] eqn:E1. simpl in H1.
  set (m2 := round_nearest_even (shr_m mrs') (loc_of_shr_record mrs')).
  assert (Hm2 : 0 ≤ m2) by (pose proof (round_nearest_even_bounds (shr_m mrs')
                                        (loc_of_shr_record mrs')); subst m2; lia).
  pose proof (shr_m_nonneg (shr_record_of_loc m2 loc_Exact) e'
                (fexp 53 1024 (Zdigits2 m2 + e') - e')) as H2.
  rewrite shr_record_of_loc_m in H2. specialize (H2 Hm2).
  destruct (shr (shr_record_of_loc m2 loc_Exact) e' _) as [mrs'' e''] eqn:E2. simpl in H2.
  destruct (shr_m mrs'') as [|p|p]; [reflexivity| |lia].
  by destruct (e'' <=? 1024 - 53).
Qed.

Lemma float64_of_int_not_nan z : float64_is_nan (float64_of_int z) = false.
Proof.
  unfold float64_of_int, binary_normalize, binary_round.
  destruct z as [|m|m]; [reflexivity| |];
    destruct (shl_align m 0 _) as [mz ez]; by apply binary_round_aux_not_nan.
Qed.

(** Dividing by a finite float that is not zero yields [NaN] only from
    [NaN]. *)
Lemma float64_div_not_nan x sy my ey :
  float64_is_nan x = false →
  float64_is_nan (float64_div x (S754_finite sy my ey)) = false.
Proof.
  intros Hx. unfold float64_div, SFdiv.
  destruct x as [sx|sx| |sx mx ex]; try reflexivity; [discriminate|].
  unfold SFdiv_core_binary.
  set (m' := match _ - _ - _ with Z0 => _ | Zpos _ => _ | Zneg _ => _ end).
  assert (Hm' : 0 ≤ m').
  { subst m'. destruct (_ - _ - _); try lia. apply Z.shiftl_nonneg. lia. }
  pose proof (Z_div_mod m' (Zpos my) ltac:(lia)) as Hdiv.
  destruct (Z.div_eucl m' (Zpos my)) as [q r].
  apply binary_round_aux_not_nan. nia.
Qed.

Lemma digits2_pos_le (m : positive) (k : Z) :
  0 ≤ k → Zpos m < 2 ^ k → Zpos (digits2_pos m) ≤ k.
Proof.
  intros Hk Hm. pose proof (digits2_pos_bounds m) as [Hlo _].
  assert (H : 2 ^ (Zpos (digits2_pos m) - 1) < 2 ^ k) by lia.
  apply Z.pow_lt_mono_r_iff in H; lia.
Qed.

(** The shift to the precision, outside the subnormal range: a positive
    mantissa stays positive and does not grow, and the exponent grows by
    the number of digits in excess of 53. *)
Lemma shr_fexp_pos (m : positive) (e : Z) (l : location) :
  - 1074 ≤ Zpos (digits2_pos m) + e - 53 →
  0 < shr_m (shr_fexp 53 1024 (Zpos m) e l).1 ≤ Zpos m
  ∧ e ≤ (shr_fexp 53 1024 (Zpos m) e l).2 ≤ e + Z.max 0 (Zpos (digits2_pos m) - 53).
Proof.
  intros Hreg. unfold shr_fexp, fexp, emin. cbn [Zdigits2].
  set (d := Zpos (digits2_pos m)) in *.
  replace (Z.max (d + e - 53) (3 - 1024 - 53) - e) with (d - 53) by lia.
  pose proof (digits2_pos_bounds m) as [Hlo _]. fold d in Hlo.
  destruct (d - 53) as [|p|p] eqn:Hn; cbn [shr fst snd];
    rewrite ?shr_record_of_loc_m; try lia.
  rewrite iter_pos_shr_m by (rewrite shr_record_of_loc_m; lia).
  rewrite shr_record_of_loc_m.
  assert (Hp : 0 < 2 ^ Zpos p) by (apply Z.pow_pos_nonneg; lia).
  assert (H52 : 0 < 2 ^ 52) by (apply Z.pow_pos_nonneg; lia).
  assert (Hsplit : 2 ^ Zpos p * 2 ^ 52 = 2 ^ (d - 1)).
  { rewrite <- Z.pow_add_r by lia. f_equal. lia. }
  split; [split|lia].
  - apply Z.lt_le_trans with (2 ^ 52); [exact H52|].
    apply Z.div_le_lower_bound; lia.
  - apply Z.div_le_upper_bound; [exact Hp|]. nia.
Qed.

(** Rounding a positive mantissa of moderate size yields a finite float. *)
Lemma binary_round_aux_finite sx (m : positive) (e : Z) (l : location) :
  Zpos m < 2 ^ 128 → - 1000 ≤ e ≤ 0 →
  ∃ m' e', binary_round_aux 53 1024 sx (Zpos m) e l = S754_finite sx m' e'.
Proof.
  intros Hm He. unfold binary_round_aux.
  pose proof (digits2_pos_le m 128 ltac:(lia) Hm) as Hd.
  pose proof (digits2_pos_bounds m) as [Hd0 _].
  assert (Hd1 : 1 ≤ Zpos (digits2_pos m)) by lia.
  destruct (shr_fexp_pos m e l ltac:(lia)) as ([Hpos Hle] & He1).
  destruct (shr_fexp 53 1024 (Zpos m) e l) as [mrs' e1]. cbn [fst snd] in *.
  pose proof (round_nearest_even_bounds (shr_m mrs') (loc_of_shr_record mrs')) as Hr.
  destruct (round_nearest_even (shr_m mrs') (loc_of_shr_record mrs')) as [|m2|m2];
    try lia.
  assert (Hm2 : Zpos m2 < 2 ^ 129).
  { replace 129 with (128 + 1) by lia. rewrite Z.pow_add_r, Z.pow_1_r by lia. lia. }
  pose proof (digits2_pos_le m2 129 ltac:(lia) Hm2) as Hd2.
  assert (Hd3 : 1 ≤ Zpos (digits2_pos m2)) by lia.
  destruct (shr_fexp_pos m2 e1 loc_Exact ltac:(lia)) as ([Hpos2 _] & He2).
  destruct (shr_fexp 53 1024 (Zpos m2) e1 loc_Exact) as [mrs'' e2]. cbn [fst snd] in *.
  destruct (shr_m mrs'') as [|m3|m3]; try lia.
  destruct (Z.leb_spec e2 (1024 - 53)); [eauto | lia].
Qed.

Lemma iter_xO_pow (m k : positive) : Zpos (Pos.iter xO m k) = Zpos m * 2 ^ Zpos k.
Proof.
  induction k as [|k IH] using Pos.peano_ind.
  - simpl. lia.
  - rewrite Pos.iter_succ, Pos2Z.inj_succ, Z.pow_succ_r by lia.
    rewrite (Pos2Z.inj_xO (Pos.iter xO m k)), IH. lia.
Qed.

(** A non-zero [int64] converts to a finite float. *)
Lemma float64_of_int_finite z :
  z ≠ 0 → - 2 ^ 63 ≤ z < 2 ^ 63 →
  ∃ s m e, float64_of_int z = S754_finite s m e.
Proof.
  intros Hz Hrange.
  assert (H : ∀ s (m : positive), Zpos m ≤ 2 ^ 63 →
            ∃ m' e', binary_round 53 1024 s m 0 = S754_finite s m' e').
  { intros s m Hm. unfold binary_round, shl_align, fexp, emin.
    pose proof (digits2_pos_bounds m) as [Hlo Hhi].
    assert (Hm64 : Zpos m < 2 ^ 64).
    { replace 64 with (63 + 1) by lia. rewrite Z.pow_add_r, Z.pow_1_r by lia. lia. }
    pose proof (digits2_pos_le m 64 ltac:(lia) Hm64) as Hd.
    set (d := Zpos (digits2_pos m)) in *.
    assert (Hd1 : 1 ≤ d) by lia.
    replace (Z.max (d + 0 - 53) (3 - 1024 - 53) - 0) with (d - 53) by lia.
    replace (Z.max (d + 0 - 53) (3 - 1024 - 53)) with (d - 53) by lia.
    destruct (d - 53) as [|p|p] eqn:Hn.
    - apply binary_round_aux_finite; [|lia].
      eapply Z.lt_trans; [exact Hm64|]. apply Z.pow_lt_mono_r; lia.
    - apply binary_round_aux_finite; [|lia].
      eapply Z.lt_trans; [exact Hm64|]. apply Z.pow_lt_mono_r; lia.
    - apply binary_round_aux_finite; [|lia].
      rewrite iter_xO_pow.
      assert (Hp : 0 < 2 ^ Zpos p) by (apply Z.pow_pos_nonneg; lia).
      apply Z.lt_trans with (2 ^ d * 2 ^ Zpos p); [nia|].
      rewrite <- Z.pow_add_r by lia. apply Z.pow_lt_mono_r; lia. }
  unfold float64_of_int, binary_normalize.
  destruct z as [|m|m]; [contradiction| |].
  - destruct (H false m ltac:(lia)) as (m' & e' & ->). eauto.
  - destruct (H true m ltac:(lia)) as (m' & e' & ->). eauto.
Qed.

(** The quotient of two converted integers is not [NaN] when the divisor
    is a non-zero [int64]. *)
Lemma float64_quotient_not_nan a b :
  b ≠ 0 → - 2 ^ 63 ≤ b < 2 ^ 63 →
  float64_is_nan (float64_div (float64_of_int a) (float64_of_int b)) = false.
Proof.
  intros Hb Hrange.
  destruct (float64_of_int_finite b Hb Hrange) as (s & m & e & ->).
  apply float64_div_not_nan, float64_of_int_not_nan.
Qed.

End rounding_facts.

(** ** The insertion sort orders its argument *)

Module insertion_facts.
Import sort.

Section Insertion.
Context {A : Type} (less : A → A → bool).
Hypothesis less_asym : ∀ x y, less x y = true → less y x = false.

Lemma sift_head x r :
  ∀ h, head (sift less x r) = Some h → h = x ∨ head r = Some h.
Proof.
  destruct r as [|y r]; simpl; [intros h [= <-]; by left|].
  destruct (less x y); simpl; intros h [= <-]; auto.
Qed.

Lemma sift_adjacent x r :
  adjacent (λ u v, less u v = false) r →
  adjacent (λ u v, less u v = false) (sift less x r).
Proof.
  induction r as [|y r IH]; intros Hadj; simpl; [exact I|].
  destruct (less x y) eqn:Hxy.
  - apply adjacent_cons; [apply IH; eapply adjacent_cons_inv, Hadj|].
    intros h Hh. apply sift_head in Hh as [->|Hh]; [by apply less_asym|].
    destruct r as [|z r]; [discriminate|]. injection Hh as <-. apply Hadj.
  - apply adjacent_cons; [exact Hadj|]. intros h [= <-]. exact Hxy.
Qed.

Lemma adjacent_rev (R : A → A → Prop) l :
  adjacent (λ a b, R b a) l → adjacent R (rev l).
Proof.
  induction l as [|a l IH]; intros Hadj; simpl; [exact I|].
  apply adjacent_app; [apply IH; eapply adjacent_cons_inv, Hadj | exact I |].
  intros x y Hx [= <-].
  destruct l as [|b l]; [discriminate|]. simpl in Hx. rewrite last_snoc in Hx.
  injection Hx as <-. apply Hadj.
Qed.

(** After the insertion sort no element is [less] than the one before it. *)
Lemma insertionSort_adjacent l :
  adjacent (λ a b, less b a = false) (insertionSort less l).
Proof.
  unfold insertionSort. apply adjacent_rev.
  assert (H : ∀ acc, adjacent (λ u v, less u v = false) acc →
            adjacent (λ u v, less u v = false)
                     (fold_left (λ acc x, sift less x acc) l acc)).
  { induction l as [|x l IH]; intros acc Hacc; simpl; [exact Hacc|].
    apply IH, sift_adjacent, Hacc. }
  apply H. exact I.
Qed.

End Insertion.
End insertion_facts.

(** ** C5: the compaction priorities *)

Section PickCompactLevels.
Context {KO : KeyOrder}.

Lemma overlaps_inf (r : keyRange) : keyRange_overlapsWith r infRange = true.
Proof. by destruct r. Qed.

(** Every range overlaps [inf]: the test [overlapsWith(0, infRange)] asks
    whether any range is reserved at level 0; when the ranges reserved there
    are [inf] ranges, it asks whether an [inf] range is reserved. *)
Lemma overlaps_inf_is_inf (rs : list keyRange) :
  (∀ r, r ∈ rs → r = infRange) →
  existsb (λ r, keyRange_overlapsWith r infRange) rs = existsb keyRange_is_inf rs.
Proof.
  induction rs as [|r rs IH]; intros Hall; simpl; [reflexivity|].
  rewrite overlaps_inf, (Hall r (list_elem_of_here _ _)). reflexivity.
Qed.

Lemma pickCompactLevels_body_planned (lc : levelsController) acc (L : nat) :
  (L < length (levels lc))%nat →
  length (cs_levels (cstatus lc)) = length (levels lc) →
  pickCompactLevels_body lc (Some acc) L = Some (acc ++ planned_levelN lc L).
Proof.
  intros HL Hlen.
  destruct (lookup_lt_is_Some_2 (levels lc) L HL) as [l Hl].
  destruct (lookup_lt_is_Some_2 (cs_levels (cstatus lc)) L ltac:(lia)) as [c Hc].
  unfold pickCompactLevels_body, planned_levelN, deltaSize, isCompactable, getTotalSize.
  rewrite Hl, Hc. simpl.
  destruct (totalSize l >=? wrap64 (maxTotalSize l + delSize c)); [reflexivity|].
  by rewrite app_nil_r.
Qed.

Lemma pickCompactLevels_fold (lc : levelsController) (Ls : list nat) :
  length (cs_levels (cstatus lc)) = length (levels lc) →
  (∀ L, L ∈ Ls → (L < length (levels lc))%nat) →
  ∀ acc, fold_left (pickCompactLevels_body lc) Ls (Some acc)
         = Some (acc ++ flat_map (planned_levelN lc) Ls).
Proof.
  intros Hlen. induction Ls as [|L Ls IH]; intros Hin acc; cbn [fold_left flat_map].
  - by rewrite app_nil_r.
  - rewrite pickCompactLevels_body_planned by (try apply Hin; auto; left).
    rewrite IH by (intros L' HL'; apply Hin; by right).
    by rewrite <- app_assoc.
Qed.

Lemma pickCompactLevels_unsorted_planned (lc : levelsController) :
  levels lc ≠ [] →
  length (cs_levels (cstatus lc)) = length (levels lc) →
  (∀ c0 r, cs_levels (cstatus lc) !! 0%nat = Some c0 → r ∈ ranges c0 → r = infRange) →
  pickCompactLevels_unsorted lc = Some (planned_priorities lc).
Proof.
  intros Hne Hlen Hinf.
  assert (H0 : (0 < length (levels lc))%nat) by (destruct (levels lc); [done | simpl; lia]).
  destruct (lookup_lt_is_Some_2 (levels lc) 0 H0) as [l0 Hl0].
  destruct (lookup_lt_is_Some_2 (cs_levels (cstatus lc)) 0 ltac:(lia)) as [c0 Hc0].
  unfold pickCompactLevels_unsorted, planned_priorities, planned_level0, overlapsWith,
    isL0Compactable.
  rewrite Hl0, Hc0. simpl.
  rewrite (overlaps_inf_is_inf _ (λ r, Hinf c0 r Hc0)).
  assert (Hseq : ∀ L, L ∈ seq 1 (length (levels lc) - 1) → (L < length (levels lc))%nat).
  { intros L HL. apply list_elem_of_In, in_seq in HL. lia. }
  destruct (existsb keyRange_is_inf (ranges c0)); simpl.
  - by rewrite pickCompactLevels_fold.
  - destruct (numTables l0 >=? NumLevelZeroTables (opt lc));
      by rewrite pickCompactLevels_fold.
Qed.

(** What [sort.Slice] leaves of the order when no score is [NaN]. *)
Lemma sorted_scores (prios : list compactionPriority) :
  Forall (λ p, float64_is_nan (cp_score p) = false) prios →
  sorted_by_score_desc
    (sort.Slice (λ a b, float64_gt (cp_score a) (cp_score b)) prios).
Proof.
  intros Hnan. set (less := λ a b, float64_gt (cp_score a) (cp_score b)).
  assert (Hnan' : Forall (λ p, float64_is_nan (cp_score p) = false) (sort.Slice less prios)).
  { by rewrite slice_facts.Slice_perm. }
  pose proof (insertion_facts.insertionSort_adjacent less
                (λ x y, float_facts.float64_gt_asym _ _) (sort.shell_pass less prios)) as Hadj.
  fold (sort.Slice less prios) in Hadj.
  assert (Htr : Transitive (λ a b : compactionPriority,
                              SFleb (cp_score b) (cp_score a) = true)).
  { intros a b c Hab Hbc. eapply float_facts.SFleb_trans; eassumption. }
  assert (Hadj' : sort.adjacent (λ a b : compactionPriority,
                                   SFleb (cp_score b) (cp_score a) = true)
                                (sort.Slice less prios)).
  { induction (sort.Slice less prios) as [|a [|b l] IH]; simpl; try exact I.
    destruct Hadj as [Hab Hadj]. split.
    - apply Forall_cons in Hnan' as [Ha Hnan']. apply Forall_cons in Hnan' as [Hb _].
      unfold less, float64_gt in Hab. by apply float_facts.SFleb_total.
    - apply IH; [by apply Forall_cons in Hnan' as [_ ?] | exact Hadj]. }
  intros i j a b Hij Ha Hb.
  exact (adjacent_lookup _ (sort.Slice less prios) Hadj' i j a b Hij Ha Hb).
Qed.

(** With non-zero divisors no planned score is [NaN]. *)
Lemma planned_not_nan (lc : levelsController) :
  nonzero_divisors lc →
  Forall (λ p, float64_is_nan (cp_score p) = false) (planned_priorities lc).
Proof.
  intros [[H0 H0r] HN]. apply Forall_forall. intros p Hp.
  unfold planned_priorities in Hp. apply elem_of_app in Hp as [Hp|Hp].
  - unfold planned_level0 in Hp.
    destruct (levels lc !! 0%nat) as [l0|]; [|by apply elem_of_nil in Hp].
    destruct (cs_levels (cstatus lc) !! 0%nat) as [c0|]; [|by apply elem_of_nil in Hp].
    destruct (_ && _); [|by apply elem_of_nil in Hp].
    apply list_elem_of_singleton in Hp as ->. simpl.
    by apply rounding_facts.float64_quotient_not_nan.
  - apply list_elem_of_In, in_flat_map in Hp as (L & HL & Hp).
    apply in_seq in HL. unfold planned_levelN in Hp.
    destruct (levels lc !! L) as [l|] eqn:Hl; [|by destruct Hp].
    destruct (cs_levels (cstatus lc) !! L) as [c|]; [|by destruct Hp].
    destruct (_ >=? _); [|by destruct Hp].
    destruct Hp as [<-|[]]. simpl.
    destruct (HN L l ltac:(lia) Hl) as [Hne Hr].
    by apply rounding_facts.float64_quotient_not_nan.
Qed.

(** C5, as the code has it.  On a controller with at least level 0 and a
    compaction status for each level, where the ranges reserved at level 0
    are [inf] ranges (what a level-0 compaction reserves): the call returns,
    and the priorities it returns are, up to their order, those that the
    specification words (one for level 0 exactly when no [inf] range is
    reserved there and the table count has reached the trigger, one for each
    level [L ≥ 1] exactly when [totalSize ≥ maxTotalSize + deltaSize(L)],
    with the scores given, as [float64] quotients over [int64] sums and
    differences); and they are in descending order of score provided no
    score is [NaN], which is the case when the trigger and the maximal total
    sizes are not zero. *)
Theorem pickCompactLevels_spec (lc : levelsController) :
  levels lc ≠ [] →
  length (cs_levels (cstatus lc)) = length (levels lc) →
  (∀ c0 r, cs_levels (cstatus lc) !! 0%nat = Some c0 → r ∈ ranges c0 → r = infRange) →
  ∃ prios, pickCompactLevels lc = Some prios
    ∧ prios ≡ₚ planned_priorities lc
    ∧ (Forall (λ p, float64_is_nan (cp_score p) = false) prios →
       sorted_by_score_desc prios)
    ∧ (nonzero_divisors lc → sorted_by_score_desc prios).
Proof.
  intros Hne Hlen Hinf. unfold pickCompactLevels.
  rewrite (pickCompactLevels_unsorted_planned lc Hne Hlen Hinf). simpl.
  eexists. split; [reflexivity|]. split; [apply slice_facts.Slice_perm|].
  split.
  - intros Hnan. apply sorted_scores.
    by rewrite slice_facts.Slice_perm in Hnan.
  - intros Hcfg. apply sorted_scores, planned_not_nan, Hcfg.
Qed.

End PickCompactLevels.

(** C5 on three levels: level 0 over its trigger (score 1.5), level 1 over
    its maximal size (score 3), level 2 below it. *)
Lemma pickCompactLevels_spec_witness :
  let lc := {| levels := [sample_level 3 0 3 0; sample_level 1 1 300 100;
                          sample_level 1 2 10 1000];
               cstatus := sample_cstatus 3;
               opt := {| NumLevelZeroTables := 2; NumLevelZeroTablesStall := 10;
                         MaxTableSize := 64 |} |} in
  ∃ prios, pickCompactLevels lc = Some prios
    ∧ cp_level <$> prios = [1; 0]
    ∧ sorted_by_score_desc prios.
Proof.
  intros lc.
  destruct (pickCompactLevels_spec lc) as (prios & Hp & _ & Hsorted & _).
  - discriminate.
  - reflexivity.
  - intros c0 r [= <-] Hr. inversion Hr.
  - exists prios. vm_compute in Hp. injection Hp as <-.
    split; [reflexivity|]. split; [reflexivity|].
    apply Hsorted. repeat constructor.
Defined.

(** C5 as stated fails on its last clause when a maximal size is zero
    ([LevelOneSize = 0]): level 1, empty, gets the score [0/0 = NaN], every
    comparison with it is false, and the sort leaves the score 1 of level 0
    before the score [+Inf] of level 2. *)
Lemma pickCompactLevels_nan_counterexample :
  let lc := {| levels := [sample_level 1 0 1 0; sample_level 0 1 0 0;
                          sample_level 1 2 5 0];
               cstatus := sample_cstatus 3;
               opt := {| NumLevelZeroTables := 1; NumLevelZeroTablesStall := 10;
                         MaxTableSize := 64 |} |} in
  length (cs_levels (cstatus lc)) = length (levels lc)
  ∧ ∃ prios, pickCompactLevels lc = Some prios
    ∧ cp_level <$> prios = [0; 1; 2]
    ∧ cp_score <$> prios
      = [float64_of_int 1; S754_nan; S754_infinity false]
    ∧ ¬ sorted_by_score_desc prios.
Proof.
  intros lc. split; [reflexivity|]. eexists. split; [by vm_compute|].
  split; [reflexivity|]. split; [reflexivity|].
  intros H. specialize (H 0%nat 2%nat _ _ ltac:(lia) eq_refl eq_refl).
  vm_compute in H. discriminate.
Qed.
(** ** Reference counts: taking and releasing *)

Section RefCounts.
Context {KO : KeyOrder}.
Variable remove_file : N → bool.

Lemma occurrences_cons (id : N) (t : Table) (l : list Table) :
  occurrences id (t :: l) = (if (ID t =? id)%N then 1 else 0) + occurrences id l.
Proof.
  unfold occurrences. simpl. destruct (ID t =? id)%N; simpl length; lia.
Qed.

Lemma occurrences_nonneg (id : N) (l : list Table) : 0 ≤ occurrences id l.
Proof. unfold occurrences. lia. Qed.

Lemma occurrences_app (id : N) (l1 l2 : list Table) :
  occurrences id (l1 ++ l2) = occurrences id l1 + occurrences id l2.
Proof.
  induction l1 as [|t l1 IH]; [unfold occurrences at 2; simpl; lia|].
  simpl app. rewrite !occurrences_cons, IH. lia.
Qed.

Lemma occurrences_rev (id : N) (l : list Table) :
  occurrences id (rev l) = occurrences id l.
Proof.
  induction l as [|t l IH]; [reflexivity|].
  simpl rev. rewrite occurrences_app, !occurrences_cons, IH.
  unfold occurrences at 2. simpl. lia.
Qed.

Lemma occurrences_elem (t : Table) (l : list Table) :
  t ∈ l → 1 ≤ occurrences (ID t) l.
Proof.
  induction 1 as [t l|t t' l _ IH]; rewrite occurrences_cons.
  - rewrite N.eqb_refl. pose proof (occurrences_nonneg (ID t) l). lia.
  - destruct (ID t' =? ID t)%N; lia.
Qed.

Lemma ref_count_insert (w : gmap N Z) (t t' : Table) (z : Z) :
  ref_count (<[ID t := z]> w) t' = if (ID t =? ID t')%N then z else ref_count w t'.
Proof.
  unfold ref_count. destruct (N.eqb_spec (ID t) (ID t')) as [->|Hne].
  - by rewrite lookup_insert_eq.
  - by rewrite lookup_insert_ne.
Qed.

(** Taking a reference on every table of a list raises the count of a table
    by the number of times it is listed. *)
Lemma ref_count_incr_all (l : list Table) : ∀ (w : gmap N Z) (t : Table),
  ref_count (fold_left (λ w tbl, IncrRef tbl w) l w) t
  = ref_count w t + occurrences (ID t) l.
Proof.
  induction l as [|a l IH]; intros w t; simpl.
  - unfold occurrences. simpl. lia.
  - rewrite IH, occurrences_cons. unfold IncrRef. rewrite ref_count_insert.
    destruct (N.eqb_spec (ID a) (ID t)) as [E|_]; [|lia].
    unfold ref_count. rewrite E. lia.
Qed.

(** Releasing tables that are each referenced more often than they are
    listed: no count reaches zero, so no file is removed and no error can
    come up. *)
Lemma decrRefs_counts (l : list Table) : ∀ (w : gmap N Z),
  (∀ t, t ∈ l → occurrences (ID t) l < ref_count w t) →
  ∃ w', decrRefs remove_file l w = (None, w')
    ∧ ∀ t, ref_count w' t = ref_count w t - occurrences (ID t) l.
Proof.
  induction l as [|a l IH]; intros w Hl; simpl.
  - exists w. split; [reflexivity|]. intros t. unfold occurrences. simpl. lia.
  - pose proof (Hl a (list_elem_of_here _ _)) as Ha.
    rewrite occurrences_cons, N.eqb_refl in Ha.
    pose proof (occurrences_nonneg (ID a) l) as Hn.
    unfold DecrRef.
    destruct (Z.eqb_spec (ref_count w a - 1) 0) as [E|_]; [lia|]. simpl.
    destruct (IH (<[ID a := ref_count w a - 1]> w)) as (w' & Hw' & Hc).
    { intros t Ht. rewrite ref_count_insert.
      pose proof (Hl t (list_elem_of_further _ _ _ Ht)) as Hlt.
      rewrite occurrences_cons in Hlt.
      destruct (N.eqb_spec (ID a) (ID t)) as [E|_]; [|lia].
      unfold ref_count in *. rewrite E in *. lia. }
    exists w'. split; [exact Hw'|]. intros t.
    rewrite Hc, ref_count_insert, occurrences_cons.
    destruct (N.eqb_spec (ID a) (ID t)) as [E|_]; [|lia].
    unfold ref_count. rewrite E. lia.
Qed.

(** A reference taken on each table of a list and released again leaves
    every count as it was, when each of the tables was referenced before. *)
Lemma incr_decr_balance (l : list Table) (w : gmap N Z) :
  (∀ t, t ∈ l → 1 ≤ ref_count w t) →
  ∃ w', forceDecrRefs remove_file l (fold_left (λ w tbl, IncrRef tbl w) l w) = Some w'
    ∧ ∀ t, ref_count w' t = ref_count w t.
Proof.
  intros Hl. unfold forceDecrRefs.
  destruct (decrRefs_counts l (fold_left (λ w tbl, IncrRef tbl w) l w)) as (w' & -> & Hc).
  { intros t Ht. rewrite ref_count_incr_all. specialize (Hl t Ht). lia. }
  exists w'. split; [reflexivity|]. intros t. rewrite Hc, ref_count_incr_all. lia.
Qed.

(** [refLevel0Tables] returns the tables in reverse and takes a reference
    on each. *)
Lemma refLevel0Tables_eq (s : levelHandler) (w : gmap N Z) :
  refLevel0Tables s w
  = (rev (tables s), fold_left (λ w tbl, IncrRef tbl w) (rev (tables s)) w).
Proof.
  unfold refLevel0Tables.
  assert (H : ∀ l acc w0,
    fold_left (λ '(out, w) t, (out ++ [t], IncrRef t w)) l (acc, w0)
    = (acc ++ l, fold_left (λ w tbl, IncrRef tbl w) l w0)).
  { induction l as [|a l IH]; intros acc w0; simpl.
    - by rewrite app_nil_r.
    - rewrite IH, <- app_assoc. reflexivity. }
  apply (H (rev (tables s)) [] w).
Qed.

(** The tables that [refTablesForKey] returns are tables of the handler,
    and the store it leaves is the one where a reference is taken on each
    of them. *)
Lemma refTablesForKey_incr (s : levelHandler) (k : Key) (w : gmap N Z) :
  (refTablesForKey s k w).2
  = fold_left (λ w tbl, IncrRef tbl w) (refTablesForKey s k w).1 w
  ∧ ∀ t, t ∈ (refTablesForKey s k w).1 → t ∈ tables s.
Proof.
  unfold refTablesForKey. destruct (level s =? 0).
  - rewrite refLevel0Tables_eq. simpl. split; [reflexivity|].
    intros t Ht. apply list_elem_of_In. apply list_elem_of_In, in_rev in Ht. exact Ht.
  - unfold refLevelNTable.
    destruct (tables s !! _) as [tbl|] eqn:Hidx; simpl.
    + split; [reflexivity|]. intros t Ht. apply list_elem_of_singleton in Ht as ->.
      by eapply list_elem_of_lookup_2.
    + split; [reflexivity|]. intros t Ht. by apply elem_of_nil in Ht.
Qed.

(** The tables that [refTablesForKey] returns do not depend on the store. *)
Lemma refTablesForKey_store (s : levelHandler) (k : Key) (w w0 : gmap N Z) :
  (refTablesForKey s k w).1 = (refTablesForKey s k w0).1.
Proof.
  unfold refTablesForKey. destruct (level s =? 0).
  - by rewrite !refLevel0Tables_eq.
  - unfold refLevelNTable. by destruct (tables s !! _).
Qed.

(** X1.  At level 0 [refTablesForKey] ignores the key: it returns all the
    tables of the handler from the last one to the first one, so the table
    that [tryAddLevel0Table] has just appended comes first, and it raises
    the reference count of a table by the number of times the handler
    lists it. *)
Theorem refTablesForKey_level0 (s : levelHandler) (k : Key) (w : gmap N Z) :
  level s = 0 →
  (refTablesForKey s k w).1 = rev (tables s)
  ∧ (∀ t, ref_count (refTablesForKey s k w).2 t
          = ref_count w t + occurrences (ID t) (tables s))
  ∧ (∀ i t, tables s !! i = Some t →
       (refTablesForKey s k w).1 !! (length (tables s) - 1 - i)%nat = Some t)
  ∧ (∀ opt t s' w', tryAddLevel0Table opt s t w = Some (true, s', w') →
       head (refTablesForKey s' k w').1 = Some t).
Proof.
  intros Hlvl.
  assert (E : ∀ s0 w0, level s0 = 0 →
            refTablesForKey s0 k w0
            = (rev (tables s0), fold_left (λ w tbl, IncrRef tbl w) (rev (tables s0)) w0)).
  { intros s0 w0 H0. unfold refTablesForKey. rewrite H0. simpl. apply refLevel0Tables_eq. }
  rewrite (E s w Hlvl). simpl. split; [reflexivity|]. split; [|split].
  - intros t. by rewrite ref_count_incr_all, occurrences_rev.
  - intros i t Hi. pose proof (lookup_lt_Some _ _ _ Hi) as Hlt.
    rewrite rev_alt. change (rev_append (tables s) []) with (reverse (tables s)).
    rewrite reverse_lookup by lia. rewrite <- Hi. f_equal. lia.
  - intros opt t s' w'. unfold tryAddLevel0Table. rewrite Hlvl. simpl.
    destruct (_ >=? _); intros [= <- <-]. rewrite E by reflexivity. simpl.
    by rewrite rev_app_distr.
Qed.

End RefCounts.

(** ** Point reads *)

Section ReadFacts.
Context `{TR : TableReader}.
Variable remove_file : N → bool.

Lemma getInTables_app_invalid (k : Key) (l1 l2 : list Table) :
  (∀ t, t ∈ l1 → Valid (getInTable k t) = false) →
  getInTables k (l1 ++ l2) = getInTables k l2.
Proof.
  induction l1 as [|a l1 IH]; intros Hl1; [reflexivity|]. simpl.
  rewrite (Hl1 a (list_elem_of_here _ _)). apply IH.
  intros t Ht. apply Hl1. by right.
Qed.

Lemma getInTables_invalid (k : Key) (l : list Table) :
  (∀ t, t ∈ l → Valid (getInTable k t) = false) →
  getInTables k l = ValueStruct_zero.
Proof.
  intros Hl. rewrite <- (app_nil_r l). by rewrite getInTables_app_invalid.
Qed.

(** In a list read from its end, the last table with a valid lookup wins. *)
Lemma getInTables_rev_last (k : Key) (l : list Table) (i : nat) (t : Table) :
  l !! i = Some t →
  Valid (getInTable k t) = true →
  (∀ j t', (i < j)%nat → l !! j = Some t' → Valid (getInTable k t') = false) →
  getInTables k (rev l) = getInTable k t.
Proof.
  intros Hi Hv Hlater.
  rewrite <- (take_drop_middle l i t Hi), rev_app_distr. simpl rev.
  rewrite <- app_assoc, getInTables_app_invalid.
  - simpl. by rewrite Hv.
  - intros t' Ht'. apply list_elem_of_In, in_rev, list_elem_of_In in Ht'.
    apply list_elem_of_lookup in Ht' as [j Hj]. rewrite lookup_drop in Hj.
    apply (Hlater (S i + j)%nat t'); [lia | exact Hj].
Qed.

(** Whenever [levelHandler.get] returns, it returns the lookup of the
    level; it returns, leaving every reference count as it was, when each
    table of the handler is referenced. *)
Lemma levelHandler_get_value (s : levelHandler) (k : Key) (w : gmap N Z) v w' :
  levelHandler_get remove_file s k w = Some (v, w') → v = level_lookup s k.
Proof.
  unfold levelHandler_get, level_lookup.
  rewrite (refTablesForKey_store s k ∅ w).
  destruct (refTablesForKey s k w) as [tbls w1]. simpl.
  destruct (forceDecrRefs _ _ _); simpl; [|discriminate]. by intros [= <- _].
Qed.

Lemma levelHandler_get_balance (s : levelHandler) (k : Key) (w : gmap N Z) :
  (∀ t, t ∈ tables s → 1 ≤ ref_count w t) →
  ∃ w', levelHandler_get remove_file s k w = Some (level_lookup s k, w')
    ∧ ∀ t, ref_count w' t = ref_count w t.
Proof.
  intros Href. unfold levelHandler_get, level_lookup.
  rewrite (refTablesForKey_store s k ∅ w).
  destruct (refTablesForKey_incr s k w) as [Hw Hin].
  destruct (refTablesForKey s k w) as [tbls w1]. simpl in *. subst w1.
  destruct (incr_decr_balance remove_file tbls w) as (w' & -> & Hc).
  { intros t Ht. auto. }
  exists w'. simpl. auto.
Qed.

(** X2.  A point read at level 0, when each table of the handler is
    referenced: it returns, leaves every reference count as it was (so it
    removes no file), and returns the lookup in the newest table (the one
    nearest to the end of the table list) whose lookup is valid, or the
    empty value when no lookup is. *)
Theorem levelHandler_get_level0 (s : levelHandler) (k : Key) (w : gmap N Z) :
  level s = 0 →
  (∀ t, t ∈ tables s → 1 ≤ ref_count w t) →
  ∃ v w', levelHandler_get remove_file s k w = Some (v, w')
    ∧ (∀ t, ref_count w' t = ref_count w t)
    ∧ (∀ i t, tables s !! i = Some t →
         Valid (getInTable k t) = true →
         (∀ j t', (i < j)%nat → tables s !! j = Some t' →
                  Valid (getInTable k t') = false) →
         v = getInTable k t)
    ∧ ((∀ t, t ∈ tables s → Valid (getInTable k t) = false) → v = ValueStruct_zero).
Proof.
  intros Hlvl Href.
  destruct (levelHandler_get_balance s k w Href) as (w' & Hget & Hc).
  exists (level_lookup s k), w'. split; [exact Hget|]. split; [exact Hc|].
  assert (E : level_lookup s k = getInTables k (rev (tables s))).
  { unfold level_lookup, refTablesForKey. rewrite Hlvl. simpl.
    by rewrite refLevel0Tables_eq. }
  rewrite E. split.
  - intros i t. apply getInTables_rev_last.
  - intros Hall. apply getInTables_invalid.
    intros t Ht. apply Hall. apply list_elem_of_In. by apply list_elem_of_In, in_rev in Ht.
Qed.

(** X3.  A point read at a level ≥ 1 whose tables satisfy the sorted
    non-overlapping invariant, when each table is referenced: it returns,
    leaves every reference count as it was, and returns the lookup in the
    table whose range contains the key when that lookup is valid; it
    returns the empty value when that lookup is not valid, and when the key
    is past every table. *)
Theorem levelHandler_get_levelN (s : levelHandler) (k : Key) (w : gmap N Z) :
  level s ≠ 0 →
  level_inv (tables s) = true →
  (∀ t, t ∈ tables s → 1 ≤ ref_count w t) →
  ∃ v w', levelHandler_get remove_file s k w = Some (v, w')
    ∧ (∀ t, ref_count w' t = ref_count w t)
    ∧ (∀ t, t ∈ tables s → table_contains t k = true →
         v = if Valid (getInTable k t) then getInTable k t else ValueStruct_zero)
    ∧ ((∀ t, t ∈ tables s → CompareKeys (Biggest t) k < 0) → v = ValueStruct_zero).
Proof.
  intros Hlvl Hinv Href.
  destruct (levelHandler_get_balance s k w Href) as (w' & Hget & Hc).
  exists (level_lookup s k), w'. split; [exact Hget|]. split; [exact Hc|].
  destruct (refTablesForKey_first s k ∅ Hlvl Hinv) as (_ & Hnil & Hin & _).
  unfold level_lookup. split.
  - intros t Ht Hcont. rewrite (Hin t Ht Hcont). reflexivity.
  - intros Hall. apply Hnil in Hall. by rewrite Hall.
Qed.

(** X4.  A point read through the levels, when every table of every level
    is referenced: it returns, leaves every reference count as it was, and
    returns the lookup of the first level (from level 0 on) whose lookup is
    valid, or the empty value when no level has one. *)
Theorem levelsController_get_first (hs : list levelHandler) (k : Key) (w : gmap N Z) :
  (∀ h t, h ∈ hs → t ∈ tables h → 1 ≤ ref_count w t) →
  ∃ v w', levelsController_get remove_file hs k w = Some (v, w')
    ∧ (∀ t, ref_count w' t = ref_count w t)
    ∧ (∀ i h, hs !! i = Some h →
         Valid (level_lookup h k) = true →
         (∀ j h', (j < i)%nat → hs !! j = Some h' → Valid (level_lookup h' k) = false) →
         v = level_lookup h k)
    ∧ ((∀ h, h ∈ hs → Valid (level_lookup h k) = false) → v = ValueStruct_zero).
Proof.
  revert w. induction hs as [|h hs IH]; intros w Href; simpl.
  - exists ValueStruct_zero, w. split; [reflexivity|]. split; [reflexivity|].
    split; [intros i h Hi; discriminate | reflexivity].
  - destruct (levelHandler_get_balance h k w) as (w1 & -> & Hc1).
    { intros t Ht. apply (Href h t); [by left | exact Ht]. }
    simpl. destruct (Valid (level_lookup h k)) eqn:Hv.
    + exists (level_lookup h k), w1. split; [reflexivity|]. split; [exact Hc1|]. split.
      * intros [|i] h' Hi Hv' Hbefore.
        -- by injection Hi as <-.
        -- specialize (Hbefore 0%nat h ltac:(lia) eq_refl). congruence.
      * intros Hall. specialize (Hall h (list_elem_of_here _ _)). congruence.
    + destruct (IH w1) as (v & w' & Hget & Hc & Hfirst & Hnone).
      { intros h' t Hh' Ht. rewrite Hc1. apply (Href h' t); [by right | exact Ht]. }
      exists v, w'. split; [exact Hget|]. split; [intros t; by rewrite Hc, Hc1|]. split.
      * intros [|i] h' Hi Hv' Hbefore.
        -- injection Hi as <-. congruence.
        -- apply (Hfirst i h' Hi Hv'). intros j h'' Hj Hh''.
           apply (Hbefore (S j) h''); [lia | exact Hh''].
      * intros Hall. apply Hnone. intros h' Hh'. apply Hall. by right.
Qed.

End ReadFacts.


(** ** Multiple reads *)

Section MultiGetFacts.
Context `{TR : TableReader}.
Variable remove_file : N → bool.

Lemma non_nil_Some (l : list Table) : non_nil (Some <$> l) = l.
Proof. unfold non_nil. induction l as [|a l IH]; [reflexivity|]. simpl. f_equal. exact IH. Qed.

Lemma non_nil_app (l1 l2 : list (option Table)) :
  non_nil (l1 ++ l2) = non_nil l1 ++ non_nil l2.
Proof. unfold non_nil. apply omap_app. Qed.

(** The table that [refLevelNTable] returns does not depend on the store,
    and the store it leaves is the one where a reference is taken on it. *)
Lemma refLevelNTable_eq (s : levelHandler) (k : Key) (w : gmap N Z) :
  refLevelNTable s k w
  = ((refLevelNTable s k ∅).1,
     fold_left (λ w tbl, IncrRef tbl w) (non_nil [(refLevelNTable s k ∅).1]) w).
Proof. unfold refLevelNTable. by destruct (tables s !! _). Qed.

Lemma refLevelNTable_elem (s : levelHandler) (k : Key) (t : Table) :
  (refLevelNTable s k ∅).1 = Some t → t ∈ tables s.
Proof.
  unfold refLevelNTable. destruct (tables s !! _) as [tbl|] eqn:Hidx; simpl; [|discriminate].
  intros [= <-]. by eapply list_elem_of_lookup_2.
Qed.

(** At a level ≥ 1 [refTablesForKeys] returns one entry for each pair. *)
Lemma refTablesForKeys_levelN (s : levelHandler) (pairs : list keyValuePair) (w : gmap N Z) :
  level s ≠ 0 →
  let tbls := (λ kv, (refLevelNTable s (key kv) ∅).1) <$> pairs in
  refTablesForKeys s pairs w = (tbls, fold_left (λ w tbl, IncrRef tbl w) (non_nil tbls) w).
Proof.
  intros Hlvl tbls. subst tbls. unfold refTablesForKeys.
  destruct (Z.eqb_spec (level s) 0); [contradiction|].
  assert (H : ∀ acc w0,
    fold_left (λ '(out, w) kv,
      let '(tbl, w') := refLevelNTable s (key kv) w in (out ++ [tbl], w')) pairs (acc, w0)
    = (acc ++ ((λ kv, (refLevelNTable s (key kv) ∅).1) <$> pairs),
       fold_left (λ w tbl, IncrRef tbl w)
         (non_nil ((λ kv, (refLevelNTable s (key kv) ∅).1) <$> pairs)) w0)).
  { induction pairs as [|kv pairs IH]; intros acc w0; simpl.
    - by rewrite app_nil_r.
    - rewrite (refLevelNTable_eq s (key kv) w0), IH, <- app_assoc. f_equal.
      unfold non_nil. simpl. by destruct ((refLevelNTable s (key kv) ∅).1). }
  apply (H [] w).
Qed.

Lemma multiGetLevelN_map (c : keyValuePair → option Table) (pairs : list keyValuePair) :
  multiGetLevelN pairs (c <$> pairs)
  = Some ((λ kv, if found kv then kv
                 else match c kv with
                      | Some t => multiGet_probe t kv
                      | None => kv
                      end) <$> pairs).
Proof.
  induction pairs as [|kv pairs IH]; [reflexivity|].
  rewrite !fmap_cons. cbn [multiGetLevelN tail].
  destruct (found kv); [by rewrite IH|].
  destruct (c kv); by rewrite IH.
Qed.

Lemma multiGetLevel0_map (l : list Table) : ∀ pairs,
  multiGetLevel0 pairs (Some <$> l)
  = Some ((λ kv, fold_left (λ kv t, multiGetLevel0_pair t kv) l kv) <$> pairs).
Proof.
  unfold multiGetLevel0.
  induction l as [|t l IH]; intros pairs; simpl.
  - by rewrite list_fmap_id.
  - rewrite IH. by rewrite <- list_fmap_compose.
Qed.

Lemma multiGetLevel0_pair_found (l : list Table) (kv : keyValuePair) :
  found kv = true → fold_left (λ kv t, multiGetLevel0_pair t kv) l kv = kv.
Proof.
  intros Hf. induction l as [|t l IH]; simpl; [reflexivity|].
  unfold multiGetLevel0_pair at 2. by rewrite Hf.
Qed.

Lemma multiGetLevel0_pair_find (l : list Table) (kv : keyValuePair) :
  found kv = false →
  fold_left (λ kv t, multiGetLevel0_pair t kv) l kv
  = match List.find (λ t, within_bounds t (key kv) && Valid (getInTable (key kv) t)) l with
    | Some t => {| key := key kv; val := getInTable (key kv) t; found := true |}
    | None => kv
    end.
Proof.
  intros Hf. induction l as [|t l IH]; simpl; [reflexivity|].
  unfold multiGetLevel0_pair at 2, within_bounds, multiGet_probe. rewrite Hf.
  destruct (Z.ltb_spec (bytes.Compare (KeyBytes (key kv)) (KeyBytes (Smallest t))) 0);
    destruct (Z.leb_spec 0 (bytes.Compare (KeyBytes (key kv)) (KeyBytes (Smallest t))));
    try lia; simpl; [exact IH|].
  rewrite Z.gtb_ltb.
  destruct (Z.ltb_spec 0 (bytes.Compare (KeyBytes (key kv)) (KeyBytes (Biggest t))));
    destruct (Z.leb_spec (bytes.Compare (KeyBytes (key kv)) (KeyBytes (Biggest t))) 0);
    try lia; simpl; [exact IH|].
  destruct (Valid (getInTable (key kv) t)); [|exact IH].
  by apply multiGetLevel0_pair_found.
Qed.

(** What [levelHandler.multiGet] does: when each table of the handler is
    referenced it returns, leaves every reference count as it was, and has
    treated each pair on its own. *)
Lemma levelHandler_multiGet_one (s : levelHandler) (pairs : list keyValuePair)
    (w : gmap N Z) :
  (∀ t, t ∈ tables s → 1 ≤ ref_count w t) →
  ∃ w', levelHandler_multiGet remove_file s pairs w = Some (multiGet_one s <$> pairs, w')
    ∧ ∀ t, ref_count w' t = ref_count w t.
Proof.
  intros Href. unfold levelHandler_multiGet.
  destruct (Z.eqb_spec (level s) 0) as [Hlvl|Hlvl].
  - unfold refTablesForKeys. rewrite Hlvl. simpl. rewrite refLevel0Tables_eq.
    rewrite multiGetLevel0_map. simpl. rewrite non_nil_Some.
    destruct (incr_decr_balance remove_file (rev (tables s)) w) as (w' & -> & Hc).
    { intros t Ht. apply Href. apply list_elem_of_In. by apply list_elem_of_In, in_rev in Ht. }
    exists w'. split; [|exact Hc]. simpl. do 2 f_equal.
    apply list_fmap_ext. intros i kv _. unfold multiGet_one. rewrite Hlvl. simpl.
    destruct (found kv) eqn:Hf.
    + by apply multiGetLevel0_pair_found.
    + by apply multiGetLevel0_pair_find.
  - rewrite (refTablesForKeys_levelN s pairs w Hlvl). rewrite multiGetLevelN_map. simpl.
    destruct (incr_decr_balance remove_file
                (non_nil ((λ kv, (refLevelNTable s (key kv) ∅).1) <$> pairs)) w)
      as (w' & -> & Hc).
    { intros t Ht. apply Href. unfold non_nil in Ht.
      apply list_elem_of_omap in Ht as (o & Ho & Hid). simpl in Hid. subst o.
      apply list_elem_of_fmap in Ho as (kv & Hkv & _).
      by eapply refLevelNTable_elem. }
    exists w'. split; [|exact Hc]. simpl. do 2 f_equal.
    apply list_fmap_ext. intros i kv _. unfold multiGet_one, multiGet_probe.
    destruct (Z.eqb_spec (level s) 0); [contradiction|].
    destruct (found kv); [reflexivity|].
    destruct ((refLevelNTable s (key kv) ∅).1) as [t|]; [|reflexivity].
    by destruct (Valid (getInTable (key kv) t)).
Qed.

Lemma multiGet_one_frame (s : levelHandler) (kv : keyValuePair) :
  key (multiGet_one s kv) = key kv
  ∧ (found kv = true → multiGet_one s kv = kv)
  ∧ (found (multiGet_one s kv) = false → multiGet_one s kv = kv)
  ∧ (found kv = false → found (multiGet_one s kv) = true →
     Valid (val (multiGet_one s kv)) = true
     ∧ ∃ t, t ∈ tables s ∧ val (multiGet_one s kv) = getInTable (key kv) t).
Proof.
  unfold multiGet_one. destruct (found kv) eqn:Hf.
  { repeat split; auto; discriminate. }
  destruct (level s =? 0).
  - destruct (List.find _ _) as [t|] eqn:Hfind; simpl.
    + apply find_some in Hfind as [Hin Hp]. apply andb_prop in Hp as [_ Hv].
      repeat split; auto; try discriminate.
      exists t. split; [|reflexivity]. apply list_elem_of_In. by apply in_rev.
    + repeat split; auto; congruence.
  - destruct ((refLevelNTable s (key kv) ∅).1) as [t|] eqn:Hc; simpl.
    + destruct (Valid (getInTable (key kv) t)) eqn:Hv; simpl.
      * repeat split; auto; try discriminate.
        exists t. split; [by eapply refLevelNTable_elem | reflexivity].
      * repeat split; auto; congruence.
    + repeat split; auto; congruence.
Qed.

(** X5.  A multiple read at one level, when each table of the handler is
    referenced: it returns (no index is out of range, no reference count
    reaches zero), leaves every reference count as it was, and has treated
    each pair on its own: a pair already found is unchanged; a pair not
    found is looked up, at level 0, in the newest table within whose bounds
    its key lies and whose lookup is valid, and at a level ≥ 1 in the table
    that the binary search gives for its key; the key of a pair never
    changes, and a pair becomes found only with a valid value read from a
    table of the handler. *)
Theorem levelHandler_multiGet_spec (s : levelHandler) (pairs : list keyValuePair)
    (w : gmap N Z) :
  (∀ t, t ∈ tables s → 1 ≤ ref_count w t) →
  ∃ pairs' w', levelHandler_multiGet remove_file s pairs w = Some (pairs', w')
    ∧ (∀ t, ref_count w' t = ref_count w t)
    ∧ pairs' = multiGet_one s <$> pairs
    ∧ ∀ i kv, pairs !! i = Some kv →
        ∃ kv', pairs' !! i = Some kv'
          ∧ key kv' = key kv
          ∧ (found kv = true → kv' = kv)
          ∧ (found kv' = false → kv' = kv)
          ∧ (found kv = false → found kv' = true →
             Valid (val kv') = true
             ∧ ∃ t, t ∈ tables s ∧ val kv' = getInTable (key kv) t).
Proof.
  intros Href.
  destruct (levelHandler_multiGet_one s pairs w Href) as (w' & Hmg & Hc).
  exists (multiGet_one s <$> pairs), w'. split; [exact Hmg|]. split; [exact Hc|].
  split; [reflexivity|].
  intros i kv Hi. exists (multiGet_one s kv). rewrite list_lookup_fmap, Hi.
  split; [reflexivity|]. apply multiGet_one_frame.
Qed.

(** X6.  At a level ≥ 1, a multiple read agrees with the point read: for a
    pair that is not yet found, the pair becomes found exactly when
    [levelHandler.get] on its key returns a valid value, and then holds that
    value.  (The empty value is not valid.) *)
Theorem levelHandler_multiGet_get (s : levelHandler) (pairs : list keyValuePair)
    (w : gmap N Z) :
  level s ≠ 0 →
  Valid ValueStruct_zero = false →
  (∀ t, t ∈ tables s → 1 ≤ ref_count w t) →
  ∃ pairs' w', levelHandler_multiGet remove_file s pairs w = Some (pairs', w')
    ∧ ∀ i kv, pairs !! i = Some kv → found kv = false →
        ∃ v wg, levelHandler_get remove_file s (key kv) w = Some (v, wg)
          ∧ pairs' !! i
            = Some (if Valid v then {| key := key kv; val := v; found := true |} else kv).
Proof.
  intros Hlvl Hzero Href.
  destruct (levelHandler_multiGet_one s pairs w Href) as (w' & Hmg & _).
  exists (multiGet_one s <$> pairs), w'. split; [exact Hmg|].
  intros i kv Hi Hf.
  destruct (levelHandler_get_balance remove_file s (key kv) w Href) as (wg & Hget & _).
  exists (level_lookup s (key kv)), wg. split; [exact Hget|].
  rewrite list_lookup_fmap, Hi. simpl. f_equal.
  unfold multiGet_one, level_lookup, refTablesForKey. rewrite Hf.
  destruct (Z.eqb_spec (level s) 0); [contradiction|].
  destruct (refLevelNTable s (key kv) ∅) as [[t|] w0]; simpl.
  - destruct (Valid (getInTable (key kv) t)) eqn:Hv; [by rewrite Hv|by rewrite Hzero].
  - by rewrite Hzero.
Qed.

(** X7.  A multiple read through the levels, when every table of every
    level is referenced: it returns, leaves every reference count as it
    was, and a pair holds what the first level (from level 0 on) that finds
    it has found: a level never touches a pair that is found. *)
Theorem levelsController_multiGet_first (hs : list levelHandler)
    (pairs : list keyValuePair) (w : gmap N Z) :
  (∀ h t, h ∈ hs → t ∈ tables h → 1 ≤ ref_count w t) →
  ∃ pairs' w', levelsController_multiGet remove_file hs pairs w = Some (pairs', w')
    ∧ (∀ t, ref_count w' t = ref_count w t)
    ∧ length pairs' = length pairs
    ∧ ∀ i kv, pairs !! i = Some kv →
        ∃ kv', pairs' !! i = Some kv'
          ∧ key kv' = key kv
          ∧ (found kv = true → kv' = kv)
          ∧ (∀ j h, hs !! j = Some h →
               found kv = false →
               found (multiGet_one h kv) = true →
               (∀ j' h', (j' < j)%nat → hs !! j' = Some h' →
                         found (multiGet_one h' kv) = false) →
               kv' = multiGet_one h kv)
          ∧ ((∀ h, h ∈ hs → found (multiGet_one h kv) = false) → kv' = kv).
Proof.
  revert pairs w. induction hs as [|h hs IH]; intros pairs w Href; simpl.
  - exists pairs, w. split; [reflexivity|]. split; [reflexivity|]. split; [reflexivity|].
    intros i kv Hi. exists kv. split; [exact Hi|]. split; [reflexivity|].
    split; [reflexivity|]. split; [intros j h Hj; discriminate | reflexivity].
  - destruct (levelHandler_multiGet_one h pairs w) as (w1 & -> & Hc1).
    { intros t Ht. apply (Href h t); [by left | exact Ht]. }
    simpl.
    destruct (IH (multiGet_one h <$> pairs) w1) as (pairs' & w' & Hmg & Hc & Hlen & Hall).
    { intros h' t Hh' Ht. rewrite Hc1. apply (Href h' t); [by right | exact Ht]. }
    exists pairs', w'. split; [exact Hmg|]. split; [intros t; by rewrite Hc, Hc1|].
    split; [by rewrite Hlen, length_fmap|].
    intros i kv Hi.
    destruct (Hall i (multiGet_one h kv)) as (kv' & Hkv' & Hkey & Hfound & Hfirst & Hnone).
    { by rewrite list_lookup_fmap, Hi. }
    destruct (multiGet_one_frame h kv) as (Hk1 & Hf1 & Hn1 & _).
    exists kv'. split; [exact Hkv'|]. split; [by rewrite Hkey|]. split; [|split].
    + intros Hf. rewrite (Hf1 Hf) in Hfound. exact (Hfound Hf).
    + intros [|j] h' Hj Hf Hfj Hbefore.
      * injection Hj as <-. by apply Hfound.
      * pose proof (Hbefore 0%nat h ltac:(lia) eq_refl) as Hh.
        rewrite (Hn1 Hh) in Hfirst.
        apply (Hfirst j h' Hj Hf Hfj).
        intros j' h'' Hj' Hh''. apply (Hbefore (S j') h''); [lia | exact Hh''].
    + intros Hallnone.
      pose proof (Hallnone h (list_elem_of_here _ _)) as Hh.
      rewrite (Hn1 Hh) in Hnone. apply Hnone.
      intros h' Hh'. apply Hallnone. by right.
Qed.

End MultiGetFacts.


(** ** Moving a table down a level *)

Section MoveDown.
Context {KO : KeyOrder}.
Variable remove_file : N → bool.
Variable addChanges : list ManifestChange → option error.
Variable mergeTables :
  Z → compactDef → bool → gmap N Z → option (list Table * option error * gmap N Z).

(** What [deleteTables] does when its assertion does not fail: at level 0,
    and at a level whose tables satisfy the invariant. *)
Lemma deleteTables_eq (s : levelHandler) (toDel : list Table) (w : gmap N Z) :
  level s = 0 ∨ level_inv (tables s) = true →
  let toDelMap : gset N := list_to_set (ID <$> toDel) in
  deleteTables remove_file s toDel w
  = Some ((decrRefs remove_file toDel w).1,
          {| tables := List.filter (λ t, negb (bool_decide (ID t ∈ toDelMap))) (tables s);
             totalSize := (deleteTables_loop toDelMap (tables s) (totalSize s)).2;
             level := level s; maxTotalSize := maxTotalSize s |},
          (decrRefs remove_file toDel w).2).
Proof.
  intros Hs toDelMap. unfold deleteTables. fold toDelMap.
  pose proof (deleteTables_loop_fst toDelMap (tables s) [] (totalSize s)) as Hfst.
  fold (deleteTables_loop toDelMap (tables s) (totalSize s)) in Hfst.
  destruct (deleteTables_loop toDelMap (tables s) (totalSize s)) as [newTables total].
  simpl in Hfst. subst newTables.
  assert (Hok : negb (level s =? 0)
                && negb (assertTablesOrder
                           (List.filter (λ t, negb (bool_decide (ID t ∈ toDelMap))) (tables s)))
                = false).
  { destruct Hs as [->|Hinv]; [reflexivity|].
    rewrite (level_inv_assert _ (level_inv_filter _ _ Hinv)). apply andb_false_r. }
  rewrite Hok. by destruct (decrRefs remove_file toDel w).
Qed.

(** A table that no table of a level overlaps finds an empty range of
    tables to replace there. *)
Lemma overlappingTables_none (s : levelHandler) (t : Table) (left_ right_ : nat) :
  level_inv (tables s) = true →
  table_wf t = true →
  (∀ t', t' ∈ tables s → table_overlaps (Smallest t) (Biggest t) t' = false) →
  overlappingTables s (Smallest t) (Biggest t) = (left_, right_) →
  left_ = right_.
Proof.
  intros Hinv Hwf Hno Hov. unfold table_wf in Hwf. apply Z.leb_le in Hwf.
  destruct (overlappingTables_range s _ _ left_ right_ Hinv Hwf Hov)
    as ((Hle & Hlen) & HidxL & HidxR).
  destruct (decide (left_ = right_)) as [|Hne]; [assumption|exfalso].
  destruct (lookup_lt_is_Some_2 (tables s) left_ ltac:(lia)) as [t' Ht'].
  pose proof (Hno t' (list_elem_of_lookup_2 _ _ _ Ht')) as Hf.
  unfold table_overlaps in Hf.
  rewrite (proj1 (HidxL left_ t' Ht') ltac:(lia)) in Hf. simpl in Hf.
  apply Z.leb_gt in Hf.
  assert (HR : (CompareKeys (Biggest t) (Smallest t') <? 0) = true).
  { apply Z.ltb_lt. pose proof (CompareKeys_flip (Biggest t) (Smallest t')). lia. }
  apply (HidxR left_ t' Ht') in HR. lia.
Qed.

(** Dropping the tables with the id of one table. *)
Lemma filter_not_id (t : Table) (l : list Table) :
  List.filter (λ t', negb (bool_decide (ID t' ∈ (list_to_set (ID <$> [t]) : gset N)))) l
  = List.filter (λ t', negb (ID t' =? ID t)%N) l.
Proof.
  apply filter_ext. intros t'. f_equal. cbn [fmap list_fmap list_to_set].
  destruct (N.eqb_spec (ID t') (ID t)) as [E|E].
  - rewrite bool_decide_eq_true, elem_of_union, elem_of_singleton. by left.
  - rewrite bool_decide_eq_false, elem_of_union, elem_of_singleton, elem_of_empty. tauto.
Qed.

(** The run of [runCompactDef] on a compaction that moves one table down:
    the levels and the store that it leaves. *)
Lemma runCompactDef_move_down_run (lc : levelsController) (l : Z) (cd : compactDef)
    (t : Table) (w : gmap N Z) :
  0 < l →
  top cd = [t] →
  bot cd = [] →
  table_wf t = true →
  0 ≤ level (nextLevel cd) →
  level_inv (tables (thisLevel cd)) = true →
  level_inv (tables (nextLevel cd)) = true →
  (∀ t', t' ∈ tables (nextLevel cd) → table_overlaps (Smallest t) (Biggest t) t' = false) →
  1 ≤ ref_count w t →
  addChanges [makeTableMoveDownChange (ID t) (level (nextLevel cd))] = None →
  ∃ i w',
    let next' := {| tables := take i (tables (nextLevel cd))
                              ++ t :: drop i (tables (nextLevel cd));
                    totalSize := wrap64 (totalSize (nextLevel cd) + (Size t + 0) - 0);
                    level := level (nextLevel cd);
                    maxTotalSize := maxTotalSize (nextLevel cd) |} in
    let this' := {| tables := List.filter (λ t', negb (ID t' =? ID t)%N)
                                          (tables (thisLevel cd));
                    totalSize := (deleteTables_loop (list_to_set (ID <$> [t]))
                                    (tables (thisLevel cd)) (totalSize (thisLevel cd))).2;
                    level := level (thisLevel cd);
                    maxTotalSize := maxTotalSize (thisLevel cd) |} in
    runCompactDef remove_file addChanges mergeTables lc l cd w
    = Some (None, this', next', w')
    ∧ level_inv (tables next') = true
    ∧ replaceTables remove_file (nextLevel cd) [t] (IncrRef t w)
      = Some (None, next', IncrRef t (IncrRef t w))
    ∧ ∀ t0, ref_count w' t0 = ref_count w t0.
Proof.
  intros Hl Htop Hbot Hwf Hnl Hthis Hnext Hno Href Hadd.
  destruct (overlappingTables (nextLevel cd) (Smallest t) (Biggest t))
    as [left_ right_] eqn:Hov.
  pose proof (overlappingTables_none _ t left_ right_ Hnext Hwf Hno Hov) as <-.
  assert (Hnew : level_inv [t] = true) by (unfold level_inv; simpl; by rewrite Hwf).
  pose proof (splice_level_inv (nextLevel cd) t [] left_ left_ Hnext Hnew Hov) as Hnext'.
  pose proof (replaceTables_cons_eq remove_file (nextLevel cd) t [] (IncrRef t w)
                left_ left_ eq_refl Hov (Nat.le_refl _) (level_inv_assert _ Hnext')) as Hrep.
  cbv zeta in Hrep. rewrite Nat.sub_diag, take_0 in Hrep.
  cbn [decrRefs fst snd sum_sizes foldr fold_left app] in Hrep.
  pose proof (deleteTables_eq (thisLevel cd) [t] (IncrRef t (IncrRef t w)) (or_intror Hthis))
    as Hdel.
  cbv zeta in Hdel. rewrite filter_not_id in Hdel.
  assert (Hrc2 : ref_count (IncrRef t (IncrRef t w)) t = ref_count w t + 2).
  { unfold IncrRef. rewrite !ref_count_insert, !N.eqb_refl. lia. }
  assert (Hd1 : DecrRef remove_file t (IncrRef t (IncrRef t w))
                = (None, <[ID t := ref_count w t + 1]> (IncrRef t (IncrRef t w)))).
  { unfold DecrRef. rewrite Hrc2.
    destruct (Z.eqb_spec (ref_count w t + 2 - 1) 0); [lia|]. simpl. do 2 f_equal. lia. }
  set (w3 := <[ID t := ref_count w t + 1]> (IncrRef t (IncrRef t w))) in *.
  assert (Hdr : decrRefs remove_file [t] (IncrRef t (IncrRef t w)) = (None, w3)).
  { cbn [decrRefs]. by rewrite Hd1. }
  rewrite Hdr in Hdel. cbn [fst snd] in Hdel.
  assert (Hd2 : forceDecrRefs remove_file [t] w3 = Some (<[ID t := ref_count w t]> w3)).
  { assert (Hrc3 : ref_count w3 t = ref_count w t + 1)
      by (unfold w3; by rewrite ref_count_insert, N.eqb_refl).
    unfold forceDecrRefs. cbn [decrRefs]. unfold DecrRef. rewrite Hrc3.
    destruct (Z.eqb_spec (ref_count w t + 1 - 1) 0); [lia|]. simpl. do 2 f_equal. lia. }
  exists left_, (<[ID t := ref_count w t]> w3). cbv zeta.
  split; [|split; [exact Hnext'|split; [exact Hrep|]]].
  - assert (Hcb : compactBuildTables mergeTables lc l cd w
                  = Some ([t], true, None, IncrRef t w)).
    { unfold compactBuildTables, hasOverlapTable, checkInvariants.
      rewrite Htop, Hbot. simpl.
      destruct (Z.ltb_spec (level (nextLevel cd) + 1) 0); [lia|]. simpl.
      by destruct (Z.gtb_spec l 0); [|lia]. }
    assert (Hcs : buildChangeSet cd [t] true
                  = [makeTableMoveDownChange (ID t) (level (nextLevel cd))])
      by reflexivity.
    unfold runCompactDef. rewrite Hcb. cbn [mbind option_bind]. rewrite Hcs, Hadd.
    unfold runCompactDef_install. rewrite Hrep. cbn [mbind option_bind].
    rewrite Htop, Hdel. cbn [mbind option_bind]. rewrite Hd2. reflexivity.
  - intros t0. unfold w3, IncrRef. rewrite !ref_count_insert.
    destruct (N.eqb_spec (ID t) (ID t0)) as [E|_]; [|reflexivity].
    unfold ref_count. by rewrite E.
Qed.

(** X8.  A compaction from a level ≥ 1 of one table [t] that no table of
    the next level overlaps (so that [bot] is empty), when [t] is
    referenced and the manifest accepts the change set made of the single
    change "move [t] down to the next level": [runCompactDef] returns
    without error; the next level holds [t] inserted in key order and still
    satisfies the invariant; this level has lost the tables with the id of
    [t] and nothing else, and still satisfies the invariant; the total size
    of the next level has grown by the size of [t], and size accounting is
    kept on both levels; every reference count is as it was, so the file of
    [t] is not removed. *)
Theorem runCompactDef_move_down (lc : levelsController) (l : Z) (cd : compactDef)
    (t : Table) (w : gmap N Z) :
  0 < l →
  top cd = [t] →
  bot cd = [] →
  table_wf t = true →
  0 ≤ level (nextLevel cd) →
  level_inv (tables (thisLevel cd)) = true →
  level_inv (tables (nextLevel cd)) = true →
  (∀ t', t' ∈ tables (nextLevel cd) → table_overlaps (Smallest t) (Biggest t) t' = false) →
  1 ≤ ref_count w t →
  addChanges [makeTableMoveDownChange (ID t) (level (nextLevel cd))] = None →
  ∃ i this' next' w',
    runCompactDef remove_file addChanges mergeTables lc l cd w
    = Some (None, this', next', w')
    ∧ tables next' = take i (tables (nextLevel cd)) ++ t :: drop i (tables (nextLevel cd))
    ∧ level_inv (tables next') = true
    ∧ tables this'
      = List.filter (λ t', negb (ID t' =? ID t)%N) (tables (thisLevel cd))
    ∧ level_inv (tables this') = true
    ∧ totalSize next' = wrap64 (totalSize (nextLevel cd) + Size t)
    ∧ (size_accounted (thisLevel cd) → size_accounted this')
    ∧ (size_accounted (nextLevel cd) → size_accounted next')
    ∧ ∀ t0, ref_count w' t0 = ref_count w t0.
Proof.
  intros Hl Htop Hbot Hwf Hnl Hthis Hnext Hno Href Hadd.
  destruct (runCompactDef_move_down_run lc l cd t w Hl Htop Hbot Hwf Hnl Hthis Hnext Hno
              Href Hadd) as (i & w' & Hrun & Hnext' & Hrep & Hrefs).
  cbv zeta in Hrun, Hnext', Hrep.
  eexists i, _, _, w'. split; [exact Hrun|]. cbn [tables totalSize].
  split; [reflexivity|]. split; [exact Hnext'|]. split; [reflexivity|].
  split; [by apply level_inv_filter|].
  split; [f_equal; lia|]. split; [|split; [|exact Hrefs]].
  - intros Hacc.
    eapply (deleteTables_accounted remove_file (thisLevel cd) [t] w); [|exact Hacc].
    rewrite (deleteTables_eq (thisLevel cd) [t] w (or_intror Hthis)). cbv zeta.
    rewrite filter_not_id. reflexivity.
  - intros Hacc.
    eapply (replaceTables_accounted remove_file (nextLevel cd) [t]); [exact Hrep|exact Hacc].
Qed.

End MoveDown.

(** ** Tables below the output level of a compaction *)

Section HasOverlap.
Context {KO : KeyOrder}.

Lemma CompareKeys_refl (a : Key) : CompareKeys a a = 0.
Proof. pose proof (CompareKeys_flip a a). lia. Qed.

(** The range that [getKeyRange] returns is not empty when the first table
    is well formed, and it covers the range of every table. *)
Lemma getKeyRange_bounds (tbls : list Table) (kl kr : Key) :
  forallb table_wf tbls = true →
  getKeyRange tbls = Some (kl, kr) →
  CompareKeys kl kr ≤ 0
  ∧ ∀ t, t ∈ tbls → CompareKeys kl (Smallest t) ≤ 0 ∧ CompareKeys (Biggest t) kr ≤ 0.
Proof.
  destruct tbls as [|t0 rest]; [discriminate|]. simpl.
  intros [Hwf0 _]%andb_prop. unfold table_wf in Hwf0. apply Z.leb_le in Hwf0.
  assert (H : ∀ (l seen : list Table) s b,
    CompareKeys s b ≤ 0 →
    (∀ t, t ∈ seen → CompareKeys s (Smallest t) ≤ 0 ∧ CompareKeys (Biggest t) b ≤ 0) →
    fold_left (λ '(smallest, biggest) t',
       (if CompareKeys (Smallest t') smallest <? 0 then Smallest t' else smallest,
        if CompareKeys (Biggest t') biggest >? 0 then Biggest t' else biggest))
      l (s, b) = (kl, kr) →
    CompareKeys kl kr ≤ 0
    ∧ ∀ t, t ∈ seen ++ l → CompareKeys kl (Smallest t) ≤ 0 ∧ CompareKeys (Biggest t) kr ≤ 0).
  { induction l as [|t' l IH]; intros seen s b Hsb Hseen; simpl.
    - intros [= <- <-]. by rewrite app_nil_r.
    - intros Hfold.
      set (s' := if CompareKeys (Smallest t') s <? 0 then Smallest t' else s) in *.
      set (b' := if CompareKeys (Biggest t') b >? 0 then Biggest t' else b) in *.
      assert (Hs : CompareKeys s' s ≤ 0 ∧ CompareKeys s' (Smallest t') ≤ 0).
      { unfold s'. destruct (Z.ltb_spec (CompareKeys (Smallest t') s) 0).
        - rewrite CompareKeys_refl. lia.
        - rewrite CompareKeys_refl. split; [lia|]. by apply CompareKeys_ge_flip. }
      assert (Hb : CompareKeys b b' ≤ 0 ∧ CompareKeys (Biggest t') b' ≤ 0).
      { unfold b'. rewrite Z.gtb_ltb.
        destruct (Z.ltb_spec 0 (CompareKeys (Biggest t') b)).
        - rewrite CompareKeys_refl. split; [|lia].
          pose proof (CompareKeys_flip b (Biggest t')). lia.
        - rewrite CompareKeys_refl. lia. }
      destruct Hs as [Hs1 Hs2]. destruct Hb as [Hb1 Hb2].
      destruct (IH (seen ++ [t']) s' b') as [Hlr Hall].
      + exact (CompareKeys_trans _ _ _ Hs1 (CompareKeys_trans _ _ _ Hsb Hb1)).
      + intros t [Ht|Ht]%elem_of_app.
        * destruct (Hseen t Ht) as [Hst Htb].
          split; [exact (CompareKeys_trans _ _ _ Hs1 Hst) | exact (CompareKeys_trans _ _ _ Htb Hb1)].
        * apply list_elem_of_singleton in Ht as ->. auto.
      + exact Hfold.
      + split; [exact Hlr|]. intros t Ht. apply Hall. by rewrite <- app_assoc. }
  intros Hfold. injection Hfold as Hfold.
  apply (H rest [t0] (Smallest t0) (Biggest t0) Hwf0); [|exact Hfold].
  intros t Ht. apply list_elem_of_singleton in Ht as ->. rewrite !CompareKeys_refl. lia.
Qed.

(** The half-open range of [overlappingTables] is not empty exactly when
    some table of the level intersects the key range. *)
Lemma overlappingTables_nonempty (s : levelHandler) (kl kr : Key) (left_ right_ : nat) :
  level_inv (tables s) = true →
  CompareKeys kl kr ≤ 0 →
  overlappingTables s kl kr = (left_, right_) →
  (left_ < right_)%nat ↔ ∃ t, t ∈ tables s ∧ table_overlaps kl kr t = true.
Proof.
  intros Hinv Hrange Hov.
  destruct (overlappingTables_range s _ _ left_ right_ Hinv Hrange Hov)
    as ((Hle & Hlen) & HidxL & HidxR).
  split.
  - intros Hlt.
    destruct (lookup_lt_is_Some_2 (tables s) left_ ltac:(lia)) as [t Ht].
    exists t. split; [by eapply list_elem_of_lookup_2|].
    unfold table_overlaps.
    rewrite (proj1 (HidxL left_ t Ht) (Nat.le_refl _)). simpl.
    apply Z.leb_le, CompareKeys_ge_flip.
    destruct (Z.ltb_spec (CompareKeys kr (Smallest t)) 0) as [Hc|Hc]; [|exact Hc].
    apply Z.ltb_lt, (HidxR left_ t Ht) in Hc. lia.
  - intros (t & Hin & Hover).
    apply list_elem_of_lookup in Hin as [i Hi].
    apply andb_prop in Hover as [HL HR].
    apply (HidxL i t Hi) in HL.
    destruct (Nat.le_gt_cases right_ i) as [Hri|]; [|lia].
    apply (HidxR i t Hi), Z.ltb_lt in Hri. apply Z.leb_le, CompareKeys_ge_flip in HR. lia.
Qed.

(** X9.  [hasOverlapTable] on a compaction whose [top] tables are well
    formed, when the levels below the output level satisfy the invariant:
    it returns, and it returns [true] exactly when some table of a level
    below the output level intersects the key range that the [top] tables
    span. *)
Theorem hasOverlapTable_spec (lc : levelsController) (cd : compactDef) :
  top cd ≠ [] →
  forallb table_wf (top cd) = true →
  0 ≤ level (nextLevel cd) →
  (∀ i lh, (Z.to_nat (level (nextLevel cd) + 1) ≤ i)%nat → levels lc !! i = Some lh →
           level_inv (tables lh) = true) →
  ∃ kl kr b,
    getKeyRange (top cd) = Some (kl, kr)
    ∧ hasOverlapTable lc cd = Some b
    ∧ (b = true ↔
       ∃ i lh t, (Z.to_nat (level (nextLevel cd) + 1) ≤ i)%nat
                 ∧ levels lc !! i = Some lh
                 ∧ t ∈ tables lh
                 ∧ table_overlaps kl kr t = true).
Proof.
  intros Hne Hwf Hlvl Hinv.
  destruct (getKeyRange (top cd)) as [[kl kr]|] eqn:Hkr;
    [|by destruct (top cd); [contradiction | discriminate]].
  destruct (getKeyRange_bounds _ kl kr Hwf Hkr) as [Hrange _].
  unfold hasOverlapTable. rewrite Hkr. cbn [mbind option_bind].
  destruct (Z.ltb_spec (level (nextLevel cd) + 1) 0); [lia|].
  eexists kl, kr, _. split; [reflexivity|]. split; [reflexivity|].
  rewrite existsb_exists. split.
  - intros (lh & Hin & Hpos).
    apply list_elem_of_In, list_elem_of_lookup in Hin as [j Hj]. rewrite lookup_drop in Hj.
    destruct (overlappingTables lh kl kr) as [left_ right_] eqn:Hov.
    rewrite ?Hov in Hpos. apply Z.gtb_lt in Hpos.
    assert (Hlt : (left_ < right_)%nat) by lia.
    assert (Hlh : level_inv (tables lh) = true) by (eapply Hinv; [|exact Hj]; lia).
    destruct (proj1 (overlappingTables_nonempty lh kl kr left_ right_ Hlh Hrange Hov))
      as (t & Ht & Hover); [exact Hlt|].
    exists (Z.to_nat (level (nextLevel cd) + 1) + j)%nat, lh, t.
    split; [lia|]. auto.
  - intros (i & lh & t & Hi & Hlh & Ht & Hover).
    exists lh. split.
    + apply list_elem_of_In, list_elem_of_lookup.
      exists (i - Z.to_nat (level (nextLevel cd) + 1))%nat.
      rewrite lookup_drop, <- Hlh. f_equal. lia.
    + destruct (overlappingTables lh kl kr) as [left_ right_] eqn:Hov.
      apply Z.gtb_lt.
      pose proof (proj2 (overlappingTables_nonempty lh kl kr left_ right_
                           (Hinv i lh Hi Hlh) Hrange Hov)) as Hlt.
      assert (left_ < right_)%nat by (apply Hlt; eauto). lia.
Qed.

End HasOverlap.

(** ** The levels that [newLevelsController] sets up *)

Lemma wrap64_mod z : wrap64 z mod 2 ^ 64 = z mod 2 ^ 64.
Proof.
  unfold wrap64.
  rewrite <- Zminus_mod_idemp_l, Z.mod_mod by (pow2; lia).
  rewrite Zminus_mod_idemp_l. f_equal. lia.
Qed.

Lemma wrap64_mul_l a b : wrap64 (wrap64 a * b) = wrap64 (a * b).
Proof.
  unfold wrap64 at 1 3. f_equal.
  rewrite <- (Zplus_mod_idemp_l (wrap64 a * b)), <- (Zplus_mod_idemp_l (a * b)).
  f_equal. f_equal.
  rewrite <- (Zmult_mod_idemp_l (wrap64 a)), <- (Zmult_mod_idemp_l a).
  by rewrite wrap64_mod.
Qed.

Section ConstructionFacts.
Context {KO : KeyOrder}.

(** The handler of the level [i] as the loop leaves it: no table, and a
    maximal total size of [LevelOneSize * LevelSizeMultiplier ^ (i - 1)]
    in [int64] arithmetic from level 1 on. *)
Definition fresh_level (LevelOneSize LevelSizeMultiplier : Z) (i : nat) : levelHandler :=
  {| tables := []; totalSize := 0; level := Z.of_nat i;
     maxTotalSize :=
       match i with
       | O => 0
       | S j => wrap64 (LevelOneSize * LevelSizeMultiplier ^ Z.of_nat j)
       end |}.

Lemma newLevelsController_level_fresh (L1 m : Z) (n : nat) :
  - 2 ^ 63 ≤ L1 < 2 ^ 63 →
  newLevelsController_level L1 m (fresh_level L1 m <$> seq 0 n) n
  = Some (fresh_level L1 m n).
Proof.
  intros HL1. unfold newLevelsController_level, newLevelHandler.
  destruct n as [|[|n]].
  - reflexivity.
  - cbn [Nat.eqb]. unfold fresh_level. do 2 f_equal.
    rewrite Z.pow_0_r, Z.mul_1_r. symmetry. by apply wrap64_small.
  - cbn [Nat.eqb]. replace (S (S n) - 1)%nat with (S n) by lia.
    rewrite list_lookup_fmap, lookup_seq_lt by lia.
    cbn [fmap option_fmap option_map mbind option_bind plus].
    unfold fresh_level. cbn [maxTotalSize level tables totalSize]. do 2 f_equal.
    rewrite wrap64_mul_l. f_equal.
    rewrite <- Z.mul_assoc. f_equal.
    replace (Z.of_nat (S n)) with (Z.of_nat n + 1) by lia.
    rewrite Z.pow_add_r by lia. by rewrite Z.pow_1_r.
Qed.

Lemma newLevelsController_loop (L1 m : Z) (n : nat) :
  - 2 ^ 63 ≤ L1 < 2 ^ 63 →
  fold_left (λ acc i,
      lvls ← acc;
      h ← newLevelsController_level L1 m lvls i;
      Some (lvls ++ [h])) (seq 0 n) (Some [])
  = Some (fresh_level L1 m <$> seq 0 n).
Proof.
  intros HL1. induction n as [|n IH]; [reflexivity|].
  rewrite seq_S, fold_left_app, IH, fmap_app.
  cbn [fold_left mbind option_bind plus].
  by rewrite (newLevelsController_level_fresh _ _ _ HL1).
Qed.

(** X10.  The start of [newLevelsController].  It panics unless the stall
    threshold of level 0 is greater than the compaction trigger.
    Otherwise, for a [LevelOneSize] that is an [int64], it sets up
    [MaxLevels] handlers and as many compaction statuses: the handler at
    index [i] has level [i], no table, total size 0, and as maximal total
    size 0 at level 0 and [LevelOneSize * LevelSizeMultiplier ^ (i - 1)]
    (in [int64] arithmetic) from level 1 on; no range is reserved and every
    delta size is 0. *)
Theorem newLevelsController_init_spec (o : Options)
    (MaxLevels LevelOneSize LevelSizeMultiplier : Z) :
  (NumLevelZeroTablesStall o ≤ NumLevelZeroTables o →
   newLevelsController_init o MaxLevels LevelOneSize LevelSizeMultiplier = None)
  ∧ (NumLevelZeroTables o < NumLevelZeroTablesStall o →
     0 ≤ MaxLevels →
     - 2 ^ 63 ≤ LevelOneSize < 2 ^ 63 →
     ∃ lc, newLevelsController_init o MaxLevels LevelOneSize LevelSizeMultiplier = Some lc
       ∧ opt lc = o
       ∧ length (levels lc) = Z.to_nat MaxLevels
       ∧ length (cs_levels (cstatus lc)) = length (levels lc)
       ∧ (∀ i h, levels lc !! i = Some h →
            level h = Z.of_nat i ∧ tables h = [] ∧ totalSize h = 0
            ∧ maxTotalSize h
              = match i with
                | O => 0
                | S j => wrap64 (LevelOneSize * LevelSizeMultiplier ^ Z.of_nat j)
                end)
       ∧ (∀ i c, cs_levels (cstatus lc) !! i = Some c → ranges c = [] ∧ delSize c = 0)).
Proof.
  unfold newLevelsController_init. split.
  - intros Hle. destruct (Z.gtb_spec (NumLevelZeroTablesStall o) (NumLevelZeroTables o));
      [lia | reflexivity].
  - intros Hlt Hn HL1.
    destruct (Z.gtb_spec (NumLevelZeroTablesStall o) (NumLevelZeroTables o)); [|lia].
    destruct (Z.ltb_spec MaxLevels 0); [lia|]. simpl.
    rewrite (newLevelsController_loop _ _ _ HL1). simpl.
    eexists. split; [reflexivity|]. simpl.
    split; [reflexivity|]. split; [by rewrite length_fmap, length_seq|].
    split; [by rewrite length_replicate, length_fmap, length_seq|]. split.
    + intros i h Hi. rewrite list_lookup_fmap in Hi.
      destruct (seq 0 (Z.to_nat MaxLevels) !! i) as [j|] eqn:Hj; [|discriminate].
      apply lookup_seq in Hj as [-> _]. simpl in Hi. injection Hi as <-. by simpl.
    + intros i c Hc. apply lookup_replicate in Hc as [-> _]. by simpl.
Qed.

End ConstructionFacts.

(** ** The writer that waits and the planner *)

Section Progress.
Context {KO : KeyOrder}.

Lemma planned_levelN_level (lc : levelsController) (L : nat) p :
  p ∈ planned_levelN lc L → cp_level p = Z.of_nat L.
Proof.
  unfold planned_levelN.
  destruct (levels lc !! L); [|by intros ?%elem_of_nil].
  destruct (cs_levels (cstatus lc) !! L); [|by intros ?%elem_of_nil].
  destruct (_ >=? _); [|by intros ?%elem_of_nil].
  by intros ->%list_elem_of_singleton.
Qed.

(** X11.  The test that keeps a writer in the wait loop of
    [addLevel0Table] and the planner use the same criteria: when no
    compaction is under way at level 0 and the delta size of level 1 is 0,
    the writer stays in the loop exactly when [pickCompactLevels] returns a
    priority for level 0 or for level 1, so a waiting writer always has a
    compaction that a worker can pick. *)
Theorem stalled_writer_has_priority (lc : levelsController)
    (l0 l1 : levelHandler) (c0 c1 : levelCompactStatus) :
  levels lc !! 0%nat = Some l0 →
  levels lc !! 1%nat = Some l1 →
  length (cs_levels (cstatus lc)) = length (levels lc) →
  cs_levels (cstatus lc) !! 0%nat = Some c0 →
  cs_levels (cstatus lc) !! 1%nat = Some c1 →
  ranges c0 = [] →
  delSize c1 = 0 →
  ∃ healthy prios,
    unstall_test lc = Some healthy
    ∧ pickCompactLevels lc = Some prios
    ∧ (healthy = false ↔ ∃ p, p ∈ prios ∧ (cp_level p = 0 ∨ cp_level p = 1))
    ∧ (NumLevelZeroTables (opt lc) ≤ numTables l0 ↔ ∃ p, p ∈ prios ∧ cp_level p = 0)
    ∧ (isCompactable l1 0 = true ↔ ∃ p, p ∈ prios ∧ cp_level p = 1).
Proof.
  intros H0 H1 Hlen Hc0 Hc1 Hr0 Hd1.
  assert (Hne : levels lc ≠ []) by (intros E; by rewrite E in H0).
  assert (Hinf : ∀ c r, cs_levels (cstatus lc) !! 0%nat = Some c → r ∈ ranges c → r = infRange).
  { intros c r Hc Hr. rewrite Hc0 in Hc. injection Hc as <-. rewrite Hr0 in Hr.
    by apply elem_of_nil in Hr. }
  unfold pickCompactLevels.
  rewrite (pickCompactLevels_unsorted_planned lc Hne Hlen Hinf).
  cbn [mbind option_bind].
  set (prios := sort.Slice _ _).
  assert (Hmem : ∀ p, p ∈ prios ↔ p ∈ planned_priorities lc).
  { intros p. unfold prios. by rewrite slice_facts.Slice_perm. }
  (* the priorities of level 0 and of level 1 *)
  assert (Hp0 : (∃ p, p ∈ prios ∧ cp_level p = 0)
                ↔ (numTables l0 >=? NumLevelZeroTables (opt lc)) = true).
  { split.
    - intros (p & Hp & Hl). apply Hmem in Hp. unfold planned_priorities in Hp.
      apply elem_of_app in Hp as [Hp|Hp].
      + unfold planned_level0 in Hp. rewrite H0, Hc0, Hr0 in Hp. simpl in Hp.
        destruct (numTables l0 >=? _); [reflexivity | by apply elem_of_nil in Hp].
      + apply list_elem_of_In, in_flat_map in Hp as (L & HL & Hp).
        apply in_seq in HL. apply list_elem_of_In, planned_levelN_level in Hp. lia.
    - intros Hge. eexists. split.
      + apply Hmem. unfold planned_priorities. apply elem_of_app. left.
        unfold planned_level0. rewrite H0, Hc0, Hr0, Hge. simpl. apply list_elem_of_here.
      + reflexivity. }
  assert (Hp1 : (∃ p, p ∈ prios ∧ cp_level p = 1) ↔ isCompactable l1 0 = true).
  { unfold isCompactable, getTotalSize. split.
    - intros (p & Hp & Hl). apply Hmem in Hp. unfold planned_priorities in Hp.
      apply elem_of_app in Hp as [Hp|Hp].
      + unfold planned_level0 in Hp. rewrite H0, Hc0 in Hp.
        destruct (_ && _); [|by apply elem_of_nil in Hp].
        apply list_elem_of_singleton in Hp as ->. discriminate.
      + apply list_elem_of_In, in_flat_map in Hp as (L & HL & Hp).
        apply list_elem_of_In in Hp.
        pose proof (planned_levelN_level _ _ _ Hp) as HL'.
        assert (L = 1%nat) as -> by lia.
        unfold planned_levelN in Hp. rewrite H1, Hc1, Hd1 in Hp. cbv zeta in Hp.
        destruct (totalSize l1 >=? wrap64 (maxTotalSize l1 + 0));
          [reflexivity | by apply elem_of_nil in Hp].
    - intros Hge. eexists. split.
      + apply Hmem. unfold planned_priorities. apply elem_of_app. right.
        apply list_elem_of_In, in_flat_map. exists 1%nat. split.
        * apply in_seq. apply lookup_lt_Some in H1. lia.
        * unfold planned_levelN. rewrite H1, Hc1, Hd1. cbv zeta. rewrite Hge. by left.
      + reflexivity. }
  unfold unstall_test, isL0Compactable. rewrite H0. cbn [mbind option_bind]. rewrite H1.
  cbn [mbind option_bind].
  exists (negb (numTables l0 >=? NumLevelZeroTables (opt lc)) && negb (isCompactable l1 0)),
    prios.
  split; [by destruct (numTables l0 >=? NumLevelZeroTables (opt lc))|].
  split; [reflexivity|].
  split; [|split].
  - destruct (numTables l0 >=? NumLevelZeroTables (opt lc)) eqn:E0; cbn [negb andb].
    + split; [|reflexivity]. intros _.
      destruct (proj2 Hp0 eq_refl) as (p & Hp & Hl). eauto.
    + destruct (isCompactable l1 0) eqn:E1; cbn [negb].
      * split; [|reflexivity]. intros _.
        destruct (proj2 Hp1 eq_refl) as (p & Hp & Hl). eauto.
      * split; [discriminate|]. intros (p & Hp & [Hl|Hl]).
        -- assert (false = true) by (apply Hp0; eauto). discriminate.
        -- assert (false = true) by (apply Hp1; eauto). discriminate.
  - rewrite Hp0. rewrite Z.geb_le. lia.
  - by rewrite Hp1.
Qed.

End Progress.

(** ** Admission once the levels are healthy *)

Section Admission.
Context {KO : KeyOrder}.
Variable addChanges : list ManifestChange → option error.

(** X12.  When the test of the wait loop of [addLevel0Table] succeeds
    (level 0 is below the compaction trigger and level 1 below its maximal
    size) and the trigger is below the stall threshold, which is what
    [newLevelsController] asserts, the writer leaves the loop and its next
    call of [tryAddLevel0Table], on the same state, admits the table: the
    table is appended to level 0, its reference count is incremented and
    [addLevel0Table] returns without error. *)
Theorem addLevel0Table_admits (t : Table) (lc : levelsController) (w : gmap N Z)
    (l0 : levelHandler) :
  levels lc !! 0%nat = Some l0 →
  level l0 = 0 →
  NumLevelZeroTables (opt lc) < NumLevelZeroTablesStall (opt lc) →
  unstall_test lc = Some true →
  let l0' := {| tables := tables l0 ++ [t]; totalSize := wrap64 (totalSize l0 + Size t);
                level := level l0; maxTotalSize := maxTotalSize l0 |} in
  addLevel0Table_step t AddWait lc w = Some (AddTry, lc, w)
  ∧ addLevel0Table_step t AddTry lc w
    = Some (AddDone None,
            {| levels := <[0%nat := l0']> (levels lc); cstatus := cstatus lc; opt := opt lc |},
            IncrRef t w)
  ∧ addLevel0Table_run t AddWait [(lc, w); (lc, w)] = Some (AddDone None).
Proof.
  intros H0 Hlvl Hopt Hun l0'.
  assert (Hwait : addLevel0Table_step t AddWait lc w = Some (AddTry, lc, w)).
  { cbn [addLevel0Table_step]. by rewrite Hun. }
  assert (Hbelow : numTables l0 < NumLevelZeroTables (opt lc)).
  { unfold unstall_test, isL0Compactable in Hun. rewrite H0 in Hun.
    cbn [mbind option_bind] in Hun.
    destruct (Z.geb_spec (numTables l0) (NumLevelZeroTables (opt lc))); [discriminate|lia]. }
  assert (Htry : addLevel0Table_step t AddTry lc w
    = Some (AddDone None,
            {| levels := <[0%nat := l0']> (levels lc); cstatus := cstatus lc; opt := opt lc |},
            IncrRef t w)).
  { cbn [addLevel0Table_step]. rewrite H0. cbn [mbind option_bind].
    unfold tryAddLevel0Table. rewrite Hlvl. cbn [Z.eqb negb].
    unfold numTables in Hbelow.
    destruct (Z.geb_spec (Z.of_nat (length (tables l0))) (NumLevelZeroTablesStall (opt lc)));
      [lia|].
    cbn [mbind option_bind]. subst l0'. by rewrite Hlvl. }
  split; [exact Hwait|]. split; [exact Htry|].
  cbn [addLevel0Table_run]. rewrite Hwait. cbn [mbind option_bind].
  rewrite Htry. reflexivity.
Qed.

End Admission.

(** ** The order that [initTables] sets up *)

Lemma adjacent_Sorted {A} (R : A → A → Prop) (l : list A) :
  sort.adjacent R l → Sorted R l.
Proof.
  induction l as [|a l IH]; intros Hadj; [constructor|].
  constructor; [apply IH; eapply adjacent_cons_inv, Hadj|].
  destruct l as [|b l]; constructor. apply Hadj.
Qed.

Lemma adjacent_impl {A} (R R' : A → A → Prop) (l : list A) :
  (∀ a b, R a b → R' a b) → sort.adjacent R l → sort.adjacent R' l.
Proof.
  intros HR. induction l as [|a [|b l] IH]; simpl; auto.
  intros [Hab Hrest]. split; [by apply HR | by apply IH].
Qed.

(** After [sort.Slice] no element is [less] than the one before it. *)
Lemma Slice_adjacent {A} (less : A → A → bool) (l : list A) :
  (∀ x y, less x y = true → less y x = false) →
  sort.adjacent (λ a b, less b a = false) (sort.Slice less l).
Proof. intros Hasym. by apply insertion_facts.insertionSort_adjacent. Qed.

Section InitTables.
Context {KO : KeyOrder}.

Definition by_id (a b : Table) : Prop := (ID a ≤ ID b)%N.
Definition by_smallest (a b : Table) : Prop := CompareKeys (Smallest a) (Smallest b) ≤ 0.

#[local] Instance by_id_trans : Transitive by_id.
Proof. unfold by_id. intros a b c. lia. Qed.

#[local] Instance by_smallest_trans : Transitive by_smallest.
Proof. unfold by_smallest. intros a b c. apply CompareKeys_trans. Qed.

Lemma Slice_by_id (l : list Table) :
  sort.adjacent by_id (sort.Slice (λ a b, (ID a <? ID b)%N) l).
Proof.
  eapply adjacent_impl; [|apply Slice_adjacent].
  - intros a b H. apply N.ltb_ge in H. exact H.
  - intros x y Hxy. apply N.ltb_lt in Hxy. apply N.ltb_ge. lia.
Qed.

Lemma Slice_by_smallest (l : list Table) :
  sort.adjacent by_smallest
    (sort.Slice (λ a b, CompareKeys (Smallest a) (Smallest b) <? 0) l).
Proof.
  eapply adjacent_impl; [|apply Slice_adjacent].
  - intros a b H. apply Z.ltb_ge in H. unfold by_smallest.
    by apply CompareKeys_ge_flip.
  - intros x y Hxy. apply Z.ltb_lt in Hxy. apply Z.ltb_ge.
    pose proof (CompareKeys_flip (Smallest x) (Smallest y)). lia.
Qed.

(** X13.  [initTables] keeps the tables it is given (the new table list is
    a permutation of them) and orders them: at level 0 by ascending file
    id, at the other levels by ascending [smallest_key]; a table is never
    followed, at any distance, by one that the order puts before it. *)
Theorem initTables_sorted (s : levelHandler) (tbls : list Table) :
  tables (initTables s tbls) ≡ₚ tbls
  ∧ level (initTables s tbls) = level s
  ∧ (level s = 0 →
     ∀ i j a b, (i < j)%nat →
       tables (initTables s tbls) !! i = Some a →
       tables (initTables s tbls) !! j = Some b →
       (ID a ≤ ID b)%N)
  ∧ (level s ≠ 0 →
     ∀ i j a b, (i < j)%nat →
       tables (initTables s tbls) !! i = Some a →
       tables (initTables s tbls) !! j = Some b →
       CompareKeys (Smallest a) (Smallest b) ≤ 0).
Proof.
  unfold initTables. cbn [tables level].
  split; [destruct (level s =? 0); apply slice_facts.Slice_perm|].
  split; [reflexivity|]. split.
  - intros -> i j a b Hij Ha Hb. cbn [Z.eqb] in Ha, Hb.
    exact (adjacent_lookup by_id _ (Slice_by_id tbls) i j a b Hij Ha Hb).
  - intros Hlvl i j a b Hij Ha Hb.
    destruct (Z.eqb_spec (level s) 0); [contradiction|].
    exact (adjacent_lookup by_smallest _ (Slice_by_smallest tbls) i j a b Hij Ha Hb).
Qed.

(** X14.  The handler that [initTables] sets up does not depend on the
    order in which the tables are given (at load time they come in the
    iteration order of a Go map), provided the sort key tells the tables
    apart: the file id at level 0, the [smallest_key] at the other
    levels. *)
Theorem initTables_order_independent (s : levelHandler) (tbls1 tbls2 : list Table) :
  tbls1 ≡ₚ tbls2 →
  (level s = 0 → ∀ a b, a ∈ tbls1 → b ∈ tbls1 → ID a = ID b → a = b) →
  (level s ≠ 0 → ∀ a b, a ∈ tbls1 → b ∈ tbls1 →
                 CompareKeys (Smallest a) (Smallest b) = 0 → a = b) →
  initTables s tbls1 = initTables s tbls2.
Proof.
  intros Hperm H0 HN. unfold initTables.
  assert (Htotal : fold_left (λ acc t, wrap64 (acc + Size t)) tbls1 0
                   = fold_left (λ acc t, wrap64 (acc + Size t)) tbls2 0).
  { pose proof (fold_add_sizes tbls1 0) as E1. pose proof (fold_add_sizes tbls2 0) as E2.
    change (wrap64 0) with 0 in E1, E2. rewrite E1, E2.
    by rewrite (sum_sizes_perm _ _ Hperm). }
  rewrite Htotal. f_equal.
  destruct (Z.eqb_spec (level s) 0) as [Hlvl|Hlvl].
  - apply (Sorted_unique_strong by_id).
    + intros a b Ha Hb Hab Hba.
      rewrite slice_facts.Slice_perm in Ha. rewrite slice_facts.Slice_perm, <- Hperm in Hb.
      apply (H0 Hlvl a b Ha Hb). unfold by_id in *. lia.
    + apply adjacent_Sorted, Slice_by_id.
    + apply adjacent_Sorted, Slice_by_id.
    + by rewrite !slice_facts.Slice_perm.
  - apply (Sorted_unique_strong by_smallest).
    + intros a b Ha Hb Hab Hba.
      rewrite slice_facts.Slice_perm in Ha. rewrite slice_facts.Slice_perm, <- Hperm in Hb.
      apply (HN Hlvl a b Ha Hb). unfold by_smallest in *.
      pose proof (CompareKeys_flip (Smallest a) (Smallest b)). lia.
    + apply adjacent_Sorted, Slice_by_smallest.
    + apply adjacent_Sorted, Slice_by_smallest.
    + by rewrite !slice_facts.Slice_perm.
Qed.

End InitTables.

(** ** Releasing tables, and dropping the inputs of a level-0 compaction *)

Lemma filter_none {A} (p : A → bool) (l : list A) :
  (∀ x, x ∈ l → p x = false) → List.filter p l = [].
Proof.
  induction l as [|a l IH]; intros H; simpl; [reflexivity|].
  rewrite (H a (list_elem_of_here _ _)). apply IH. intros x Hx. apply H. by right.
Qed.

Lemma filter_all {A} (p : A → bool) (l : list A) :
  (∀ x, x ∈ l → p x = true) → List.filter p l = l.
Proof.
  induction l as [|a l IH]; intros H; simpl; [reflexivity|].
  rewrite (H a (list_elem_of_here _ _)). f_equal. apply IH. intros x Hx. apply H. by right.
Qed.

Section Deleting.
Context {KO : KeyOrder}.
Variable remove_file : N → bool.

(** Where [decrRefs] stops when it returns an error. *)
Lemma decrRefs_error (l : list Table) : ∀ (w : gmap N Z) e w',
  decrRefs remove_file l w = (Some e, w') →
  ∃ pre t post w0,
    l = pre ++ t :: post
    ∧ decrRefs remove_file pre w = (None, w0)
    ∧ ref_count w0 t = 1
    ∧ remove_file (ID t) = false
    ∧ e = ErrRemoveFile (ID t)
    ∧ w' = <[ID t := 0]> w0.
Proof.
  induction l as [|a l IH]; intros w e w'; cbn [decrRefs]; [discriminate|].
  unfold DecrRef.
  destruct ((ref_count w a - 1 =? 0) && negb (remove_file (ID a))) eqn:Hc.
  - intros [= <- <-]. apply andb_prop in Hc as [Hz Hrm].
    apply Z.eqb_eq in Hz. apply negb_true_iff in Hrm.
    exists [], a, l, w. repeat split; auto; try lia. by rewrite Hz.
  - intros Hrest. destruct (IH _ _ _ Hrest) as (pre & t & post & w0 & -> & Hpre & H1 & Hrm & -> & ->).
    exists (a :: pre), t, post, w0. repeat split; auto.
    cbn [decrRefs]. unfold DecrRef. by rewrite Hc.
Qed.

(** X15.  [decrRefs] releases the tables in order.  When each table is
    referenced more often than it is listed, every count goes down by the
    number of times the table is listed, no count reaches zero and no error
    comes up.  When an error comes up, it is that of the first table whose
    count has gone from 1 to 0 and whose file could not be removed: the
    tables before it have been released without error, and the tables after
    it have not been released at all. *)
Theorem decrRefs_spec (l : list Table) (w : gmap N Z) :
  ((∀ t, t ∈ l → occurrences (ID t) l < ref_count w t) →
   ∃ w', decrRefs remove_file l w = (None, w')
     ∧ ∀ t, ref_count w' t = ref_count w t - occurrences (ID t) l)
  ∧ (∀ e w', decrRefs remove_file l w = (Some e, w') →
     ∃ pre t post w0,
       l = pre ++ t :: post
       ∧ decrRefs remove_file pre w = (None, w0)
       ∧ ref_count w0 t = 1
       ∧ remove_file (ID t) = false
       ∧ e = ErrRemoveFile (ID t)
       ∧ w' = <[ID t := 0]> w0
       ∧ ref_count w' t = 0
       ∧ ∀ t', ID t' ≠ ID t →
           ref_count w' t' = ref_count w t' - occurrences (ID t') pre).
Proof.
  split; [apply decrRefs_counts|].
  intros e w' Herr.
  destruct (decrRefs_error l w e w' Herr) as (pre & t & post & w0 & -> & Hpre & H1 & Hrm & -> & ->).
  exists pre, t, post, w0. repeat split; auto.
  { by rewrite ref_count_insert, N.eqb_refl. }
  intros t' Hne. rewrite ref_count_insert.
  destruct (N.eqb_spec (ID t) (ID t')) as [E|_]; [congruence|].
  clear Herr H1 Hrm. revert w Hpre.
  induction pre as [|a pre IH]; intros w Hpre; cbn [decrRefs] in Hpre.
  - injection Hpre as <-. unfold occurrences. simpl. lia.
  - unfold DecrRef in Hpre.
    destruct ((ref_count w a - 1 =? 0) && negb (remove_file (ID a))); [discriminate|].
    rewrite (IH _ Hpre), ref_count_insert, occurrences_cons.
    destruct (N.eqb_spec (ID a) (ID t')) as [E|_]; [|lia].
    unfold ref_count. rewrite E. lia.
Qed.

(** X16.  The end of a level-0 compaction.  While the compaction runs,
    tables may be added to level 0, at the end of its table list.  When the
    tables that the compaction took are still at the front and the tables
    added since have other ids, [deleteTables] on the tables taken leaves
    exactly the tables added since, in order, without any assertion on
    their order; it releases each table taken once, and keeps the size
    accounting. *)
Theorem deleteTables_level0_front (s : levelHandler) (taken added : list Table)
    (w : gmap N Z) :
  level s = 0 →
  tables s = taken ++ added →
  (∀ t, t ∈ added → ID t ∉ ID <$> taken) →
  ∃ s', deleteTables remove_file s taken w
        = Some ((decrRefs remove_file taken w).1, s', (decrRefs remove_file taken w).2)
    ∧ tables s' = added
    ∧ level s' = 0
    ∧ maxTotalSize s' = maxTotalSize s
    ∧ (size_accounted s → totalSize s' = wrap64 (sum_sizes added)).
Proof.
  intros Hlvl Htbl Hadded.
  pose proof (deleteTables_eq remove_file s taken w (or_introl Hlvl)) as Hdel. cbv zeta in Hdel.
  set (toDelMap := list_to_set (ID <$> taken) : gset N) in *.
  assert (Hfilter : List.filter (λ t, negb (bool_decide (ID t ∈ toDelMap))) (tables s) = added).
  { rewrite Htbl, List.filter_app.
    assert (E1 : List.filter (λ t, negb (bool_decide (ID t ∈ toDelMap))) taken = []).
    { apply filter_none. intros t Ht.
      apply negb_false_iff. rewrite bool_decide_eq_true. unfold toDelMap.
      rewrite elem_of_list_to_set. apply list_elem_of_fmap. by exists t. }
    assert (E2 : List.filter (λ t, negb (bool_decide (ID t ∈ toDelMap))) added = added).
    { apply filter_all. intros t Ht.
      apply negb_true_iff. rewrite bool_decide_eq_false. unfold toDelMap.
      rewrite elem_of_list_to_set. by apply Hadded. }
    by rewrite E1, E2. }
  rewrite Hfilter in Hdel.
  eexists. split; [exact Hdel|]. cbn [tables level maxTotalSize totalSize].
  split; [reflexivity|]. split; [exact Hlvl|]. split; [reflexivity|].
  intros Hacc.
  pose proof (deleteTables_accounted remove_file s taken w _ _ _ Hdel Hacc) as Hacc'.
  exact Hacc'.
Qed.

End Deleting.

(** ** The table listing *)

Section TableListing.
Context {KO : KeyOrder}.

(** The entry of the listing for a table of a level. *)
Definition table_info (l : levelHandler) (t : Table) : TableInfo :=
  {| ti_ID := ID t; ti_Level := level l; ti_Left := Smallest t; ti_Right := Biggest t |}.

(** The order of the listing: by level, then by file id. *)
Definition TableInfo_le (a b : TableInfo) : Prop :=
  ti_Level a < ti_Level b ∨ (ti_Level a = ti_Level b ∧ (ti_ID a ≤ ti_ID b)%N).

#[local] Instance TableInfo_le_trans : Transitive TableInfo_le.
Proof. unfold TableInfo_le. intros a b c. lia. Qed.

Lemma getTableInfo_unsorted (lvls : list levelHandler) : ∀ acc,
  fold_left (λ result l,
    fold_left (λ result t,
      let info := {| ti_ID := ID t; ti_Level := level l;
                     ti_Left := Smallest t; ti_Right := Biggest t |} in
      result ++ [info]) (tables l) result) lvls acc
  = acc ++ flat_map (λ l, table_info l <$> tables l) lvls.
Proof.
  induction lvls as [|l lvls IH]; intros acc; cbn [fold_left flat_map].
  - by rewrite app_nil_r.
  - rewrite IH, app_assoc. f_equal.
    apply (fold_left_snoc_map (table_info l) (tables l) acc).
Qed.

(** X17.  [getTableInfo] lists every table of every level once, with its
    id, its level and its bounds, ordered by level and, within a level, by
    file id. *)
Theorem getTableInfo_spec (lc : levelsController) :
  getTableInfo lc ≡ₚ flat_map (λ l, table_info l <$> tables l) (levels lc)
  ∧ ∀ i j a b, (i < j)%nat →
      getTableInfo lc !! i = Some a → getTableInfo lc !! j = Some b →
      ti_Level a < ti_Level b ∨ (ti_Level a = ti_Level b ∧ (ti_ID a ≤ ti_ID b)%N).
Proof.
  unfold getTableInfo. rewrite getTableInfo_unsorted. cbn [app].
  split; [apply slice_facts.Slice_perm|].
  intros i j a b Hij Ha Hb.
  refine (adjacent_lookup TableInfo_le _ _ i j a b Hij Ha Hb).
  eapply adjacent_impl; [|apply Slice_adjacent].
  - intros x y H. unfold TableInfo_less in H. unfold TableInfo_le.
    destruct (Z.eqb_spec (ti_Level y) (ti_Level x)) as [E|E]; cbn [negb] in H.
    + apply N.ltb_ge in H. lia.
    + apply Z.ltb_ge in H. lia.
  - intros x y. unfold TableInfo_less.
    destruct (Z.eqb_spec (ti_Level x) (ti_Level y)) as [E|E];
      destruct (Z.eqb_spec (ti_Level y) (ti_Level x)) as [E'|E']; cbn [negb]; try lia.
    intros H%N.ltb_lt. apply N.ltb_ge. lia.
Qed.

End TableListing.

(** ** The directory after [revertToManifest] *)

Section ManifestFacts.
Variable remove_file : N → bool.

Lemma revert_loop_error (mf : gmap N Z) (order : list N) e (files : gset N) :
  fold_left (revertToManifest_step remove_file mf) order (Some e, files) = (Some e, files).
Proof. induction order as [|id order IH]; [reflexivity|]. exact IH. Qed.

Lemma revert_loop_spec (mf : gmap N Z) (order : list N) : ∀ (files : gset N),
  ∃ err files', fold_left (revertToManifest_step remove_file mf) order (None, files) = (err, files')
    ∧ files' ⊆ files
    ∧ (∀ id, id ∈ files → id ∈ dom mf ∨ id ∉ order → id ∈ files')
    ∧ (err = None → ∀ id, id ∈ order → id ∈ files' → id ∈ dom mf)
    ∧ (∀ e, err = Some e →
         ∃ id, e = ErrRemoveFile id ∧ id ∈ order ∧ (id ∉ dom mf) ∧ remove_file id = false).
Proof.
  induction order as [|id order IH]; intros files.
  - exists None, files. split; [reflexivity|]. split; [reflexivity|].
    split; [auto|]. split; [|discriminate]. intros _ id Hid. by apply elem_of_nil in Hid.
  - cbn [fold_left]. unfold revertToManifest_step at 2.
    destruct (bool_decide (id ∈ dom mf)) eqn:Hdom.
    + apply bool_decide_eq_true in Hdom.
      destruct (IH files) as (err & files' & Hfold & Hsub & Hkeep & Hok & Herr).
      exists err, files'. split; [exact Hfold|]. split; [exact Hsub|]. split; [|split].
      * intros i Hi [Hd|Hno]; apply Hkeep; auto.
        right. intros Hin. apply Hno. by right.
      * intros Hnone i Hi Hf. apply elem_of_cons in Hi as [->|Hi]; [exact Hdom|].
        by apply Hok.
      * intros e He. destruct (Herr e He) as (i & -> & Hi & Hnd & Hrm).
        exists i. split; [reflexivity|]. split; [by right|]. auto.
    + apply bool_decide_eq_false in Hdom.
      destruct (remove_file id) eqn:Hrm.
      * destruct (IH (files ∖ {[id]})) as (err & files' & Hfold & Hsub & Hkeep & Hok & Herr).
        exists err, files'. split; [exact Hfold|].
        split; [intros x Hx; apply Hsub in Hx; by apply elem_of_difference in Hx as [? _]|].
        split; [|split].
        -- intros i Hi Hcase. apply Hkeep.
           ++ apply elem_of_difference. split; [exact Hi|].
              rewrite elem_of_singleton. intros ->.
              destruct Hcase as [Hd|Hno]; [contradiction|]. apply Hno. by left.
           ++ destruct Hcase as [Hd|Hno]; [by left|]. right. intros Hin. apply Hno. by right.
        -- intros Hnone i Hi Hf. apply elem_of_cons in Hi as [->|Hi]; [|by apply Hok].
           apply Hsub in Hf. apply elem_of_difference in Hf as [_ Hf].
           exfalso. apply Hf. by apply elem_of_singleton.
        -- intros e He. destruct (Herr e He) as (i & -> & Hi & Hnd & Hrm').
           exists i. split; [reflexivity|]. split; [by right|]. auto.
      * rewrite revert_loop_error.
        exists (Some (ErrRemoveFile id)), files. split; [reflexivity|].
        split; [reflexivity|]. split; [auto|]. split; [discriminate|].
        intros e [= <-]. exists id. split; [reflexivity|]. split; [by left|]. auto.
Qed.

(** X21.  [revertToManifest], whatever the order in which the directory
    listing is gone through.  It ends the process when a table of the
    manifest is missing from the listing.  Otherwise it returns; it only
    ever removes files, never a file of a table that the manifest
    references and never a file outside the listing; when it returns no
    error, the listed files that are left are exactly those that the
    manifest references; an error is that of a listed file which the
    manifest does not reference and which could not be removed. *)
Theorem revertToManifest_spec (mf_Tables : gmap N Z) (idMap : gset N) (order : list N)
    (files : gset N) :
  order ≡ₚ elements idMap →
  (¬ dom mf_Tables ⊆ idMap →
   revertToManifest remove_file mf_Tables idMap order files = None)
  ∧ (dom mf_Tables ⊆ idMap →
     ∃ err files',
       revertToManifest remove_file mf_Tables idMap order files = Some (err, files')
       ∧ files' ⊆ files
       ∧ (∀ id, id ∈ dom mf_Tables → id ∈ files → id ∈ files')
       ∧ (∀ id, id ∉ idMap → id ∈ files → id ∈ files')
       ∧ (err = None →
          ∀ id, id ∈ idMap → (id ∈ files' ↔ id ∈ files ∧ id ∈ dom mf_Tables))
       ∧ (∀ e, err = Some e →
            ∃ id, e = ErrRemoveFile id ∧ id ∈ idMap ∧ (id ∉ dom mf_Tables)
                  ∧ remove_file id = false)).
Proof.
  intros Hperm.
  assert (Hord : ∀ id, id ∈ order ↔ id ∈ idMap).
  { intros id. by rewrite Hperm, elem_of_elements. }
  unfold revertToManifest. split.
  - intros Hno. by rewrite bool_decide_eq_false_2.
  - intros Hsubset. rewrite bool_decide_eq_true_2 by exact Hsubset. cbn [negb].
    destruct (revert_loop_spec mf_Tables order files)
      as (err & files' & Hfold & Hsub & Hkeep & Hok & Herr).
    exists err, files'. split.
    { f_equal. exact Hfold. }
    split; [exact Hsub|]. split; [|split; [|split]].
    + intros id Hd Hf. apply Hkeep; auto.
    + intros id Hno Hf. apply Hkeep; [exact Hf|]. right. by rewrite Hord.
    + intros Hnone id Hid. split.
      * intros Hf. split; [by apply Hsub|]. apply (Hok Hnone id); [by apply Hord | exact Hf].
      * intros [Hf Hd]. apply Hkeep; auto.
    + intros e He. destruct (Herr e He) as (id & -> & Hi & Hnd & Hrm).
      exists id. split; [reflexivity|]. split; [by apply Hord|]. auto.
Qed.

End ManifestFacts.

(** ** The tables that a compaction picks *)

Lemma slice_filter {A} (p : A → bool) (l : list A) (a b : nat) :
  (a ≤ b ≤ length l)%nat →
  (∀ i x, l !! i = Some x → (a ≤ i < b)%nat ↔ p x = true) →
  take (b - a) (drop a l) = List.filter p l.
Proof.
  intros [Hab Hb] Hp.
  rewrite (take_mid_drop l a b Hab) at 2. rewrite !List.filter_app.
  rewrite (filter_none p (take a l)), (filter_all p (take (b - a) (drop a l))),
    (filter_none p (drop b l)).
  - by rewrite app_nil_r.
  - intros x Hx. apply list_elem_of_lookup in Hx as [j Hj]. rewrite lookup_drop in Hj.
    destruct (p x) eqn:E; [|reflexivity]. apply (Hp _ _ Hj) in E. lia.
  - intros x Hx. apply list_elem_of_lookup in Hx as [j Hj].
    apply lookup_take_Some in Hj as [Hj Hlt]. rewrite lookup_drop in Hj.
    apply (Hp _ _ Hj). lia.
  - intros x Hx. apply list_elem_of_lookup in Hx as [j Hj].
    apply lookup_take_Some in Hj as [Hj Hlt].
    destruct (p x) eqn:E; [|reflexivity]. apply (Hp _ _ Hj) in E. lia.
Qed.

Section PlannerFacts.
Context `{KC : KeyCodec}.
Variable remove_file : N → bool.
Variable addChanges : list ManifestChange → option error.
Variable mergeTables :
  Z → compactDef → bool → gmap N Z → option (list Table * option error * gmap N Z).
Variable compareAndAdd : compactStatus → compactDef → option compactStatus.
Variable cstatus_delete : compactStatus → compactDef → compactStatus.

(** Under the invariant, the tables between the two indices of
    [overlappingTables] are the tables of the level that intersect the key
    range, in order. *)
Lemma overlappingTables_filter (s : levelHandler) (kl kr : Key) (left_ right_ : nat) :
  level_inv (tables s) = true →
  CompareKeys kl kr ≤ 0 →
  overlappingTables s kl kr = (left_, right_) →
  tables_between s left_ right_ = Some (List.filter (table_overlaps kl kr) (tables s)).
Proof.
  intros Hinv Hrange Hov.
  destruct (overlappingTables_range s _ _ left_ right_ Hinv Hrange Hov)
    as (Hbounds & HidxL & HidxR).
  unfold tables_between. destruct (Nat.ltb_spec right_ left_); [lia|]. f_equal.
  apply slice_filter; [exact Hbounds|].
  intros i t Ht. unfold table_overlaps. rewrite andb_true_iff, <- (HidxL i t Ht).
  assert ((i < right_)%nat ↔ (CompareKeys (Smallest t) kr <=? 0) = true); [|lia].
  rewrite Z.leb_le, <- CompareKeys_ge_flip.
  pose proof (HidxR i t Ht) as HR. rewrite Z.ltb_lt in HR. lia.
Qed.

(** X18.  [fillTablesL0] on a level 0 that is not empty, with well-formed
    tables, above a level that satisfies the invariant.  It takes all the
    tables of level 0 as [top], with the [inf] range; [bot] is made of
    exactly the tables of the next level that intersect the key range
    spanned by [top], which covers every table of level 0; the range of the
    next level is that range when [bot] is empty and the range spanned by
    [bot] otherwise; and it returns [true] exactly when [compareAndAdd]
    accepts this compaction. *)
Theorem fillTablesL0_spec (cs : compactStatus) (this next : levelHandler) :
  tables this ≠ [] →
  forallb table_wf (tables this) = true →
  level_inv (tables next) = true →
  ∃ kl kr nextRange,
    getKeyRange (tables this) = Some (kl, kr)
    ∧ (∀ t, t ∈ tables this →
         CompareKeys kl (Smallest t) ≤ 0 ∧ CompareKeys (Biggest t) kr ≤ 0)
    ∧ let bot := List.filter (table_overlaps kl kr) (tables next) in
      let cd := {| thisLevel := this; nextLevel := next;
                   top := tables this; bot := bot;
                   thisRange := infRange; nextRange := nextRange; thisSize := 0 |} in
      (bot = [] → nextRange = mkRange kl kr)
      ∧ (bot ≠ [] → ∃ l r, getKeyRange bot = Some (l, r) ∧ nextRange = mkRange l r)
      ∧ fillTablesL0 compareAndAdd cs this next
        = Some (match compareAndAdd cs cd with
                | Some cs' => Some (cd, cs')
                | None => None
                end).
Proof.
  intros Hne Hwf Hinv.
  destruct (getKeyRange (tables this)) as [[kl kr]|] eqn:Hkr;
    [|by destruct (tables this); [contradiction | discriminate]].
  destruct (getKeyRange_bounds _ kl kr Hwf Hkr) as [Hrange Hcover].
  destruct (overlappingTables next kl kr) as [left_ right_] eqn:Hov.
  pose proof (overlappingTables_filter next kl kr left_ right_ Hinv Hrange Hov) as Hbot.
  remember (List.filter (table_overlaps kl kr) (tables next)) as bot0 eqn:Hb.
  assert (Hlen : (length (tables this) =? 0)%nat = false).
  { apply Nat.eqb_neq. destruct (tables this); [contradiction | discriminate]. }
  destruct bot0 as [|b0 bot'].
  - exists kl, kr, (mkRange kl kr). split; [reflexivity|]. split; [exact Hcover|].
    cbv zeta. rewrite <- Hb. split; [reflexivity|]. split; [intros H; by destruct H|].
    unfold fillTablesL0. rewrite Hlen, Hkr. cbn [mbind option_bind].
    rewrite Hov, Hbot. cbn [mbind option_bind length Nat.eqb].
    by destruct (compareAndAdd cs _).
  - destruct (getKeyRange (b0 :: bot')) as [[l r]|] eqn:Hkb; [|discriminate].
    exists kl, kr, (mkRange l r). split; [reflexivity|]. split; [exact Hcover|].
    cbv zeta. rewrite <- Hb. split; [discriminate|]. split; [intros _; by exists l, r|].
    unfold fillTablesL0. rewrite Hlen, Hkr. cbn [mbind option_bind].
    rewrite Hov, Hbot. cbn [mbind option_bind length Nat.eqb]. rewrite Hkb.
    cbn [mbind option_bind].
    by destruct (compareAndAdd cs _).
Qed.

Lemma fillTables_loop_first (cs : compactStatus) (this next : levelHandler)
    (l : list Table) r :
  fillTables_loop compareAndAdd cs this next l = Some (Some r) →
  ∃ i t, l !! i = Some t
    ∧ fillTables_try compareAndAdd cs this next t = Some (Some r)
    ∧ ∀ j t', (j < i)%nat → l !! j = Some t' →
        fillTables_try compareAndAdd cs this next t' = Some None.
Proof.
  induction l as [|a l IH]; cbn [fillTables_loop]; [discriminate|].
  destruct (fillTables_try compareAndAdd cs this next a) as [[r0|]|] eqn:Htry;
    cbn [mbind option_bind]; [| |discriminate].
  - intros [= <-]. exists 0%nat, a. split; [reflexivity|]. split; [exact Htry|]. lia.
  - intros Hrest. destruct (IH Hrest) as (i & t & Hi & Ht & Hbefore).
    exists (S i), t. split; [exact Hi|]. split; [exact Ht|].
    intros [|j] t' Hj Ht'.
    + by injection Ht' as <-.
    + apply (Hbefore j); [lia | exact Ht'].
Qed.

(** What the body of the loop of [fillTables] has checked when it returns
    [true] for a table. *)
Lemma fillTables_try_spec (cs : compactStatus) (this next : levelHandler)
    (t : Table) cd cs' :
  level_inv (tables next) = true →
  CompareKeys (KeyWithTs (ParseKey (Smallest t)) MaxUint64)
              (KeyWithTs (ParseKey (Biggest t)) 0%N) ≤ 0 →
  fillTables_try compareAndAdd cs this next t = Some (Some (cd, cs')) →
  let kl := KeyWithTs (ParseKey (Smallest t)) MaxUint64 in
  let kr := KeyWithTs (ParseKey (Biggest t)) 0%N in
  thisLevel cd = this ∧ nextLevel cd = next
  ∧ top cd = [t] ∧ thisSize cd = Size t ∧ thisRange cd = mkRange kl kr
  ∧ overlapsWith_level cs (level this) (thisRange cd) = Some false
  ∧ bot cd = List.filter (table_overlaps kl kr) (tables next)
  ∧ (bot cd = [] → nextRange cd = thisRange cd)
  ∧ (bot cd ≠ [] →
     ∃ l r, getKeyRange (bot cd) = Some (l, r) ∧ nextRange cd = mkRange l r
            ∧ overlapsWith_level cs (level next) (nextRange cd) = Some false)
  ∧ compareAndAdd cs cd = Some cs'.
Proof.
  intros Hinv Hrange. cbv zeta. unfold fillTables_try.
  set (kl := KeyWithTs (ParseKey (Smallest t)) MaxUint64) in *.
  set (kr := KeyWithTs (ParseKey (Biggest t)) 0%N) in *.
  destruct (overlapsWith_level cs (level this) (mkRange kl kr)) as [[|]|] eqn:Hthis;
    cbn [mbind option_bind]; [discriminate| |discriminate].
  destruct (overlappingTables next kl kr) as [left_ right_] eqn:Hov.
  rewrite (overlappingTables_filter next kl kr left_ right_ Hinv Hrange Hov).
  cbn [mbind option_bind].
  destruct (List.filter (table_overlaps kl kr) (tables next)) as [|b0 bot'] eqn:Hb;
    cbn [length Nat.eqb].
  - destruct (compareAndAdd cs _) as [cs1|] eqn:Hadd; [|discriminate].
    intros [= <- <-]. cbn [thisLevel nextLevel top bot thisSize thisRange nextRange].
    repeat split; auto. contradiction.
  - destruct (getKeyRange (b0 :: bot')) as [[l r]|] eqn:Hkb; cbn [mbind option_bind];
      [|discriminate].
    destruct (overlapsWith_level cs (level next) (mkRange l r)) as [[|]|] eqn:Hnext;
      cbn [mbind option_bind]; [discriminate| |discriminate].
    destruct (compareAndAdd cs _) as [cs1|] eqn:Hadd; [|discriminate].
    intros [= <- <-]. cbn [thisLevel nextLevel top bot thisSize thisRange nextRange].
    repeat split; auto; try discriminate.
    intros _. by exists l, r.
Qed.

(** X19.  [fillTables] at a level ≥ 1, above a level that satisfies the
    invariant, when the widened range of every table is not empty.  When it
    returns [true], the compaction is that of one table [t] of the level:
    [top] is [t] alone, the range of this level is the widened range of
    [t] and no compaction under way at this level overlaps it; [bot] is
    made of exactly the tables of the next level that intersect that range;
    when [bot] is not empty the range of the next level is the one spanned
    by [bot] and no compaction under way at the next level overlaps it;
    [compareAndAdd] has accepted the compaction; and every table of the
    level that is bigger than [t] has been tried and passed over. *)
Theorem fillTables_spec (cs : compactStatus) (this next : levelHandler)
    cd cs' :
  level_inv (tables next) = true →
  (∀ t, t ∈ tables this →
        CompareKeys (KeyWithTs (ParseKey (Smallest t)) MaxUint64)
                    (KeyWithTs (ParseKey (Biggest t)) 0%N) ≤ 0) →
  fillTables compareAndAdd cs this next = Some (Some (cd, cs')) →
  ∃ t, t ∈ tables this
    ∧ thisLevel cd = this ∧ nextLevel cd = next
    ∧ top cd = [t] ∧ thisSize cd = Size t
    ∧ thisRange cd = mkRange (KeyWithTs (ParseKey (Smallest t)) MaxUint64)
                             (KeyWithTs (ParseKey (Biggest t)) 0%N)
    ∧ overlapsWith_level cs (level this) (thisRange cd) = Some false
    ∧ bot cd = List.filter (table_overlaps (KeyWithTs (ParseKey (Smallest t)) MaxUint64)
                                           (KeyWithTs (ParseKey (Biggest t)) 0%N))
                           (tables next)
    ∧ (bot cd = [] → nextRange cd = thisRange cd)
    ∧ (bot cd ≠ [] →
       ∃ l r, getKeyRange (bot cd) = Some (l, r) ∧ nextRange cd = mkRange l r
              ∧ overlapsWith_level cs (level next) (nextRange cd) = Some false)
    ∧ compareAndAdd cs cd = Some cs'
    ∧ (∀ t', t' ∈ tables this → Size t < Size t' →
         fillTables_try compareAndAdd cs this next t' = Some None).
Proof.
  intros Hinv Hwide. unfold fillTables.
  destruct (length (tables this) =? 0)%nat; [discriminate|].
  set (less := λ a b : Table, Size a >? Size b).
  intros Hloop.
  apply fillTables_loop_first in Hloop as (i & t & Hi & Htry & Hbefore).
  assert (Hin : t ∈ tables this).
  { apply list_elem_of_lookup_2 in Hi. by rewrite slice_facts.Slice_perm in Hi. }
  exists t. split; [exact Hin|].
  destruct (fillTables_try_spec cs this next t cd cs' Hinv (Hwide t Hin) Htry)
    as (H1 & H2 & H3 & H4 & H5 & H6 & H7 & H8 & H9 & H10).
  repeat (split; [assumption|]).
  intros t' Hin' Hsize.
  assert (Hin'' : t' ∈ sort.Slice less (tables this))
    by (by rewrite slice_facts.Slice_perm).
  apply list_elem_of_lookup in Hin'' as [j Hj].
  assert (Hsorted : ∀ i j a b, (i < j)%nat →
            sort.Slice less (tables this) !! i = Some a →
            sort.Slice less (tables this) !! j = Some b → Size b ≤ Size a).
  { assert (Htr : Transitive (λ a b : Table, Size b ≤ Size a)) by (intros a b c; lia).
    intros i0 j0 a b Hij Ha Hb.
    refine (adjacent_lookup (λ a b : Table, Size b ≤ Size a) _ _ i0 j0 a b Hij Ha Hb).
    eapply adjacent_impl; [|apply (Slice_adjacent less)].
    - intros x y H. unfold less in H. lia.
    - intros x y. unfold less. lia. }
  destruct (Nat.lt_trichotomy j i) as [Hlt|[->|Hgt]].
  - exact (Hbefore j t' Hlt Hj).
  - rewrite Hi in Hj. injection Hj as <-. lia.
  - pose proof (Hsorted i j t t' Hgt Hi Hj). lia.
Qed.

(** X20.  The planner and the last level.  [pickCompactLevels] goes
    through every level from 1 to the last one, so when the last level has
    reached its maximal total size it returns a priority for it; and
    [doCompact], whose first statement asserts that the level is not the
    last one, panics on that priority. *)
Theorem doCompact_last_level (lc : levelsController) (w : gmap N Z)
    (l_last : levelHandler) (c_last : levelCompactStatus) :
  (2 ≤ length (levels lc))%nat →
  length (cs_levels (cstatus lc)) = length (levels lc) →
  (∀ c0 r, cs_levels (cstatus lc) !! 0%nat = Some c0 → r ∈ ranges c0 → r = infRange) →
  levels lc !! (length (levels lc) - 1)%nat = Some l_last →
  cs_levels (cstatus lc) !! (length (levels lc) - 1)%nat = Some c_last →
  isCompactable l_last (delSize c_last) = true →
  ∃ prios p,
    pickCompactLevels lc = Some prios
    ∧ p ∈ prios
    ∧ cp_level p = Z.of_nat (length (levels lc) - 1)
    ∧ doCompact remove_file addChanges mergeTables compareAndAdd cstatus_delete
        (Z.of_nat (length (levels lc))) lc p w = None.
Proof.
  intros Hn Hlen Hinf Hl Hc Hcomp.
  assert (Hne : levels lc ≠ []) by (destruct (levels lc); [simpl in Hn; lia | discriminate]).
  unfold pickCompactLevels.
  rewrite (pickCompactLevels_unsorted_planned lc Hne Hlen Hinf). cbn [mbind option_bind].
  set (L := (length (levels lc) - 1)%nat) in *.
  set (p := {| cp_level := Z.of_nat L;
               cp_score := float64_div
                             (float64_of_int (wrap64 (totalSize l_last - delSize c_last)))
                             (float64_of_int (maxTotalSize l_last)) |}).
  eexists _, p. split; [reflexivity|]. split; [|split; [reflexivity|]].
  - rewrite slice_facts.Slice_perm. unfold planned_priorities. apply elem_of_app. right.
    apply list_elem_of_In, in_flat_map. exists L. split.
    + apply in_seq. unfold L. lia.
    + unfold planned_levelN. rewrite Hl, Hc. cbv zeta.
      unfold isCompactable, getTotalSize in Hcomp. rewrite Hcomp. by left.
  - unfold doCompact. cbn [cp_level p].
    destruct (Z.ltb_spec (Z.of_nat L + 1) (Z.of_nat (length (levels lc)))); [|reflexivity].
    unfold L in *. lia.
Qed.

End PlannerFacts.

(** ** A compaction step from end to end *)

Section CompactionStep.
Context `{KC : KeyCodec}.
Variable remove_file : N → bool.
Variable addChanges : list ManifestChange → option error.
Variable mergeTables :
  Z → compactDef → bool → gmap N Z → option (list Table * option error * gmap N Z).
Variable compareAndAdd : compactStatus → compactDef → option compactStatus.
Variable cstatus_delete : compactStatus → compactDef → compactStatus.

(** The body of the loop of [fillTables] on a table whose widened range
    is neither reserved at its level nor overlapped at the next level. *)
Lemma fillTables_try_free (cs : compactStatus) (this next : levelHandler) (t : Table) cs' :
  let kl := KeyWithTs (ParseKey (Smallest t)) MaxUint64 in
  let kr := KeyWithTs (ParseKey (Biggest t)) 0%N in
  let cd := {| thisLevel := this; nextLevel := next; top := [t]; bot := [];
               thisRange := mkRange kl kr; nextRange := mkRange kl kr;
               thisSize := Size t |} in
  level_inv (tables next) = true →
  CompareKeys kl kr ≤ 0 →
  overlapsWith_level cs (level this) (mkRange kl kr) = Some false →
  (∀ t', t' ∈ tables next → table_overlaps kl kr t' = false) →
  compareAndAdd cs cd = Some cs' →
  fillTables_try compareAndAdd cs this next t = Some (Some (cd, cs')).
Proof.
  intros kl kr cd Hinv Hrange Hthis Hno Hadd. unfold fillTables_try.
  fold kl kr. rewrite Hthis. cbn [mbind option_bind].
  destruct (overlappingTables next kl kr) as [left_ right_] eqn:Hov.
  rewrite (overlappingTables_filter next kl kr left_ right_ Hinv Hrange Hov).
  rewrite (filter_none _ _ Hno). cbn [mbind option_bind length Nat.eqb].
  fold cd. by rewrite Hadd.
Qed.

(** X22.  A compaction step from end to end.  At a level ≥ 1 that is not
    the last one, when no table of the next level intersects the widened
    range of a table of this level, no compaction is under way on these
    ranges, [compareAndAdd] and the manifest accept what they are given and
    every table of the level is referenced: [doCompact] picks a table of
    maximal size, moves it down to the next level and returns [true]
    without error.  Afterwards this level has lost that table and nothing
    else, the next level holds it in key order, both levels satisfy the
    invariant, the other levels are untouched, and every reference count is
    as it was. *)
Theorem doCompact_move_down (MaxLevels : Z) (lc : levelsController)
    (p : compactionPriority) (w : gmap N Z) (this next : levelHandler) :
  0 < cp_level p →
  cp_level p + 1 < MaxLevels →
  levels lc !! Z.to_nat (cp_level p) = Some this →
  levels lc !! Z.to_nat (cp_level p + 1) = Some next →
  tables this ≠ [] →
  level_inv (tables this) = true →
  level_inv (tables next) = true →
  0 ≤ level next →
  (∀ t, t ∈ tables this →
     CompareKeys (KeyWithTs (ParseKey (Smallest t)) MaxUint64) (Smallest t) ≤ 0
     ∧ CompareKeys (Biggest t) (KeyWithTs (ParseKey (Biggest t)) 0%N) ≤ 0) →
  (∀ t t', t ∈ tables this → t' ∈ tables next →
     table_overlaps (KeyWithTs (ParseKey (Smallest t)) MaxUint64)
                    (KeyWithTs (ParseKey (Biggest t)) 0%N) t' = false) →
  (∀ t, t ∈ tables this →
     overlapsWith_level (cstatus lc) (level this)
       (mkRange (KeyWithTs (ParseKey (Smallest t)) MaxUint64)
                (KeyWithTs (ParseKey (Biggest t)) 0%N)) = Some false) →
  (∀ cd, compareAndAdd (cstatus lc) cd ≠ None) →
  (∀ changes, addChanges changes = None) →
  (∀ t, t ∈ tables this → 1 ≤ ref_count w t) →
  ∃ t i this' next' lc' w',
    t ∈ tables this
    ∧ (∀ t', t' ∈ tables this → Size t' ≤ Size t)
    ∧ doCompact remove_file addChanges mergeTables compareAndAdd cstatus_delete
        MaxLevels lc p w = Some (true, None, lc', w')
    ∧ levels lc' !! Z.to_nat (cp_level p) = Some this'
    ∧ levels lc' !! Z.to_nat (cp_level p + 1) = Some next'
    ∧ (∀ k, k ≠ Z.to_nat (cp_level p) → k ≠ Z.to_nat (cp_level p + 1) →
            levels lc' !! k = levels lc !! k)
    ∧ tables this' = List.filter (λ t', negb (ID t' =? ID t)%N) (tables this)
    ∧ tables next' = take i (tables next) ++ t :: drop i (tables next)
    ∧ level_inv (tables this') = true
    ∧ level_inv (tables next') = true
    ∧ ∀ t0, ref_count w' t0 = ref_count w t0.
Proof.
  intros Hl Hmax Hthis Hnext Hne Hinv Hinvn Hlvl Hcover Hno Hfree Hadd Hmf Href.
  set (less := λ a b : Table, Size a >? Size b).
  (* the table picked: the first one in the order of sizes *)
  destruct (sort.Slice less (tables this)) as [|t rest] eqn:Hsorted.
  { pose proof (slice_facts.Slice_perm less (tables this)) as Hp. rewrite Hsorted in Hp.
    apply Permutation_nil in Hp. contradiction. }
  assert (Hin : t ∈ tables this).
  { rewrite <- (slice_facts.Slice_perm less), Hsorted. apply list_elem_of_here. }
  assert (Hbig : ∀ t', t' ∈ tables this → Size t' ≤ Size t).
  { intros t' Ht'. rewrite <- (slice_facts.Slice_perm less), Hsorted in Ht'.
    apply elem_of_cons in Ht' as [->|Ht']; [lia|].
    apply list_elem_of_lookup in Ht' as [j Hj].
    assert (Htr : Transitive (λ a b : Table, Size b ≤ Size a)) by (intros a b c; lia).
    refine (adjacent_lookup (λ a b : Table, Size b ≤ Size a) (t :: rest) _
              0%nat (S j) t t' ltac:(lia) eq_refl Hj).
    rewrite <- Hsorted. eapply adjacent_impl; [|apply (Slice_adjacent less)].
    - intros x y H. unfold less in H. lia.
    - intros x y. unfold less. lia. }
  set (kl := KeyWithTs (ParseKey (Smallest t)) MaxUint64) in *.
  set (kr := KeyWithTs (ParseKey (Biggest t)) 0%N) in *.
  destruct (Hcover t Hin) as [Hcl Hcr]. fold kl kr in Hcl, Hcr.
  pose proof (level_inv_wf _ t Hinv Hin) as Hwf.
  assert (Hrange : CompareKeys kl kr ≤ 0).
  { exact (CompareKeys_trans _ _ _ Hcl (CompareKeys_trans _ _ _ Hwf Hcr)). }
  set (cd := {| thisLevel := this; nextLevel := next; top := [t]; bot := [];
                thisRange := mkRange kl kr; nextRange := mkRange kl kr;
                thisSize := Size t |}).
  destruct (compareAndAdd (cstatus lc) cd) as [cs1|] eqn:Hcs1; [|by destruct (Hadd cd)].
  pose proof (fillTables_try_free (cstatus lc) this next t cs1 Hinvn Hrange
                (Hfree t Hin) (λ t' Ht', Hno t t' Hin Ht') Hcs1) as Htry.
  cbv zeta in Htry. fold kl kr cd in Htry.
  assert (Hfill : fillTables compareAndAdd (cstatus lc) this next = Some (Some (cd, cs1))).
  { unfold fillTables.
    destruct (Nat.eqb_spec (length (tables this)) 0) as [E|_];
      [by destruct (tables this)|].
    fold less. rewrite Hsorted. cbn [fillTables_loop]. by rewrite Htry. }
  (* the run *)
  destruct (runCompactDef_move_down_run remove_file addChanges mergeTables
              {| levels := levels lc; cstatus := cs1; opt := opt lc |}
              (cp_level p) cd t w) as (i & w' & Hrun & Hinvn' & _ & Hrefs);
    try assumption; try reflexivity.
  { unfold table_wf. by apply Z.leb_le. }
  { intros t' Ht'. pose proof (Hno t t' Hin Ht') as Hf. fold kl kr in Hf.
    unfold table_overlaps in *.
    destruct (Z.leb_spec (CompareKeys (Smallest t) (Biggest t')) 0) as [H1|];
      [|reflexivity].
    destruct (Z.leb_spec (CompareKeys (Smallest t') (Biggest t)) 0) as [H2|];
      [|reflexivity].
    pose proof (CompareKeys_trans _ _ _ Hcl H1) as H1'.
    pose proof (CompareKeys_trans _ _ _ H2 Hcr) as H2'.
    apply Z.leb_le in H1', H2'. by rewrite H1', H2' in Hf. }
  { by apply Href. }
  { apply Hmf. }
  cbv zeta in Hrun, Hinvn'. cbn [thisLevel nextLevel cd] in Hrun, Hinvn'.
  eexists t, i, _, _, _, w'. split; [exact Hin|]. split; [exact Hbig|]. split.
  { unfold doCompact.
    destruct (Z.ltb_spec (cp_level p + 1) MaxLevels); [|lia]. cbn [negb].
    destruct (Z.ltb_spec (cp_level p) 0); [lia|].
    rewrite Hthis, Hnext. cbn [mbind option_bind].
    destruct (Z.eqb_spec (cp_level p) 0); [lia|].
    rewrite Hfill. cbn [mbind option_bind]. rewrite Hrun. reflexivity. }
  cbn [levels].
  assert (Hidx : Z.to_nat (cp_level p) ≠ Z.to_nat (cp_level p + 1)) by lia.
  split.
  { rewrite list_lookup_insert_ne by lia. apply list_lookup_insert_eq.
    by apply lookup_lt_Some in Hthis. }
  split.
  { apply list_lookup_insert_eq. rewrite length_insert. by apply lookup_lt_Some in Hnext. }
  split.
  { intros k Hk1 Hk2. by rewrite !list_lookup_insert_ne by lia. }
  cbn [tables]. split; [reflexivity|]. split; [reflexivity|].
  split; [by apply level_inv_filter|]. split; [exact Hinvn'|exact Hrefs].
Qed.

End CompactionStep.

(** ** The merge loop of the compaction executor *)

(** The guard that [searchGuard] returns is above the key. *)
Lemma searchGuard_above (key : list byte) (guards : list (list byte)) :
  searchGuard key guards = [] ∨ bytes.Compare key (searchGuard key guards) < 0.
Proof.
  unfold searchGuard.
  pose proof (sort_facts.search_loop_bounds (length guards)
                (sort.at_index (λ g, bytes.Compare key g <? 0) guards) 0 (length guards)
                ltac:(lia) ltac:(lia)) as (_ & _ & Hr).
  fold (sort.Search (length guards)
          (sort.at_index (λ g, bytes.Compare key g <? 0) guards)) in Hr.
  destruct (_ <? length guards)%nat eqn:Hlt; [|by left].
  apply Nat.ltb_lt in Hlt. destruct Hr as [Hr|Hr]; [lia|].
  cbn [andb]. destruct (0 <=? _)%nat; [|by left].
  unfold sort.at_index in Hr.
  destruct (guards !! _) as [g|]; [|discriminate].
  right. simpl. lia.
Qed.

Section MergeFacts.
Context `{KC : KeyCodec}.
Variable bitValuePointer bitDelete : Z.
Variable isDeleted : Z → bool.
Variable vp_Decode : list byte → N * Z.
Variable ReachedCapacity : list entry → Z → bool.
Variable CreateSyncedFile : nat → option error.
Variable write_table : list entry → bool.
Variable filter : option CompactionFilter.
Variable minReadTs : N.
Variable hasOverlap : bool.
Variable MaxTableSize : Z.
Variable end_ : option Key.

Local Abbreviation run_entry :=
  (compactBuildTables_entry bitValuePointer bitDelete isDeleted vp_Decode ReachedCapacity
     filter minReadTs hasOverlap MaxTableSize).
Local Abbreviation run_file :=
  (compactBuildTables_file bitValuePointer bitDelete isDeleted vp_Decode ReachedCapacity
     filter minReadTs hasOverlap MaxTableSize end_).
Local Abbreviation run_files :=
  (compactBuildTables_files bitValuePointer bitDelete isDeleted vp_Decode ReachedCapacity
     CreateSyncedFile write_table filter minReadTs hasOverlap MaxTableSize end_).
Local Abbreviation run_merge :=
  (compactBuildTables_merge bitValuePointer bitDelete isDeleted vp_Decode ReachedCapacity
     CreateSyncedFile write_table filter minReadTs hasOverlap MaxTableSize end_).

(** The records that the loops go through: those before the bound [end]. *)
Fixpoint scanned (entries : list entry) : list entry :=
  match entries with
  | [] => []
  | (k, vs) :: rest => if before_end end_ k then (k, vs) :: scanned rest else []
  end.

(** What is written for a record at or below [minReadTs] that is not
    skipped. *)
Definition visible_output (k : Key) (vs : ValueStruct) : list entry :=
  if isDeleted (Meta vs) then
    if hasOverlap then [(k, vs)] else []
  else
    match filter with
    | Some f =>
        match Filter f k (Value vs) (UserMeta vs) with
        | DecisionMarkTombstone => if hasOverlap then [(k, tombstone bitDelete)] else []
        | DecisionDrop => []
        | DecisionKeep => [(k, vs)]
        end
    | None => [(k, vs)]
    end.

(** The records written, whatever the files they go to: a scan of the
    records with [skipKey] as its only state. *)
Fixpoint kept (skipKey : option Key) (entries : list entry) : list entry :=
  match entries with
  | [] => []
  | (k, vs) :: rest =>
      if negb (before_end end_ k) then []
      else if same_key k skipKey then kept skipKey rest
      else if (ParseTs k <=? minReadTs)%N then visible_output k vs ++ kept (Some k) rest
      else (k, vs) :: kept None rest
  end.

Lemma kept_not_skipped (sk : option Key) k vs rest :
  same_key k sk = false →
  kept sk ((k, vs) :: rest) = kept None ((k, vs) :: rest).
Proof. intros Hs. cbn [kept same_key]. by rewrite Hs. Qed.

(** One turn of the inner loop: on [break] nothing is written and the
    record is not skipped; otherwise the builder gains what [kept] says. *)
Lemma run_entry_kept (st st' : mergeState) k vs stop rest :
  before_end end_ k = true →
  run_entry st k vs = (st', stop) →
  ∃ out,
    ms_builder st' = ms_builder st ++ out
    ∧ (stop = true →
       out = [] ∧ same_key k (ms_skipKey st) = false ∧ ms_skipKey st' = None
       ∧ ms_lastKey st' = ms_lastKey st ∧ same_key k (ms_lastKey st) = false
       ∧ shouldFinishFile (list entry) ReachedCapacity (KeyBytes k)
           (if (length (ms_currGuard st) =? 0)%nat
               && (0 <? length (merge_guards filter))%nat
            then searchGuard (KeyBytes k) (merge_guards filter)
            else ms_currGuard st) (ms_builder st) MaxTableSize = true)
    ∧ (stop = false →
       kept (ms_skipKey st) ((k, vs) :: rest) = out ++ kept (ms_skipKey st') rest).
Proof.
  intros Hend. unfold compactBuildTables_entry. cbn [kept]. rewrite Hend. cbn [negb].
  destruct (same_key k (ms_skipKey st)) eqn:Hskip.
  { intros [= <- <-]. exists []. cbn [ms_collect ms_builder ms_skipKey].
    rewrite app_nil_r. repeat split; auto; discriminate. }
  destruct (negb (same_key k (ms_lastKey st)) && _) eqn:Hbreak.
  { intros [= <- <-]. exists []. cbn [ms_builder ms_skipKey ms_lastKey].
    rewrite app_nil_r. apply andb_true_iff in Hbreak as [Hlast Hfin].
    apply negb_true_iff in Hlast.
    split; [reflexivity|]. split; [|discriminate]. intros _. repeat split; auto. }
  unfold visible_output.
  destruct (ParseTs k <=? minReadTs)%N.
  - destruct (isDeleted (Meta vs)).
    + destruct hasOverlap; cbn [negb]; intros [= <- <-].
      * exists [(k, vs)]. cbn [ms_add ms_builder ms_skipKey].
        split; [reflexivity|]. split; [discriminate|]. reflexivity.
      * exists []. cbn [ms_builder ms_skipKey]. rewrite app_nil_r.
        split; [reflexivity|]. split; [discriminate|]. reflexivity.
    + destruct filter as [f|].
      * destruct (Filter f k (Value vs) (UserMeta vs)).
        -- intros [= <- <-]. exists [(k, vs)]. cbn [ms_add ms_builder ms_skipKey].
           split; [reflexivity|]. split; [discriminate|]. reflexivity.
        -- destruct hasOverlap; intros [= <- <-].
           ++ exists [(k, tombstone bitDelete)].
              cbn [ms_add ms_collect ms_builder ms_skipKey].
              split; [reflexivity|]. split; [discriminate|]. reflexivity.
           ++ exists []. cbn [ms_collect ms_builder ms_skipKey]. rewrite app_nil_r.
              split; [reflexivity|]. split; [discriminate|]. reflexivity.
        -- intros [= <- <-]. exists []. cbn [ms_collect ms_builder ms_skipKey].
           rewrite app_nil_r. split; [reflexivity|]. split; [discriminate|]. reflexivity.
      * intros [= <- <-]. exists [(k, vs)]. cbn [ms_add ms_builder ms_skipKey].
        split; [reflexivity|]. split; [discriminate|]. reflexivity.
  - intros [= <- <-]. exists [(k, vs)]. cbn [ms_add ms_builder ms_skipKey].
    split; [reflexivity|]. split; [discriminate|]. reflexivity.
Qed.

(** On a builder that is empty and without a guard, the first record never
    ends the file, provided an empty builder has not reached capacity. *)
Lemma run_entry_first (st : mergeState) k vs :
  ReachedCapacity [] MaxTableSize = false →
  ms_builder st = [] → ms_currGuard st = [] →
  (run_entry st k vs).2 = false.
Proof.
  intros Hcap Hb Hg. unfold compactBuildTables_entry.
  destruct (same_key k (ms_skipKey st)); [reflexivity|].
  assert (Hfin : shouldFinishFile (list entry) ReachedCapacity (KeyBytes k)
            (if (length (ms_currGuard st) =? 0)%nat
                && (0 <? length (merge_guards filter))%nat
             then searchGuard (KeyBytes k) (merge_guards filter)
             else ms_currGuard st) (ms_builder st) MaxTableSize = false).
  { rewrite Hb, Hg. unfold shouldFinishFile. rewrite Hcap.
    cbn [length Nat.eqb andb].
    destruct (0 <? length (merge_guards filter))%nat; [|reflexivity].
    destruct (searchGuard_above (KeyBytes k) (merge_guards filter)) as [-> | Hlt];
      [reflexivity|].
    replace (bytes.Compare _ _ >? 0) with false by (symmetry; lia).
    by rewrite andb_false_r. }
  rewrite Hfin, andb_false_r.
  destruct (ParseTs k <=? minReadTs)%N; [|reflexivity].
  destruct (isDeleted (Meta vs)); [by destruct hasOverlap|].
  destruct filter as [f|]; [|reflexivity].
  destruct (Filter f k (Value vs) (UserMeta vs)); reflexivity.
Qed.

(** The inner loop: the builder gains a part of what [kept] says, and the
    rest of it is what [kept] says of the records that are left. *)
Lemma run_file_kept (entries : list entry) : ∀ (st st' : mergeState) rest,
  run_file st entries = (st', rest) →
  ∃ out,
    ms_builder st' = ms_builder st ++ out
    ∧ kept (ms_skipKey st) entries = out ++ kept (ms_skipKey st') rest
    ∧ (length rest ≤ length entries)%nat.
Proof.
  induction entries as [|[k vs] entries IH]; intros st st' rest.
  { intros [= <- <-]. exists []. by rewrite app_nil_r. }
  cbn [compactBuildTables_file].
  destruct (before_end end_ k) eqn:Hend; cbn [negb].
  2:{ intros [= <- <-]. exists []. by rewrite app_nil_r. }
  destruct (run_entry st k vs) as [st1 stop] eqn:Hstep.
  destruct (run_entry_kept st st1 k vs stop entries Hend Hstep)
    as (out & Hb & Hstop & Hgo).
  destruct stop.
  - intros [= <- <-]. destruct (Hstop eq_refl) as (-> & Hskip & Hsk' & _).
    exists []. split; [exact Hb|]. split; [|lia].
    rewrite Hsk'. cbn [app]. by apply kept_not_skipped.
  - intros Hrec. destruct (IH st1 st' rest Hrec) as (out' & Hb' & Hk' & Hlen).
    exists (out ++ out'). split; [by rewrite Hb', Hb, app_assoc|].
    split; [|cbn [length]; lia].
    rewrite <- app_assoc, <- Hk'. exact (Hgo eq_refl).
Qed.

(** A file that starts on a record before the bound takes at least that
    record. *)
Lemma run_file_progress (st st' : mergeState) k vs entries rest :
  ReachedCapacity [] MaxTableSize = false →
  ms_builder st = [] → ms_currGuard st = [] →
  before_end end_ k = true →
  run_file st ((k, vs) :: entries) = (st', rest) →
  (length rest ≤ length entries)%nat.
Proof.
  intros Hcap Hb Hg Hend. cbn [compactBuildTables_file]. rewrite Hend. cbn [negb].
  pose proof (run_entry_first st k vs Hcap Hb Hg) as Hfirst.
  destruct (run_entry st k vs) as [st1 stop]. cbn [snd] in Hfirst. subst stop.
  intros Hrec. by destruct (run_file_kept entries st1 st' rest Hrec) as (_ & _ & _ & Hlen).
Qed.

(** The outer loop returns when every file can be created and an empty
    builder has not reached capacity: one unit of fuel per record is
    enough.  The files hold, in order, what [kept] says, and a file is
    created only when a record is left. *)
Lemma run_files_kept (fuel : nat) : ∀ lastKey skipKey stats files entries,
  ReachedCapacity [] MaxTableSize = false →
  (∀ n, CreateSyncedFile n = None) →
  (∀ recs, write_table recs = true) →
  (length entries ≤ fuel)%nat →
  ∃ files' stats',
    run_files fuel lastKey skipKey stats files entries = Some (Some (None, files ++ files', stats'))
    ∧ concat files' = kept skipKey entries
    ∧ (length files' ≤ length entries)%nat.
Proof.
  induction fuel as [|fuel IH]; intros lastKey skipKey stats files entries Hcap Hcreate Hwrite Hlen.
  { destruct entries; [|simpl in Hlen; lia].
    exists [], stats. by rewrite app_nil_r. }
  destruct entries as [|[k vs] entries].
  { exists [], stats. by rewrite app_nil_r. }
  cbn [compactBuildTables_files].
  destruct (before_end end_ k) eqn:Hend; cbn [negb].
  2:{ exists [], stats. rewrite app_nil_r. cbn [kept]. rewrite Hend.
      split; [reflexivity|]. split; [reflexivity|]. cbn [length]. lia. }
  rewrite Hcreate.
  destruct (run_file _ _) as [st rest] eqn:Hfile.
  rewrite Hwrite. cbn [negb].
  assert (Hprog : (length rest ≤ length entries)%nat).
  { eapply (run_file_progress _ st k vs entries rest Hcap); [| |exact Hend|exact Hfile];
      reflexivity. }
  destruct (run_file_kept _ _ _ _ Hfile) as (out & Hb & Hk & _).
  cbn [ms_builder ms_skipKey app] in Hb, Hk.
  cbn [length] in Hlen.
  destruct (IH (ms_lastKey st) (ms_skipKey st) (ms_stats st) (files ++ [ms_builder st]) rest
              Hcap Hcreate Hwrite ltac:(lia)) as (files' & stats' & Hrun & Hcat & Hn).
  exists (ms_builder st :: files'), stats'.
  split; [by rewrite Hrun, <- app_assoc|].
  split; [|cbn [length]; lia].
  cbn [concat]. by rewrite Hcat, Hk, Hb.
Qed.


(** The versions of a user key come newest first: a record is not older
    than a later record of the same user key. *)
Definition newer_first (a b : entry) : Prop :=
  SameKey b.1 a.1 = true → (ParseTs b.1 ≤ ParseTs a.1)%N.

(** The same on a whole list of records, as a test. *)
Fixpoint versions_ordered (l : list entry) : bool :=
  match l with
  | [] => true
  | a :: rest =>
      forallb (λ b, negb (SameKey b.1 a.1) || (ParseTs b.1 <=? ParseTs a.1)%N) rest
      && versions_ordered rest
  end.

Lemma versions_ordered_sorted (l : list entry) :
  versions_ordered l = true → StronglySorted newer_first l.
Proof.
  induction l as [|a l IH]; cbn [versions_ordered]; [constructor|].
  intros [Hall Hrest]%andb_true_iff. constructor; [by apply IH|].
  apply Forall_forall. intros b Hb Hsame.
  rewrite forallb_forall in Hall. specialize (Hall b).
  rewrite <- list_elem_of_In in Hall. specialize (Hall Hb).
  rewrite Hsame in Hall. cbn [negb orb] in Hall. by apply N.leb_le.
Qed.

(** A record above [minReadTs]. *)
Definition above (e : entry) : bool := (minReadTs <? ParseTs e.1)%N.

Lemma visible_output_cases k vs :
  visible_output k vs = []
  ∨ visible_output k vs = [(k, vs)]
  ∨ (visible_output k vs = [(k, tombstone bitDelete)] ∧ hasOverlap = true).
Proof.
  unfold visible_output.
  destruct (isDeleted (Meta vs)); [destruct hasOverlap; auto|].
  destruct filter as [f|]; [|auto].
  destruct (Filter f k (Value vs) (UserMeta vs)); auto.
  destruct hasOverlap; auto.
Qed.

(** Above [minReadTs] nothing is dropped and nothing is added. *)
Lemma kept_above (entries : list entry) : ∀ sk,
  StronglySorted newer_first entries →
  (∀ s, sk = Some s →
     (ParseTs s ≤ minReadTs)%N
     ∧ Forall (λ e, SameKey e.1 s = true → (ParseTs e.1 ≤ ParseTs s)%N) entries) →
  List.filter above (kept sk entries) = List.filter above (scanned entries).
Proof.
  induction entries as [|[k vs] entries IH]; intros sk Hsorted Hsk; [reflexivity|].
  apply StronglySorted_inv in Hsorted as [Hrest Hhead].
  cbn [kept scanned]. destruct (before_end end_ k); cbn [negb]; [|reflexivity].
  destruct (same_key k sk) eqn:Hhit.
  - destruct sk as [s|]; [|discriminate]. cbn [same_key] in Hhit.
    destruct (Hsk s eq_refl) as [Hlow Hall].
    apply Forall_cons in Hall as [Hk Hall]. specialize (Hk Hhit). cbn [fst] in Hk.
    cbn [List.filter]. unfold above at 2. cbn [fst].
    replace (minReadTs <? ParseTs k)%N with false by (symmetry; apply N.ltb_ge; lia).
    apply IH; [exact Hrest|]. intros s' [= <-]. auto.
  - destruct (ParseTs k <=? minReadTs)%N eqn:Hlow.
    + apply N.leb_le in Hlow.
      assert (Hk : above (k, vs) = false) by (apply N.ltb_ge; exact Hlow).
      cbn [List.filter]. rewrite Hk, List.filter_app.
      assert (Hout : List.filter above (visible_output k vs) = []).
      { destruct (visible_output_cases k vs) as [-> | [-> | [-> _]]];
          [reflexivity| |]; cbn [List.filter].
        - by rewrite Hk.
        - unfold above. cbn [fst].
          by replace (minReadTs <? ParseTs k)%N with false
            by (symmetry; apply N.ltb_ge; lia). }
      rewrite Hout. cbn [app]. apply IH; [exact Hrest|].
      intros s [= <-]. split; [exact Hlow|]. exact Hhead.
    + apply N.leb_gt in Hlow.
      assert (Hk : above (k, vs) = true) by (apply N.ltb_lt; exact Hlow).
      cbn [List.filter]. rewrite Hk. f_equal.
      apply IH; [exact Hrest|]. discriminate.
Qed.

(** A record written is a record read, or the tombstone that replaces
    one. *)
Lemma kept_from_input (entries : list entry) : ∀ sk k vs,
  (k, vs) ∈ kept sk entries →
  ∃ vs0, (k, vs0) ∈ scanned entries
         ∧ (vs = vs0
            ∨ (vs = tombstone bitDelete ∧ hasOverlap = true
               ∧ (ParseTs k ≤ minReadTs)%N)).
Proof.
  induction entries as [|[kh vh] entries IH]; intros sk k vs; cbn [kept scanned].
  { intros H. inversion H. }
  destruct (before_end end_ kh); cbn [negb]; [|intros H; inversion H].
  assert (Hrest : ∀ sk', (k, vs) ∈ kept sk' entries →
            ∃ vs0, (k, vs0) ∈ (kh, vh) :: scanned entries
                   ∧ (vs = vs0 ∨ (vs = tombstone bitDelete ∧ hasOverlap = true
                                  ∧ (ParseTs k ≤ minReadTs)%N))).
  { intros sk' Hin. destruct (IH sk' k vs Hin) as (vs0 & Hin0 & Hvs).
    exists vs0. split; [by right | exact Hvs]. }
  destruct (same_key kh sk); [apply Hrest|].
  destruct (ParseTs kh <=? minReadTs)%N eqn:Hlow.
  - rewrite elem_of_app. intros [Hin | Hin]; [|by apply (Hrest (Some kh))].
    exists vh. apply N.leb_le in Hlow.
    destruct (visible_output_cases kh vh) as [Hv | [Hv | [Hv Hov]]];
      rewrite Hv in Hin.
    + inversion Hin.
    + apply list_elem_of_singleton in Hin as [= -> ->]. split; [by left | by left].
    + apply list_elem_of_singleton in Hin as [= -> ->]. split; [by left|]. by right.
  - rewrite elem_of_cons. intros [[= -> ->] | Hin]; [|by apply (Hrest None)].
    exists vh. split; [by left | by left].
Qed.

(** X23.  The merge loop of [compactBuildTables], when every output file
    can be created and an empty builder has not reached capacity, on
    records in which the versions of a user key come newest first.  The
    loop returns, with one unit of fuel per record at most, and creates no
    more files than there are records.  No version above [minReadTs] is
    lost or added: the records above [minReadTs] that are written, taken
    through the files in order, are exactly those read before the bound
    [end], in the same order.  And every record written is a record read
    or, when lower levels overlap, the tombstone that replaces a record at
    or below [minReadTs]. *)
Theorem compactBuildTables_merge_no_loss (fuel : nat) (entries : list entry) :
  ReachedCapacity [] MaxTableSize = false →
  (∀ n, CreateSyncedFile n = None) →
  (∀ recs, write_table recs = true) →
  (length entries ≤ fuel)%nat →
  versions_ordered entries = true →
  ∃ files stats,
    run_merge fuel entries = Some (Some (None, files, stats))
    ∧ (length files ≤ length entries)%nat
    ∧ List.filter above (concat files) = List.filter above (scanned entries)
    ∧ ∀ k vs, (k, vs) ∈ concat files →
        ∃ vs0, (k, vs0) ∈ scanned entries
               ∧ (vs = vs0
                  ∨ (vs = tombstone bitDelete ∧ hasOverlap = true
                     ∧ (ParseTs k ≤ minReadTs)%N)).
Proof.
  intros Hcap Hcreate Hwrite Hfuel Hsorted%versions_ordered_sorted.
  unfold compactBuildTables_merge.
  destruct (run_files_kept fuel None None {| discardSpaces := ∅; numSkips := 0 |} []
              entries Hcap Hcreate Hwrite Hfuel) as (files & stats & Hrun & Hcat & Hlen).
  exists files, stats. split; [exact Hrun|]. split; [exact Hlen|].
  rewrite Hcat. split.
  - apply kept_above; [exact Hsorted | discriminate].
  - intros k vs. apply kept_from_input.
Qed.

(** The records of [l] that have the user key of [k] come first in [l]. *)
Definition key_first (k : Key) (l : list entry) : Prop :=
  ∀ l1 b l2 c, l = l1 ++ b :: l2 → c ∈ l2 → SameKey c.1 k = true → SameKey b.1 k = true.

(** The versions of a user key come together. *)
Fixpoint grouped (l : list entry) : Prop :=
  match l with
  | [] => True
  | a :: rest => key_first a.1 rest ∧ grouped rest
  end.

(** The same two properties as tests. *)
Fixpoint key_first_test (k : Key) (l : list entry) : bool :=
  match l with
  | [] => true
  | b :: rest =>
      (SameKey b.1 k || negb (existsb (λ c, SameKey c.1 k) rest))
      && key_first_test k rest
  end.

Fixpoint versions_grouped (l : list entry) : bool :=
  match l with
  | [] => true
  | a :: rest => key_first_test a.1 rest && versions_grouped rest
  end.

Lemma key_first_test_spec k (l : list entry) :
  key_first_test k l = true → key_first k l.
Proof.
  induction l as [|x l IH]; cbn [key_first_test]; intros Htest l1 b l2 c Hsplit Hc Hsame.
  { by destruct l1. }
  apply andb_true_iff in Htest as [Hhead Htail].
  destruct l1 as [|y l1]; cbn [app] in Hsplit; injection Hsplit as -> ->.
  - destruct (SameKey b.1 k); [reflexivity|]. cbn [orb] in Hhead.
    apply negb_true_iff in Hhead.
    assert (Hex : existsb (λ c, SameKey c.1 k) l2 = true); [|congruence].
    apply existsb_exists. exists c. split; [by apply list_elem_of_In | exact Hsame].
  - by apply (IH Htail l1 b l2 c).
Qed.

Lemma versions_grouped_spec (l : list entry) : versions_grouped l = true → grouped l.
Proof.
  induction l as [|a l IH]; cbn [versions_grouped grouped]; [auto|].
  intros [Hfirst Hrest]%andb_true_iff. split; [by apply key_first_test_spec | by apply IH].
Qed.

Lemma key_first_tail k b l : key_first k (b :: l) → key_first k l.
Proof. intros H l1 b' l2 c ->. apply (H (b :: l1) b' l2 c). reflexivity. Qed.

Lemma key_first_head k b l c :
  key_first k (b :: l) → c ∈ l → SameKey c.1 k = true → SameKey b.1 k = true.
Proof. intros H. apply (H [] b l c). reflexivity. Qed.

Lemma scanned_subset (l : list entry) e : e ∈ scanned l → e ∈ l.
Proof.
  induction l as [|[k vs] l IH]; cbn [scanned]; [auto|].
  destruct (before_end end_ k); [|intros H; inversion H].
  rewrite !elem_of_cons. intros [-> | H]; auto.
Qed.

Lemma scanned_before (l : list entry) e : e ∈ scanned l → before_end end_ e.1 = true.
Proof.
  induction l as [|[k vs] l IH]; cbn [scanned]; [intros H; inversion H|].
  destruct (before_end end_ k) eqn:Hk; [|intros H; inversion H].
  rewrite elem_of_cons. intros [-> | H]; auto.
Qed.

Lemma StronglySorted_lookup_lt {A} (R : A → A → Prop) (l : list A) :
  StronglySorted R l →
  ∀ i j a b, (i < j)%nat → l !! i = Some a → l !! j = Some b → R a b.
Proof.
  induction 1 as [|x l Hl IH Hx]; intros i j a b Hij Hi Hj; [by destruct i|].
  destruct j as [|j]; [lia|]. cbn in Hj.
  destruct i as [|i]; cbn in Hi.
  - injection Hi as <-. rewrite Forall_forall in Hx. apply Hx.
    by apply list_elem_of_lookup_2 with j.
  - apply (IH i j); [lia | exact Hi | exact Hj].
Qed.

Section Grouped.
Hypothesis SameKey_sym : ∀ a b : Key, SameKey a b = true → SameKey b a = true.
Hypothesis SameKey_trans : ∀ a b c : Key,
  SameKey a b = true → SameKey b c = true → SameKey a c = true.

(** A record written at or below [minReadTs] has not the user key of
    [skipKey], and no record read at or below [minReadTs] with its user key
    is newer. *)
Lemma kept_visible (entries : list entry) : ∀ sk,
  grouped entries →
  StronglySorted newer_first entries →
  (∀ s, sk = Some s → key_first s entries) →
  ∀ k vs, (k, vs) ∈ kept sk entries → (ParseTs k ≤ minReadTs)%N →
    same_key k sk = false
    ∧ ∀ k' vs', (k', vs') ∈ scanned entries → SameKey k' k = true →
        (ParseTs k' ≤ minReadTs)%N → (ParseTs k' ≤ ParseTs k)%N.
Proof.
  induction entries as [|[kh vh] entries IH]; intros sk Hgr Hsorted Hsk k vs;
    cbn [kept scanned].
  { intros H. inversion H. }
  destruct Hgr as [Hfirst Hgr]. cbn [fst] in Hfirst.
  apply StronglySorted_inv in Hsorted as [Hsorted Hhead].
  destruct (before_end end_ kh); cbn [negb]; [|intros H; inversion H].
  (* a record written later has not the user key of [skipKey] unless the
     head has it *)
  assert (Hlater : ∀ sk', (k, vs) ∈ kept sk' entries →
            same_key kh sk = false → same_key k sk = false).
  { intros sk' Hin Hmiss. destruct sk as [s|]; [|reflexivity]. cbn [same_key] in *.
    destruct (SameKey k s) eqn:Hks; [|reflexivity].
    destruct (kept_from_input entries sk' k vs Hin) as (vs0 & Hin0 & _).
    apply scanned_subset in Hin0.
    rewrite <- Hmiss. symmetry.
    apply (key_first_head s (kh, vh) entries (k, vs0)); auto. }
  destruct (same_key kh sk) eqn:Hhit.
  - intros Hin Hlow.
    assert (Hsk' : ∀ s, sk = Some s → key_first s entries).
    { intros s Hs. eapply key_first_tail, Hsk, Hs. }
    destruct (IH sk Hgr Hsorted Hsk' k vs Hin Hlow) as [Hi Hii].
    split; [exact Hi|]. intros k' vs'. rewrite elem_of_cons.
    intros [[= -> ->] | Hin']; [|exact (Hii k' vs' Hin')].
    intros Hsame. exfalso.
    destruct sk as [s|]; [|discriminate]. cbn [same_key] in Hhit, Hi.
    rewrite (SameKey_trans k kh s (SameKey_sym _ _ Hsame) Hhit) in Hi. discriminate.
  - destruct (ParseTs kh <=? minReadTs)%N eqn:Hlowh.
    + apply N.leb_le in Hlowh. rewrite elem_of_app. intros [Hin | Hin] Hlow.
      * assert (k = kh) as ->.
        { destruct (visible_output_cases kh vh) as [Hv | [Hv | [Hv _]]];
            rewrite Hv in Hin; [inversion Hin| |];
            by apply list_elem_of_singleton in Hin as [= -> _]. }
        split; [exact Hhit|]. intros k' vs'. rewrite elem_of_cons.
        intros [[= -> ->] | Hin']; [lia|].
        intros Hsame _. apply scanned_subset in Hin'.
        rewrite Forall_forall in Hhead.
        apply (Hhead (k', vs')); [exact Hin' | exact Hsame].
      * destruct (IH (Some kh) Hgr Hsorted ltac:(by intros s [= <-]) k vs Hin Hlow)
          as [Hi Hii].
        split; [by apply (Hlater (Some kh))|].
        intros k' vs'. rewrite elem_of_cons. intros [[= -> ->] | Hin']; [|exact (Hii k' vs' Hin')].
        intros Hsame. cbn [same_key] in Hi.
        rewrite (SameKey_sym _ _ Hsame) in Hi. discriminate.
    + apply N.leb_gt in Hlowh. rewrite elem_of_cons.
      intros [[= -> ->] | Hin] Hlow; [lia|].
      destruct (IH None Hgr Hsorted ltac:(discriminate) k vs Hin Hlow) as [_ Hii].
      split; [by apply (Hlater None)|].
      intros k' vs'. rewrite elem_of_cons. intros [[= -> ->] | Hin']; [lia|].
      exact (Hii k' vs' Hin').
Qed.

(** At or below [minReadTs], at most one record is written for a user
    key. *)
Lemma kept_one_visible (entries : list entry) : ∀ sk,
  grouped entries →
  StronglySorted newer_first entries →
  (∀ s, sk = Some s → key_first s entries) →
  StronglySorted (λ a b, (ParseTs a.1 ≤ minReadTs)%N → (ParseTs b.1 ≤ minReadTs)%N →
                         SameKey b.1 a.1 = false) (kept sk entries).
Proof.
  induction entries as [|[kh vh] entries IH]; intros sk Hgr Hsorted Hsk; cbn [kept].
  { constructor. }
  pose proof Hgr as [Hfirst Hgr']. cbn [fst] in Hfirst.
  pose proof (StronglySorted_inv Hsorted) as [Hsorted' _].
  destruct (before_end end_ kh); cbn [negb]; [|constructor].
  destruct (same_key kh sk).
  { apply IH; auto. intros s Hs. eapply key_first_tail, Hsk, Hs. }
  destruct (ParseTs kh <=? minReadTs)%N eqn:Hlowh.
  - assert (Hrest := IH (Some kh) Hgr' Hsorted' ltac:(by intros s [= <-])).
    assert (Hall : ∀ v : ValueStruct,
              Forall ((λ a b : entry, (ParseTs a.1 ≤ minReadTs)%N →
                         (ParseTs b.1 ≤ minReadTs)%N → SameKey b.1 a.1 = false) (kh, v))
                     (kept (Some kh) entries)).
    { intros v. apply Forall_forall. intros [k vs] Hin _ Hlow. cbn [fst] in *.
      by destruct (kept_visible entries (Some kh) Hgr' Hsorted'
                     ltac:(by intros s [= <-]) k vs Hin Hlow) as [Hi _]. }
    destruct (visible_output_cases kh vh) as [-> | [-> | [-> _]]]; cbn [app];
      [exact Hrest| |]; constructor; auto.
  - apply N.leb_gt in Hlowh. constructor; [apply IH; auto; discriminate|].
    apply Forall_forall. intros b _. cbn [fst]. lia.
Qed.

(** X24.  The snapshot view of the merge loop, on records in which the
    versions of a user key come together and newest first.  At or below
    [minReadTs] the loop keeps at most one record for a user key, and it
    is the newest one: no record read at or below [minReadTs] with the same
    user key has a higher version, and no two records written at or below
    [minReadTs] have the same user key. *)
Theorem compactBuildTables_merge_snapshot (fuel : nat) (entries : list entry) :
  ReachedCapacity [] MaxTableSize = false →
  (∀ n, CreateSyncedFile n = None) →
  (∀ recs, write_table recs = true) →
  (length entries ≤ fuel)%nat →
  versions_ordered entries = true →
  versions_grouped entries = true →
  ∃ files stats,
    run_merge fuel entries = Some (Some (None, files, stats))
    ∧ (∀ k vs, (k, vs) ∈ concat files → (ParseTs k ≤ minReadTs)%N →
         ∀ k' vs', (k', vs') ∈ scanned entries → SameKey k' k = true →
           (ParseTs k' ≤ minReadTs)%N → (ParseTs k' ≤ ParseTs k)%N)
    ∧ (∀ i j a b, (i < j)%nat →
         concat files !! i = Some a → concat files !! j = Some b →
         (ParseTs a.1 ≤ minReadTs)%N → (ParseTs b.1 ≤ minReadTs)%N →
         SameKey b.1 a.1 = false).
Proof.
  intros Hcap Hcreate Hwrite Hfuel Hsorted%versions_ordered_sorted
    Hgr%versions_grouped_spec.
  unfold compactBuildTables_merge.
  destruct (run_files_kept fuel None None {| discardSpaces := ∅; numSkips := 0 |} []
              entries Hcap Hcreate Hwrite Hfuel) as (files & stats & Hrun & Hcat & _).
  exists files, stats. split; [exact Hrun|]. rewrite Hcat. split.
  - intros k vs Hin Hlow.
    by destruct (kept_visible entries None Hgr Hsorted ltac:(discriminate) k vs Hin Hlow).
  - intros i j a b Hij Hi Hj.
    apply (StronglySorted_lookup_lt _ _
             (kept_one_visible entries None Hgr Hsorted ltac:(discriminate)) i j a b
             Hij Hi Hj).
Qed.

End Grouped.

Lemma kept_scanned (entries : list entry) : ∀ sk,
  kept sk (scanned entries) = kept sk entries.
Proof.
  induction entries as [|[k vs] entries IH]; intros sk; cbn [scanned kept]; [reflexivity|].
  destruct (before_end end_ k) eqn:Hend; cbn [negb kept]; [|reflexivity].
  rewrite Hend. cbn [negb]. by rewrite !IH.
Qed.

(** The newest record of a user key at or below [minReadTs] is never
    skipped: the loop writes for it what [visible_output] says. *)
Lemma kept_newest (l1 : list entry) : ∀ sk k vs l2,
  (∀ p, p ∈ l1 → before_end end_ p.1 = true) →
  before_end end_ k = true →
  same_key k sk = false →
  (∀ p, p ∈ l1 → SameKey k p.1 = true → (minReadTs < ParseTs p.1)%N) →
  (ParseTs k ≤ minReadTs)%N →
  ∃ pre, kept sk (l1 ++ (k, vs) :: l2)
         = pre ++ visible_output k vs ++ kept (Some k) l2.
Proof.
  induction l1 as [|[kh vh] l1 IH]; intros sk k vs l2 Hbefore Hend Hmiss Hnew Hlow.
  { exists []. cbn [app kept]. rewrite Hend, Hmiss. cbn [negb].
    by replace (ParseTs k <=? minReadTs)%N with true by (symmetry; apply N.leb_le; lia). }
  assert (Hbefore' : ∀ p, p ∈ l1 → before_end end_ p.1 = true).
  { intros p Hp. apply Hbefore. by right. }
  assert (Hnew' : ∀ p, p ∈ l1 → SameKey k p.1 = true → (minReadTs < ParseTs p.1)%N).
  { intros p Hp. apply Hnew. by right. }
  pose proof (Hbefore (kh, vh) ltac:(by left)) as Hendh. cbn [fst] in Hendh.
  cbn [app kept]. rewrite Hendh. cbn [negb].
  destruct (same_key kh sk).
  { apply IH; auto. }
  destruct (ParseTs kh <=? minReadTs)%N eqn:Hlowh.
  - apply N.leb_le in Hlowh.
    destruct (IH (Some kh) k vs l2) as [pre Hpre]; auto.
    { cbn [same_key]. destruct (SameKey k kh) eqn:Hsame; [|reflexivity].
      pose proof (Hnew (kh, vh) ltac:(by left) Hsame) as Habove. cbn [fst] in Habove. lia. }
    exists (visible_output kh vh ++ pre). by rewrite Hpre, app_assoc.
  - destruct (IH None k vs l2) as [pre Hpre]; auto.
    exists ((kh, vh) :: pre). by rewrite Hpre.
Qed.

Lemma kept_newest_written (entries l1 l2 : list entry) k vs e :
  scanned entries = l1 ++ (k, vs) :: l2 →
  (∀ p, p ∈ l1 → SameKey k p.1 = true → (minReadTs < ParseTs p.1)%N) →
  (ParseTs k ≤ minReadTs)%N →
  e ∈ visible_output k vs →
  e ∈ kept None entries.
Proof.
  intros Hsplit Hnew Hlow He.
  assert (Hall : ∀ p, p ∈ l1 ++ (k, vs) :: l2 → before_end end_ p.1 = true).
  { intros p Hp. rewrite <- Hsplit in Hp. by apply scanned_before in Hp. }
  destruct (kept_newest l1 None k vs l2) as [pre Hpre]; auto.
  { intros p Hp. apply Hall. rewrite elem_of_app. by left. }
  { apply (Hall (k, vs)). rewrite elem_of_app. right. by left. }
  rewrite <- kept_scanned, Hsplit, Hpre, !elem_of_app. auto.
Qed.

Lemma kept_no_overlap (entries : list entry) : ∀ sk k vs,
  hasOverlap = false →
  (k, vs) ∈ kept sk entries →
  (k, vs) ∈ scanned entries
  ∧ ((ParseTs k ≤ minReadTs)%N → isDeleted (Meta vs) = false).
Proof.
  induction entries as [|[kh vh] entries IH]; intros sk k vs Hov; cbn [kept scanned].
  { intros H. inversion H. }
  destruct (before_end end_ kh); cbn [negb]; [|intros H; inversion H].
  assert (Hrest : ∀ sk', (k, vs) ∈ kept sk' entries →
            (k, vs) ∈ (kh, vh) :: scanned entries
            ∧ ((ParseTs k ≤ minReadTs)%N → isDeleted (Meta vs) = false)).
  { intros sk' Hin. destruct (IH sk' k vs Hov Hin) as [Hin' Hdel].
    split; [by right | exact Hdel]. }
  destruct (same_key kh sk); [apply Hrest|].
  destruct (ParseTs kh <=? minReadTs)%N eqn:Hlowh.
  - rewrite elem_of_app. intros [Hin | Hin]; [|by apply (Hrest (Some kh))].
    unfold visible_output in Hin. rewrite Hov in Hin.
    destruct (isDeleted (Meta vh)) eqn:Hdel; [inversion Hin|].
    assert (Heq : (k, vs) = (kh, vh)).
    { destruct filter as [f|]; [|by apply list_elem_of_singleton in Hin].
      destruct (Filter f kh (Value vh) (UserMeta vh));
        [by apply list_elem_of_singleton in Hin | inversion Hin | inversion Hin]. }
    injection Heq as -> ->. split; [by left | auto].
  - apply N.leb_gt in Hlowh. rewrite elem_of_cons.
    intros [[= -> ->] | Hin]; [|by apply (Hrest None)].
    split; [by left | lia].
Qed.

(** X25.  Tombstones in the merge loop.  When no lower level overlaps the
    compaction, every record written is a record read and no record written
    at or below [minReadTs] is a tombstone.  When a lower level overlaps, a
    tombstone that is the newest record of its user key at or below
    [minReadTs] (no record read before it at or below [minReadTs] has its
    user key) is written. *)
Theorem compactBuildTables_merge_tombstones (fuel : nat) (entries : list entry) :
  ReachedCapacity [] MaxTableSize = false →
  (∀ n, CreateSyncedFile n = None) →
  (∀ recs, write_table recs = true) →
  (length entries ≤ fuel)%nat →
  ∃ files stats,
    run_merge fuel entries = Some (Some (None, files, stats))
    ∧ (hasOverlap = false →
       ∀ k vs, (k, vs) ∈ concat files →
         (k, vs) ∈ scanned entries
         ∧ ((ParseTs k ≤ minReadTs)%N → isDeleted (Meta vs) = false))
    ∧ (hasOverlap = true →
       ∀ l1 k vs l2,
         scanned entries = l1 ++ (k, vs) :: l2 →
         (ParseTs k ≤ minReadTs)%N →
         isDeleted (Meta vs) = true →
         (∀ p, p ∈ l1 → SameKey k p.1 = true → (minReadTs < ParseTs p.1)%N) →
         (k, vs) ∈ concat files).
Proof.
  intros Hcap Hcreate Hwrite Hfuel. unfold compactBuildTables_merge.
  destruct (run_files_kept fuel None None {| discardSpaces := ∅; numSkips := 0 |} []
              entries Hcap Hcreate Hwrite Hfuel) as (files & stats & Hrun & Hcat & _).
  exists files, stats. split; [exact Hrun|]. rewrite Hcat. split.
  - intros Hov k vs. by apply kept_no_overlap.
  - intros Hov l1 k vs l2 Hsplit Hlow Hdel Hnew.
    apply (kept_newest_written entries l1 l2 k vs); auto.
    unfold visible_output. rewrite Hdel, Hov. by left.
Qed.

Lemma kept_filtered (entries : list entry) (f : CompactionFilter) : ∀ sk k vs,
  filter = Some f →
  (k, vs) ∈ kept sk entries →
  (ParseTs k ≤ minReadTs)%N →
  vs = tombstone bitDelete
  ∨ isDeleted (Meta vs) = true
  ∨ Filter f k (Value vs) (UserMeta vs) = DecisionKeep.
Proof.
  induction entries as [|[kh vh] entries IH]; intros sk k vs Hf; cbn [kept].
  { intros H. inversion H. }
  destruct (before_end end_ kh); cbn [negb]; [|intros H; inversion H].
  destruct (same_key kh sk); [by apply IH|].
  destruct (ParseTs kh <=? minReadTs)%N eqn:Hlowh.
  - rewrite elem_of_app. intros [Hin | Hin]; [|by apply (IH (Some kh))].
    intros _. unfold visible_output in Hin. rewrite Hf in Hin.
    destruct (isDeleted (Meta vh)) eqn:Hdel.
    { destruct hasOverlap; [|inversion Hin].
      apply list_elem_of_singleton in Hin as [= -> ->]. auto. }
    destruct (Filter f kh (Value vh) (UserMeta vh)) eqn:Hdec.
    + apply list_elem_of_singleton in Hin as [= -> ->]. auto.
    + destruct hasOverlap; [|inversion Hin].
      apply list_elem_of_singleton in Hin as [= -> ->]. auto.
    + inversion Hin.
  - apply N.leb_gt in Hlowh. rewrite elem_of_cons.
    intros [[= -> ->] | Hin]; [lia | by apply (IH None)].
Qed.

(** X27.  The compaction filter in the merge loop.  A record written at or
    below [minReadTs] is the tombstone that replaces a record, a tombstone
    that was read, or a record that the filter keeps: what the filter drops
    or marks is not written.  And the filter is obeyed for the newest
    record of a user key at or below [minReadTs] that is not a tombstone:
    it is written when the filter keeps it, and the tombstone that replaces
    it is written when the filter marks it and a lower level overlaps. *)
Theorem compactBuildTables_merge_filter (fuel : nat) (entries : list entry)
    (f : CompactionFilter) :
  filter = Some f →
  ReachedCapacity [] MaxTableSize = false →
  (∀ n, CreateSyncedFile n = None) →
  (∀ recs, write_table recs = true) →
  (length entries ≤ fuel)%nat →
  ∃ files stats,
    run_merge fuel entries = Some (Some (None, files, stats))
    ∧ (∀ k vs, (k, vs) ∈ concat files → (ParseTs k ≤ minReadTs)%N →
         vs = tombstone bitDelete
         ∨ isDeleted (Meta vs) = true
         ∨ Filter f k (Value vs) (UserMeta vs) = DecisionKeep)
    ∧ (∀ l1 k vs l2,
         scanned entries = l1 ++ (k, vs) :: l2 →
         (ParseTs k ≤ minReadTs)%N →
         isDeleted (Meta vs) = false →
         (∀ p, p ∈ l1 → SameKey k p.1 = true → (minReadTs < ParseTs p.1)%N) →
         (Filter f k (Value vs) (UserMeta vs) = DecisionKeep → (k, vs) ∈ concat files)
         ∧ (Filter f k (Value vs) (UserMeta vs) = DecisionMarkTombstone →
            hasOverlap = true → (k, tombstone bitDelete) ∈ concat files)).
Proof.
  intros Hf Hcap Hcreate Hwrite Hfuel. unfold compactBuildTables_merge.
  destruct (run_files_kept fuel None None {| discardSpaces := ∅; numSkips := 0 |} []
              entries Hcap Hcreate Hwrite Hfuel) as (files & stats & Hrun & Hcat & _).
  exists files, stats. split; [exact Hrun|]. rewrite Hcat. split.
  - intros k vs. by apply kept_filtered.
  - intros l1 k vs l2 Hsplit Hlow Hdel Hnew. split.
    + intros Hkeep. apply (kept_newest_written entries l1 l2 k vs); auto.
      unfold visible_output. rewrite Hdel, Hf, Hkeep. by left.
    + intros Hmark Hov. apply (kept_newest_written entries l1 l2 k vs); auto.
      unfold visible_output. rewrite Hdel, Hf, Hmark, Hov. by left.
Qed.

Section FileCut.
Hypothesis SameKey_trans : ∀ a b c : Key,
  SameKey a b = true → SameKey b c = true → SameKey a c = true.

(** No record of [f2] has the user key of a record of [f1]. *)
Definition apart (f1 f2 : list entry) : Prop :=
  ∀ a b, a ∈ f1 → b ∈ f2 → SameKey b.1 a.1 = false.

(** The loops are over on these records: none is left, or the first one is
    at or past the bound [end]. *)
Definition stopped (rest : list entry) : Prop :=
  match rest with
  | [] => True
  | (k, _) :: _ => before_end end_ k = false
  end.

(** A record to come that has the user key of a record of the builder has
    the user key of [lastKey]. *)
Definition last_key_covers (st : mergeState) (entries : list entry) : Prop :=
  ∀ a b, a ∈ ms_builder st → b ∈ entries → SameKey b.1 a.1 = true →
         same_key b.1 (ms_lastKey st) = true.

Definition last_key_first (lastKey : option Key) (entries : list entry) : Prop :=
  ∀ lk, lastKey = Some lk → key_first lk entries.

(** What one turn of the inner loop that does not [break] does to the
    builder and to [lastKey]. *)
Lemma run_entry_last (st st' : mergeState) k vs :
  run_entry st k vs = (st', false) →
  ∃ out,
    ms_builder st' = ms_builder st ++ out
    ∧ (∀ e, e ∈ out → e.1 = k)
    ∧ ((ms_lastKey st' = ms_lastKey st
        ∧ (out = [] ∨ same_key k (ms_lastKey st) = true))
       ∨ (ms_lastKey st' = Some k ∧ same_key k (ms_lastKey st) = false)).
Proof.
  unfold compactBuildTables_entry.
  destruct (same_key k (ms_skipKey st)).
  { intros [= <-]. exists []. cbn [ms_collect ms_builder ms_lastKey].
    rewrite app_nil_r. split; [reflexivity|]. split; [intros e H; inversion H|]. auto. }
  destruct (negb (same_key k (ms_lastKey st)) && _); [discriminate|].
  assert (Hout : ∀ (out : list entry),
    (∀ e, e ∈ out → e.1 = k) →
    ∀ stx, ms_builder stx = ms_builder st ++ out →
      ms_lastKey stx = (if negb (same_key k (ms_lastKey st)) then Some k
                        else ms_lastKey st) →
      ∃ out,
        ms_builder stx = ms_builder st ++ out
        ∧ (∀ e, e ∈ out → e.1 = k)
        ∧ ((ms_lastKey stx = ms_lastKey st
            ∧ (out = [] ∨ same_key k (ms_lastKey st) = true))
           ∨ (ms_lastKey stx = Some k ∧ same_key k (ms_lastKey st) = false))).
  { intros out Hkeys stx Hb Hl. exists out. split; [exact Hb|]. split; [exact Hkeys|].
    rewrite Hl. destruct (same_key k (ms_lastKey st)); cbn [negb]; auto. }
  assert (Hnil : ∀ e : entry, e ∈ [] → e.1 = k) by (intros e H; inversion H).
  assert (Hone : ∀ v (e : entry), e ∈ [(k, v)] → e.1 = k).
  { intros v e He. by apply list_elem_of_singleton in He as ->. }
  destruct (ParseTs k <=? minReadTs)%N.
  - destruct (isDeleted (Meta vs)).
    + destruct hasOverlap; cbn [negb]; intros [= <-].
      * by apply (Hout [(k, vs)] (Hone vs)).
      * apply (Hout [] Hnil); [|reflexivity]. cbn [ms_builder]. by rewrite app_nil_r.
    + destruct filter as [f|].
      * destruct (Filter f k (Value vs) (UserMeta vs)).
        -- intros [= <-]. by apply (Hout [(k, vs)] (Hone vs)).
        -- destruct hasOverlap; intros [= <-].
           ++ by apply (Hout [(k, tombstone bitDelete)] (Hone _)).
           ++ apply (Hout [] Hnil); [|reflexivity].
              cbn [ms_collect ms_builder]. by rewrite app_nil_r.
        -- intros [= <-]. apply (Hout [] Hnil); [|reflexivity].
           cbn [ms_collect ms_builder]. by rewrite app_nil_r.
      * intros [= <-]. by apply (Hout [(k, vs)] (Hone vs)).
  - intros [= <-]. by apply (Hout [(k, vs)] (Hone vs)).
Qed.

(** One turn of the inner loop keeps the two invariants on [lastKey]. *)
Lemma run_entry_cut (st st' : mergeState) k vs rest :
  key_first k rest →
  last_key_covers st ((k, vs) :: rest) →
  last_key_first (ms_lastKey st) ((k, vs) :: rest) →
  run_entry st k vs = (st', false) →
  last_key_covers st' rest ∧ last_key_first (ms_lastKey st') rest.
Proof.
  intros Hfirst Hcov Hlf Hstep.
  destruct (run_entry_last st st' k vs Hstep) as (out & Hb & Hkeys & Hlast).
  assert (Hold : ∀ a b, a ∈ ms_builder st → b ∈ rest → SameKey b.1 a.1 = true →
            same_key b.1 (ms_lastKey st) = true).
  { intros a b Ha Hb'. apply Hcov; [exact Ha | by right]. }
  unfold last_key_covers.
  destruct Hlast as [[Hl Hsame] | [Hl Hdiff]]; rewrite Hl.
  - split.
    + intros a b. rewrite Hb, elem_of_app. intros [Ha | Ha] Hb' Hab;
        [by apply (Hold a b)|].
      destruct Hsame as [-> | Hsame]; [inversion Ha|].
      rewrite (Hkeys a Ha) in Hab.
      destruct (ms_lastKey st) as [lk|]; [|discriminate]. cbn [same_key] in *.
      by apply (SameKey_trans _ k).
    + intros lk Hlk. eapply key_first_tail, Hlf, Hlk.
  - split.
    + intros a b. rewrite Hb, elem_of_app. intros [Ha | Ha] Hb' Hab.
      * exfalso. pose proof (Hold a b Ha Hb' Hab) as Hlk.
        destruct (ms_lastKey st) as [lk|] eqn:Hlast; [|discriminate].
        cbn [same_key] in *.
        pose proof (key_first_head lk (k, vs) rest b (Hlf lk eq_refl) Hb' Hlk) as Hk.
        cbn [fst] in Hk. rewrite Hk in Hdiff. discriminate.
      * rewrite (Hkeys a Ha) in Hab. exact Hab.
    + by intros lk [= <-].
Qed.

Lemma run_file_suffix (entries : list entry) : ∀ (st st' : mergeState) rest e,
  run_file st entries = (st', rest) → e ∈ rest → e ∈ entries.
Proof.
  induction entries as [|[k vs] entries IH]; intros st st' rest e;
    cbn [compactBuildTables_file].
  { by intros [= <- <-]. }
  destruct (before_end end_ k); cbn [negb]; [|by intros [= <- <-]].
  destruct (run_entry st k vs) as [st1 [|]]; [by intros [= <- <-]|].
  intros Hrec He. right. by apply (IH st1 st' rest).
Qed.

(** When the inner loop ends on [break], no record that is left has the
    user key of a record of the file. *)
Lemma run_file_cut (entries : list entry) : ∀ (st st' : mergeState) rest,
  grouped entries →
  last_key_covers st entries →
  last_key_first (ms_lastKey st) entries →
  run_file st entries = (st', rest) →
  grouped rest
  ∧ last_key_first (ms_lastKey st') rest
  ∧ (stopped rest ∨ apart (ms_builder st') rest).
Proof.
  induction entries as [|[k vs] entries IH]; intros st st' rest Hgr Hcov Hlf;
    cbn [compactBuildTables_file].
  { intros [= <- <-]. split; [exact Hgr|]. split; [exact Hlf|]. by left. }
  destruct (before_end end_ k) eqn:Hend; cbn [negb].
  2:{ intros [= <- <-]. split; [exact Hgr|]. split; [exact Hlf|]. by left. }
  destruct (run_entry st k vs) as [st1 stop] eqn:Hstep. destruct stop.
  - intros [= <- <-].
    destruct (run_entry_kept st st1 k vs true entries Hend Hstep) as (out & Hb & Hstop & _).
    destruct (Hstop eq_refl) as (-> & _ & _ & Hl & Hdiff & _).
    rewrite app_nil_r in Hb. rewrite Hl.
    split; [exact Hgr|]. split; [exact Hlf|]. right.
    intros a b Ha Hb'. rewrite Hb in Ha.
    destruct (SameKey b.1 a.1) eqn:Hab; [exfalso | reflexivity].
    pose proof (Hcov a b Ha Hb' Hab) as Hlk.
    destruct (ms_lastKey st) as [lk|] eqn:Hlast; [|discriminate].
    cbn [same_key] in *.
    apply elem_of_cons in Hb' as [-> | Hb'].
    + cbn [fst] in Hlk. rewrite Hlk in Hdiff. discriminate.
    + pose proof (key_first_head lk (k, vs) entries b (Hlf lk eq_refl) Hb' Hlk) as Hk.
      cbn [fst] in Hk. rewrite Hk in Hdiff. discriminate.
  - destruct Hgr as [Hfirst Hgr]. cbn [fst] in Hfirst.
    destruct (run_entry_cut st st1 k vs entries Hfirst Hcov Hlf Hstep) as [Hcov1 Hlf1].
    by apply IH.
Qed.

Lemma run_files_stopped (fuel : nat) lastKey skipKey stats files (rest : list entry) :
  stopped rest →
  run_files fuel lastKey skipKey stats files rest = Some (Some (None, files, stats)).
Proof.
  destruct rest as [|[k vs] rest]; cbn [stopped]; [by destruct fuel|].
  intros Hend. destruct fuel; cbn [compactBuildTables_files]; by rewrite Hend.
Qed.

(** The outer loop: no file holds a record with the user key of a record
    of a file created before it. *)
Lemma run_files_cut (fuel : nat) : ∀ lastKey skipKey stats files entries out stats',
  grouped entries →
  last_key_first lastKey entries →
  run_files fuel lastKey skipKey stats files entries = Some (Some (None, out, stats')) →
  ∃ files',
    out = files ++ files'
    ∧ StronglySorted apart files'
    ∧ ∀ f b, f ∈ files' → b ∈ f → ∃ vs0, (b.1, vs0) ∈ entries.
Proof.
  induction fuel as [|fuel IH]; intros lastKey skipKey stats files entries out stats'
    Hgr Hlf.
  { destruct entries as [|[k vs] entries]; cbn [compactBuildTables_files].
    - intros [= <- <-]. exists []. rewrite app_nil_r.
      split; [reflexivity|]. split; [constructor|]. intros f b H. inversion H.
    - destruct (before_end end_ k); cbn [negb]; [discriminate|].
      intros [= <- <-]. exists []. rewrite app_nil_r.
      split; [reflexivity|]. split; [constructor|]. intros f b H. inversion H. }
  destruct entries as [|[k vs] entries]; cbn [compactBuildTables_files].
  { intros [= <- <-]. exists []. rewrite app_nil_r.
    split; [reflexivity|]. split; [constructor|]. intros f b H. inversion H. }
  destruct (before_end end_ k) eqn:Hend; cbn [negb].
  2:{ intros [= <- <-]. exists []. rewrite app_nil_r.
      split; [reflexivity|]. split; [constructor|]. intros f b H. inversion H. }
  destruct (CreateSyncedFile (length files)); [discriminate|].
  destruct (run_file _ _) as [st rest] eqn:Hfile.
  destruct (write_table (ms_builder st)); cbn [negb]; [|discriminate].
  assert (Hcov : last_key_covers
            {| ms_lastKey := lastKey; ms_skipKey := skipKey; ms_currGuard := [];
               ms_builder := []; ms_stats := stats |} ((k, vs) :: entries)).
  { intros a b Ha. inversion Ha. }
  destruct (run_file_cut _ _ _ _ Hgr Hcov Hlf Hfile) as (Hgr' & Hlf' & Hcut).
  destruct (run_file_kept _ _ _ _ Hfile) as (part & Hb & Hkept & _).
  cbn [ms_builder ms_skipKey app] in Hb, Hkept.
  assert (Hfrom : ∀ b, b ∈ ms_builder st → ∃ vs0, (b.1, vs0) ∈ (k, vs) :: entries).
  { intros [kb vb] Hin. rewrite Hb in Hin.
    assert (Hin' : (kb, vb) ∈ part ++ kept (ms_skipKey st) rest).
    { apply elem_of_app. by left. }
    rewrite <- Hkept in Hin'.
    destruct (kept_from_input _ _ kb vb Hin') as (vs0 & Hin0 & _).
    exists vs0. by apply scanned_subset. }
  destruct Hcut as [Hstop | Hapart].
  - rewrite (run_files_stopped fuel _ _ _ _ rest Hstop). intros [= <- <-].
    exists [ms_builder st]. split; [reflexivity|].
    split; [repeat constructor|].
    intros f b Hf%list_elem_of_singleton. subst f. apply Hfrom.
  - intros Hrun.
    destruct (IH _ _ _ _ _ _ _ Hgr' Hlf' Hrun) as (files' & -> & Hsorted & Hkeys).
    exists (ms_builder st :: files'). split; [by rewrite <- app_assoc|]. split.
    + constructor; [exact Hsorted|]. apply Forall_forall. intros f Hf a b Ha Hb'.
      destruct (Hkeys f b Hf Hb') as (vs0 & Hin0).
      apply (Hapart a (b.1, vs0) Ha Hin0).
    + intros f b. rewrite elem_of_cons. intros [-> | Hf] Hb'; [by apply Hfrom|].
      destruct (Hkeys f b Hf Hb') as (vs0 & Hin0). exists vs0.
      by apply (run_file_suffix _ _ _ _ _ Hfile).
Qed.

(** X26.  The versions of a user key are never divided between two output
    files: on records in which the versions of a user key come together,
    no file holds a record that has the user key of a record of a file
    created before it, whatever the guards, the capacity of the builder
    and the decisions of the filter. *)
Theorem compactBuildTables_merge_key_in_one_file (fuel : nat) (entries : list entry) :
  ReachedCapacity [] MaxTableSize = false →
  (∀ n, CreateSyncedFile n = None) →
  (∀ recs, write_table recs = true) →
  (length entries ≤ fuel)%nat →
  versions_grouped entries = true →
  ∃ files stats,
    run_merge fuel entries = Some (Some (None, files, stats))
    ∧ ∀ i j fi fj a b, (i < j)%nat →
        files !! i = Some fi → files !! j = Some fj →
        a ∈ fi → b ∈ fj → SameKey b.1 a.1 = false.
Proof.
  intros Hcap Hcreate Hwrite Hfuel Hgr%versions_grouped_spec.
  unfold compactBuildTables_merge.
  destruct (run_files_kept fuel None None {| discardSpaces := ∅; numSkips := 0 |} []
              entries Hcap Hcreate Hwrite Hfuel) as (files & stats & Hrun & _).
  exists files, stats. split; [exact Hrun|].
  destruct (run_files_cut fuel None None _ [] entries _ _ Hgr ltac:(discriminate) Hrun)
    as (files' & Heq & Hsorted & _).
  cbn [app] in Heq. subst files'.
  intros i j fi fj a b Hij Hi Hj.
  exact (StronglySorted_lookup_lt _ _ Hsorted i j fi fj Hij Hi Hj a b).
Qed.

End FileCut.

(** X28.  The loop makes no progress when a builder that holds nothing has
    already reached [MaxTableSize]: [shouldFinishFile] is then true on the
    first record of every file, the inner loop ends on [break] before it
    takes a record, and the outer loop creates empty files without end.  No
    number of turns lets the loop return. *)
Theorem compactBuildTables_merge_no_progress (k : Key) (vs : ValueStruct)
    (rest : list entry) :
  ReachedCapacity [] MaxTableSize = true →
  (∀ n, CreateSyncedFile n = None) →
  (∀ recs, write_table recs = true) →
  before_end end_ k = true →
  ∀ fuel, run_merge fuel ((k, vs) :: rest) = None.
Proof.
  intros Hcap Hcreate Hwrite Hend fuel. unfold compactBuildTables_merge.
  generalize (@nil (list entry)). generalize {| discardSpaces := ∅; numSkips := 0 |}.
  induction fuel as [|fuel IH]; intros stats files;
    cbn [compactBuildTables_files]; rewrite Hend; cbn [negb]; [reflexivity|].
  rewrite Hcreate. cbn [compactBuildTables_file]. rewrite Hend. cbn [negb].
  unfold compactBuildTables_entry.
  cbn [same_key ms_skipKey ms_lastKey ms_builder ms_currGuard negb andb].
  assert (Hfin : ∀ g, shouldFinishFile (list entry) ReachedCapacity (KeyBytes k) g []
                        MaxTableSize = true).
  { intros g. unfold shouldFinishFile. rewrite Hcap. by destruct (_ && _). }
  rewrite Hfin. cbn [ms_builder ms_lastKey ms_skipKey ms_stats].
  rewrite Hwrite. cbn [negb]. apply IH.
Qed.

(** The values handed to [DiscardStats.collect], in order: for a record at
    or below [minReadTs] that is not skipped, then over the whole scan. *)
Definition visible_collected (k : Key) (vs : ValueStruct) : list ValueStruct :=
  if isDeleted (Meta vs) then []
  else
    match filter with
    | Some f =>
        match Filter f k (Value vs) (UserMeta vs) with
        | DecisionKeep => []
        | DecisionMarkTombstone | DecisionDrop => [vs]
        end
    | None => []
    end.

Fixpoint collected (skipKey : option Key) (entries : list entry) : list ValueStruct :=
  match entries with
  | [] => []
  | (k, vs) :: rest =>
      if negb (before_end end_ k) then []
      else if same_key k skipKey then vs :: collected skipKey rest
      else if (ParseTs k <=? minReadTs)%N
           then visible_collected k vs ++ collected (Some k) rest
      else collected None rest
  end.

Local Abbreviation collect_all :=
  (fold_left (collect bitValuePointer vp_Decode)).

Lemma run_entry_collected (st st' : mergeState) k vs stop rest :
  before_end end_ k = true →
  run_entry st k vs = (st', stop) →
  ∃ c,
    ms_stats st' = collect_all c (ms_stats st)
    ∧ (stop = true → c = [])
    ∧ (stop = false →
       collected (ms_skipKey st) ((k, vs) :: rest) = c ++ collected (ms_skipKey st') rest).
Proof.
  intros Hend. unfold compactBuildTables_entry. cbn [collected]. rewrite Hend. cbn [negb].
  destruct (same_key k (ms_skipKey st)) eqn:Hskip.
  { intros [= <- <-]. exists [vs]. cbn [ms_collect ms_stats ms_skipKey fold_left].
    split; [reflexivity|]. split; [discriminate|]. reflexivity. }
  destruct (negb (same_key k (ms_lastKey st)) && _).
  { intros [= <- <-]. exists []. cbn [ms_stats fold_left].
    split; [reflexivity|]. split; [reflexivity | discriminate]. }
  unfold visible_collected.
  destruct (ParseTs k <=? minReadTs)%N.
  - destruct (isDeleted (Meta vs)).
    + destruct hasOverlap; cbn [negb]; intros [= <- <-]; exists [];
        cbn [ms_add ms_stats ms_skipKey fold_left];
        (split; [reflexivity|]); (split; [discriminate|]); reflexivity.
    + destruct filter as [f|].
      * destruct (Filter f k (Value vs) (UserMeta vs)).
        -- intros [= <- <-]. exists []. cbn [ms_add ms_stats ms_skipKey fold_left].
           split; [reflexivity|]. split; [discriminate|]. reflexivity.
        -- destruct hasOverlap; intros [= <- <-]; exists [vs];
             cbn [ms_add ms_collect ms_stats ms_skipKey fold_left];
             (split; [reflexivity|]); (split; [discriminate|]); reflexivity.
        -- intros [= <- <-]. exists [vs]. cbn [ms_collect ms_stats ms_skipKey fold_left].
           split; [reflexivity|]. split; [discriminate|]. reflexivity.
      * intros [= <- <-]. exists []. cbn [ms_add ms_stats ms_skipKey fold_left].
        split; [reflexivity|]. split; [discriminate|]. reflexivity.
  - intros [= <- <-]. exists []. cbn [ms_add ms_stats ms_skipKey fold_left].
    split; [reflexivity|]. split; [discriminate|]. reflexivity.
Qed.

Lemma run_file_collected (entries : list entry) : ∀ (st st' : mergeState) rest,
  run_file st entries = (st', rest) →
  ∃ c,
    ms_stats st' = collect_all c (ms_stats st)
    ∧ collected (ms_skipKey st) entries = c ++ collected (ms_skipKey st') rest.
Proof.
  induction entries as [|[k vs] entries IH]; intros st st' rest.
  { intros [= <- <-]. by exists []. }
  cbn [compactBuildTables_file].
  destruct (before_end end_ k) eqn:Hend; cbn [negb].
  2:{ intros [= <- <-]. by exists []. }
  destruct (run_entry st k vs) as [st1 stop] eqn:Hstep.
  destruct (run_entry_collected st st1 k vs stop entries Hend Hstep)
    as (c & Hs & Hstop & Hgo).
  destruct stop.
  - intros [= <- <-]. rewrite (Hstop eq_refl) in Hs. exists []. split; [exact Hs|].
    destruct (run_entry_kept st st1 k vs true entries Hend Hstep) as (out & _ & Hbreak & _).
    destruct (Hbreak eq_refl) as (_ & Hskip & Hsk' & _).
    rewrite Hsk'. cbn [app collected same_key]. by rewrite Hskip.
  - intros Hrec. destruct (IH st1 st' rest Hrec) as (c' & Hs' & Hc').
    exists (c ++ c'). split; [by rewrite Hs', Hs, fold_left_app|].
    rewrite <- app_assoc, <- Hc'. exact (Hgo eq_refl).
Qed.

(** The statistics that the loop returns are those of the values that
    [collected] lists. *)
Lemma run_files_collected (fuel : nat) : ∀ lastKey skipKey stats files entries r stats',
  run_files fuel lastKey skipKey stats files entries = Some (Some (None, r, stats')) →
  stats' = collect_all (collected skipKey entries) stats.
Proof.
  induction fuel as [|fuel IH]; intros lastKey skipKey stats files entries r stats'.
  { destruct entries as [|[k vs] entries]; cbn [compactBuildTables_files collected].
    - by intros [= _ <-].
    - destruct (before_end end_ k); cbn [negb]; [discriminate | by intros [= _ <-]]. }
  destruct entries as [|[k vs] entries]; cbn [compactBuildTables_files collected].
  { by intros [= _ <-]. }
  destruct (before_end end_ k) eqn:Hend; cbn [negb]; [|by intros [= _ <-]].
  destruct (CreateSyncedFile (length files)); [discriminate|].
  destruct (run_file _ _) as [st rest] eqn:Hfile.
  destruct (write_table (ms_builder st)); cbn [negb]; [|discriminate].
  intros Hrun. apply IH in Hrun.
  destruct (run_file_collected _ _ _ _ Hfile) as (c & Hs & Hc).
  cbn [ms_stats ms_skipKey collected] in Hs, Hc. rewrite Hend in Hc. cbn [negb] in Hc.
  by rewrite Hc, fold_left_app, <- Hs.
Qed.

Lemma numSkips_collect_all (c : list ValueStruct) : ∀ stats,
  0 ≤ numSkips stats →
  numSkips stats + Z.of_nat (length c) < 2 ^ 63 →
  numSkips (collect_all c stats) = numSkips stats + Z.of_nat (length c).
Proof.
  induction c as [|vs c IH]; intros stats Hpos Hbound; cbn [fold_left length].
  { lia. }
  cbn [length] in Hbound. rewrite Nat2Z.inj_succ in Hbound |- *.
  assert (Hone : numSkips (collect bitValuePointer vp_Decode stats vs) = numSkips stats + 1).
  { cbn [collect numSkips]. apply wrap64_small. lia. }
  rewrite IH; rewrite Hone; lia.
Qed.

(** A file id gets discard space only from a value pointer that is
    collected. *)
Lemma discardSpaces_collect_all (c : list ValueStruct) : ∀ stats fid,
  fid ∈ dom (discardSpaces (collect_all c stats)) →
  fid ∈ dom (discardSpaces stats)
  ∨ ∃ vs, vs ∈ c ∧ Z.land (Meta vs) bitValuePointer > 0
          ∧ (vp_Decode (Value vs)).1 = fid.
Proof.
  induction c as [|vs c IH]; intros stats fid; cbn [fold_left]; [auto|].
  intros Hin. destruct (IH _ _ Hin) as [Hd | (vs' & Hvs' & Hmeta & Hfid)].
  - cbn [collect discardSpaces] in Hd.
    destruct (Z.land (Meta vs) bitValuePointer >? 0) eqn:Hptr; [|by left].
    destruct (vp_Decode (Value vs)) as [fid' len] eqn:Hdec.
    rewrite dom_insert, elem_of_union, elem_of_singleton in Hd.
    destruct Hd as [-> | Hd]; [|by left].
    right. exists vs. split; [by left|]. split; [lia|]. by rewrite Hdec.
  - right. exists vs'. split; [by right | auto].
Qed.

Lemma collected_from_input (entries : list entry) : ∀ sk vs,
  vs ∈ collected sk entries → ∃ k, (k, vs) ∈ scanned entries.
Proof.
  induction entries as [|[kh vh] entries IH]; intros sk vs; cbn [collected scanned].
  { intros H. inversion H. }
  destruct (before_end end_ kh); cbn [negb]; [|intros H; inversion H].
  assert (Hrest : ∀ sk', vs ∈ collected sk' entries →
            ∃ k, (k, vs) ∈ (kh, vh) :: scanned entries).
  { intros sk' Hin. destruct (IH sk' vs Hin) as [k Hk]. exists k. by right. }
  destruct (same_key kh sk).
  { rewrite elem_of_cons. intros [-> | Hin]; [exists kh; by left | by apply (Hrest sk)]. }
  destruct (ParseTs kh <=? minReadTs)%N; [|apply Hrest].
  rewrite elem_of_app. intros [Hin | Hin]; [|by apply (Hrest (Some kh))].
  exists kh. unfold visible_collected in Hin.
  destruct (isDeleted (Meta vh)); [inversion Hin|].
  destruct filter as [f|]; [|inversion Hin].
  destruct (Filter f kh (Value vh) (UserMeta vh)); [inversion Hin | |];
    apply list_elem_of_singleton in Hin as ->; by left.
Qed.

(** Without a filter a record read is written, collected, or a tombstone
    dropped for lack of overlap. *)
Lemma kept_collected_count (entries : list entry) : ∀ sk,
  filter = None →
  (length (kept sk entries) + length (collected sk entries) ≤ length (scanned entries))%nat
  ∧ (hasOverlap = true →
     (length (kept sk entries) + length (collected sk entries))%nat
     = length (scanned entries)).
Proof.
  intros sk Hf. revert sk.
  induction entries as [|[k vs] entries IH]; intros sk; cbn [kept collected scanned].
  { auto. }
  destruct (before_end end_ k); cbn [negb]; [|auto].
  destruct (same_key k sk).
  { destruct (IH sk) as [Hle Heq]. cbn [length]. split; [lia|]. intros Hov.
    specialize (Heq Hov). lia. }
  destruct (ParseTs k <=? minReadTs)%N.
  - destruct (IH (Some k)) as [Hle Heq].
    unfold visible_output, visible_collected. rewrite Hf.
    destruct (isDeleted (Meta vs)); [destruct hasOverlap|];
      cbn [app length]; (split; [lia|]); intros Hov; try discriminate;
      specialize (Heq Hov); lia.
  - destruct (IH None) as [Hle Heq]. cbn [length]. split; [lia|]. intros Hov.
    specialize (Heq Hov). lia.
Qed.

(** X29.  The discard statistics of the merge loop.  A file id has discard
    space only if a record read holds a value pointer to that file.  And
    without a compaction filter, as long as [numSkips] does not overflow,
    the records written and the records counted by [numSkips] are never
    more than the records read before the bound [end], and they are exactly
    as many when lower levels overlap. *)
Theorem compactBuildTables_merge_stats (fuel : nat) (entries : list entry) :
  ReachedCapacity [] MaxTableSize = false →
  (∀ n, CreateSyncedFile n = None) →
  (∀ recs, write_table recs = true) →
  (length entries ≤ fuel)%nat →
  Z.of_nat (length entries) < 2 ^ 63 →
  ∃ files stats,
    run_merge fuel entries = Some (Some (None, files, stats))
    ∧ (∀ fid, fid ∈ dom (discardSpaces stats) →
         ∃ k vs, (k, vs) ∈ scanned entries
                 ∧ Z.land (Meta vs) bitValuePointer > 0
                 ∧ (vp_Decode (Value vs)).1 = fid)
    ∧ (filter = None →
       0 ≤ numSkips stats
       ∧ Z.of_nat (length (concat files)) + numSkips stats
         ≤ Z.of_nat (length (scanned entries))
       ∧ (hasOverlap = true →
          Z.of_nat (length (concat files)) + numSkips stats
          = Z.of_nat (length (scanned entries)))).
Proof.
  intros Hcap Hcreate Hwrite Hfuel Hbound. unfold compactBuildTables_merge.
  destruct (run_files_kept fuel None None {| discardSpaces := ∅; numSkips := 0 |} []
              entries Hcap Hcreate Hwrite Hfuel) as (files & stats & Hrun & Hcat & _).
  exists files, stats. split; [exact Hrun|].
  apply run_files_collected in Hrun. rewrite Hcat. split.
  - intros fid Hfid. rewrite Hrun in Hfid.
    destruct (discardSpaces_collect_all _ _ _ Hfid) as [Hd | (vs & Hvs & Hmeta & Hdec)].
    { cbn [discardSpaces] in Hd. rewrite dom_empty in Hd. by apply elem_of_empty in Hd. }
    destruct (collected_from_input _ _ _ Hvs) as [k Hk]. by exists k, vs.
  - intros Hf. destruct (kept_collected_count entries None Hf) as [Hle Heq].
    assert (Hscan : (length (scanned entries) ≤ length entries)%nat).
    { clear. induction entries as [|[k vs] l IH]; cbn [scanned length]; [lia|].
      destruct (before_end end_ k); cbn [length]; lia. }
    assert (Hskips : numSkips stats = Z.of_nat (length (collected None entries))).
    { rewrite Hrun, numSkips_collect_all; cbn [numSkips]; lia. }
    rewrite Hskips. split; [lia|]. split; [lia|]. intros Hov. specialize (Heq Hov). lia.
Qed.
End MergeFacts.

(** ** Reads across a compaction that moves a table down *)

Lemma elem_of_insert_middle {A} (l : list A) (i : nat) (x u : A) :
  u ∈ take i l ++ x :: drop i l ↔ u = x ∨ u ∈ l.
Proof.
  assert (E : u ∈ l ↔ u ∈ take i l ∨ u ∈ drop i l).
  { by rewrite <- elem_of_app, take_drop. }
  rewrite elem_of_app, elem_of_cons, E. tauto.
Qed.

Section MoveDownReads.
Context `{TR : TableReader}.
Variable remove_file : N → bool.
Variable addChanges : list ManifestChange → option error.
Variable mergeTables :
  Z → compactDef → bool → gmap N Z → option (list Table * option error * gmap N Z).

(** The value that a point read through the levels finds: that of the first
    level whose lookup is valid. *)
Fixpoint controller_lookup (hs : list levelHandler) (k : Key) : ValueStruct :=
  match hs with
  | [] => ValueStruct_zero
  | h :: rest =>
      if Valid (level_lookup h k) then level_lookup h k else controller_lookup rest k
  end.

Lemma levelsController_get_lookup (hs : list levelHandler) (k : Key) : ∀ w,
  (∀ h t, h ∈ hs → t ∈ tables h → 1 ≤ ref_count w t) →
  ∃ w', levelsController_get remove_file hs k w = Some (controller_lookup hs k, w')
        ∧ ∀ t, ref_count w' t = ref_count w t.
Proof.
  induction hs as [|h hs IH]; intros w Href; cbn [levelsController_get controller_lookup].
  { by exists w. }
  destruct (levelHandler_get_balance remove_file h k w) as (w1 & -> & Hc1).
  { intros t Ht. apply (Href h t); [by left | exact Ht]. }
  cbn [mbind option_bind]. destruct (Valid (level_lookup h k)).
  { by exists w1. }
  destruct (IH w1) as (w' & Hget & Hc).
  { intros h' t Hh' Ht. rewrite Hc1. apply (Href h' t); [by right | exact Ht]. }
  exists w'. split; [exact Hget|]. intros t. by rewrite Hc, Hc1.
Qed.

Lemma controller_lookup_app (pre r r' : list levelHandler) (k : Key) :
  controller_lookup r k = controller_lookup r' k →
  controller_lookup (pre ++ r) k = controller_lookup (pre ++ r') k.
Proof.
  intros Hr. induction pre as [|h pre IH]; cbn [app controller_lookup]; [exact Hr|].
  by rewrite IH.
Qed.

(** The first element that satisfies [p] is the one that [List.find]
    returns. *)
Lemma find_first {A} (p : A → bool) (l : list A) : ∀ (j : nat) (u : A),
  l !! j = Some u → p u = true →
  (∀ i a, (i < j)%nat → l !! i = Some a → p a = false) →
  List.find p l = Some u.
Proof.
  induction l as [|x l IH]; intros j u Hj Hu Hbefore; [discriminate|].
  cbn [List.find]. destruct j as [|j].
  - injection Hj as ->. by rewrite Hu.
  - rewrite (Hbefore 0%nat x ltac:(lia) eq_refl).
    apply (IH j u Hj Hu). intros i a Hi Ha. apply (Hbefore (S i) a); [lia | exact Ha].
Qed.

(** The first key of the user key of the smallest key of a table,
    [y.KeyWithTs(y.ParseKey(t.Smallest()), math.MaxUint64)]: where a read
    of that user key at any version starts. *)
Definition wide_lo (t : Table) : Key := KeyWithTs (ParseKey (Smallest t)) MaxUint64.

(** The table may hold what a read of [k] looks for: a version of the user
    key of [k] that is not newer than [k]. *)
Definition may_hold (t : Table) (k : Key) : bool :=
  (CompareKeys (wide_lo t) k <=? 0) && (CompareKeys k (Biggest t) <=? 0).

(** No user key is divided between two tables: a table that lies before
    another one lies before every version of its first user key. *)
Definition separated (tbls : list Table) : Prop :=
  ∀ a b, a ∈ tbls → b ∈ tbls →
    CompareKeys (Biggest a) (Smallest b) < 0 → CompareKeys (Biggest a) (wide_lo b) < 0.

Section Reader.
(** The empty value is not valid, and a table has a valid value for a key
    only if it may hold one. *)
Hypothesis zero_invalid : Valid ValueStruct_zero = false.
Hypothesis outside_invalid : ∀ (t : Table) (k : Key),
  may_hold t k = false → Valid (getInTable k t) = false.

(** Under the invariant, when no user key is divided, one table at most may
    hold what a read looks for. *)
Lemma may_hold_unique (l : list Table) (k : Key) (u u' : Table) :
  level_inv l = true → separated l →
  u ∈ l → u' ∈ l →
  may_hold u k = true → may_hold u' k = true →
  u = u'.
Proof.
  intros Hinv Hsep Hu Hu' Hc Hc'.
  assert (Hlt : ∀ a b, a ∈ l → b ∈ l → may_hold a k = true → may_hold b k = true →
            CompareKeys (Biggest a) (Smallest b) < 0 → False).
  { intros a b Ha Hb Hca Hcb Hab. pose proof (Hsep a b Ha Hb Hab) as Hwide.
    unfold may_hold in Hca, Hcb.
    apply andb_true_iff in Hca as [_ Hka%Z.leb_le].
    apply andb_true_iff in Hcb as [Hbk%Z.leb_le _].
    pose proof (CompareKeys_lt_le_trans _ _ _ Hwide Hbk) as H1.
    pose proof (CompareKeys_lt_le_trans _ _ _ H1 Hka) as H2.
    pose proof (CompareKeys_flip (Biggest a) (Biggest a)). lia. }
  pose proof Hu as Hu0. pose proof Hu' as Hu0'.
  apply list_elem_of_lookup in Hu as [i Hi]. apply list_elem_of_lookup in Hu' as [j Hj].
  destruct (Nat.lt_trichotomy i j) as [Hij | [-> | Hij]].
  - exfalso. apply (Hlt u u' Hu0 Hu0' Hc Hc').
    exact (level_inv_lookup l i j u u' Hinv Hij Hi Hj).
  - congruence.
  - exfalso. apply (Hlt u' u Hu0' Hu0 Hc' Hc).
    exact (level_inv_lookup l j i u' u Hinv Hij Hj Hi).
Qed.

(** At a level ≥ 1 under the invariant, when no user key is divided: the
    lookup of the level is that of the table that may hold the key, and it
    is not valid when there is no such table. *)
Lemma level_lookup_cases (s : levelHandler) (k : Key) :
  level s ≠ 0 →
  level_inv (tables s) = true →
  separated (tables s) →
  (∃ u, u ∈ tables s ∧ may_hold u k = true
        ∧ level_lookup s k
          = if Valid (getInTable k u) then getInTable k u else ValueStruct_zero)
  ∨ ((∀ u, u ∈ tables s → may_hold u k = false)
     ∧ Valid (level_lookup s k) = false).
Proof.
  intros Hlvl Hinv Hsep.
  destruct (refTablesForKey_first s k ∅ Hlvl Hinv) as (E & _).
  unfold level_lookup. rewrite E.
  destruct (List.find (λ u, may_hold u k) (tables s)) as [u|] eqn:Hfind.
  - apply find_some in Hfind as [Hu Hcont]. apply list_elem_of_In in Hu.
    left. exists u. split; [exact Hu|]. split; [exact Hcont|].
    assert (Hfirst : List.find (λ t, CompareKeys (Biggest t) k >=? 0) (tables s) = Some u).
    { pose proof Hu as Hu0. apply list_elem_of_lookup in Hu as [j Hj].
      unfold may_hold in Hcont. apply andb_true_iff in Hcont as [Hlo%Z.leb_le Hhi%Z.leb_le].
      apply (find_first _ _ j u Hj).
      - apply Z.geb_le. by apply CompareKeys_ge_flip.
      - intros i a Hij Hi.
        assert (Ha : a ∈ tables s) by (by apply list_elem_of_lookup_2 with i).
        pose proof (level_inv_lookup _ i j a u Hinv Hij Hi Hj) as Hab.
        pose proof (Hsep a u Ha Hu0 Hab) as Hwide.
        pose proof (CompareKeys_lt_le_trans _ _ _ Hwide Hlo) as Hak.
        destruct (CompareKeys (Biggest a) k >=? 0) eqn:Hge; [|reflexivity].
        apply Z.geb_le in Hge. lia. }
    by rewrite Hfirst.
  - right.
    assert (Hnone : ∀ u, u ∈ tables s → may_hold u k = false).
    { intros u Hu. apply list_elem_of_In in Hu. apply (find_none _ _ Hfind u Hu). }
    split; [exact Hnone|].
    destruct (List.find _ (tables s)) as [tbl|] eqn:Hfirst; cbn [fst getInTables];
      [|exact zero_invalid].
    apply find_some in Hfirst as [Htbl _]. apply list_elem_of_In in Htbl.
    by rewrite (outside_invalid tbl k (Hnone tbl Htbl)).
Qed.

(** The lookups of two levels before a table moves down from the first to
    the second, in between ([replaceTables] done, [deleteTables] not yet),
    and afterwards. *)
Lemma move_down_lookup (this next this' next' : levelHandler) (t : Table) (i : nat)
    (k : Key) (post : list levelHandler) :
  level this ≠ 0 → level next ≠ 0 →
  level_inv (tables this) = true →
  level_inv (tables next) = true →
  separated (tables this) →
  separated (t :: tables next) →
  t ∈ tables this →
  (∀ t', t' ∈ tables this → ID t' = ID t → t' = t) →
  (∀ t', t' ∈ tables next → table_overlaps (Smallest t) (Biggest t) t' = false) →
  tables this' = List.filter (λ t', negb (ID t' =? ID t)%N) (tables this) →
  level this' = level this →
  tables next' = take i (tables next) ++ t :: drop i (tables next) →
  level next' = level next →
  level_inv (tables next') = true →
  controller_lookup (this' :: next' :: post) k = controller_lookup (this :: next :: post) k
  ∧ controller_lookup (this :: next' :: post) k = controller_lookup (this :: next :: post) k.
Proof.
  intros Hl Hln Hinv Hinvn Hsep Hsepn Ht Hid Hfree Hthis' Hlthis' Hnext' Hlnext' Hinvn'.
  assert (Hwf : table_wf t = true).
  { apply Z.leb_le. by apply (level_inv_wf (tables this)). }
  assert (Hinv' : level_inv (tables this') = true).
  { rewrite Hthis'. by apply level_inv_filter. }
  assert (Hin_this' : ∀ u, u ∈ tables this' ↔ u ∈ tables this ∧ u ≠ t).
  { intros u. rewrite Hthis', list_elem_of_In, filter_In, <- list_elem_of_In.
    rewrite negb_true_iff, N.eqb_neq. split; intros [Hu Hne]; (split; [exact Hu|]).
    - intros ->. by apply Hne.
    - intros Heq. by apply Hne, Hid. }
  assert (Hin_next' : ∀ u, u ∈ tables next' ↔ u = t ∨ u ∈ tables next).
  { intros u. rewrite Hnext'. apply elem_of_insert_middle. }
  assert (Hsep' : separated (tables this')).
  { intros a b Ha Hb. apply Hsep; [by apply Hin_this' in Ha as [? _]
                                  | by apply Hin_this' in Hb as [? _]]. }
  assert (Hsepn0 : separated (tables next)).
  { intros a b Ha Hb. apply Hsepn; by right. }
  assert (Hsepn' : separated (tables next')).
  { intros a b Ha Hb. apply Hsepn; rewrite elem_of_cons; by apply Hin_next'. }
  assert (Hnot : t ∉ tables next).
  { intros Hin. specialize (Hfree t Hin). unfold table_overlaps, table_wf in *.
    rewrite Hwf in Hfree. discriminate. }
  assert (Hl' : level this' ≠ 0) by (by rewrite Hlthis').
  assert (Hln' : level next' ≠ 0) by (by rewrite Hlnext').
  pose proof (level_lookup_cases this k Hl Hinv Hsep) as Fa.
  pose proof (level_lookup_cases next k Hln Hinvn Hsepn0) as Fb.
  pose proof (level_lookup_cases this' k Hl' Hinv' Hsep') as Fa'.
  pose proof (level_lookup_cases next' k Hln' Hinvn' Hsepn') as Fb'.
  assert (Ht' : t ∈ tables next') by (apply Hin_next'; by left).
  cbn [controller_lookup].
  destruct (may_hold t k) eqn:Hcont.
  - (* the table that moves may hold the key *)
    assert (Ea : level_lookup this k
                 = if Valid (getInTable k t) then getInTable k t else ValueStruct_zero).
    { destruct Fa as [(u & Hu & Hc & E) | [Hnone _]].
      - by rewrite <- (may_hold_unique _ k u t Hinv Hsep Hu Ht Hc Hcont).
      - rewrite (Hnone t Ht) in Hcont. discriminate. }
    assert (Eb : Valid (level_lookup next k) = false).
    { destruct Fb as [(v & Hv & Hc & _) | [_ Hb]]; [exfalso | exact Hb].
      apply Hnot.
      rewrite <- (may_hold_unique _ k v t Hinvn' Hsepn' ltac:(apply Hin_next'; by right)
                    Ht' Hc Hcont).
      exact Hv. }
    assert (Ea' : Valid (level_lookup this' k) = false).
    { destruct Fa' as [(u & Hu & Hc & _) | [_ Ha']]; [exfalso | exact Ha'].
      apply Hin_this' in Hu as [Hu Hne]. apply Hne.
      exact (may_hold_unique _ k u t Hinv Hsep Hu Ht Hc Hcont). }
    assert (Eb' : level_lookup next' k
                  = if Valid (getInTable k t) then getInTable k t else ValueStruct_zero).
    { destruct Fb' as [(u & Hu & Hc & E) | [Hnone _]].
      - by rewrite <- (may_hold_unique _ k u t Hinvn' Hsepn' Hu Ht' Hc Hcont).
      - rewrite (Hnone t Ht') in Hcont. discriminate. }
    rewrite Ea', Eb', Ea, Eb.
    destruct (Valid (getInTable k t)) eqn:Hv; rewrite ?Hv, ?zero_invalid; auto.
  - (* the table that moves cannot hold the key *)
    assert (Ra : level_lookup this' k = level_lookup this k
                 ∨ (Valid (level_lookup this' k) = false
                    ∧ Valid (level_lookup this k) = false)).
    { destruct Fa as [(u & Hu & Hc & E) | [Hnone Ha]].
      - left. assert (Hu' : u ∈ tables this').
        { apply Hin_this'. split; [exact Hu|]. intros ->. congruence. }
        destruct Fa' as [(u' & Hu'' & Hc' & E') | [Hnone' _]].
        + rewrite E, E'.
          by rewrite (may_hold_unique _ k u' u Hinv' Hsep' Hu'' Hu' Hc' Hc).
        + rewrite (Hnone' u Hu') in Hc. discriminate.
      - right. split; [|exact Ha].
        destruct Fa' as [(u' & Hu' & Hc' & _) | [_ Ha']]; [exfalso | exact Ha'].
        apply Hin_this' in Hu' as [Hu' _]. rewrite (Hnone u' Hu') in Hc'. discriminate. }
    assert (Rb : level_lookup next' k = level_lookup next k
                 ∨ (Valid (level_lookup next' k) = false
                    ∧ Valid (level_lookup next k) = false)).
    { destruct Fb as [(v & Hv & Hc & E) | [Hnone Hb]].
      - left. assert (Hv' : v ∈ tables next') by (apply Hin_next'; by right).
        destruct Fb' as [(v' & Hv'' & Hc' & E') | [Hnone' _]].
        + rewrite E, E'.
          by rewrite (may_hold_unique _ k v' v Hinvn' Hsepn' Hv'' Hv' Hc' Hc).
        + rewrite (Hnone' v Hv') in Hc. discriminate.
      - right. split; [|exact Hb].
        destruct Fb' as [(v' & Hv' & Hc' & _) | [_ Hb']]; [exfalso | exact Hb'].
        apply Hin_next' in Hv' as [-> | Hv']; [congruence|].
        rewrite (Hnone v' Hv') in Hc'. discriminate. }
    destruct Ra as [-> | [-> Ha]], Rb as [-> | [-> Hb]]; rewrite ?Ha, ?Hb; auto.
Qed.

(** X30.  A compaction that moves a table down is invisible to readers.
    Under the hypotheses of the move-down (one table [t] of a level ≥ 1
    that overlaps no table of the next level, the manifest accepts the
    change), when file ids are unique in the level, no user key is divided
    between [t] and another table of either level or between two tables of
    a level, the empty value is not valid and a table has a valid value
    only for a key that it may hold: [runCompactDef] returns without error,
    and a point read through the levels of any key returns the same value
    before the compaction, between its two steps (the table is then in both
    levels) and after it. *)
Theorem runCompactDef_move_down_reads (lc : levelsController) (l : Z) (cd : compactDef)
    (t : Table) (w : gmap N Z) (pre post : list levelHandler) :
  0 < l →
  top cd = [t] →
  bot cd = [] →
  level (thisLevel cd) ≠ 0 →
  0 < level (nextLevel cd) →
  level_inv (tables (thisLevel cd)) = true →
  level_inv (tables (nextLevel cd)) = true →
  separated (tables (thisLevel cd)) →
  separated (t :: tables (nextLevel cd)) →
  t ∈ tables (thisLevel cd) →
  (∀ t', t' ∈ tables (thisLevel cd) → ID t' = ID t → t' = t) →
  (∀ t', t' ∈ tables (nextLevel cd) → table_overlaps (Smallest t) (Biggest t) t' = false) →
  1 ≤ ref_count w t →
  addChanges [makeTableMoveDownChange (ID t) (level (nextLevel cd))] = None →
  ∃ this' next' w',
    runCompactDef remove_file addChanges mergeTables lc l cd w
    = Some (None, this', next', w')
    ∧ ∀ (k : Key) (w0 : gmap N Z),
        (∀ h t0, h ∈ pre ++ thisLevel cd :: nextLevel cd :: post →
                 t0 ∈ tables h → 1 ≤ ref_count w0 t0) →
        ∃ v w1 w2 w3,
          levelsController_get remove_file (pre ++ thisLevel cd :: nextLevel cd :: post) k w0
          = Some (v, w1)
          ∧ levelsController_get remove_file (pre ++ thisLevel cd :: next' :: post) k w0
            = Some (v, w2)
          ∧ levelsController_get remove_file (pre ++ this' :: next' :: post) k w0
            = Some (v, w3).
Proof.
  intros Hl Htop Hbot Hlthis Hlnext Hinv Hinvn Hsep Hsepn Ht Hid Hfree Href Hadd.
  assert (Hwf : table_wf t = true).
  { apply Z.leb_le. by apply (level_inv_wf (tables (thisLevel cd))). }
  destruct (runCompactDef_move_down_run remove_file addChanges mergeTables lc l cd t w
              Hl Htop Hbot Hwf ltac:(lia) Hinv Hinvn Hfree Href Hadd)
    as (i & w' & Hrun & Hinvn' & _).
  cbv zeta in Hrun, Hinvn'.
  eexists _, _, w'. split; [exact Hrun|].
  intros k w0 Hrefs.
  match type of Hrun with _ = Some (None, ?a, ?b, _) => set (this' := a); set (next' := b) end.
  destruct (move_down_lookup (thisLevel cd) (nextLevel cd) this' next' t i k post)
    as [Hafter Hmid]; try reflexivity; auto; try lia.
  assert (Hsub : ∀ (a b : levelHandler),
            (∀ u, u ∈ tables a → u ∈ tables (thisLevel cd)) →
            (∀ u, u ∈ tables b → u = t ∨ u ∈ tables (nextLevel cd)) →
            ∀ h t0, h ∈ pre ++ a :: b :: post → t0 ∈ tables h → 1 ≤ ref_count w0 t0).
  { intros a b Ha Hb h t0. rewrite elem_of_app, !elem_of_cons.
    intros [Hh | [-> | [-> | Hh]]] Ht0.
    - apply (Hrefs h t0); [|exact Ht0]. rewrite elem_of_app. by left.
    - apply (Hrefs (thisLevel cd) t0); [|by apply Ha].
      rewrite elem_of_app, elem_of_cons. auto.
    - destruct (Hb t0 Ht0) as [-> | Hin].
      + apply (Hrefs (thisLevel cd) t); [|exact Ht].
        rewrite elem_of_app, elem_of_cons. auto.
      + apply (Hrefs (nextLevel cd) t0); [|exact Hin].
        rewrite elem_of_app, !elem_of_cons. auto.
    - apply (Hrefs h t0); [|exact Ht0]. rewrite elem_of_app, !elem_of_cons. auto. }
  assert (Hin_next' : ∀ u, u ∈ tables next' → u = t ∨ u ∈ tables (nextLevel cd)).
  { intros u. cbn [next' tables]. apply elem_of_insert_middle. }
  assert (Hin_this' : ∀ u, u ∈ tables this' → u ∈ tables (thisLevel cd)).
  { intros u. cbn [this' tables]. rewrite list_elem_of_In, filter_In, <- list_elem_of_In.
    tauto. }
  destruct (levelsController_get_lookup (pre ++ thisLevel cd :: nextLevel cd :: post) k w0
              Hrefs) as (w1 & Hget1 & _).
  destruct (levelsController_get_lookup (pre ++ thisLevel cd :: next' :: post) k w0)
    as (w2 & Hget2 & _).
  { apply Hsub; auto. }
  destruct (levelsController_get_lookup (pre ++ this' :: next' :: post) k w0)
    as (w3 & Hget3 & _).
  { apply Hsub; auto. }
  exists (controller_lookup (pre ++ thisLevel cd :: nextLevel cd :: post) k), w1, w2, w3.
  split; [exact Hget1|]. split.
  - rewrite Hget2. do 2 f_equal. by apply controller_lookup_app.
  - rewrite Hget3. do 2 f_equal. by apply controller_lookup_app.
Qed.

End Reader.
End MoveDownReads.

(** ** Examples on sample data *)

(** The timestamp suffix of a byte-string key: the 8 bytes, most
    significant first, of [2^64 - 1 - ts], so that byte order on the suffix
    is descending timestamp order. *)
Definition byte_of_N (n : N) : byte := default "000"%byte (Byte.of_N (n mod 256)).

Definition ts_bytes (ts : N) : list byte :=
  let v := (2 ^ 64 - 1 - ts mod 2 ^ 64)%N in
  (λ i, byte_of_N (v / 256 ^ N.of_nat (7 - i))) <$> seq 0 8.

(** Sample key helpers over byte-string keys, for the examples. *)
#[export] Instance KeyCodec_sample : KeyCodec := {|
  UserKey := list byte;
  ParseKey := user_key;
  ParseTs k := 0%N;
  KeyWithTs uk ts := uk ++ ts_bytes ts;
  SameKey a b := bytes.Compare (user_key a) (user_key b) =? 0;
  KeyBytes k := k;
|}.

(** A sample reader over byte-string keys, for the examples: every table
    holds every key between its bounds, with a value whose [Meta] is 1 and
    whose bytes are the smallest key of the table; no filter excludes a key
    and the iterator is never needed. *)
#[export] Instance TableReader_sample : TableReader := {|
  Valid vs := negb (Meta vs =? 0);
  DoesNotHave t uk := false;
  PointGet t k :=
    if table_contains t k
    then (Some k, {| Meta := 1; UserMeta := []; Value := Smallest t; Version := 0%N |}, true)
    else (None, ValueStruct_zero, true);
  Seek t k := None;
|}.

(** The value that the sample reader finds in the sample table with the
    lower bound [lo]. *)
Definition sample_value (lo : byte) : ValueStruct :=
  {| Meta := 1; UserMeta := []; Value := bkey lo "000"; Version := 0%N |}.

(** A level 0 with two overlapping tables, a level 1 and a level 2 with two
    tables each, and a store where each of these tables is referenced
    once. *)
Definition sample_l0 : levelHandler :=
  {| tables := [btable 1 "a" "c" 10; btable 2 "b" "d" 20];
     totalSize := 30; level := 0; maxTotalSize := 0 |}.

Definition sample_l1 : levelHandler :=
  {| tables := [btable 3 "b" "d" 10; btable 4 "f" "h" 20];
     totalSize := 30; level := 1; maxTotalSize := 100 |}.

Definition sample_l2 : levelHandler :=
  {| tables := [btable 5 "a" "a" 5; btable 6 "j" "l" 7];
     totalSize := 12; level := 2; maxTotalSize := 1000 |}.

Definition sample_store : gmap N Z :=
  {[ 1%N := 1; 2%N := 1; 3%N := 1; 4%N := 1; 5%N := 1; 6%N := 1 ]}.

Ltac elem_cases H :=
  repeat (apply elem_of_cons in H as [->|H]); [..|by apply elem_of_nil in H].

(** X1 on the sample level 0. *)
Lemma refTablesForKey_level0_witness :
  (refTablesForKey sample_l0 (bkey "b" "000") ∅).1
  = [btable 2 "b" "d" 20; btable 1 "a" "c" 10]
  ∧ ref_count (refTablesForKey sample_l0 (bkey "b" "000") ∅).2 (btable 2 "b" "d" 20) = 1.
Proof.
  destruct (refTablesForKey_level0 sample_l0 (bkey "b" "000") ∅ eq_refl) as (H1 & H2 & _).
  split; [exact H1|]. rewrite H2. reflexivity.
Defined.

(** X2: the key [b] is in both tables of the sample level 0; the value of
    the newer table is returned. *)
Lemma levelHandler_get_level0_witness :
  ∃ w', levelHandler_get (λ _, false) sample_l0 (bkey "b" "000") sample_store
        = Some (sample_value "b", w').
Proof.
  destruct (levelHandler_get_level0 (λ _, false) sample_l0 (bkey "b" "000") sample_store
              eq_refl) as (v & w' & Hget & _ & Hnewest & _).
  { intros t Ht. elem_cases Ht; by vm_compute. }
  exists w'. rewrite Hget. do 2 f_equal.
  apply (Hnewest 1%nat (btable 2 "b" "d" 20) eq_refl eq_refl).
  intros [|[|j]] t' Hj Ht'; [lia | lia | discriminate].
Defined.

(** X3: the key [g] lies in the second table of the sample level 1. *)
Lemma levelHandler_get_levelN_witness :
  ∃ w', levelHandler_get (λ _, false) sample_l1 (bkey "g" "000") sample_store
        = Some (sample_value "f", w').
Proof.
  destruct (levelHandler_get_levelN (λ _, false) sample_l1 (bkey "g" "000") sample_store)
    as (v & w' & Hget & _ & Hcont & _).
  { discriminate. }
  { reflexivity. }
  { intros t Ht. elem_cases Ht; by vm_compute. }
  exists w'. rewrite Hget. do 2 f_equal.
  apply (Hcont (btable 4 "f" "h" 20)); [|reflexivity].
  apply list_elem_of_further, list_elem_of_here.
Defined.

(** X4: the key [g] is in no table of level 0 and in one of level 1. *)
Lemma levelsController_get_first_witness :
  ∃ w', levelsController_get (λ _, false) [sample_l0; sample_l1; sample_l2]
          (bkey "g" "000") sample_store
        = Some (sample_value "f", w').
Proof.
  destruct (levelsController_get_first (λ _, false) [sample_l0; sample_l1; sample_l2]
              (bkey "g" "000") sample_store) as (v & w' & Hget & _ & Hfirst & _).
  { intros h t Hh Ht. elem_cases Hh; elem_cases Ht; by vm_compute. }
  exists w'. rewrite Hget. do 2 f_equal.
  apply (Hfirst 1%nat sample_l1 eq_refl eq_refl).
  intros [|j] h' Hj Hh'; [|lia]. by injection Hh' as <-.
Defined.

(** X5: two pairs at level 0; the key [b] is found in the newer table, the
    key [z] in none. *)
Lemma levelHandler_multiGet_spec_witness :
  let kb := {| key := bkey "b" "000"; val := ValueStruct_zero; found := false |} in
  let kz := {| key := bkey "z" "000"; val := ValueStruct_zero; found := false |} in
  ∃ w', levelHandler_multiGet (λ _, false) sample_l0 [kb; kz] sample_store
        = Some ([{| key := bkey "b" "000"; val := sample_value "b"; found := true |}; kz], w').
Proof.
  intros kb kz.
  destruct (levelHandler_multiGet_spec (λ _, false) sample_l0 [kb; kz] sample_store)
    as (pairs' & w' & Hmg & _ & -> & _).
  { intros t Ht. elem_cases Ht; by vm_compute. }
  exists w'. exact Hmg.
Defined.

(** X6: at the sample level 1, the pair for the key [g] gets the value that
    the point read returns. *)
Lemma levelHandler_multiGet_get_witness :
  let kg := {| key := bkey "g" "000"; val := ValueStruct_zero; found := false |} in
  ∃ pairs' w', levelHandler_multiGet (λ _, false) sample_l1 [kg] sample_store
               = Some (pairs', w')
    ∧ pairs' !! 0%nat
      = Some {| key := bkey "g" "000"; val := sample_value "f"; found := true |}.
Proof.
  intros kg.
  destruct (levelHandler_multiGet_get (λ _, false) sample_l1 [kg] sample_store)
    as (pairs' & w' & Hmg & Hall).
  { discriminate. }
  { reflexivity. }
  { intros t Ht. elem_cases Ht; by vm_compute. }
  exists pairs', w'. split; [exact Hmg|].
  destruct (Hall 0%nat kg eq_refl eq_refl) as (v & wg & Hget & ->).
  vm_compute in Hget. injection Hget as <- _. reflexivity.
Defined.

(** X7: through the levels, the pair for the key [g] is found at level 1,
    and the pair that comes already found is left alone. *)
Lemma levelsController_multiGet_first_witness :
  let kg := {| key := bkey "g" "000"; val := ValueStruct_zero; found := false |} in
  let kb := {| key := bkey "b" "000"; val := sample_value "z"; found := true |} in
  ∃ pairs' w', levelsController_multiGet (λ _, false) [sample_l0; sample_l1; sample_l2]
                 [kg; kb] sample_store = Some (pairs', w')
    ∧ pairs' !! 0%nat
      = Some {| key := bkey "g" "000"; val := sample_value "f"; found := true |}
    ∧ pairs' !! 1%nat = Some kb.
Proof.
  intros kg kb.
  destruct (levelsController_multiGet_first (λ _, false) [sample_l0; sample_l1; sample_l2]
              [kg; kb] sample_store) as (pairs' & w' & Hmg & _ & _ & Hall).
  { intros h t Hh Ht. elem_cases Hh; elem_cases Ht; by vm_compute. }
  exists pairs', w'. split; [exact Hmg|]. split.
  - destruct (Hall 0%nat kg eq_refl) as (kv' & -> & _ & _ & Hfirst & _).
    f_equal. apply (Hfirst 1%nat sample_l1 eq_refl eq_refl eq_refl).
    intros [|j] h' Hj Hh'; [|lia]. by injection Hh' as <-.
  - destruct (Hall 1%nat kb eq_refl) as (kv' & -> & _ & Hfound & _).
    f_equal. by apply Hfound.
Defined.

(** X8: the table [f..h] of the sample level 1 overlaps no table of the
    sample level 2 and moves down between its two tables, although no file
    can be removed. *)
Lemma runCompactDef_move_down_witness :
  let cd := {| thisLevel := sample_l1; nextLevel := sample_l2;
               top := [btable 4 "f" "h" 20]; bot := [];
               thisRange := infRange; nextRange := infRange; thisSize := 20 |} in
  let lc := {| levels := [sample_l0; sample_l1; sample_l2]; cstatus := sample_cstatus 3;
               opt := {| NumLevelZeroTables := 5; NumLevelZeroTablesStall := 10;
                         MaxTableSize := 64 |} |} in
  (∃ this' next' w',
     runCompactDef (λ _, false) (λ _, None) (λ _ _ _ _, None) lc 1 cd sample_store
     = Some (None, this', next', w')
     ∧ level_inv (tables this') = true ∧ level_inv (tables next') = true)
  ∧ match runCompactDef (λ _, false) (λ _, None) (λ _ _ _ _, None) lc 1 cd sample_store with
    | Some (_, this', next', _) => (tables this', tables next', totalSize next')
    | None => ([], [], 0)
    end
    = ([btable 3 "b" "d" 10],
       [btable 5 "a" "a" 5; btable 4 "f" "h" 20; btable 6 "j" "l" 7], 32).
Proof.
  intros cd lc. split; [|by vm_compute].
  destruct (runCompactDef_move_down (λ _, false) (λ _, None) (λ _ _ _ _, None) lc 1 cd
              (btable 4 "f" "h" 20) sample_store)
    as (i & this' & next' & w' & Hrun & _ & Hinv2 & _ & Hinv1 & _);
    try reflexivity; try (by vm_compute).
  { intros t' Ht'. simpl in Ht'. elem_cases Ht'; reflexivity. }
  exists this', next', w'. split; [exact Hrun|]. split; [exact Hinv1 | exact Hinv2].
Defined.

(** X9: below the output level 1 of a compaction of level 0, the sample
    level 2 holds a table that intersects the range of the [top] tables. *)
Lemma hasOverlapTable_spec_witness :
  let cd := {| thisLevel := sample_l0; nextLevel := sample_l1;
               top := tables sample_l0; bot := [btable 3 "b" "d" 10];
               thisRange := infRange; nextRange := infRange; thisSize := 0 |} in
  let lc := {| levels := [sample_l0; sample_l1; sample_l2]; cstatus := sample_cstatus 3;
               opt := {| NumLevelZeroTables := 5; NumLevelZeroTablesStall := 10;
                         MaxTableSize := 64 |} |} in
  hasOverlapTable lc cd = Some true.
Proof.
  intros cd lc.
  destruct (hasOverlapTable_spec lc cd) as (kl & kr & b & Hkr & Hb & Hiff).
  { discriminate. }
  { reflexivity. }
  { by vm_compute. }
  { intros [|[|[|i]]] lh Hi Hlh; simpl in Hi; try lia.
    - by injection Hlh as <-.
    - discriminate. }
  rewrite Hb. f_equal. apply Hiff.
  vm_compute in Hkr. injection Hkr as <- <-.
  exists 2%nat, sample_l2, (btable 5 "a" "a" 5).
  split; [simpl; lia|]. split; [reflexivity|].
  split; [apply list_elem_of_here | reflexivity].
Defined.

(** X11: level 0 is over its trigger: the writer waits and the planner has
    a priority for level 0. *)
Lemma stalled_writer_has_priority_witness :
  let lc := {| levels := [sample_level 3 0 3 0; sample_level 1 1 10 100;
                          sample_level 1 2 10 1000];
               cstatus := sample_cstatus 3;
               opt := {| NumLevelZeroTables := 2; NumLevelZeroTablesStall := 10;
                         MaxTableSize := 64 |} |} in
  ∃ prios, unstall_test lc = Some false
    ∧ pickCompactLevels lc = Some prios
    ∧ ∃ p, p ∈ prios ∧ cp_level p = 0.
Proof.
  intros lc.
  destruct (stalled_writer_has_priority lc (sample_level 3 0 3 0) (sample_level 1 1 10 100)
              {| ranges := []; delSize := 0 |} {| ranges := []; delSize := 0 |}
              eq_refl eq_refl eq_refl eq_refl eq_refl eq_refl eq_refl)
    as (healthy & prios & Hun & Hpick & _ & H0 & _).
  exists prios. split; [|split; [exact Hpick|]].
  - rewrite Hun. vm_compute in Hun. by injection Hun as <-.
  - apply H0. by vm_compute.
Defined.

(** X12: a healthy state with one table at level 0, a trigger of 2 and a
    stall threshold of 3. *)
Lemma addLevel0Table_admits_witness :
  let lc := {| levels := [sample_level 1 0 1 0; sample_level 1 1 10 100];
               cstatus := sample_cstatus 2;
               opt := {| NumLevelZeroTables := 2; NumLevelZeroTablesStall := 3;
                         MaxTableSize := 64 |} |} in
  addLevel0Table_run (btable 7 "x" "y" 1) AddWait [(lc, ∅); (lc, ∅)] = Some (AddDone None).
Proof.
  intros lc.
  apply (addLevel0Table_admits (btable 7 "x" "y" 1) lc ∅ (sample_level 1 0 1 0)
           eq_refl eq_refl ltac:(simpl; lia) eq_refl).
Defined.

(** X14: two tables of level 0 given in either order. *)
Lemma initTables_order_independent_witness :
  initTables sample_l0 [btable 2 "b" "d" 20; btable 1 "a" "c" 10]
  = initTables sample_l0 [btable 1 "a" "c" 10; btable 2 "b" "d" 20].
Proof.
  apply initTables_order_independent.
  - apply perm_swap.
  - intros _ a b Ha Hb. elem_cases Ha; elem_cases Hb; (reflexivity || discriminate).
  - intros Hlvl. by destruct Hlvl.
Defined.

(** X16: the compaction took the two tables of the sample level 0; a third
    table was added meanwhile. *)
Lemma deleteTables_level0_front_witness :
  let added := btable 9 "m" "p" 3 in
  let s := {| tables := tables sample_l0 ++ [added]; totalSize := 33; level := 0;
              maxTotalSize := 0 |} in
  ∃ err s' w', deleteTables (λ _, true) s (tables sample_l0) sample_store
               = Some (err, s', w')
    ∧ tables s' = [added] ∧ totalSize s' = 3.
Proof.
  intros added s.
  destruct (deleteTables_level0_front (λ _, true) s (tables sample_l0) [added] sample_store)
    as (s' & Hdel & Htbl & _ & _ & Hsize).
  { reflexivity. }
  { reflexivity. }
  { intros t Ht. elem_cases Ht. simpl. intros Hin.
    repeat (apply elem_of_cons in Hin as [Hin|Hin]; [discriminate|]).
    by apply elem_of_nil in Hin. }
  eexists _, s', _. split; [exact Hdel|]. split; [exact Htbl|].
  rewrite Hsize; reflexivity.
Defined.

(** A controller over the three sample levels, without any compaction
    under way. *)
Definition sample_controller : levelsController :=
  {| levels := [sample_l0; sample_l1; sample_l2]; cstatus := sample_cstatus 3;
     opt := {| NumLevelZeroTables := 5; NumLevelZeroTablesStall := 10;
               MaxTableSize := 64 |} |}.

(** X18: all of the sample level 0 is taken, with the one table of level 1
    that intersects the range [a..d]. *)
Lemma fillTablesL0_spec_witness :
  ∃ cd cs', fillTablesL0 (λ cs _, Some cs) (sample_cstatus 3) sample_l0 sample_l1
            = Some (Some (cd, cs'))
    ∧ top cd = tables sample_l0
    ∧ bot cd = [btable 3 "b" "d" 10].
Proof.
  destruct (fillTablesL0_spec (λ cs _, Some cs) (sample_cstatus 3) sample_l0 sample_l1)
    as (kl & kr & nextRange & Hkr & _ & _ & _ & Hrun).
  { discriminate. }
  { reflexivity. }
  { reflexivity. }
  vm_compute in Hkr. injection Hkr as <- <-.
  eexists _, _. split; [exact Hrun|]. split; reflexivity.
Defined.

(** X19: of the two tables of the sample level 1 the bigger one, [f..h],
    is picked; no table of level 2 intersects its range. *)
Lemma fillTables_spec_witness :
  let t4 := btable 4 "f" "h" 20 in
  let r := mkRange (KeyWithTs (ParseKey (Smallest t4)) MaxUint64)
                   (KeyWithTs (ParseKey (Biggest t4)) 0%N) in
  let cd := {| thisLevel := sample_l1; nextLevel := sample_l2; top := [t4]; bot := [];
               thisRange := r; nextRange := r; thisSize := 20 |} in
  fillTables (λ cs _, Some cs) (sample_cstatus 3) sample_l1 sample_l2
  = Some (Some (cd, sample_cstatus 3))
  ∧ ∃ t, t ∈ tables sample_l1 ∧ top cd = [t]
         ∧ ∀ t', t' ∈ tables sample_l1 → Size t' ≤ Size t.
Proof.
  intros t4 r cd.
  assert (Hrun : fillTables (λ cs _, Some cs) (sample_cstatus 3) sample_l1 sample_l2
                 = Some (Some (cd, sample_cstatus 3))) by (by vm_compute).
  split; [exact Hrun|].
  destruct (fillTables_spec (λ cs _, Some cs) (sample_cstatus 3) sample_l1 sample_l2
              cd (sample_cstatus 3))
    as (t & Hin & _ & _ & Htop & _ & _ & _ & _ & _ & _ & _ & Hbigger).
  { reflexivity. }
  { intros t0 Ht0. elem_cases Ht0; by vm_compute. }
  { exact Hrun. }
  exists t. split; [exact Hin|]. split; [exact Htop|].
  injection Htop as <-.
  intros t' Ht'. elem_cases Ht'; simpl; lia.
Defined.

(** X20: three levels of which the last one is over its maximal size. *)
Lemma doCompact_last_level_witness :
  let lc := {| levels := [sample_level 1 0 1 0; sample_level 1 1 10 100;
                          sample_level 1 2 2000 1000];
               cstatus := sample_cstatus 3;
               opt := {| NumLevelZeroTables := 5; NumLevelZeroTablesStall := 10;
                         MaxTableSize := 64 |} |} in
  ∃ prios p,
    pickCompactLevels lc = Some prios
    ∧ p ∈ prios
    ∧ cp_level p = 2
    ∧ doCompact (λ _, true) (λ _, None) (λ _ _ _ _, None) (λ cs _, Some cs) (λ cs _, cs)
        3 lc p ∅ = None.
Proof.
  intros lc.
  apply (doCompact_last_level (λ _, true) (λ _, None) (λ _ _ _ _, None) (λ cs _, Some cs)
           (λ cs _, cs) lc ∅ (sample_level 1 2 2000 1000) {| ranges := []; delSize := 0 |}).
  - simpl. lia.
  - reflexivity.
  - intros c0 r [= <-] Hr. inversion Hr.
  - reflexivity.
  - reflexivity.
  - by vm_compute.
Defined.

(** X21: the directory holds the tables 1, 2 and 3, the manifest references
    the tables 1 and 2. *)
Lemma revertToManifest_spec_witness :
  let mf : gmap N Z := {[ 1%N := 0; 2%N := 1 ]} in
  let idMap : gset N := {[ 1%N; 2%N; 3%N ]} in
  ∃ files', revertToManifest (λ _, true) mf idMap (elements idMap) idMap
            = Some (None, files')
    ∧ 1%N ∈ files' ∧ 2%N ∈ files' ∧ 3%N ∉ files'.
Proof.
  intros mf idMap.
  destruct (revertToManifest_spec (λ _, true) mf idMap (elements idMap) idMap) as [_ H].
  { reflexivity. }
  destruct H as (err & files' & Hrun & _ & Hkeep & _ & Hok & Herr).
  { apply (bool_decide_unpack _). by vm_compute. }
  destruct err as [e|].
  { destruct (Herr e eq_refl) as (id & _ & _ & _ & Hrm). discriminate. }
  exists files'. split; [exact Hrun|].
  assert (H1 : 1%N ∈ dom mf) by (apply (bool_decide_unpack _); by vm_compute).
  assert (H2 : 2%N ∈ dom mf) by (apply (bool_decide_unpack _); by vm_compute).
  assert (H3 : 3%N ∉ dom mf) by (apply (bool_decide_unpack _); by vm_compute).
  split; [apply Hkeep; [exact H1 | apply (bool_decide_unpack _); by vm_compute]|].
  split; [apply Hkeep; [exact H2 | apply (bool_decide_unpack _); by vm_compute]|].
  intros Hin. apply (Hok eq_refl) in Hin as [_ Hd]; [contradiction|].
  apply (bool_decide_unpack _). by vm_compute.
Defined.

(** X22: at the sample level 1, the table [f..h] is the biggest one and is
    moved down to level 2. *)
Lemma doCompact_move_down_witness :
  let p := {| cp_level := 1; cp_score := float64_of_int 2 |} in
  (∃ lc' w',
     doCompact (λ _, false) (λ _, None) (λ _ _ _ _, None) (λ cs _, Some cs) (λ cs _, cs)
       3 sample_controller p sample_store = Some (true, None, lc', w'))
  ∧ match doCompact (λ _, false) (λ _, None) (λ _ _ _ _, None) (λ cs _, Some cs)
            (λ cs _, cs) 3 sample_controller p sample_store with
    | Some (_, _, lc', _) => tables <$> levels lc'
    | None => []
    end
    = [tables sample_l0;
       [btable 3 "b" "d" 10];
       [btable 5 "a" "a" 5; btable 4 "f" "h" 20; btable 6 "j" "l" 7]].
Proof.
  intros p. split; [|by vm_compute].
  destruct (doCompact_move_down (λ _, false) (λ _, None) (λ _ _ _ _, None)
              (λ cs _, Some cs) (λ cs _, cs) 3 sample_controller p sample_store
              sample_l1 sample_l2)
    as (t & i & this' & next' & lc' & w' & _ & _ & Hrun & _);
    try reflexivity; try discriminate.
  { intros t Ht. elem_cases Ht; by vm_compute. }
  { intros t t' Ht Ht'. elem_cases Ht; elem_cases Ht'; reflexivity. }
  { intros t Ht. elem_cases Ht; by vm_compute. }
  exists lc', w'. exact Hrun.
Defined.

(** ** Examples on the merge loop *)

(** Keys with a version: the timestamp is read back from the 8-byte suffix
    that [ts_bytes] writes, and two keys are the same when they have the
    same length and the same user key. *)
Definition be_decode (l : list byte) : N :=
  fold_left (λ acc b, (acc * 256 + Byte.to_N b)%N) l 0%N.

Definition KeyCodec_versions : @KeyCodec KeyOrder_bytes := {|
  UserKey := list byte;
  ParseKey := user_key;
  ParseTs k := (2 ^ 64 - 1 - be_decode (ts_suffix k))%N;
  KeyWithTs uk ts := uk ++ ts_bytes ts;
  SameKey a b := (length a =? length b)%nat
                 && (bytes.Compare (user_key a) (user_key b) =? 0);
  KeyBytes k := k;
|}.

Lemma KeyCodec_versions_sym (a b : list byte) :
  @SameKey _ KeyCodec_versions a b = true → @SameKey _ KeyCodec_versions b a = true.
Proof.
  cbn [SameKey KeyCodec_versions].
  intros [Hlen%Nat.eqb_eq Hkey%Z.eqb_eq%bytes_facts.Compare_eq]%andb_true_iff.
  apply andb_true_iff. split; [apply Nat.eqb_eq; lia|].
  rewrite Hkey. apply Z.eqb_eq, bytes_facts.Compare_refl.
Qed.

Lemma KeyCodec_versions_trans (a b c : list byte) :
  @SameKey _ KeyCodec_versions a b = true → @SameKey _ KeyCodec_versions b c = true →
  @SameKey _ KeyCodec_versions a c = true.
Proof.
  cbn [SameKey KeyCodec_versions].
  intros [Hlen%Nat.eqb_eq Hkey%Z.eqb_eq%bytes_facts.Compare_eq]%andb_true_iff
         [Hlen'%Nat.eqb_eq Hkey'%Z.eqb_eq%bytes_facts.Compare_eq]%andb_true_iff.
  apply andb_true_iff. split; [apply Nat.eqb_eq; lia|].
  rewrite Hkey, Hkey'. apply Z.eqb_eq, bytes_facts.Compare_refl.
Qed.

Section MergeExamples.
#[local] Existing Instance KeyCodec_versions.

(** The key of the user key [c] at the version [ts], a value and a
    tombstone. *)
Definition vkey (c : byte) (ts : N) : list byte := KeyWithTs [c] ts.

Definition put (v : byte) : ValueStruct :=
  {| Meta := 0; UserMeta := []; Value := [v]; Version := 0%N |}.

Definition del : ValueStruct :=
  {| Meta := 1; UserMeta := []; Value := []; Version := 0%N |}.

(** Three versions of [a], a tombstone of [b] over a value, one version of
    [c]: what a merge iterator yields. *)
Definition sample_records : list entry :=
  [(vkey "a" 9, put "1"); (vkey "a" 5, put "2"); (vkey "a" 3, put "3");
   (vkey "b" 7, del); (vkey "b" 2, put "4"); (vkey "c" 4, put "5")].

(** The externals of the examples: the delete bit is bit 0 and the pointer
    bit is bit 1, a builder reaches capacity when it holds [max] records,
    files are always created and written. *)
Definition sample_isDeleted (meta : Z) : bool := Z.land meta 1 >? 0.
Definition sample_decode (v : list byte) : N * Z := (0%N, Z.of_nat (length v)).
Definition sample_capacity (b : list entry) (max : Z) : bool := max <=? Z.of_nat (length b).

(** The merge loop on the sample records, with files of two records at
    most and without a bound. *)
Definition sample_merge (filter : option CompactionFilter) (minReadTs : N)
    (hasOverlap : bool) : option (option (option error * list (list entry) * DiscardStats)) :=
  compactBuildTables_merge 2 1 sample_isDeleted sample_decode sample_capacity
    (λ _, None) (λ _, true) filter minReadTs hasOverlap 2 None 6 sample_records.

(** The files written, when the loop returns. *)
Definition files_of (r : option (option (option error * list (list entry) * DiscardStats)))
    : list (list entry) :=
  match r with
  | Some (Some (_, files, _)) => files
  | _ => []
  end.

(** A filter that drops the value ["2"] and has a guard at [b]. *)
Definition sample_filter : CompactionFilter :=
  {| Filter := λ _ v _, if bytes.Compare v ["2"%byte] =? 0 then DecisionDrop
                        else DecisionKeep;
     Guards := [["b"%byte]] |}.

(** X23: with [minReadTs = 8] and no overlap, [a@9] and the newest version
    below, [a@5], go to a first file, which is full; the tombstone of [b]
    is dropped with the value under it, and [c@4] goes to a second file. *)
Lemma compactBuildTables_merge_no_loss_witness :
  (∃ files stats,
     sample_merge None 8 false = Some (Some (None, files, stats))
     ∧ (length files ≤ 6)%nat
     ∧ List.filter (above 8) (concat files) = List.filter (above 8) sample_records)
  ∧ files_of (sample_merge None 8 false)
    = [[(vkey "a" 9, put "1"); (vkey "a" 5, put "2")]; [(vkey "c" 4, put "5")]].
Proof.
  split; [|by vm_compute].
  destruct (compactBuildTables_merge_no_loss 2 1 sample_isDeleted sample_decode
              sample_capacity (λ _, None) (λ _, true) None 8%N false 2 None 6
              sample_records) as (files & stats & Hrun & Hlen & Hfilter & _).
  { reflexivity. }
  { intros n. reflexivity. }
  { intros recs. reflexivity. }
  { simpl. lia. }
  { by vm_compute. }
  exists files, stats. split; [exact Hrun|]. split; [exact Hlen | exact Hfilter].
Defined.

(** X24: at or below [minReadTs = 8] one record is written for a user key
    at most. *)
Lemma compactBuildTables_merge_snapshot_witness :
  ∃ files stats,
    sample_merge None 8 true = Some (Some (None, files, stats))
    ∧ ∀ i j a b, (i < j)%nat →
        concat files !! i = Some a → concat files !! j = Some b →
        (ParseTs a.1 ≤ 8)%N → (ParseTs b.1 ≤ 8)%N → SameKey b.1 a.1 = false.
Proof.
  destruct (compactBuildTables_merge_snapshot 2 1 sample_isDeleted sample_decode
              sample_capacity (λ _, None) (λ _, true) None 8%N true 2 None
              KeyCodec_versions_sym KeyCodec_versions_trans 6 sample_records)
    as (files & stats & Hrun & _ & Hone).
  { reflexivity. }
  { intros n. reflexivity. }
  { intros recs. reflexivity. }
  { simpl. lia. }
  { by vm_compute. }
  { by vm_compute. }
  exists files, stats. split; [exact Hrun | exact Hone].
Defined.

(** X25: without overlap no tombstone at or below [minReadTs = 8] is
    written. *)
Lemma compactBuildTables_merge_tombstones_witness :
  (∃ files stats,
     sample_merge None 8 false = Some (Some (None, files, stats))
     ∧ ∀ k vs, (k, vs) ∈ concat files → (ParseTs k ≤ 8)%N →
               sample_isDeleted (Meta vs) = false)
  ∧ files_of (sample_merge None 8 true)
    = [[(vkey "a" 9, put "1"); (vkey "a" 5, put "2")];
       [(vkey "b" 7, del); (vkey "c" 4, put "5")]].
Proof.
  split; [|by vm_compute].
  destruct (compactBuildTables_merge_tombstones 2 1 sample_isDeleted sample_decode
              sample_capacity (λ _, None) (λ _, true) None 8%N false 2 None 6
              sample_records) as (files & stats & Hrun & Hnone & _).
  { reflexivity. }
  { intros n. reflexivity. }
  { intros recs. reflexivity. }
  { simpl. lia. }
  exists files, stats. split; [exact Hrun|].
  intros k vs Hin. by destruct (Hnone eq_refl k vs Hin).
Defined.

(** X26: the three versions of [a] are above [minReadTs = 2] and are all
    kept; the first file takes them all although it is full after two. *)
Lemma compactBuildTables_merge_key_in_one_file_witness :
  (∃ files stats,
     sample_merge None 2 true = Some (Some (None, files, stats))
     ∧ ∀ i j fi fj a b, (i < j)%nat →
         files !! i = Some fi → files !! j = Some fj →
         a ∈ fi → b ∈ fj → SameKey b.1 a.1 = false)
  ∧ files_of (sample_merge None 2 true)
    = [[(vkey "a" 9, put "1"); (vkey "a" 5, put "2"); (vkey "a" 3, put "3")];
       [(vkey "b" 7, del); (vkey "b" 2, put "4")];
       [(vkey "c" 4, put "5")]].
Proof.
  split; [|by vm_compute].
  destruct (compactBuildTables_merge_key_in_one_file 2 1 sample_isDeleted sample_decode
              sample_capacity (λ _, None) (λ _, true) None 2%N true 2 None
              KeyCodec_versions_trans 6 sample_records)
    as (files & stats & Hrun & Hcut).
  { reflexivity. }
  { intros n. reflexivity. }
  { intros recs. reflexivity. }
  { simpl. lia. }
  { by vm_compute. }
  exists files, stats. split; [exact Hrun | exact Hcut].
Defined.

(** X27: the filter drops [a@5], the newest version of [a] at or below
    [minReadTs = 8]; the guard at [b] ends the first file. *)
Lemma compactBuildTables_merge_filter_witness :
  (∃ files stats,
     sample_merge (Some sample_filter) 8 true = Some (Some (None, files, stats))
     ∧ ∀ k vs, (k, vs) ∈ concat files → (ParseTs k ≤ 8)%N →
         vs = tombstone 1 ∨ sample_isDeleted (Meta vs) = true
         ∨ Filter sample_filter k (Value vs) (UserMeta vs) = DecisionKeep)
  ∧ files_of (sample_merge (Some sample_filter) 8 true)
    = [[(vkey "a" 9, put "1")]; [(vkey "b" 7, del); (vkey "c" 4, put "5")]].
Proof.
  split; [|by vm_compute].
  destruct (compactBuildTables_merge_filter 2 1 sample_isDeleted sample_decode
              sample_capacity (λ _, None) (λ _, true) (Some sample_filter) 8%N true 2
              None 6 sample_records sample_filter)
    as (files & stats & Hrun & Hsound & _).
  { reflexivity. }
  { reflexivity. }
  { intros n. reflexivity. }
  { intros recs. reflexivity. }
  { simpl. lia. }
  exists files, stats. split; [exact Hrun | exact Hsound].
Defined.

(** X28: with a builder that is always at capacity, a thousand turns are
    not enough. *)
Lemma compactBuildTables_merge_no_progress_witness :
  compactBuildTables_merge 2 1 sample_isDeleted sample_decode (λ _ _, true)
    (λ _, None) (λ _, true) None 8 true 2 None 1000 sample_records = None.
Proof.
  apply (@compactBuildTables_merge_no_progress KeyOrder_bytes KeyCodec_versions
           2 1 sample_isDeleted sample_decode
           (λ _ _, true) (λ _, None) (λ _, true) None 8%N true 2 None
           (vkey "a" 9) (put "1")
           [(vkey "a" 5, put "2"); (vkey "a" 3, put "3");
            (vkey "b" 7, del); (vkey "b" 2, put "4"); (vkey "c" 4, put "5")]).
  - reflexivity.
  - intros n. reflexivity.
  - intros recs. reflexivity.
  - reflexivity.
Defined.

(** X29: with overlap and [minReadTs = 8], four records are written and two
    are skipped, out of six. *)
Lemma compactBuildTables_merge_stats_witness :
  (∃ files stats,
     sample_merge None 8 true = Some (Some (None, files, stats))
     ∧ Z.of_nat (length (concat files)) + numSkips stats = 6)
  ∧ match sample_merge None 8 true with
    | Some (Some (_, files, stats)) => (length (concat files), numSkips stats)
    | _ => (0%nat, 0)
    end = (4%nat, 2).
Proof.
  split; [|by vm_compute].
  destruct (compactBuildTables_merge_stats 2 1 sample_isDeleted sample_decode
              sample_capacity (λ _, None) (λ _, true) None 8%N true 2 None 6
              sample_records) as (files & stats & Hrun & _ & Hcount).
  { reflexivity. }
  { intros n. reflexivity. }
  { intros recs. reflexivity. }
  { simpl. lia. }
  { by vm_compute. }
  exists files, stats. split; [exact Hrun|].
  destruct (Hcount eq_refl) as (_ & _ & Heq). exact (Heq eq_refl).
Defined.

End MergeExamples.

(** ** Example of reads across a move-down *)

(** A reader whose tables hold every key that they may hold, with the
    smallest key of the table as the value. *)
Definition TableReader_wide : @TableReader KeyOrder_bytes KeyCodec_sample := {|
  Valid vs := negb (Meta vs =? 0);
  DoesNotHave t uk := false;
  PointGet t k :=
    if may_hold t k
    then (Some k, {| Meta := 1; UserMeta := []; Value := Smallest t; Version := 0%N |}, true)
    else (None, ValueStruct_zero, true);
  Seek t k := None;
|}.

Lemma TableReader_wide_outside (t : Table) (k : list byte) :
  may_hold t k = false →
  @Valid _ _ TableReader_wide (@getInTable _ _ TableReader_wide k t) = false.
Proof. intros H. unfold getInTable. cbn. rewrite H. reflexivity. Qed.

(** X30: the key [g] is read in the table [f..h] of the sample level 1
    before that table moves down, and in the same table at level 2
    afterwards. *)
Lemma runCompactDef_move_down_reads_witness :
  let cd := {| thisLevel := sample_l1; nextLevel := sample_l2;
               top := [btable 4 "f" "h" 20]; bot := [];
               thisRange := infRange; nextRange := infRange; thisSize := 20 |} in
  ∃ this' next' w',
    runCompactDef (λ _, false) (λ _, None) (λ _ _ _ _, None) sample_controller 1 cd
      sample_store = Some (None, this', next', w')
    ∧ ∃ v w1 w2 w3,
        @levelsController_get _ _ TableReader_wide (λ _, false)
          [sample_l0; sample_l1; sample_l2] (bkey "g" "000") sample_store = Some (v, w1)
        ∧ @levelsController_get _ _ TableReader_wide (λ _, false)
            [sample_l0; sample_l1; next'] (bkey "g" "000") sample_store = Some (v, w2)
        ∧ @levelsController_get _ _ TableReader_wide (λ _, false)
            [sample_l0; this'; next'] (bkey "g" "000") sample_store = Some (v, w3).
Proof.
  intros cd.
  assert (Hsep : ∀ l : list Table,
            (∀ a b, a ∈ l → b ∈ l →
               Z.ltb (CompareKeys (Biggest a) (Smallest b)) 0 = true →
               Z.ltb (CompareKeys (Biggest a) (wide_lo b)) 0 = true) →
            separated l).
  { intros l H a b Ha Hb Hab. apply Z.ltb_lt, (H a b Ha Hb), Z.ltb_lt, Hab. }
  destruct (@runCompactDef_move_down_reads _ _ TableReader_wide (λ _, false) (λ _, None)
              (λ _ _ _ _, None) eq_refl TableReader_wide_outside sample_controller 1 cd
              (btable 4 "f" "h" 20) sample_store [sample_l0] [])
    as (this' & next' & w' & Hrun & Hreads);
    try reflexivity; try discriminate.
  { apply Hsep. intros a b Ha Hb. elem_cases Ha; elem_cases Hb; by vm_compute. }
  { apply Hsep. intros a b Ha Hb. elem_cases Ha; elem_cases Hb; by vm_compute. }
  { right. by left. }
  { intros t' Ht'. elem_cases Ht'; [discriminate | reflexivity]. }
  { intros t' Ht'. elem_cases Ht'; reflexivity. }
  exists this', next', w'. split; [exact Hrun|].
  apply (Hreads (bkey "g" "000") sample_store).
  intros h t0 Hh Ht0. elem_cases Hh; elem_cases Ht0; reflexivity.
Defined.
